(** * The self-indexing document engine of [unfccc.etf]

    A shallow embedding of [unfccc/etf/json.py], [unfccc/etf/metadata.py] and
    [unfccc/etf/countrydata.py]: the tree walker, the catalog and the
    tree-surgery passes built on them.

    Python objects have identity, and the engine keys its caches on [id(x)].
    The embedding therefore keeps every [dict] and [list] in a store, addressed
    by its position; a value held in a field is either a scalar or a reference
    into the store.  Two structurally equal containers at different addresses
    are distinct objects, exactly as in the source.

    Text is a [string]; a character stands for the code point of its number,
    so the text of the model is the text whose code points are below 256. *)

From Stdlib Require Import ZArith Ascii String DecimalString DecimalNat.
From stdpp Require Import gmap strings list sets sorting.

Open Scope string_scope.
Open Scope list_scope.
Open Scope stdpp_scope.
Open Scope nat_scope.

(** ** Documents as stores of containers *)

Abbreviation addr := nat.

(** JSON scalars as [json.load] produces them.  Floats are left out: no
    operation of the engine looks inside a number. *)
Inductive scalar :=
  | SNull
  | SBool (b : bool)
  | SInt (z : Z)
  | SStr (s : string).

Inductive value :=
  | VScalar (s : scalar)
  | VRef (a : addr).

(** A [dict] keeps insertion order, so its fields are an association list;
    [is_root] tells a [JSONTreeRoot] (the [dict] subclass wrapping a loaded
    document) from a plain [dict]. *)
Inductive container :=
  | CDict (is_root : bool) (fields : list (string * value))
  | CList (items : list value).

Abbreviation heap := (list container).

#[global] Instance scalar_eq_dec : EqDecision scalar.
Proof. solve_decision. Defined.
#[global] Instance value_eq_dec : EqDecision value.
Proof. solve_decision. Defined.
#[global] Instance container_eq_dec : EqDecision container.
Proof. solve_decision. Defined.

(** Exceptions that the modelled code can raise, and the outcome of a call. *)
Inductive exn :=
  | TypeError | KeyError | IndexError | ValueError
  | StopIteration | RuntimeError | AttributeError.

Inductive result (A : Type) :=
  | Ok (a : A)
  | Raise (e : exn).
Arguments Ok {A} a.
Arguments Raise {A} e.

Definition bind_result {A B} (r : result A) (k : A → result B) : result B :=
  match r with
  | Ok a => k a
  | Raise e => Raise e
  end.

Definition dict_get (fields : list (string * value)) (key : string) : option value :=
  snd <$> List.find (λ kv, bool_decide (kv.1 = key)) fields.

Definition child_values (c : container) : list value :=
  match c with
  | CDict _ fields => fields.*2
  | CList items => items
  end.

Definition children (h : heap) (a : addr) : list value :=
  from_option child_values [] (h !! a).

Definition ref_of (v : value) : option addr :=
  match v with
  | VRef a => Some a
  | VScalar _ => None
  end.

(** [bool(container)]: an empty [dict] or [list] is falsy. *)
Definition truthy (h : heap) (a : addr) : bool :=
  match children h a with
  | [] => false
  | _ :: _ => true
  end.

(** Hashing identifies [True] with [1] and [False] with [0]: the key under
    which a scalar sits in a [set] or a [dict]. *)
Definition hkey (s : scalar) : scalar :=
  match s with
  | SBool b => SInt (if b then 1 else 0)
  | _ => s
  end.

#[global] Instance scalar_countable : Countable scalar.
Proof.
  refine (inj_countable'
    (λ s, match s with
          | SNull => inl ()
          | SBool b => inr (inl b)
          | SInt z => inr (inr (inl z))
          | SStr t => inr (inr (inr t))
          end)
    (λ x, match x with
          | inl _ => SNull
          | inr (inl b) => SBool b
          | inr (inr (inl z)) => SInt z
          | inr (inr (inr t)) => SStr t
          end) _).
  by intros [].
Defined.

Module JSONTreeWalker.

(** [_parents], the class-level cache [id(item) -> parent]. *)
Abbreviation parent_cache := (gmap addr addr).

Definition _cache_parent (item parent : addr) (ps : parent_cache) : parent_cache :=
  <[item := parent]> ps.

Definition _cached_parent (ps : parent_cache) (item : addr) : option addr :=
  ps !! item.

Definition is_json_container (v : value) : bool :=
  match v with
  | VRef _ => true
  | VScalar _ => false
  end.

Definition is_object (h : heap) (a : addr) : bool :=
  match h !! a with
  | Some (CDict _ _) => true
  | _ => false
  end.

Definition is_root (h : heap) (a : addr) : bool :=
  match h !! a with
  | Some (CDict true _) => true
  | _ => false
  end.

(** [p] holds a reference to [a] in one of its positions. *)
Definition refers (h : heap) (p a : addr) : Prop := VRef a ∈ children h p.

#[global] Instance refers_dec h p a : Decision (refers h p a).
Proof. unfold refers. apply _. Defined.

(** [gc.get_referrers(item)] restricted to JSON containers: every [dict]
    and [list] alive that holds [item].  The collector's order is not
    specified; the store order stands for it. *)
Definition get_referrers (h : heap) (item : addr) : list addr :=
  filter (λ p, refers h p item) (seq 0 (length h)).

(** [_walk_up]: the cached parent when there is a truthy one, the
    referrers otherwise. *)
Definition _walk_up (h : heap) (ps : parent_cache) (item : addr) : list addr :=
  match _cached_parent ps item with
  | Some parent => if truthy h parent then [parent] else get_referrers h item
  | None => get_referrers h item
  end.

(** [_walk_down]: the container children of [item], last one first, each
    recorded in the cache as a child of [item]. *)
Definition _walk_down (h : heap) (item : addr) (ps : parent_cache)
  : list addr * parent_cache :=
  let kids := omap ref_of (reverse (children h item)) in
  (kids, foldl (λ acc child, _cache_parent child item acc) ps kids).

(** *** [_traverse_graph] as a resumable generator

    A chain is the tuple [(item, *ancestors)] the generator yields.  The
    deque is kept with its right end at the head of the list.  After a
    [yield] the generator is suspended before [queue.extend]; [pending]
    holds the chain whose neighbours are queued when it is resumed. *)
Abbreviation chain := (list addr).

Record walker := Walker {
  queue : list chain;
  visited : gset addr;
  pending : option chain;
}.

Definition start_walker (start_item : addr) : walker :=
  Walker [[start_item]] ∅ None.

(** [queue.extend((neighbour,) + chain for neighbour in ...)]. *)
Definition extend (q : list chain) (c : chain) (neighbours : list addr) : list chain :=
  reverse ((λ n, n :: c) <$> neighbours) ++ q.

(** The [while queue] loop up to the next [yield]. *)
Fixpoint pop_unvisited (q : list chain) (seen : gset addr)
  : option (chain * list chain * gset addr) :=
  match q with
  | [] => None
  | c :: q' =>
      match c with
      | [] => pop_unvisited q' seen
      | item :: _ =>
          if decide (item ∈ seen) then pop_unvisited q' seen
          else Some (c, q', {[item]} ∪ seen)
      end
  end.

Section Generator.
Context {St : Type}.
(** The neighbour function may update a state of its own (the parent
    cache, for [_walk_down]). *)
Variable neighbour_func : addr → St → list addr * St.

Definition resume (w : walker) (s : St) : list chain * St :=
  match pending w with
  | Some (item :: rest) =>
      let '(ns, s') := neighbour_func item s in
      (extend (queue w) (item :: rest) ns, s')
  | _ => (queue w, s)
  end.

(** [next(generator)]: [None] is [StopIteration]. *)
Definition next (w : walker) (s : St) : option (chain * walker) * St :=
  let '(q, s') := resume w s in
  match pop_unvisited q (visited w) with
  | Some (c, q', seen) => (Some (c, Walker q' seen (Some c)), s')
  | None => (None, s')
  end.

(** Running the generator to exhaustion, as a [for] loop without
    [break] does. *)
Fixpoint drain (fuel : nat) (w : walker) (s : St) : option (list chain * St) :=
  match fuel with
  | 0 => None
  | S fuel' =>
      match next w s with
      | (None, s') => Some ([], s')
      | (Some (c, w'), s') =>
          match drain fuel' w' s' with
          | Some (cs, s'') => Some (c :: cs, s'')
          | None => None
          end
      end
  end.
End Generator.


(** [itertools.pairwise]. *)
Fixpoint pairwise {A} (l : list A) : list (A * A) :=
  match l with
  | a :: (b :: _) as t => (a, b) :: pairwise t
  | _ => []
  end.

(** [parents]: the first chain whose topmost element is a [JSONTreeRoot].
    The outer [option] is the fuel of the loop; the inner one is Python's
    [None]. *)
Fixpoint parents_loop (fuel : nat) (h : heap) (ps : parent_cache) (w : walker)
  : option (option chain) :=
  match fuel with
  | 0 => None
  | S fuel' =>
      match next (λ item s, (_walk_up h ps item, s)) w tt with
      | (None, _) => Some None
      | (Some (c, w'), _) =>
          match c with
          | topmost :: _ =>
              if is_root h topmost then Some (Some c)
              else parents_loop fuel' h ps w'
          | [] => parents_loop fuel' h ps w'
          end
      end
  end.

Definition cache_chain (c : chain) (ps : parent_cache) : parent_cache :=
  foldl (λ acc pc, _cache_parent pc.2 pc.1 acc) ps (pairwise c).

Definition parents (fuel : nat) (h : heap) (ps : parent_cache) (item : addr)
  : option (option chain * parent_cache) :=
  match parents_loop fuel h ps (start_walker item) with
  | None => None
  | Some None => Some (None, ps)
  | Some (Some c) => Some (Some (removelast c), cache_chain c ps)
  end.

(** [traverse] run to exhaustion: the objects among the items that
    [_traverse_graph] yields with [_walk_down]. *)
Definition traverse (fuel : nat) (h : heap) (ps : parent_cache) (start : value)
  : option (list addr * parent_cache) :=
  match start with
  | VScalar _ => Some ([], ps)
  | VRef a =>
      match drain (_walk_down h) fuel (start_walker a) ps with
      | Some (cs, ps') => Some (filter (λ x, is_object h x) (omap head cs), ps')
      | None => None
      end
  end.

(** *** Python's [==] on JSON values *)

Definition scalar_num (s : scalar) : option Z :=
  match s with
  | SBool b => Some (if b then 1 else 0)%Z
  | SInt z => Some z
  | _ => None
  end.

(** [True == 1] and [False == 0]; values of different kinds differ. *)
Definition scalar_eqb (s t : scalar) : bool :=
  match s, t with
  | SNull, SNull => true
  | SStr a, SStr b => bool_decide (a = b)
  | _, _ =>
      match scalar_num s, scalar_num t with
      | Some a, Some b => bool_decide (a = b)
      | _, _ => false
      end
  end.

Fixpoint all_eq {A} (f : A → option bool) (l : list A) : option bool :=
  match l with
  | [] => Some true
  | x :: l' =>
      match f x with
      | Some true => all_eq f l'
      | r => r
      end
  end.

(** [PyObject_RichCompareBool(v, w, Py_EQ)]: identical objects are equal
    without being compared; dicts are equal when they have the same keys
    with equal values, lists when they are equal element by element.  The
    fuel bounds the nesting depth of the comparison. *)
Fixpoint py_eq (fuel : nat) (h : heap) (v w : value) {struct fuel} : option bool :=
  match v, w with
  | VScalar s, VScalar t => Some (scalar_eqb s t)
  | VRef a, VRef b =>
      if decide (a = b) then Some true
      else
        match fuel with
        | 0 => None
        | S fuel' =>
            match h !! a, h !! b with
            | Some (CDict _ fs), Some (CDict _ gs) =>
                if decide (length fs = length gs) then
                  all_eq (λ kx, match dict_get gs kx.1 with
                                | Some y => py_eq fuel' h y kx.2
                                | None => Some false
                                end) fs
                else Some false
            | Some (CList xs), Some (CList ys) =>
                if decide (length xs = length ys) then
                  all_eq (λ xy, py_eq fuel' h xy.1 xy.2) (zip xs ys)
                else Some false
            | _, _ => Some false
            end
        end
  | _, _ => Some false
  end.

(** [list.index(child)]: the first position holding a value equal to
    [child]; [ValueError] when there is none. *)
Fixpoint list_index (fuel : nat) (h : heap) (items : list value) (child : value)
    (i : nat) : option (result nat) :=
  match items with
  | [] => Some (Raise ValueError)
  | el :: rest =>
      match py_eq fuel h el child with
      | None => None
      | Some true => Some (Ok i)
      | Some false => list_index fuel h rest child (S i)
      end
  end.

Definition str_of_nat (n : nat) : string :=
  NilEmpty.string_of_uint (Nat.to_uint n).

(** [_get_json_key]: [".key"] for the first field that *is* [child],
    ["[index]"] for the first item that *equals* it. *)
Definition _get_json_key (fuel : nat) (h : heap) (parent child : addr)
  : option (result string) :=
  match h !! parent with
  | Some (CDict _ fields) =>
      match List.find (λ kv, bool_decide (kv.2 = VRef child)) fields with
      | Some (key, _) => Some (Ok ("." +:+ key))
      | None => Some (Raise StopIteration)
      end
  | Some (CList items) =>
      match list_index fuel h items (VRef child) 0 with
      | Some (Ok index) => Some (Ok ("[" +:+ str_of_nat index +:+ "]"))
      | Some (Raise e) => Some (Raise e)
      | None => None
      end
  | None => Some (Raise ValueError)
  end.

Definition broken_json_path : string := "<broken_json_path>".

(** [''.join(... for parent, child in pairwise(...))]; a [StopIteration]
    escaping [_get_json_key] inside the generator expression surfaces as
    [RuntimeError]. *)
Fixpoint join_keys (fuel : nat) (h : heap) (steps : list (addr * addr))
  : option (result string) :=
  match steps with
  | [] => Some (Ok "")
  | (parent, child) :: rest =>
      match _get_json_key fuel h parent child with
      | None => None
      | Some (Raise StopIteration) => Some (Raise RuntimeError)
      | Some (Raise e) => Some (Raise e)
      | Some (Ok key) =>
          match join_keys fuel h rest with
          | Some (Ok path) => Some (Ok (key +:+ path))
          | r => r
          end
      end
  end.

Definition json_path (fuel : nat) (h : heap) (ps : parent_cache) (item : addr)
  : option (result string * parent_cache) :=
  match parents fuel h ps item with
  | None => None
  | Some (Some (p :: rest), ps') =>
      match join_keys fuel h (pairwise ((p :: rest) ++ [item])) with
      | Some r => Some (r, ps')
      | None => None
      end
  | Some (_, ps') => Some (Ok broken_json_path, ps')
  end.

End JSONTreeWalker.

(** ** [JSONTree]: paths back into the document *)

Module JSONTree.
Import JSONTreeWalker.

(** A parsed path step: a field name or an array index. *)
Inductive json_key :=
  | KStr (s : string)
  | KInt (n : nat).

(** The regular expression classes [\d] and [\w] of [re] on a [str].  A
    character of a [string] stands for the code point of its number, so
    the text of the model is the text whose code points are below 256.
    Among these [\d] (the decimal digits) has the ten digits [0] to [9]
    only.  [\w] is the underscore and what [str.isalnum] accepts: the
    digits and the letters of ASCII and, beyond ASCII, the letters 170,
    181, 186, 192 to 214, 216 to 246 and 248 to 255, and the numeric
    characters 178, 179, 185 (superscript digits) and 188 to 190
    (fractions). *)
Definition is_digit (c : ascii) : bool :=
  let n := nat_of_ascii c in ((48 <=? n) && (n <=? 57))%nat.

Definition is_word (c : ascii) : bool :=
  let n := nat_of_ascii c in
  (is_digit c || ((65 <=? n) && (n <=? 90)) || ((97 <=? n) && (n <=? 122))
   || (n =? 95)
   || (n =? 170) || (n =? 181) || (n =? 186)
   || (n =? 178) || (n =? 179) || (n =? 185) || ((188 <=? n) && (n <=? 190))
   || ((192 <=? n) && (n <=? 214)) || ((216 <=? n) && (n <=? 246))
   || ((248 <=? n) && (n <=? 255)))%nat.

(** The longest prefix of [s] made of characters satisfying [p], and the
    rest. *)
Fixpoint span (p : ascii → bool) (s : string) : string * string :=
  match s with
  | String c s' =>
      if p c then let '(a, b) := span p s' in (String c a, b)
      else ("", s)
  | EmptyString => ("", "")
  end.

(** [sys.int_info.default_max_str_digits]: the longest text of digits
    that CPython (3.11, and the releases that share its limit on integer
    string conversion) converts to an [int] by default. *)
Definition max_str_digits : nat := 4300.

(** [int(index)] for a string of decimal digits: [ValueError] for more
    digits than the limit allows, leading zeros included. *)
Definition int_of_digits (s : string) : result nat :=
  if (String.length s <=? max_str_digits)%nat
  then Ok (from_option Nat.of_uint 0 (NilEmpty.uint_of_string s))
  else Raise ValueError.

(** One match of [json_keys]: the group of [\.?(\w+)], or that of
    [\[(\d+)\]]. *)
Inductive json_match :=
  | MKey (key : string)
  | MIndex (index : string).

(** [json_keys.findall(path)]: at each position [\.?(\w+)] is tried
    first, then [\[(\d+)\]]; where neither matches the scan moves one
    character on.  Every match consumes a character, so the length of the
    path bounds the scan. *)
Fixpoint findall (fuel : nat) (s : string) : list json_match :=
  match fuel, s with
  | S fuel', String c rest =>
      let '(word, after) :=
        span is_word (if Ascii.eqb c "." then rest else s) in
      match word with
      | String _ _ => MKey word :: findall fuel' after
      | EmptyString =>
          if Ascii.eqb c "[" then
            match span is_digit rest with
            | (String d ds, String "]" after') =>
                MIndex (String d ds) :: findall fuel' after'
            | _ => findall fuel' rest
            end
          else findall fuel' rest
      end
  | _, _ => []
  end.

(** The loop of [parse_json_path] over the matches: a key is kept as
    text, an index goes through [int]. *)
Fixpoint parse_matches (ms : list json_match) : result (list json_key) :=
  match ms with
  | [] => Ok []
  | MKey key :: rest =>
      match parse_matches rest with
      | Ok keys => Ok (KStr key :: keys)
      | Raise e => Raise e
      end
  | MIndex index :: rest =>
      match int_of_digits index with
      | Raise e => Raise e
      | Ok n =>
          match parse_matches rest with
          | Ok keys => Ok (KInt n :: keys)
          | Raise e => Raise e
          end
      end
  end.

Definition parse_json_path (path : string) : result (list json_key) :=
  parse_matches (findall (String.length path) path).

(** [item[key]] on a JSON value. *)
Definition getitem (h : heap) (item : value) (key : json_key) : result value :=
  match item with
  | VRef a =>
      match h !! a, key with
      | Some (CDict _ fields), KStr k =>
          match dict_get fields k with
          | Some v => Ok v
          | None => Raise KeyError
          end
      | Some (CDict _ _), KInt _ => Raise KeyError
      | Some (CList items), KInt i =>
          match items !! i with
          | Some v => Ok v
          | None => Raise IndexError
          end
      | Some (CList _), KStr _ => Raise TypeError
      | None, _ => Raise TypeError
      end
  | VScalar (SStr s) =>
      match key with
      | KInt i =>
          match String.get i s with
          | Some c => Ok (VScalar (SStr (String c "")))
          | None => Raise IndexError
          end
      | KStr _ => Raise TypeError
      end
  | VScalar _ => Raise TypeError
  end.

(** The loop of [locate]: [None] when a key or an index is missing. *)
Fixpoint follow (h : heap) (item : value) (keys : list json_key)
  : result (option value) :=
  match keys with
  | [] => Ok (Some item)
  | key :: rest =>
      match getitem h item key with
      | Ok v => follow h v rest
      | Raise IndexError | Raise KeyError => Ok None
      | Raise e => Raise e
      end
  end.

(** [@functools.cache]: the results of earlier calls, by path.  A call
    that raises leaves nothing in the memo. *)
Abbreviation locate_memo := (gmap string (option value)).

Definition locate (h : heap) (tree : addr) (memo : locate_memo) (path : string)
  : result (option value) * locate_memo :=
  match memo !! path with
  | Some cached => (Ok cached, memo)
  | None =>
      match parse_json_path path with
      | Raise e => (Raise e, memo)
      | Ok keys =>
          match follow h (VRef tree) keys with
          | Ok r => (Ok r, <[path := r]> memo)
          | Raise e => (Raise e, memo)
          end
      end
  end.

(** [item.get('uid')] as a set element: an absent field reads as [None];
    a container is unhashable. *)
Definition get_uid (h : heap) (a : addr) : result scalar :=
  match h !! a with
  | Some (CDict _ fields) =>
      match dict_get fields "uid" with
      | None => Ok SNull
      | Some (VScalar s) => Ok s
      | Some (VRef _) => Raise TypeError
      end
  | _ => Raise AttributeError
  end.

Fixpoint add_uids (h : heap) (objs : list addr) (uids : gset scalar)
  : result (gset scalar) :=
  match objs with
  | [] => Ok uids
  | a :: rest =>
      match get_uid h a with
      | Ok s => add_uids h rest ({[hkey s]} ∪ uids)
      | Raise e => Raise e
      end
  end.

(** [collect_uids]: the uids of the objects below [item] ([item] included)
    and of the objects above it. *)
Definition collect_uids (fuel : nat) (h : heap) (ps : parent_cache) (item : addr)
  : option (result (gset scalar * parent_cache)) :=
  match traverse fuel h ps (VRef item) with
  | None => None
  | Some (below, ps1) =>
      match add_uids h below ∅ with
      | Raise e => Some (Raise e)
      | Ok uids =>
          match parents fuel h ps1 item with
          | None => None
          | Some (None, _) => Some (Raise TypeError)
          | Some (Some above, ps2) =>
              match add_uids h (filter (λ p, is_object h p) above) uids with
              | Raise e => Some (Raise e)
              | Ok uids' => Some (Ok (uids' ∖ {[SNull]}, ps2))
              end
          end
      end
  end.

End JSONTree.

(** ** [JSONCatalog]: the identity-keyed multi-attribute index *)

Module JSONCatalog.

(** One index of the catalog: the bucket of object ids per attribute value. *)
Abbreviation buckets := (gmap scalar (gset addr)).

(** [items] maps an object id to the object, [indexes] an attribute name to
    its buckets (in the order the attributes were configured), [values] an
    object id to the attribute values it was registered under. *)
Record catalog := Catalog {
  items : gmap addr addr;
  indexes : list (string * buckets);
  values : gmap addr (list (string * scalar));
}.

(** [{attr: {} for attr in indexes}]: a repeated name keeps its first place. *)
Fixpoint fresh_indexes (attrs : list string) (seen : list string)
  : list (string * buckets) :=
  match attrs with
  | [] => []
  | a :: rest =>
      if decide (a ∈ seen) then fresh_indexes rest seen
      else (a, ∅) :: fresh_indexes rest (a :: seen)
  end.

Definition new (attrs : list string) : catalog :=
  Catalog ∅ (fresh_indexes attrs []) ∅.

Definition clear (c : catalog) : catalog :=
  Catalog ∅ ((λ ai, (ai.1, ∅)) <$> indexes c) ∅.

Definition find_index (ixs : list (string * buckets)) (attr : string)
  : option buckets :=
  snd <$> List.find (λ ai, bool_decide (ai.1 = attr)) ixs.

Definition set_index (ixs : list (string * buckets)) (attr : string)
    (b : buckets) : list (string * buckets) :=
  (λ ai, if decide (ai.1 = attr) then (attr, b) else ai) <$> ixs.

(** One round of the loop of [unindex]: [discard] the id from the bucket
    and drop the bucket when it is left empty. *)
Definition discard_from (ixs : list (string * buckets)) (attr : string)
    (value : scalar) (object_id : addr) : result (list (string * buckets)) :=
  match find_index ixs attr with
  | None => Raise KeyError
  | Some b =>
      match b !! hkey value with
      | None => Raise KeyError
      | Some ids =>
          let ids' := ids ∖ {[object_id]} in
          Ok (set_index ixs attr
                (if decide (ids' = ∅) then delete (hkey value) b
                 else <[hkey value := ids']> b))
      end
  end.

Fixpoint discard_all (ixs : list (string * buckets))
    (snapshot : list (string * scalar)) (object_id : addr)
  : result unit * list (string * buckets) :=
  match snapshot with
  | [] => (Ok (), ixs)
  | (attr, value) :: rest =>
      match discard_from ixs attr value object_id with
      | Ok ixs' => discard_all ixs' rest object_id
      | Raise e => (Raise e, ixs)
      end
  end.

(** [unindex]: a call that raises leaves the catalog as the statements
    before the failing one made it. *)
Definition unindex (c : catalog) (item : addr) : result unit * catalog :=
  match items c !! item with
  | None => (Ok (), c)
  | Some _ =>
      match values c !! item with
      | None => (Raise KeyError, c)
      | Some snapshot =>
          match discard_all (indexes c) snapshot item with
          | (Ok _, ixs) =>
              (Ok (), Catalog (delete item (items c)) ixs (delete item (values c)))
          | (Raise e, ixs) => (Raise e, Catalog (items c) ixs (values c))
          end
      end
  end.

(** [values[attr] = value] on the snapshot of one object. *)
Definition set_value (snapshot : list (string * scalar)) (attr : string)
    (value : scalar) : list (string * scalar) :=
  if decide (attr ∈ snapshot.*1)
  then (λ av, if decide (av.1 = attr) then (attr, value) else av) <$> snapshot
  else snapshot ++ [(attr, value)].

(** The loop of [index] over the configured attributes; an unhashable
    value raises [TypeError] and leaves the remaining indexes untouched. *)
Fixpoint register (fields : list (string * value)) (object_id : addr)
    (ixs : list (string * buckets)) (snapshot : list (string * scalar))
  : result unit * list (string * buckets) * list (string * scalar) :=
  match ixs with
  | [] => (Ok (), [], snapshot)
  | (attr, b) :: rest =>
      match dict_get fields attr with
      | None =>
          let '(r, rest', snapshot') := register fields object_id rest snapshot in
          (r, (attr, b) :: rest', snapshot')
      | Some (VRef _) => (Raise TypeError, ixs, snapshot)
      | Some (VScalar value) =>
          let ids := default ∅ (b !! hkey value) in
          let '(r, rest', snapshot') :=
            register fields object_id rest (set_value snapshot attr value) in
          (r, (attr, <[hkey value := {[object_id]} ∪ ids]> b) :: rest', snapshot')
      end
  end.

(** [index]: [item.get] needs a [dict]; on a [list] the first round of the
    loop raises [AttributeError]. *)
Definition index (h : heap) (c : catalog) (item : addr) : result unit * catalog :=
  match (if decide (is_Some (items c !! item)) then unindex c item
         else (Ok (), c)) with
  | (Raise e, c') => (Raise e, c')
  | (Ok _, c1) =>
      let items' := <[item := item]> (items c1) in
      let snapshot := default [] (values c1 !! item) in
      match h !! item with
      | Some (CDict _ fields) =>
          let '(r, ixs, snapshot') :=
            register fields item (indexes c1) snapshot in
          (r, Catalog items' ixs (<[item := snapshot']> (values c1)))
      | _ =>
          (match indexes c1 with
           | [] => Ok ()
           | _ :: _ => Raise AttributeError
           end,
           Catalog items' (indexes c1) (<[item := snapshot]> (values c1)))
      end
  end.

Fixpoint index_iterable (h : heap) (c : catalog) (data : list addr)
  : result unit * catalog :=
  match data with
  | [] => (Ok (), c)
  | item :: rest =>
      match index h c item with
      | (Ok _, c') => index_iterable h c' rest
      | (Raise e, c') => (Raise e, c')
      end
  end.

(** [JSONCatalog(indexes, data)]. *)
Definition create (h : heap) (attrs : list string) (data : list addr)
  : result unit * catalog :=
  index_iterable h (new attrs) data.

(** The loop of [search]; [acc] is [result], [None] before the first
    criterion. *)
Fixpoint search_loop (c : catalog) (criteria : list (string * value))
    (acc : option (gset addr)) : result (list addr) :=
  match criteria with
  | [] =>
      match acc with
      | None => Ok []
      | Some ids => Ok (omap (λ i, items c !! i) (elements ids))
      end
  | (attr, value) :: rest =>
      match find_index (indexes c) attr, value with
      | None, _ => Raise KeyError
      | Some _, VRef _ => Raise TypeError
      | Some b, VScalar s =>
          match b !! hkey s with
          | None => Ok []
          | Some object_ids =>
              if decide (object_ids = ∅) then Ok []
              else
                let acc' := match acc with
                            | None => object_ids
                            | Some ids => ids ∩ object_ids
                            end in
                if decide (acc' = ∅) then Ok []
                else search_loop c rest (Some acc')
          end
      end
  end.

(** [search] with its keyword arguments as a list of pairs.  Looking up an
    unhashable value raises [TypeError].  The order of the answer is the
    iteration order of a [set], which CPython leaves to the history of the
    set; the model lists the items in the order of [elements], and what
    is proved of an answer is about the items in it, not their order. *)
Definition search (c : catalog) (criteria : list (string * value))
  : result (list addr) :=
  search_loop c criteria None.

Definition first (c : catalog) (criteria : list (string * value))
  : result (option addr) :=
  match search c criteria with
  | Ok found => Ok (head found)
  | Raise e => Raise e
  end.

Definition one (c : catalog) (criteria : list (string * value)) : result addr :=
  match search c criteria with
  | Ok [item] => Ok item
  | Ok _ => Raise ValueError
  | Raise e => Raise e
  end.

End JSONCatalog.

(** ** [Metadata]: sector closures over the template taxonomy *)

Module Metadata.
Import JSONTreeWalker JSONTree JSONCatalog.

(** A [Metadata] object once constructed: the document root, the cached
    properties the closure reads, and the catalogs. *)
Record metadata := Build {
  tree : addr;
  variables : addr;
  node_index : catalog;
  dimension_instance_index : catalog;
  grid_index : catalog;
}.

(** The class [\s] of [re] on a [str], what [str.isspace] accepts: among
    the code points below 256 these are 9 to 13, 28 to 32, 133 (next line)
    and 160 (no-break space). *)
Definition is_space (c : ascii) : bool :=
  let n := nat_of_ascii c in
  (((9 <=? n) && (n <=? 13)) || ((28 <=? n) && (n <=? 32))
   || (n =? 133) || (n =? 160))%nat.

Fixpoint last_char (s : string) : option ascii :=
  match s with
  | EmptyString => None
  | String c EmptyString => Some c
  | String _ s' => last_char s'
  end.

(** [re.match(r'[\w.]+\.\s+\w+', name)].  White space ends the run of
    [[\w.]], so the literal dot can only be the last character of the
    longest such run, which must leave one character before it. *)
Definition prefixed_category_name (name : string) : bool :=
  let '(run, rest) := span (λ c, is_word c || Ascii.eqb c ".") name in
  let '(blank, rest') := span is_space rest in
  (2 <=? String.length run)%nat
  && bool_decide (last_char run = Some "."%char)
  && (1 <=? String.length blank)%nat
  && match rest' with
     | String c _ => is_word c
     | EmptyString => false
     end.

(** [name.split(' ', 1)] when the name has a space. *)
Fixpoint split_space (s : string) : option (string * string) :=
  match s with
  | EmptyString => None
  | String c s' =>
      if Ascii.eqb c " " then Some ("", s')
      else match split_space s' with
           | Some (a, b) => Some (String c a, b)
           | None => None
           end
  end.

(** [dict(filter_, key=value)]: an existing key keeps its place. *)
Definition filter_set (f : list (string * scalar)) (key : string) (v : scalar)
  : list (string * scalar) :=
  if decide (key ∈ f.*1)
  then (λ kv, if decide (kv.1 = key) then (key, v) else kv) <$> f
  else f ++ [(key, v)].

Definition filter_get (f : list (string * scalar)) (key : string) : option scalar :=
  snd <$> List.find (λ kv, bool_decide (kv.1 = key)) f.

(** The filters of [get_sector_filter] hold strings. *)
Definition as_criteria (f : list (string * scalar)) : list (string * value) :=
  (λ kv, (kv.1, VScalar kv.2)) <$> f.

Definition find_nodes (md : metadata) (filter_ : list (string * scalar))
  : result (list addr) :=
  match filter_get filter_ "name" with
  | None | Some SNull => search (node_index md) (as_criteria filter_)
  | Some (SStr name) =>
      if prefixed_category_name name then
        match split_space name with
        | Some (prefix, name') =>
            search (node_index md)
              (as_criteria (filter_set (filter_set filter_ "name" (SStr name'))
                              "name_prefix" (SStr prefix)))
        | None => Raise ValueError
        end
      else search (node_index md) (as_criteria filter_)
  | Some _ => Raise TypeError
  end.

Definition find_navigation_dis (md : metadata) (filter_ : list (string * scalar))
  : result (list addr) :=
  search (dimension_instance_index md) (as_criteria filter_).

Definition has_key (h : heap) (a : addr) (key : string) : result unit :=
  match h !! a with
  | Some (CDict _ fields) =>
      match dict_get fields key with
      | Some _ => Ok ()
      | None => Raise KeyError
      end
  | _ => Raise TypeError
  end.

(** One of the first two loops of [collect_sector_uids]: for every object
    found, its path is computed (for the log), its ["uid"] is read (for the
    log) and its closure is added to [sector_uids]. *)
Fixpoint collect_found (fuel : nat) (h : heap) (ps : parent_cache)
    (found : list addr) (sector_uids : gset scalar)
  : option (result (gset scalar * parent_cache)) :=
  match found with
  | [] => Some (Ok (sector_uids, ps))
  | node :: rest =>
      match json_path fuel h ps node with
      | None => None
      | Some (Raise e, _) => Some (Raise e)
      | Some (Ok _, ps1) =>
          match has_key h node "uid" with
          | Raise e => Some (Raise e)
          | Ok _ =>
              match collect_uids fuel h ps1 node with
              | None => None
              | Some (Raise e) => Some (Raise e)
              | Some (Ok (uids, ps2)) =>
                  collect_found fuel h ps2 rest (sector_uids ∪ uids)
              end
          end
      end
  end.

(** The last loop: the uids of the variables owned by a node of the
    closure. *)
Fixpoint collect_variables (h : heap) (vars : list value) (nodes : gset scalar)
    (acc : gset scalar) : result (gset scalar) :=
  match vars with
  | [] => Ok acc
  | VScalar _ :: _ => Raise AttributeError
  | VRef a :: rest =>
      match h !! a with
      | Some (CDict _ fields) =>
          match default (VScalar SNull) (dict_get fields "node_uid") with
          | VRef _ => Raise TypeError
          | VScalar owner =>
              if decide (hkey owner ∈ nodes) then
                match dict_get fields "uid" with
                | None => Raise KeyError
                | Some (VRef _) => Raise TypeError
                | Some (VScalar uid) =>
                    collect_variables h rest nodes ({[hkey uid]} ∪ acc)
                end
              else collect_variables h rest nodes acc
          end
      | _ => Raise AttributeError
      end
  end.

Record sector_uids := Sector {
  nodes : gset scalar;
  variables_ : gset scalar;
  dimension_instances : gset scalar;
}.

Definition collect_sector_uids (fuel : nat) (h : heap) (ps : parent_cache)
    (md : metadata) (filter_ : list (string * scalar))
  : option (result (sector_uids * parent_cache)) :=
  match find_nodes md filter_ with
  | Raise e => Some (Raise e)
  | Ok found =>
      match collect_found fuel h ps found ∅ with
      | None => None
      | Some (Raise e) => Some (Raise e)
      | Some (Ok (node_uids, ps1)) =>
          match find_navigation_dis md filter_ with
          | Raise e => Some (Raise e)
          | Ok found' =>
              match collect_found fuel h ps1 found' ∅ with
              | None => None
              | Some (Raise e) => Some (Raise e)
              | Some (Ok (di_uids, ps2)) =>
                  match h !! variables md with
                  | Some (CList vars) =>
                      match collect_variables h vars node_uids ∅ with
                      | Raise e => Some (Raise e)
                      | Ok var_uids =>
                          Some (Ok (Sector node_uids var_uids di_uids, ps2))
                      end
                  | _ => None
                  end
              end
          end
      end
  end.

End Metadata.

(** ** [CountryData]: tree surgery on a country report *)

Module CountryData.
Import JSONTreeWalker JSONTree JSONCatalog.

(** [d[key] = v]: an existing key keeps its place, a new one goes last. *)
Definition dict_set (fields : list (string * value)) (key : string) (v : value)
  : list (string * value) :=
  if decide (key ∈ fields.*1)
  then (λ kv, if decide (kv.1 = key) then (key, v) else kv) <$> fields
  else fields ++ [(key, v)].

Definition dict_del (fields : list (string * value)) (key : string)
  : list (string * value) :=
  filter (λ kv, kv.1 ≠ key) fields.

(** A [CountryData] object once constructed: the cached properties and the
    catalogs the passes below use. *)
Record country_data := Build {
  tree : addr;
  metadata : Metadata.metadata;
  nodes : addr;
  variables : addr;
  node_index : catalog;
  variable_index : catalog;
  grid_index : catalog;
}.

(** The attributes of the node catalog, as the constructor configures it. *)
Definition node_attrs : list string :=
  ["uid"; "parent_uid"; "template_node_uid"; "name_prefix"; "name"].

(** [is_metadata_uid]: ['-' in uid], on whatever the field holds. *)
Fixpoint has_dash (s : string) : bool :=
  match s with
  | EmptyString => false
  | String c s' => Ascii.eqb c "-" || has_dash s'
  end.

Definition is_metadata_uid (h : heap) (uid : value) : result bool :=
  match uid with
  | VScalar (SStr s) => Ok (has_dash s)
  | VScalar _ => Raise TypeError
  | VRef a =>
      match h !! a with
      | Some (CDict _ fields) =>
          Ok (match dict_get fields "-" with Some _ => true | None => false end)
      | Some (CList items) =>
          Ok (bool_decide (VScalar (SStr "-") ∈ items))
      | None => Raise TypeError
      end
  end.

(** [get_node(uid, False)] and [get_grid(node_uid)]. *)
Definition get_node (self : country_data) (uid : value) : result (option addr) :=
  first (node_index self) [("uid", uid)].

Definition get_grid (self : country_data) (node_uid : value)
  : result (option addr) :=
  match first (grid_index self) [("node_uid", node_uid)] with
  | Ok None => first (Metadata.grid_index (metadata self)) [("node_uid", node_uid)]
  | r => r
  end.

(** *** [filter_out] *)

(** The first loop: the indices to delete, and the uids of the survivors
    when a set is passed to receive them. *)
Fixpoint scan_items (h : heap) (filter_func : value → bool) (items : list value)
    (index : nat) (valid_uids : option (gset scalar))
  : result (list nat * option (gset scalar)) :=
  match items with
  | [] => Ok ([], valid_uids)
  | item :: rest =>
      if filter_func item then
        match valid_uids with
        | None => scan_items h filter_func rest (S index) None
        | Some uids =>
            match item with
            | VScalar _ => Raise TypeError
            | VRef a =>
                match h !! a with
                | Some (CDict _ fields) =>
                    match dict_get fields "uid" with
                    | None => Raise KeyError
                    | Some (VRef _) => Raise TypeError
                    | Some (VScalar uid) =>
                        scan_items h filter_func rest (S index)
                          (Some ({[hkey uid]} ∪ uids))
                    end
                | _ => Raise TypeError
                end
            end
        end
      else
        match scan_items h filter_func rest (S index) valid_uids with
        | Ok (to_delete, uids) => Ok (index :: to_delete, uids)
        | Raise e => Raise e
        end
  end.

(** [del item_list[index]] for each index of [indices] in turn. *)
Definition delete_each (items : list value) (indices : list nat) : list value :=
  foldl (λ l i, delete i l) items indices.

Definition filter_out (h : heap) (item_list : addr) (filter_func : value → bool)
    (valid_uids : option (gset scalar))
  : result (list nat * heap * option (gset scalar)) :=
  match h !! item_list with
  | Some (CList items) =>
      match scan_items h filter_func items 0 valid_uids with
      | Raise e => Raise e
      | Ok (to_delete, uids) =>
          Ok (to_delete,
              <[item_list := CList (delete_each items (reverse to_delete))]> h,
              uids)
      end
  | _ => Raise TypeError
  end.

(** *** The mutable world of a run

    [store] is the memory of containers, [cache] the walker's [_parents],
    [minted] the number of tokens drawn from [secrets] so far, and [log] the
    records handed to the logger, oldest first. *)
Inductive log_record :=
  | MissingParent (node_uid parent_uid : value)
  | AddingVariable (node_uid template_var_uid template_node_uid : value).

Record world := World {
  store : heap;
  cache : parent_cache;
  minted : nat;
  log : list log_record;
}.

Definition set_store (w : world) (h : heap) : world :=
  World h (cache w) (minted w) (log w).

Definition set_cache (w : world) (ps : parent_cache) : world :=
  World (store w) ps (minted w) (log w).

Definition add_log (w : world) (r : log_record) : world :=
  World (store w) (cache w) (minted w) (log w ++ [r]).

(** [make_uid]: [secrets.token_hex(12)].  [token_hex i] is the token the
    system's generator hands out at the [i]-th draw. *)
Definition make_uid (token_hex : nat → string) (w : world) : string * world :=
  (token_hex (minted w), World (store w) (cache w) (S (minted w)) (log w)).

Definition set_variable_index (self : country_data) (c : catalog) : country_data :=
  Build (tree self) (metadata self) (nodes self) (variables self)
        (node_index self) c (grid_index self).

Definition set_node_index (self : country_data) (c : catalog) : country_data :=
  Build (tree self) (metadata self) (nodes self) (variables self)
        c (variable_index self) (grid_index self).

(** [make_variable]: a new variable object, appended to the variable list
    and registered in the variable catalog. *)
Definition make_variable (token_hex : nat → string) (self : country_data)
    (w : world) (node_uid template_var_uid : value)
  : result (addr * country_data * world) :=
  let '(uid, w1) := make_uid token_hex w in
  let result := length (store w1) in
  let h1 := store w1 ++ [CDict false [("uid", VScalar (SStr uid));
                                       ("node_uid", node_uid);
                                       ("template_var_uid", template_var_uid)]] in
  match h1 !! variables self with
  | Some (CList vars) =>
      let h2 := <[variables self := CList (vars ++ [VRef result])]> h1 in
      match index h2 (variable_index self) result with
      | (Ok _, c) => Ok (result, set_variable_index self c, set_store w1 h2)
      | (Raise e, _) => Raise e
      end
  | _ => Raise AttributeError
  end.

(** *** [copy.deepcopy]

    The memo maps an object already met to its copy, so shared and cyclic
    structure is copied once.  A container's copy is allocated before its
    children are copied and filled afterwards. *)
Abbreviation copy_memo := (gmap addr addr).

Fixpoint copy_all (copy : heap → copy_memo → value → option (value * heap * copy_memo))
    (h : heap) (memo : copy_memo) (vs : list value)
  : option (list value * heap * copy_memo) :=
  match vs with
  | [] => Some ([], h, memo)
  | v :: rest =>
      match copy h memo v with
      | None => None
      | Some (v', h1, memo1) =>
          match copy_all copy h1 memo1 rest with
          | None => None
          | Some (rest', h2, memo2) => Some (v' :: rest', h2, memo2)
          end
      end
  end.

Fixpoint deepcopy (fuel : nat) (h : heap) (memo : copy_memo) (v : value)
  : option (value * heap * copy_memo) :=
  match v with
  | VScalar _ => Some (v, h, memo)
  | VRef a =>
      match memo !! a with
      | Some a' => Some (VRef a', h, memo)
      | None =>
          match fuel, h !! a with
          | S fuel', Some (CDict root fields) =>
              let a' := length h in
              match copy_all (deepcopy fuel') (h ++ [CDict root []])
                      (<[a := a']> memo) fields.*2 with
              | Some (vs, h1, memo1) =>
                  Some (VRef a', <[a' := CDict root (zip fields.*1 vs)]> h1, memo1)
              | None => None
              end
          | S fuel', Some (CList items) =>
              let a' := length h in
              match copy_all (deepcopy fuel') (h ++ [CList []])
                      (<[a := a']> memo) items with
              | Some (vs, h1, memo1) =>
                  Some (VRef a', <[a' := CList vs]> h1, memo1)
              | None => None
              end
          | _, _ => None
          end
      end
  end.

(** *** [clone_grid_from_template] *)

Definition set_field (h : heap) (a : addr) (key : string) (v : value) : heap :=
  match h !! a with
  | Some (CDict root fields) => <[a := CDict root (dict_set fields key v)]> h
  | _ => h
  end.

(** The body of the loop for one [group] that carries both ["uid"] and
    ["variable_uid"]. *)
Definition clone_group (token_hex : nat → string) (self : country_data)
    (w : world) (template_node_uid node_uid : value) (group : addr)
    (uid variable_uid : value) : result (country_data * world) :=
  let h1 := set_field (store w) group "template_group_uid" uid in
  let '(fresh, w1) := make_uid token_hex (set_store w h1) in
  let w2 := set_store w1 (set_field (store w1) group "uid" (VScalar (SStr fresh))) in
  match variable_uid with
  | VScalar SNull => Ok (self, w2)
  | template_var_uid =>
      match first (variable_index self)
              [("node_uid", node_uid); ("template_var_uid", template_var_uid)] with
      | Raise e => Raise e
      | Ok found =>
          match
            match found with
            | Some variable => Ok (variable, self, w2)
            | None =>
                make_variable token_hex self
                  (add_log w2 (AddingVariable node_uid template_var_uid template_node_uid))
                  node_uid template_var_uid
            end
          with
          | Raise e => Raise e
          | Ok (variable, self', w3) =>
              match store w3 !! variable with
              | Some (CDict _ fields) =>
                  match dict_get fields "uid" with
                  | Some v =>
                      Ok (self', set_store w3 (set_field (store w3) group "variable_uid" v))
                  | None => Raise KeyError
                  end
              | _ => Raise TypeError
              end
          end
      end
  end.

(** [for group in self.traverse(result['group'])]: the generator is
    resumed on the store as the body of the loop left it. *)
Fixpoint clone_loop (fuel : nat) (token_hex : nat → string) (self : country_data)
    (w : world) (template_node_uid node_uid : value) (g : walker)
  : option (result (country_data * world)) :=
  match fuel with
  | 0 => None
  | S fuel' =>
      match next (_walk_down (store w)) g (cache w) with
      | (None, ps) => Some (Ok (self, set_cache w ps))
      | (Some (c, g'), ps) =>
          let w0 := set_cache w ps in
          match c with
          | [] => clone_loop fuel' token_hex self w0 template_node_uid node_uid g'
          | group :: _ =>
              match store w0 !! group with
              | Some (CDict _ fields) =>
                  match dict_get fields "uid", dict_get fields "variable_uid" with
                  | Some uid, Some variable_uid =>
                      match clone_group token_hex self w0 template_node_uid
                              node_uid group uid variable_uid with
                      | Raise e => Some (Raise e)
                      | Ok (self', w1) =>
                          clone_loop fuel' token_hex self' w1 template_node_uid
                            node_uid g'
                      end
                  | _, _ =>
                      clone_loop fuel' token_hex self w0 template_node_uid node_uid g'
                  end
              | _ => clone_loop fuel' token_hex self w0 template_node_uid node_uid g'
              end
          end
      end
  end.

Definition clone_grid_from_template (fuel : nat) (token_hex : nat → string)
    (self : country_data) (w : world) (template_node_uid node_uid : value)
  : option (result (addr * country_data * world)) :=
  match get_grid self template_node_uid with
  | Raise e => Some (Raise e)
  | Ok None => Some (Raise TypeError)
  | Ok (Some template) =>
      match deepcopy fuel (store w) ∅ (VRef template) with
      | Some (VRef result, h1, _) =>
          match h1 !! result with
          | Some (CDict _ _) =>
              let h2 := set_field h1 result "node_uid" node_uid in
              match h2 !! result with
              | Some (CDict _ fields) =>
                  match dict_get fields "group" with
                  | None => Some (Raise KeyError)
                  | Some (VScalar _) => Some (Ok (result, self, set_store w h2))
                  | Some (VRef start) =>
                      match clone_loop fuel token_hex self (set_store w h2)
                              template_node_uid node_uid (start_walker start) with
                      | None => None
                      | Some (Raise e) => Some (Raise e)
                      | Some (Ok (self', w')) => Some (Ok (result, self', w'))
                      end
                  end
              | _ => None
              end
          | _ => Some (Raise TypeError)
          end
      | _ => None
      end
  end.

(** *** [reparent_nodes] *)

(** [parent_node.setdefault('node', []).append(node)]. *)
Definition adopt (h : heap) (parent_node node : addr) : option (result heap) :=
  match h !! parent_node with
  | Some (CDict root fields) =>
      match dict_get fields "node" with
      | Some (VRef l) =>
          match h !! l with
          | Some (CList items) => Some (Ok (<[l := CList (items ++ [VRef node])]> h))
          | Some (CDict _ _) => Some (Raise AttributeError)
          | None => None
          end
      | Some (VScalar _) => Some (Raise AttributeError)
      | None =>
          Some (Ok (<[parent_node := CDict root (fields ++ [("node", VRef (length h))])]>
                      (h ++ [CList [VRef node]])))
      end
  | Some (CList _) => Some (Raise AttributeError)
  | None => None
  end.

Definition del_field (h : heap) (a : addr) (key : string) : heap :=
  match h !! a with
  | Some (CDict root fields) => <[a := CDict root (dict_del fields key)]> h
  | _ => h
  end.

(** The progress of the first loop: the pairs yielded so far and the
    indices of the nodes moved. *)
Record reparent_state := Reparent {
  moved : list (addr * addr);
  nested_nodes : list nat;
  rworld : world;
}.

(** The body of the loop for the [node] found at [index].  The model covers
    node lists whose elements are objects; on any other element it gives no
    answer. *)
Definition reparent_node (self : country_data) (st : reparent_state)
    (index : nat) (node : value) : option (result reparent_state) :=
  let h := store (rworld st) in
  match node with
  | VScalar _ => None
  | VRef n =>
      match h !! n with
      | Some (CDict _ fields) =>
          match dict_get fields "template_node_uid", dict_get fields "parent_uid" with
          | Some _, Some parent_uid =>
              match dict_get fields "uid" with
              | None => Some (Raise KeyError)
              | Some node_uid =>
                  match is_metadata_uid h node_uid with
                  | Raise e => Some (Raise e)
                  | Ok true => Some (Ok st)
                  | Ok false =>
                      match is_metadata_uid h parent_uid with
                      | Raise e => Some (Raise e)
                      | Ok true => Some (Ok st)
                      | Ok false =>
                          match get_node self parent_uid with
                          | Raise e => Some (Raise e)
                          | Ok None =>
                              Some (Ok (Reparent (moved st) (nested_nodes st)
                                          (add_log (rworld st)
                                             (MissingParent node_uid parent_uid))))
                          | Ok (Some parent_node) =>
                              match adopt h parent_node n with
                              | None => None
                              | Some (Raise e) => Some (Raise e)
                              | Some (Ok h1) =>
                                  Some (Ok (Reparent
                                              (moved st ++ [(n, parent_node)])
                                              (nested_nodes st ++ [index])
                                              (set_store (rworld st)
                                                 (del_field h1 n "parent_uid"))))
                              end
                          end
                      end
                  end
              end
          | _, _ => Some (Ok st)
          end
      | _ => None
      end
  end.

(** [for index, node in enumerate(self.nodes)]: the list is read afresh at
    every round, as a list iterator does. *)
Fixpoint reparent_loop (fuel : nat) (self : country_data) (st : reparent_state)
    (index : nat) : option (result reparent_state) :=
  match fuel with
  | 0 => None
  | S fuel' =>
      match store (rworld st) !! nodes self with
      | Some (CList items) =>
          match items !! index with
          | None => Some (Ok st)
          | Some node =>
              match reparent_node self st index node with
              | None => None
              | Some (Raise e) => Some (Raise e)
              | Some (Ok st') => reparent_loop fuel' self st' (S index)
              end
          end
      | _ => None
      end
  end.

(** [reparent_nodes] run to completion: the pairs it yields, the catalog
    rebuilt and the world as it leaves them. *)
Definition reparent_nodes (fuel : nat) (self : country_data) (w : world)
  : option (result (list (addr * addr) * country_data * world)) :=
  match reparent_loop fuel self (Reparent [] [] w) 0 with
  | None => None
  | Some (Raise e) => Some (Raise e)
  | Some (Ok st) =>
      match nested_nodes st with
      | [] => Some (Ok (moved st, self, rworld st))
      | _ :: _ =>
          let w1 := rworld st in
          match store w1 !! nodes self with
          | Some (CList items) =>
              let h2 := <[nodes self :=
                            CList (delete_each items (reverse (nested_nodes st)))]>
                          (store w1) in
              match traverse fuel h2 (cache w1) (VRef (nodes self)) with
              | None => None
              | Some (found, ps) =>
                  match index_iterable h2 (clear (node_index self)) found with
                  | (Raise e, _) => Some (Raise e)
                  | (Ok _, c) =>
                      Some (Ok (moved st, set_node_index self c,
                                set_cache (set_store w1 h2) ps))
                  end
              end
          | _ => None
          end
      end
  end.

(** *** The constructor

    [__init__] builds the three catalogs: the node catalog over the objects
    below [nodes], the variable catalog over the items of [variables], and
    the grid catalog over the objects below [grids] (a list that
    [setdefault] creates when the document has none).  The model covers
    documents in which [country_specific_data] is an object and [nodes],
    [variables] and [grids] are arrays. *)
Definition variable_attrs : list string := ["uid"; "node_uid"; "template_var_uid"].
Definition grid_attrs : list string := ["node_uid"].

Definition get_field (h : heap) (a : addr) (key : string) : option (result addr) :=
  match h !! a with
  | Some (CDict _ fields) =>
      match dict_get fields key with
      | Some (VRef b) => Some (Ok b)
      | Some (VScalar _) => None
      | None => Some (Raise KeyError)
      end
  | _ => None
  end.

(** [index_iterable] over the items of a list: a scalar has no [get]. *)
Fixpoint index_values (h : heap) (c : catalog) (data : list value)
  : result unit * catalog :=
  match data with
  | [] => (Ok (), c)
  | VScalar _ :: _ => (Raise AttributeError, c)
  | VRef item :: rest =>
      match index h c item with
      | (Ok _, c') => index_values h c' rest
      | (Raise e, c') => (Raise e, c')
      end
  end.

Definition init (fuel : nat) (md : Metadata.metadata) (h : heap)
    (ps : parent_cache) (tree : addr)
  : option (result (country_data * heap * parent_cache)) :=
  match get_field h tree "country_specific_data" with
  | None => None
  | Some (Raise e) => Some (Raise e)
  | Some (Ok cm) =>
      match get_field h cm "nodes" with
      | None => None
      | Some (Raise e) => Some (Raise e)
      | Some (Ok nodes) =>
          match traverse fuel h ps (VRef nodes) with
          | None => None
          | Some (found, ps1) =>
              match create h node_attrs found with
              | (Raise e, _) => Some (Raise e)
              | (Ok _, node_index) =>
                  match get_field h cm "variables", h !! cm with
                  | Some (Ok variables), Some (CDict root fields) =>
                      match h !! variables with
                      | Some (CList vars) =>
                          match index_values h (new variable_attrs) vars with
                          | (Raise e, _) => Some (Raise e)
                          | (Ok _, variable_index) =>
                              let '(grids, h1) :=
                                match dict_get fields "grids" with
                                | Some (VRef g) => (g, h)
                                | _ =>
                                    (length h,
                                     <[cm := CDict root (fields ++ [("grids", VRef (length h))])]>
                                       (h ++ [CList []]))
                                end in
                              match dict_get fields "grids" with
                              | Some (VScalar _) => None
                              | _ =>
                                  match traverse fuel h1 ps1 (VRef grids) with
                                  | None => None
                                  | Some (found', ps2) =>
                                      match create h1 grid_attrs found' with
                                      | (Raise e, _) => Some (Raise e)
                                      | (Ok _, grid_index) =>
                                          Some (Ok (Build tree md nodes variables
                                                      node_index variable_index
                                                      grid_index, h1, ps2))
                                      end
                                  end
                              end
                          end
                      | _ => None
                      end
                  | Some (Raise e), _ => Some (Raise e)
                  | _, _ => None
                  end
              end
          end
      end
  end.

End CountryData.

(** * Properties of the walker's generator *)

Section GeneratorFacts.
Import JSONTreeWalker.
Context {St : Type}.
Variable neighbour_func : addr → St → list addr * St.
(** The neighbours a node has do not depend on the state the neighbour
    function threads: [_walk_down] writes the cache without reading it. *)
Variable nf : addr → list addr.
Hypothesis nf_pure : ∀ a s, (neighbour_func a s).1 = nf a.

Definition headed_in (X : gset addr) (c : chain) : Prop :=
  match c with
  | [] => True
  | x :: _ => x ∈ X
  end.

(** A chain links its head to the start item through neighbour steps. *)
Fixpoint valid_chain (start : addr) (c : chain) : Prop :=
  match c with
  | [] => False
  | [x] => x = start
  | x :: (y :: _) as c' => x ∈ nf y ∧ valid_chain start c'
  end.

Definition heads (cs : list chain) : list addr := omap head cs.

Lemma pop_unvisited_Some q seen c q' seen' :
  pop_unvisited q seen = Some (c, q', seen') →
  ∃ skipped item rest,
    q = skipped ++ c :: q' ∧ c = item :: rest ∧ item ∉ seen
    ∧ seen' = {[item]} ∪ seen ∧ Forall (headed_in seen) skipped.
Proof.
  induction q as [|d q IH]; simpl; [done|].
  destruct d as [|x d].
  - intros H. destruct (IH H) as (sk & item & rest & -> & -> & ? & -> & ?).
    exists ([] :: sk), item, rest. repeat split; try done.
    constructor; [exact I | done].
  - destruct (decide (x ∈ seen)) as [Hin|Hnin].
    + intros H. destruct (IH H) as (sk & item & rest & -> & -> & ? & -> & ?).
      exists ((x :: d) :: sk), item, rest. repeat split; try done.
      constructor; [exact Hin | done].
    + intros [= <- <- <-]. exists [], x, d. repeat split; try done.
Qed.

Lemma pop_unvisited_None q seen :
  pop_unvisited q seen = None → Forall (headed_in seen) q.
Proof.
  induction q as [|d q IH]; simpl; [constructor|].
  destruct d as [|x d].
  - intros H. constructor; [exact I | auto].
  - destruct (decide (x ∈ seen)); [|done].
    intros H. constructor; [done | auto].
Qed.

Lemma resume_queue w s :
  (resume neighbour_func w s).1 =
    match pending w with
    | Some (item :: rest) => extend (queue w) (item :: rest) (nf item)
    | _ => queue w
    end.
Proof.
  unfold resume. destruct (pending w) as [[|item rest]|]; try done.
  rewrite <- (nf_pure item s). by destruct (neighbour_func item s).
Qed.

Lemma headed_in_mono X Y c : X ⊆ Y → headed_in X c → headed_in Y c.
Proof. destruct c; simpl; set_solver. Qed.

Lemma elem_of_extend q c ns d :
  d ∈ extend q c ns ↔ (∃ n, n ∈ ns ∧ d = n :: c) ∨ d ∈ q.
Proof.
  unfold extend. rewrite elem_of_app, elem_of_reverse, list_elem_of_fmap.
  naive_solver.
Qed.

(** What one [next] does, in terms of the pure neighbour relation. *)
Lemma next_Some w s c w' s' :
  next neighbour_func w s = (Some (c, w'), s') →
  ∃ skipped item rest,
    (resume neighbour_func w s).1 = skipped ++ c :: queue w'
    ∧ c = item :: rest ∧ item ∉ visited w
    ∧ visited w' = {[item]} ∪ visited w
    ∧ pending w' = Some c
    ∧ Forall (headed_in (visited w)) skipped.
Proof.
  unfold next. destruct (resume neighbour_func w s) as [q s1] eqn:Hr.
  destruct (pop_unvisited q (visited w)) as [[[c1 q1] seen1]|] eqn:Hp; [|done].
  intros [= <- <- <-].
  destruct (pop_unvisited_Some _ _ _ _ _ Hp) as (sk & item & rest & ? & ? & ? & ? & ?).
  exists sk, item, rest. simpl. done.
Qed.

Lemma next_None w s s' :
  next neighbour_func w s = (None, s') →
  Forall (headed_in (visited w)) (resume neighbour_func w s).1.
Proof.
  unfold next. destruct (resume neighbour_func w s) as [q s1] eqn:Hr.
  destruct (pop_unvisited q (visited w)) as [[[c1 q1] seen1]|] eqn:Hp; [done|].
  intros _. simpl. by apply pop_unvisited_None.
Qed.

(** The generator stops: every yield marks a new node of a finite set
    closed under the neighbour relation. *)
Lemma drain_terminates (U : gset addr) :
  (∀ a b, a ∈ U → b ∈ nf a → b ∈ U) →
  ∀ n w s,
    Forall (headed_in U) (queue w) →
    (∀ c, pending w = Some c → headed_in U c) →
    size (U ∖ visited w) < n →
    is_Some (drain neighbour_func n w s).
Proof.
  intros Hclosed. induction n as [|n IH]; intros w s Hq Hp Hsz; [lia|].
  simpl. destruct (next neighbour_func w s) as [[[c w']|] s'] eqn:Hn; [|done].
  destruct (next_Some _ _ _ _ _ Hn) as (sk & item & rest & Hres & -> & Hnin & Hv & Hpe & Hsk).
  rewrite resume_queue in Hres.
  assert (Forall (headed_in U) (sk ++ (item :: rest) :: queue w')) as Hall.
  { rewrite <- Hres. destruct (pending w) as [[|i r]|] eqn:Hpw; try done.
    apply Forall_forall. intros d [(m & Hm & ->)|Hd]%elem_of_extend.
    - simpl. eapply Hclosed; [|exact Hm]. by apply (Hp (i :: r)).
    - rewrite Forall_forall in Hq. by apply Hq. }
  apply Forall_app in Hall as [_ Hall]. apply Forall_cons in Hall as [HitemU Hq'].
  simpl in HitemU.
  destruct (IH w' s') as [[cs s''] ->]; try done.
  - intros c. rewrite Hpe. by intros [= <-].
  - rewrite Hv.
    assert (size (U ∖ ({[item]} ∪ visited w)) < size (U ∖ visited w)); [|lia].
    apply subset_size. set_solver.
Qed.

(** The nodes yielded, together with those visited before, are closed under
    the neighbour relation as far as the generator still had to go. *)
Lemma drain_closed n : ∀ w s cs s',
  drain neighbour_func n w s = Some (cs, s') →
  let F := visited w ∪ list_to_set (heads cs) in
  Forall (headed_in F) (queue w)
  ∧ (∀ item rest b, pending w = Some (item :: rest) → b ∈ nf item → b ∈ F)
  ∧ (∀ item b, item ∈ heads cs → b ∈ nf item → b ∈ F)
  ∧ NoDup (heads cs)
  ∧ (∀ a, a ∈ heads cs → a ∉ visited w).
Proof.
  induction n as [|n IH]; intros w s cs s'; simpl; [done|].
  destruct (next neighbour_func w s) as [[[c w']|] s1] eqn:Hn.
  - destruct (drain neighbour_func n w' s1) as [[cs1 s2]|] eqn:Hd; [|done].
    intros [= <- <-].
    destruct (next_Some _ _ _ _ _ Hn) as (sk & item & rest & Hres & -> & Hnin & Hv & Hpe & Hsk).
    rewrite resume_queue in Hres.
    destruct (IH _ _ _ _ Hd) as (Hq' & Hp' & Hc' & Hnd & Hdis).
    simpl in *. rewrite Hv in *.
    set (F := visited w ∪ ({[item]} ∪ list_to_set (heads cs1))).
    assert (({[item]} ∪ visited w) ∪ list_to_set (heads cs1) = F) as HF
      by (unfold F; set_solver).
    rewrite HF in *.
    assert (Forall (headed_in F) (sk ++ (item :: rest) :: queue w')) as Hall.
    { apply Forall_app. split.
      - eapply Forall_impl; [exact Hsk|]. intros d. apply headed_in_mono.
        unfold F. set_solver.
      - constructor; [|done]. simpl. unfold F. set_solver. }
    rewrite <- Hres in Hall.
    repeat split.
    + destruct (pending w) as [[|i r]|]; try done.
      apply Forall_forall. intros d Hd'. rewrite Forall_forall in Hall.
      apply Hall. apply elem_of_extend. by right.
    + intros i r b Hpw Hb. rewrite Hpw in Hall. rewrite Forall_forall in Hall.
      apply (Hall (b :: i :: r)). apply elem_of_extend. left. by exists b.
    + intros i b [->|Hi]%elem_of_cons Hb.
      * by apply (Hp' item rest b).
      * by apply (Hc' i b).
    + apply NoDup_cons. split; [|done]. intros Hi. apply (Hdis item Hi). set_solver.
    + intros a [->|Ha]%elem_of_cons; [done|]. specialize (Hdis a Ha). set_solver.
  - intros [= <- <-]. simpl. apply next_None in Hn. rewrite resume_queue in Hn.
    assert (visited w ∪ ∅ = visited w) as -> by set_solver.
    repeat split; try done.
    + destruct (pending w) as [[|i r]|]; try done.
      apply Forall_forall. intros d Hd'. rewrite Forall_forall in Hn.
      apply Hn. apply elem_of_extend. by right.
    + intros i r b Hpw Hb. rewrite Hpw in Hn. rewrite Forall_forall in Hn.
      apply (Hn (b :: i :: r)). apply elem_of_extend. left. by exists b.
    + intros ? ? []%elem_of_nil.
    + constructor.
    + intros ? []%elem_of_nil.
Qed.

(** Every chain yielded is a path of neighbour steps back to the start. *)
Lemma drain_valid start n : ∀ w s cs s',
  drain neighbour_func n w s = Some (cs, s') →
  Forall (valid_chain start) (queue w) →
  (∀ c, pending w = Some c → valid_chain start c) →
  Forall (valid_chain start) cs.
Proof.
  induction n as [|n IH]; intros w s cs s'; simpl; [done|].
  destruct (next neighbour_func w s) as [[[c w']|] s1] eqn:Hn.
  - destruct (drain neighbour_func n w' s1) as [[cs1 s2]|] eqn:Hd; [|done].
    intros [= <- <-] Hq Hp.
    destruct (next_Some _ _ _ _ _ Hn) as (sk & item & rest & Hres & -> & Hnin & Hv & Hpe & Hsk).
    rewrite resume_queue in Hres.
    assert (Forall (valid_chain start) (sk ++ (item :: rest) :: queue w')) as Hall.
    { rewrite <- Hres. destruct (pending w) as [[|i r]|] eqn:Hpw; try done.
      apply Forall_forall. intros d [(m & Hm & ->)|Hd']%elem_of_extend.
      - simpl. split; [done|]. by apply (Hp (i :: r)).
      - rewrite Forall_forall in Hq. by apply Hq. }
    apply Forall_app in Hall as [_ Hall]. apply Forall_cons in Hall as [Hc Hq'].
    constructor; [done|]. eapply IH; [exact Hd|done|].
    intros c. rewrite Hpe. by intros [= <-].
  - intros [= <- <-] _ _. constructor.
Qed.

End GeneratorFacts.

(** * The walker on a store *)

Section WalkerFacts.
Import JSONTreeWalker.

(** [b] lies below [a]: a chain of references leads from [a] down to it. *)
Inductive reachable (h : heap) (a : addr) : addr → Prop :=
  | reach_refl : reachable h a a
  | reach_step b c : reachable h a b → refers h b c → reachable h a c.

Lemma reachable_trans h a b c :
  reachable h a b → reachable h b c → reachable h a c.
Proof. induction 2; [done | by eapply reach_step]. Qed.

Lemma reachable_step_l h a b c :
  refers h a b → reachable h b c → reachable h a c.
Proof.
  intros Hab Hbc. eapply reachable_trans; [|exact Hbc].
  eapply reach_step; [apply reach_refl | done].
Qed.

(** No entry of the parent cache is stale: a cached parent that is still
    truthy still holds the item. *)
Definition cache_sound (h : heap) (ps : parent_cache) : Prop :=
  ∀ a p, ps !! a = Some p → truthy h p = true → refers h p a.

Definition top_is_root (h : heap) (c : chain) : bool :=
  match c with
  | topmost :: _ => is_root h topmost
  | [] => false
  end.

Definition up (h : heap) (ps : parent_cache) : addr → unit → list addr * unit :=
  λ item s, (_walk_up h ps item, s).

Lemma elem_of_get_referrers h a p :
  p ∈ get_referrers h a ↔ refers h p a.
Proof.
  unfold get_referrers. rewrite list_elem_of_filter, elem_of_seq. split.
  - by intros [? _].
  - intros Hr. split; [done|]. split; [lia|]. simpl.
    unfold refers, children in Hr.
    destruct (h !! p) eqn:Hp; [|by apply elem_of_nil in Hr].
    by apply lookup_lt_Some in Hp.
Qed.

Lemma walk_up_sound h ps a p :
  cache_sound h ps → p ∈ _walk_up h ps a → refers h p a.
Proof.
  intros Hs. unfold _walk_up, _cached_parent.
  destruct (ps !! a) as [q|] eqn:Hq.
  - destruct (truthy h q) eqn:Ht.
    + intros ->%list_elem_of_singleton. by apply Hs.
    + by intros ?%elem_of_get_referrers.
  - by intros ?%elem_of_get_referrers.
Qed.

Lemma valid_chain_reachable h ps x c :
  cache_sound h ps →
  valid_chain (_walk_up h ps) x c →
  ∃ top rest, c = top :: rest ∧ reachable h top x.
Proof.
  intros Hs. induction c as [|a c IH]; simpl; [done|].
  destruct c as [|b c].
  - intros ->. exists x, []. split; [done | apply reach_refl].
  - intros [Hab Hv]. destruct (IH Hv) as (top & rest & [= <- <-] & Hr).
    exists a, (b :: c). split; [done|].
    eapply reachable_step_l; [|exact Hr]. by eapply walk_up_sound.
Qed.

(** [parents] returns the first chain of the upward walk that a root tops. *)
Lemma parents_loop_drain h ps n : ∀ w cs s,
  drain (up h ps) n w tt = Some (cs, s) →
  parents_loop n h ps w = Some (List.find (top_is_root h) cs).
Proof.
  induction n as [|n IH]; intros w cs s; simpl; [done|].
  fold (up h ps).
  destruct (next (up h ps) w tt) as [[[c w']|] []] eqn:Hn.
  - destruct (drain (up h ps) n w' tt) as [[cs1 s1]|] eqn:Hd; [|done].
    intros [= <- <-]. simpl. destruct c as [|t c]; simpl.
    + by eapply IH.
    + destruct (is_root h t); [done|]. by eapply IH.
  - by intros [= <- <-].
Qed.

Lemma parents_loop_mono h ps n : ∀ w r,
  parents_loop n h ps w = Some r → parents_loop (S n) h ps w = Some r.
Proof.
  induction n as [|n IH]; intros w r; [done|].
  intros H. simpl in H. change (parents_loop (S (S n)) h ps w) with
    (match next (λ item s, (_walk_up h ps item, s)) w tt with
     | (None, _) => Some None
     | (Some (c, w'), _) =>
         match c with
         | topmost :: _ =>
             if is_root h topmost then Some (Some c)
             else parents_loop (S n) h ps w'
         | [] => parents_loop (S n) h ps w'
         end
     end).
  destruct (next _ w tt) as [[[c w']|] ?]; [|done].
  destruct c as [|t c]; [by apply IH|].
  destruct (is_root h t); [done | by apply IH].
Qed.

Lemma parents_loop_ge h ps n m w r :
  parents_loop n h ps w = Some r → n ≤ m → parents_loop m h ps w = Some r.
Proof.
  intros H Hle. induction Hle; [done|]. by apply parents_loop_mono.
Qed.

(** The nodes an upward walk can meet: the item, the store and whatever the
    cache points to. *)
Definition up_universe (h : heap) (ps : parent_cache) (x : addr) : gset addr :=
  {[x]} ∪ list_to_set (seq 0 (length h)) ∪ map_img ps.

Lemma up_universe_closed h ps x a b :
  a ∈ up_universe h ps x → b ∈ _walk_up h ps a → b ∈ up_universe h ps x.
Proof.
  intros _. unfold _walk_up, _cached_parent, up_universe.
  assert (b ∈ get_referrers h a → b ∈ ({[x]} ∪ list_to_set (seq 0 (length h)) ∪ map_img ps : gset addr)) as Href.
  { unfold get_referrers. rewrite list_elem_of_filter. intros [_ Hb].
    apply elem_of_union_l, elem_of_union_r. by apply elem_of_list_to_set. }
  destruct (ps !! a) as [q|] eqn:Hq; [|done].
  destruct (truthy h q); [|done].
  intros ->%list_elem_of_singleton. apply elem_of_union_r.
  apply elem_of_map_img. by exists a.
Qed.

(** The upward walk always comes to an end. *)
Lemma up_drain_total h ps x n :
  size (up_universe h ps x) < n →
  ∃ cs, drain (up h ps) n (start_walker x) tt = Some (cs, tt).
Proof.
  intros Hn.
  destruct (drain_terminates (up h ps) (_walk_up h ps) (λ _ _, eq_refl)
              (up_universe h ps x) (up_universe_closed h ps x) n
              (start_walker x) tt) as [[cs []] Hd].
  - simpl. constructor; [|constructor]. simpl. unfold up_universe. set_solver.
  - by simpl.
  - simpl. eapply Nat.le_lt_trans; [|exact Hn]. apply subseteq_size. set_solver.
  - by exists cs.
Qed.

End WalkerFacts.

Section PathFacts.
Import JSONTreeWalker.

Lemma next_start {St} (nfun : addr → St → list addr * St) x s :
  next nfun (start_walker x) s
  = (Some ([x], Walker [] ({[x]} ∪ ∅) (Some [x])), s).
Proof.
  unfold next, resume. simpl.
  destruct (decide (x ∈ (∅ : gset addr))) as [Hin|_]; [|done].
  by apply not_elem_of_empty in Hin.
Qed.

Lemma parents_of_root h ps r n :
  is_root h r = true → parents (S n) h ps r = Some (Some [], ps).
Proof.
  intros Hr. unfold parents. simpl. rewrite next_start, Hr. done.
Qed.

Lemma parents_unreachable h ps x :
  cache_sound h ps →
  (∀ r, is_root h r = true → ¬ reachable h r x) →
  ∀ n, size (up_universe h ps x) < n → parents n h ps x = Some (None, ps).
Proof.
  intros Hs Hun n Hn.
  destruct (up_drain_total h ps x n Hn) as [cs Hd].
  unfold parents. rewrite (parents_loop_drain _ _ _ _ _ _ Hd).
  assert (Forall (valid_chain (_walk_up h ps) x) cs) as Hv.
  { eapply (drain_valid (up h ps) (_walk_up h ps) (λ _ _, eq_refl)); [exact Hd| |].
    - simpl. by constructor.
    - by simpl. }
  destruct (List.find (top_is_root h) cs) as [c|] eqn:Hf; [|done].
  apply find_some in Hf as [Hin Htop].
  rewrite Forall_forall in Hv. apply list_elem_of_In in Hin.
  destruct (valid_chain_reachable _ _ _ _ Hs (Hv _ Hin)) as (top & rest & -> & Hr).
  simpl in Htop. by destruct (Hun top Htop).
Qed.

Lemma reachable_without_referrers h a x :
  get_referrers h x = [] → reachable h a x → a = x.
Proof.
  intros Hg Hr. destruct Hr as [|b c _ Hbc]; [done|].
  apply elem_of_get_referrers in Hbc. rewrite Hg in Hbc.
  by apply elem_of_nil in Hbc.
Qed.

Lemma cache_sound_empty h : cache_sound h ∅.
Proof. intros a p Hl. by rewrite lookup_empty in Hl. Qed.

End PathFacts.

(** * The claims about broken paths *)

Section BrokenPaths.
Import JSONTreeWalker JSONTree CountryData.

(** C10 — for the document root itself the ancestor chain is empty and
    [json_path] answers the sentinel ["<broken_json_path>"], although the
    root is reachable from itself: the sentinel is not kept for unreachable
    nodes. *)
Theorem root_path_is_sentinel (h : heap) (ps : parent_cache) (r : addr) (n : nat) :
  is_root h r = true →
  reachable h r r
  ∧ parents (S n) h ps r = Some (Some [], ps)
  ∧ json_path (S n) h ps r = Some (Ok broken_json_path, ps).
Proof.
  intros Hr. split; [apply reach_refl|].
  split; [by apply parents_of_root|].
  unfold json_path. by rewrite parents_of_root.
Qed.

Lemma root_path_is_sentinel_witness :
  is_root [CDict true [("data", VRef 1)]; CList []] 0 = true
  ∧ json_path 1 [CDict true [("data", VRef 1)]; CList []] ∅ 0
    = Some (Ok "<broken_json_path>", ∅).
Proof.
  split; [reflexivity|].
  apply (root_path_is_sentinel [CDict true [("data", VRef 1)]; CList []] ∅ 0 0).
  reflexivity.
Defined.

(** C9, as the code has it — for a container that no [JSONTreeRoot]
    reaches, and a parent cache without stale entries, the ancestor search
    ends with no chain and [json_path] answers the sentinel; nothing is
    raised. *)
Theorem unreachable_path_is_sentinel (h : heap) (ps : parent_cache) (x : addr) :
  cache_sound h ps →
  (∀ r, is_root h r = true → ¬ reachable h r x) →
  ∃ n0, ∀ n, n0 ≤ n →
    parents n h ps x = Some (None, ps)
    ∧ json_path n h ps x = Some (Ok broken_json_path, ps).
Proof.
  intros Hs Hun. exists (S (size (up_universe h ps x))). intros n Hn.
  assert (parents n h ps x = Some (None, ps)) as Hp
    by (apply parents_unreachable; [done | done | lia]).
  split; [done|]. unfold json_path. by rewrite Hp.
Qed.

Lemma unreachable_path_is_sentinel_witness :
  let h := [CDict true [("data", VRef 1)]; CList []; CDict false []] in
  cache_sound h ∅
  ∧ (∀ r, is_root h r = true → ¬ reachable h r 2)
  ∧ ∃ n0, ∀ n, n0 ≤ n →
      parents n h ∅ 2 = Some (None, ∅)
      ∧ json_path n h ∅ 2 = Some (Ok broken_json_path, ∅).
Proof.
  assert (∀ r, is_root [CDict true [("data", VRef 1)]; CList []; CDict false []] r = true
               → ¬ reachable [CDict true [("data", VRef 1)]; CList []; CDict false []] r 2)
    as Hun.
  { intros r Hr Hreach.
    apply reachable_without_referrers in Hreach; [|reflexivity].
    subst r. discriminate Hr. }
  split; [apply cache_sound_empty|]. split; [exact Hun|].
  exact (unreachable_path_is_sentinel _ ∅ 2 (cache_sound_empty _) Hun).
Defined.

(** C9 as stated fails on a stale cache.  A traversal of the document
    records [L] as the parent of [X]; [filter_out] then deletes [X] from
    [L], and nothing clears the record.  [X] is no longer reachable, yet
    [parents] answers the remembered chain and [json_path] raises the
    [ValueError] of [list.index]. *)
Lemma stale_cache_path_raises :
  let h1 := [CDict true [("a", VRef 1)];
             CList [VRef 2; VRef 3];
             CDict false [("uid", VScalar (SStr "x"))];
             CDict false [("uid", VScalar (SStr "y"))]] in
  ∃ found ps1 deleted h2 ps2,
    traverse 9 h1 ∅ (VRef 0) = Some (found, ps1)
    ∧ filter_out h1 1 (λ v, bool_decide (v ≠ VRef 2)) None = Ok (deleted, h2, None)
    ∧ (∀ r, is_root h2 r = true → ¬ reachable h2 r 2)
    ∧ parents 9 h2 ps1 2 = Some (Some [0; 1], ps2)
    ∧ json_path 9 h2 ps1 2 = Some (Raise ValueError, ps2).
Proof.
  simpl. eexists _, _, _, _, _.
  split; [vm_compute; reflexivity|].
  split; [vm_compute; reflexivity|].
  split.
  - intros r Hr Hreach.
    apply reachable_without_referrers in Hreach; [|reflexivity].
    subst r. discriminate Hr.
  - split; vm_compute; reflexivity.
Qed.

End BrokenPaths.

(** * Traversal order *)

Section TraverseFacts.
Import JSONTreeWalker.

(** The container children of a node, left to right. *)
Definition kids (h : heap) (a : addr) : list addr := omap ref_of (children h a).

(** The depth-first, left-to-right pre-order listing of a forest: a root,
    then the listing of its children, then the listing of the roots to its
    right. *)
Inductive preorder (h : heap) : list addr → list addr → Prop :=
  | preorder_nil : preorder h [] []
  | preorder_cons a rest la lrest :
      preorder h (kids h a) la →
      preorder h rest lrest →
      preorder h (a :: rest) (a :: la ++ lrest).

(** The part of the store below [start] is a tree: it has a finite
    pre-order listing [l] in which no container occurs twice. *)
Definition tree_below (h : heap) (start : addr) (l : list addr) : Prop :=
  preorder h [start] l ∧ NoDup l.

Definition down (h : heap) : addr → parent_cache → list addr * parent_cache :=
  _walk_down h.

Lemma omap_rev {A B} (f : A → option B) (l : list A) :
  omap f (reverse l) = reverse (omap f l).
Proof.
  induction l as [|x l IH]; [done|].
  rewrite reverse_cons, omap_app, IH. simpl.
  destruct (f x); simpl; [by rewrite reverse_cons | by rewrite app_nil_r].
Qed.

Lemma down_pure h a ps : (down h a ps).1 = reverse (kids h a).
Proof. unfold down, _walk_down, kids. simpl. by rewrite omap_rev. Qed.

Lemma extend_reverse q c ns :
  extend q c (reverse ns) = ((λ n, n :: c) <$> ns) ++ q.
Proof. unfold extend. by rewrite fmap_reverse, reverse_involutive. Qed.

Lemma preorder_roots h rs l : preorder h rs l → rs ⊆ l.
Proof.
  induction 1 as [|a rest la lrest _ _ _ IH]; [done|].
  intros x [->|Hx]%elem_of_cons; [by left|].
  right. apply elem_of_app. right. by apply IH.
Qed.

Lemma preorder_reachable h rs l :
  preorder h rs l → ∀ x, x ∈ l → ∃ r, r ∈ rs ∧ reachable h r x.
Proof.
  induction 1 as [|a rest la lrest _ IH1 _ IH2]; intros x Hx.
  - by apply elem_of_nil in Hx.
  - apply elem_of_cons in Hx as [->|[Hx|Hx]%elem_of_app].
    + exists a. split; [by left | apply reach_refl].
    + destruct (IH1 x Hx) as (k & Hk & Hr). exists a. split; [by left|].
      eapply reachable_step_l; [|exact Hr].
      unfold kids in Hk. apply list_elem_of_omap in Hk as (v & Hv & Hk).
      destruct v; [done|]. simpl in Hk. injection Hk as ->. exact Hv.
    + destruct (IH2 x Hx) as (r & Hr & Hreach). exists r. split; [by right|done].
Qed.

Lemma preorder_closed h rs l :
  preorder h rs l → ∀ b c, b ∈ l → refers h b c → c ∈ l.
Proof.
  induction 1 as [|a rest la lrest H1 IH1 _ IH2]; intros b c Hb Hbc.
  - by apply elem_of_nil in Hb.
  - apply elem_of_cons in Hb as [->|[Hb|Hb]%elem_of_app].
    + right. apply elem_of_app. left. apply (preorder_roots _ _ _ H1).
      unfold kids. apply list_elem_of_omap. by exists (VRef c).
    + right. apply elem_of_app. left. by eapply IH1.
    + right. apply elem_of_app. right. by eapply IH2.
Qed.

Lemma preorder_complete h start l x :
  preorder h [start] l → reachable h start x → x ∈ l.
Proof.
  intros Hp. induction 1 as [|b c _ IH Hbc].
  - apply (preorder_roots _ _ _ Hp). by left.
  - by eapply preorder_closed.
Qed.

(** The explicit stack walks a tree-shaped forest in its pre-order: from a
    generator about to pop the chains [qs] of the roots [rs], the next
    [length l] yields list [l], and the generator is left about to pop
    what lay under [qs]. *)
Lemma drain_forest h rs l :
  preorder h rs l →
  ∀ w ps qs q_rest,
    (resume (down h) w ps).1 = qs ++ q_rest →
    Forall2 (λ q r, head q = Some r) qs rs →
    NoDup l →
    (∀ a, a ∈ l → a ∉ visited w) →
    ∃ cs w2 ps2,
      heads cs = l
      ∧ (resume (down h) w2 ps2).1 = q_rest
      ∧ visited w2 = list_to_set l ∪ visited w
      ∧ ∀ n, drain (down h) (length l + n) w ps
             = match drain (down h) n w2 ps2 with
               | Some (cs', ps') => Some (cs ++ cs', ps')
               | None => None
               end.
Proof.
  induction 1 as [|a rest la lrest _ IH1 _ IH2]; intros w ps qs q_rest Hq Hh Hnd Hdis.
  - apply Forall2_nil_inv_r in Hh as ->. exists [], w, ps.
    repeat split; [done | set_solver |].
    intros n. simpl. by destruct (drain (down h) n w ps) as [[? ?]|].
  - apply Forall2_cons_inv_r in Hh as (qa & qs' & Hqa & Hh & ->).
    destruct qa as [|a' anc]; [done|]. simpl in Hqa. injection Hqa as ->.
    apply NoDup_cons in Hnd as [Hna Hnd]. apply NoDup_app in Hnd as (Hnd1 & Hd12 & Hnd2).
    assert (a ∉ visited w) as Hav by (apply Hdis; by left).
    destruct (resume (down h) w ps) as [q0 ps1] eqn:Hres. simpl in Hq. subst q0.
    set (w1 := Walker (qs' ++ q_rest) ({[a]} ∪ visited w) (Some (a :: anc))).
    assert (next (down h) w ps = (Some (a :: anc, w1), ps1)) as Hnext.
    { unfold next. rewrite Hres. simpl. by destruct (decide (a ∈ visited w)). }
    destruct (IH1 w1 ps1 ((λ k, k :: a :: anc) <$> kids h a) (qs' ++ q_rest))
      as (cs1 & w2 & ps2 & Hc1 & Hq2 & Hv2 & Hd1).
    { rewrite (resume_queue (down h) (λ x, reverse (kids h x)) (down_pure h)).
      simpl. by rewrite extend_reverse. }
    { apply Forall2_fmap_l. apply Forall_Forall2_diag. by apply Forall_forall. }
    { done. }
    { intros x Hx. simpl. intros [->%elem_of_singleton|Hin]%elem_of_union.
      - apply Hna. apply elem_of_app. by left.
      - apply (Hdis x); [|done]. right. apply elem_of_app. by left. }
    destruct (IH2 w2 ps2 qs' q_rest) as (cs2 & w3 & ps3 & Hc2 & Hq3 & Hv3 & Hd2);
      try done.
    { intros x Hx. rewrite Hv2. simpl.
      intros [Hin%elem_of_list_to_set|[->%elem_of_singleton|Hin]%elem_of_union]%elem_of_union.
      - by apply (Hd12 x).
      - apply Hna. apply elem_of_app. by right.
      - apply (Hdis x); [|done]. right. apply elem_of_app. by right. }
    exists ((a :: anc) :: cs1 ++ cs2), w3, ps3. repeat split.
    + unfold heads in *. simpl. rewrite omap_app. by rewrite Hc1, Hc2.
    + done.
    + rewrite Hv3, Hv2. simpl. rewrite list_to_set_app_L. set_solver.
    + intros n. simpl. rewrite Hnext.
      rewrite length_app, <- Nat.add_assoc, Hd1, Hd2.
      destruct (drain (down h) n w3 ps3) as [[cs' ps']|]; [|done].
      by rewrite <- app_assoc.
Qed.

Lemma traverse_tree h start l ps n :
  tree_below h start l →
  ∃ ps', traverse (S (length l + n)) h ps (VRef start)
         = Some (filter (λ x, is_object h x) l, ps').
Proof.
  intros [Hp Hnd].
  destruct (drain_forest h [start] l Hp (start_walker start) ps [[start]] [])
    as (cs & w2 & ps2 & Hc & Hq & Hv & Hd); try done.
  { by constructor. }
  unfold traverse. fold (down h).
  replace (S (length l + n)) with (length l + S n) by lia.
  rewrite Hd. simpl.
  destruct (next (down h) w2 ps2) as [[[c w3]|] ps3] eqn:Hn.
  - apply next_Some in Hn as (sk & item & rest & Hres & _).
    rewrite Hq in Hres. by destruct sk.
  - exists ps3. rewrite app_nil_r. unfold heads in Hc. by rewrite Hc.
Qed.

End TraverseFacts.

(** * Trees have one parent per node *)

Section TreeFacts.
Import JSONTreeWalker.

Lemma refers_kids h p a : refers h p a ↔ a ∈ kids h p.
Proof.
  unfold refers, kids. rewrite list_elem_of_omap. split.
  - intros H. by exists (VRef a).
  - intros (v & Hv & Hr). destruct v; [done|]. simpl in Hr. by injection Hr as ->.
Qed.

(** In a listing without repetition no root of the forest is the child of
    a listed node. *)
Lemma preorder_root_not_child h rs l :
  preorder h rs l → NoDup l →
  ∀ r q, r ∈ rs → q ∈ l → refers h q r → False.
Proof.
  induction 1 as [|a rest la lrest H1 _ H2 IH2]; intros Hnd r q Hr Hq Hqr.
  - by apply elem_of_nil in Hr.
  - apply NoDup_cons in Hnd as [Hna Hnd].
    apply NoDup_app in Hnd as (Hnd1 & Hd12 & Hnd2).
    assert (∀ x, x ∈ kids h a → x ∈ la) as Hkids
      by (intros x Hx; by apply (preorder_roots _ _ _ H1)).
    apply elem_of_cons in Hr as [->|Hr];
      apply elem_of_cons in Hq as [->|[Hq|Hq]%elem_of_app].
    + apply Hna, elem_of_app. left. by apply Hkids, refers_kids.
    + apply Hna, elem_of_app. left. by eapply preorder_closed.
    + apply Hna, elem_of_app. right. by eapply preorder_closed.
    + apply (Hd12 r); [by apply Hkids, refers_kids|].
      by apply (preorder_roots _ _ _ H2).
    + apply (Hd12 r); [by eapply preorder_closed|].
      by apply (preorder_roots _ _ _ H2).
    + by eapply IH2.
Qed.

Lemma preorder_unique_parent h rs l :
  preorder h rs l → NoDup l →
  ∀ p q a, p ∈ l → q ∈ l → refers h p a → refers h q a → p = q.
Proof.
  induction 1 as [|a0 rest la lrest H1 IH1 H2 IH2]; intros Hnd p q a Hp Hq Hpa Hqa.
  - by apply elem_of_nil in Hp.
  - apply NoDup_cons in Hnd as [Hna Hnd].
    apply NoDup_app in Hnd as (Hnd1 & Hd12 & Hnd2).
    assert (∀ x, x ∈ kids h a0 → x ∈ la) as Hkids
      by (intros x Hx; by apply (preorder_roots _ _ _ H1)).
    apply elem_of_cons in Hp as [->|[Hp|Hp]%elem_of_app];
      apply elem_of_cons in Hq as [->|[Hq|Hq]%elem_of_app]; try done.
    + exfalso. eapply (preorder_root_not_child _ _ _ H1 Hnd1 a q); try done.
      by apply refers_kids.
    + exfalso. apply (Hd12 a); [by apply Hkids, refers_kids|].
      by eapply preorder_closed.
    + exfalso. eapply (preorder_root_not_child _ _ _ H1 Hnd1 a p); try done.
      by apply refers_kids.
    + by eapply IH1.
    + exfalso. apply (Hd12 a); by eapply preorder_closed.
    + exfalso. apply (Hd12 a); [by apply Hkids, refers_kids|].
      by eapply preorder_closed.
    + exfalso. apply (Hd12 a); by eapply preorder_closed.
    + by eapply IH2.
Qed.

(** The tree invariant of a document: below the root the store is a tree. *)
Definition tree_invariant (h : heap) (root : addr) : Prop :=
  ∃ l, tree_below h root l.

Lemma tree_unique_parent h r p q a :
  tree_invariant h r →
  reachable h r p → reachable h r q → refers h p a → refers h q a → p = q.
Proof.
  intros (l & Hp & Hnd) Hrp Hrq. eapply preorder_unique_parent; try done.
  - by eapply preorder_complete.
  - by eapply preorder_complete.
Qed.

(** The parent cache agrees with the document: a cached parent that is
    still truthy holds the item, and belongs to the document whenever the
    item does. *)
Definition cache_fresh (h : heap) (root : addr) (ps : parent_cache) : Prop :=
  ∀ a p, ps !! a = Some p → truthy h p = true →
         refers h p a ∧ (reachable h root a → reachable h root p).

Lemma cache_fresh_sound h r ps : cache_fresh h r ps → cache_sound h ps.
Proof. intros Hf a p Ha Ht. by destruct (Hf a p Ha Ht). Qed.

(** Under the tree invariant the upward walk climbs from any node of the
    document to the root. *)
Lemma climbs_to_root h r ps x :
  tree_invariant h r → cache_fresh h r ps →
  reachable h r x →
  rtc (λ a b, b ∈ _walk_up h ps a) x r.
Proof.
  intros Ht Hf. induction 1 as [|b c Hrb IH Hbc]; [apply rtc_refl|].
  apply rtc_l with b; [|done].
  unfold _walk_up, _cached_parent.
  assert (b ∈ get_referrers h c) as Href by by apply elem_of_get_referrers.
  destruct (ps !! c) as [p|] eqn:Hc; [|done].
  destruct (truthy h p) eqn:Htp; [|done].
  destruct (Hf c p Hc Htp) as [Hpc Hreach].
  assert (p = b) as ->; [|by apply list_elem_of_singleton].
  eapply tree_unique_parent; try done.
  apply Hreach. by eapply reach_step.
Qed.

End TreeFacts.

Section Completeness.
Import JSONTreeWalker.
Context {St : Type}.
Variable neighbour_func : addr → St → list addr * St.
Variable nf : addr → list addr.
Hypothesis nf_pure : ∀ a s, (neighbour_func a s).1 = nf a.

(** A full run of the generator yields every node that neighbour steps
    reach from the start. *)
Lemma drain_complete n x s cs s' :
  drain neighbour_func n (start_walker x) s = Some (cs, s') →
  ∀ a, rtc (λ a b, b ∈ nf a) x a → a ∈ heads cs.
Proof.
  intros Hd.
  destruct (drain_closed neighbour_func nf nf_pure n _ _ _ _ Hd)
    as (Hq & _ & Hc & _ & _).
  simpl in *.
  assert (∀ a, a ∈ (∅ ∪ list_to_set (heads cs) : gset addr) ↔ a ∈ heads cs) as Hset.
  { intros a. rewrite elem_of_union, elem_of_list_to_set. set_solver. }
  apply rtc_ind_r.
  - apply Forall_cons in Hq as [Hx _]. simpl in Hx. by apply Hset.
  - intros b c _ Hbc Hb. apply Hset, (Hc b c); [done | done].
Qed.

End Completeness.

(** * The claim about traversal *)

Section TraverseClaim.
Import JSONTreeWalker.

(** The pre-order listing computed: a checker for [preorder] on a given
    store. *)
Fixpoint listing (fuel : nat) (h : heap) (rs : list addr) : option (list addr) :=
  match fuel, rs with
  | 0, _ => None
  | S _, [] => Some []
  | S fuel', a :: rest =>
      match listing fuel' h (kids h a), listing fuel' h rest with
      | Some la, Some lrest => Some (a :: la ++ lrest)
      | _, _ => None
      end
  end.

Lemma listing_preorder fuel : ∀ h rs l,
  listing fuel h rs = Some l → preorder h rs l.
Proof.
  induction fuel as [|fuel IH]; intros h rs l; simpl; [done|].
  destruct rs as [|a rest]; [intros [= <-]; constructor|].
  destruct (listing fuel h (kids h a)) as [la|] eqn:Ha; [|done].
  destruct (listing fuel h rest) as [lrest|] eqn:Hr; [|done].
  intros [= <-]. constructor; by apply IH.
Qed.

Lemma listing_tree_below fuel h start l :
  listing fuel h [start] = Some l → bool_decide (NoDup l) = true →
  tree_below h start l.
Proof.
  intros Hl Hnd. split; [by eapply listing_preorder|].
  by apply bool_decide_eq_true in Hnd.
Qed.

(** C2, as the code has it — below a container [start] whose part of the
    document is a tree with pre-order listing [l], [traverse(start)] yields
    exactly the objects of [l], in the order of [l]: object containers
    only, each reachable one once, children left to right, and [start]
    itself first when it is an object (an array start is left out).  The
    sequence does not depend on the parent cache, so a second call on the
    unchanged document yields it again. *)
Theorem traverse_is_preorder (h : heap) (start : addr) (l : list addr) :
  tree_below h start l →
  let ys := filter (λ x, is_object h x) l in
  (∀ n ps, length l < n →
     ∃ ps1 ps2,
       traverse n h ps (VRef start) = Some (ys, ps1)
       ∧ traverse n h ps1 (VRef start) = Some (ys, ps2))
  ∧ (∀ a, a ∈ ys ↔ reachable h start a ∧ is_object h a = true)
  ∧ NoDup ys
  ∧ (is_object h start = true → head ys = Some start)
  ∧ (is_object h start = false → start ∉ ys).
Proof.
  intros Ht ys. pose proof Ht as [Hp Hnd].
  assert (∀ a, a ∈ ys ↔ reachable h start a ∧ is_object h a = true) as Hmem.
  { intros a. unfold ys. rewrite list_elem_of_filter. split.
    - intros [Hobj Hin]. split; [|by destruct (is_object h a)].
      destruct (preorder_reachable _ _ _ Hp a Hin) as (r & Hr & Hreach).
      apply list_elem_of_singleton in Hr as ->. done.
    - intros [Hr Hobj]. split; [by rewrite Hobj|]. by eapply preorder_complete. }
  split; [|split; [exact Hmem|split; [by apply NoDup_filter|split]]].
  - intros n ps Hn.
    destruct (traverse_tree h start l ps (n - S (length l)) Ht) as [ps1 H1].
    destruct (traverse_tree h start l ps1 (n - S (length l)) Ht) as [ps2 H2].
    replace (S (length l + (n - S (length l)))) with n in * by lia.
    by exists ps1, ps2.
  - intros Hobj. unfold ys. inversion Hp; subst.
    rewrite filter_cons_True; [done|]. by rewrite Hobj.
  - intros Hobj [_ Hobj']%Hmem. congruence.
Qed.

Lemma traverse_is_preorder_witness :
  let h := [CDict true [("Metadata", VRef 1)];
            CList [VRef 2];
            CDict false [("node", VRef 3); ("grid", VRef 6)];
            CList [VRef 4; VRef 5];
            CDict false [("uid", VScalar (SStr "a"))];
            CDict false [("uid", VScalar (SStr "b"))];
            CList []] in
  tree_below h 3 [3; 4; 5]
  ∧ ∃ ps1 ps2,
      traverse 4 h ∅ (VRef 3) = Some ([4; 5], ps1)
      ∧ traverse 4 h ps1 (VRef 3) = Some ([4; 5], ps2).
Proof.
  assert (tree_below [CDict true [("Metadata", VRef 1)];
            CList [VRef 2];
            CDict false [("node", VRef 3); ("grid", VRef 6)];
            CList [VRef 4; VRef 5];
            CDict false [("uid", VScalar (SStr "a"))];
            CDict false [("uid", VScalar (SStr "b"))];
            CList []] 3 [3; 4; 5]) as Ht
    by (apply (listing_tree_below 5); reflexivity).
  split; [exact Ht|].
  exact (proj1 (traverse_is_preorder _ 3 [3; 4; 5] Ht) 4 ∅ (le_n 4)).
Defined.

(** C2 as stated fails where it says that [start] itself is excluded: an
    object passed as [start] is the first item yielded. *)
Lemma traverse_yields_start :
  traverse 2 [CDict false [("uid", VScalar (SStr "n"))]] ∅ (VRef 0)
  = Some ([0], ∅).
Proof. vm_compute. reflexivity. Qed.

End TraverseClaim.

(** * Paths as strings *)

Section StringFacts.
Import JSONTreeWalker JSONTree.

Fixpoint all_chars (p : ascii → bool) (s : string) : bool :=
  match s with
  | EmptyString => true
  | String c s' => p c && all_chars p s'
  end.

(** A field name that [\w+] matches whole: non-empty, word characters
    only. *)
Definition key_ok (k : string) : bool :=
  match k with
  | EmptyString => false
  | String _ _ => all_chars is_word k
  end.

(** [rest] does not go on with a character of the class [p]. *)
Definition stops (p : ascii → bool) (rest : string) : Prop :=
  match rest with
  | EmptyString => True
  | String c _ => p c = false
  end.

Lemma span_append p k rest :
  all_chars p k = true → stops p rest → span p (k +:+ rest) = (k, rest).
Proof.
  induction k as [|c k IH]; simpl.
  - intros _ Hs. destruct rest as [|c rest]; [done|]. simpl in *. by rewrite Hs.
  - intros [Hc Hk]%andb_true_iff Hs. rewrite Hc, IH; done.
Qed.

Lemma span_length p s :
  String.length s = String.length (span p s).1 + String.length (span p s).2.
Proof.
  induction s as [|c s IH]; simpl; [done|].
  destruct (p c); [|done].
  destruct (span p s) as [a b]. simpl in *. lia.
Qed.

Lemma findall_fuel n : ∀ s m,
  String.length s ≤ n → String.length s ≤ m → findall n s = findall m s.
Proof.
  induction n as [|n IH]; intros s m Hn Hm.
  - destruct s; [|simpl in Hn; lia]. by destruct m.
  - destruct s as [|c rest]; [by destruct m|].
    destruct m as [|m]; [simpl in Hm; lia|].
    simpl in Hn, Hm. simpl.
    pose proof (span_length is_word (if Ascii.eqb c "." then rest else String c rest)) as Hw.
    destruct (span is_word (if Ascii.eqb c "." then rest else String c rest))
      as [word after] eqn:Hspan.
    simpl in Hw. destruct word as [|w word].
    + assert (findall n rest = findall m rest) as Hrest by (apply IH; lia).
      destruct (Ascii.eqb c "["); [|done].
      pose proof (span_length is_digit rest) as Hd.
      destruct (span is_digit rest) as [ds after'] eqn:Hspan'.
      simpl in Hd. destruct ds as [|d ds]; [done|].
      destruct after' as [|b after']; [done|].
      destruct (Ascii.eqb_spec b "]") as [->|Hne].
      * f_equal. apply IH; simpl in Hd; lia.
      * destruct b as [[] [] [] [] [] [] [] []]; try done.
    + f_equal. simpl in Hw.
      destruct (Ascii.eqb c "."); simpl in Hw; apply IH; lia.
Qed.

Lemma findall_dot n k rest :
  key_ok k = true → stops is_word rest → String.length rest ≤ n →
  findall (S n) ("." +:+ k +:+ rest) = MKey k :: findall n rest.
Proof.
  intros Hk Hs Hn.
  change ("." +:+ k +:+ rest) with (String "." (k +:+ rest)).
  cbn [findall]. change (Ascii.eqb "." ".") with true. cbn iota.
  destruct k as [|c k]; [done|]. unfold key_ok in Hk.
  by rewrite (span_append is_word (String c k) rest Hk Hs).
Qed.

Lemma digits_of_uint d : all_chars is_digit (NilEmpty.string_of_uint d) = true.
Proof. induction d; simpl; done. Qed.

Lemma to_uint_nonnil n : Nat.to_uint n ≠ Decimal.Nil.
Proof.
  intros Hn. pose proof (Unsigned.to_of (Nat.to_uint n)) as H.
  rewrite Unsigned.of_to, Hn in H. discriminate H.
Qed.

Lemma str_of_nat_nonempty i : ∃ d ds, str_of_nat i = String d ds.
Proof.
  unfold str_of_nat. pose proof (to_uint_nonnil i) as Hn.
  destruct (Nat.to_uint i); try done; simpl; eauto.
Qed.

Lemma int_of_str_of_nat i :
  String.length (str_of_nat i) ≤ max_str_digits →
  int_of_digits (str_of_nat i) = Ok i.
Proof.
  intros Hlen. unfold int_of_digits.
  rewrite (proj2 (Nat.leb_le _ _) Hlen).
  unfold str_of_nat. rewrite NilEmpty.usu. simpl.
  f_equal. apply Unsigned.of_to.
Qed.

Lemma int_of_digits_long s :
  max_str_digits < String.length s → int_of_digits s = Raise ValueError.
Proof.
  intros Hlen. unfold int_of_digits.
  by rewrite (proj2 (Nat.leb_gt _ _) Hlen).
Qed.

Lemma findall_bracket n i rest :
  String.length rest ≤ n →
  findall (S n) ("[" +:+ str_of_nat i +:+ "]" +:+ rest)
  = MIndex (str_of_nat i) :: findall n rest.
Proof.
  intros Hn.
  change ("[" +:+ str_of_nat i +:+ "]" +:+ rest)
    with (String "[" (str_of_nat i +:+ String "]" rest)).
  cbn [findall]. change (Ascii.eqb "[" ".") with false. cbn iota.
  change (span is_word (String "[" (str_of_nat i +:+ String "]" rest)))
    with ("", String "[" (str_of_nat i +:+ String "]" rest)).
  cbn iota. change (Ascii.eqb "[" "[") with true. cbn iota.
  rewrite (span_append is_digit (str_of_nat i) (String "]" rest));
    [|apply digits_of_uint|done].
  destruct (str_of_nat_nonempty i) as (d & ds & Hd).
  by rewrite Hd.
Qed.

End StringFacts.

(** * Paths round-trip *)

Section RoundTrip.
Import JSONTreeWalker JSONTree.

(** Consecutive elements of a chain are parent and child. *)
Fixpoint linked (h : heap) (c : chain) : Prop :=
  match c with
  | a :: (b :: _) as t => refers h a b ∧ linked h t
  | _ => True
  end.

(** The edge from [p] to its child [c] can be written and read back: an
    object has distinct field names and holds [c] under a name that [\w+]
    matches whole; an array holds no other value equal to [c] before [c],
    and the position of [c] is a number that [int] reads (as every
    position is in CPython, where a list has fewer than [2 ^ 63] items). *)
Definition step_ok (h : heap) (p c : addr) : Prop :=
  match h !! p with
  | Some (CDict _ fields) =>
      NoDup fields.*1 ∧ ∀ k, (k, VRef c) ∈ fields → key_ok k = true
  | Some (CList items) =>
      (∀ i j v, items !! i = Some (VRef c) → j < i → items !! j = Some v →
                v ≠ VRef c → py_eq (length h) h v (VRef c) = Some false)
      ∧ (∀ i, items !! i = Some (VRef c) →
              String.length (str_of_nat i) ≤ max_str_digits)
  | None => False
  end.

Lemma all_eq_mono {A} (f g : A → option bool) l b :
  (∀ x b, f x = Some b → g x = Some b) →
  all_eq f l = Some b → all_eq g l = Some b.
Proof.
  intros Hfg. induction l as [|x l IH]; simpl; [done|].
  destruct (f x) as [[]|] eqn:Hf; [|by intros [= <-]; rewrite (Hfg _ _ Hf)|done].
  rewrite (Hfg _ _ Hf). exact IH.
Qed.

Lemma py_eq_mono n : ∀ h v w b,
  py_eq n h v w = Some b → py_eq (S n) h v w = Some b.
Proof.
  induction n as [|n IH]; intros h v w b.
  - destruct v as [s|a], w as [t|a']; simpl; try done.
    by destruct (decide (a = a')).
  - destruct v as [s|a], w as [t|a']; try done.
    intros H. simpl in H. change (py_eq (S (S n)) h (VRef a) (VRef a')) with
      (if decide (a = a') then Some true
       else match h !! a, h !! a' with
            | Some (CDict _ fs), Some (CDict _ gs) =>
                if decide (length fs = length gs) then
                  all_eq (λ kx, match dict_get gs kx.1 with
                                | Some y => py_eq (S n) h y kx.2
                                | None => Some false
                                end) fs
                else Some false
            | Some (CList xs), Some (CList ys) =>
                if decide (length xs = length ys) then
                  all_eq (λ xy, py_eq (S n) h xy.1 xy.2) (zip xs ys)
                else Some false
            | _, _ => Some false
            end).
    destruct (decide (a = a')); [done|].
    destruct (h !! a) as [[ra fs|xs]|]; destruct (h !! a') as [[rb gs|ys]|]; try done.
    + destruct (decide (length fs = length gs)); [|done].
      revert H. apply all_eq_mono. intros [k x] b'. simpl.
      destruct (dict_get gs k); [apply IH | done].
    + destruct (decide (length xs = length ys)); [|done].
      revert H. apply all_eq_mono. intros [x y] b'. apply IH.
Qed.

Lemma py_eq_ge n m h v w b :
  py_eq n h v w = Some b → n ≤ m → py_eq m h v w = Some b.
Proof. intros H Hle. induction Hle; [done | by apply py_eq_mono]. Qed.

Lemma py_eq_same n h v : py_eq n h v v = Some true.
Proof.
  assert (∀ s, scalar_eqb s s = true) as Hs.
  { intros [|b|z|s]; simpl; try done; by apply bool_decide_eq_true_2. }
  destruct n, v as [s|a]; simpl; rewrite ?Hs; try done;
    by destruct (decide (a = a)).
Qed.

Lemma list_index_first n h c : ∀ items i k,
  items !! i = Some (VRef c) →
  (∀ j v, j < i → items !! j = Some v → v ≠ VRef c →
          py_eq n h v (VRef c) = Some false) →
  ∃ i', items !! i' = Some (VRef c)
        ∧ list_index n h items (VRef c) k = Some (Ok (k + i')).
Proof.
  induction items as [|el items IH]; intros i k Hi Hbefore; [done|].
  simpl. destruct (decide (el = VRef c)) as [->|Hne].
  - exists 0. rewrite py_eq_same, Nat.add_0_r. done.
  - destruct i as [|i]; [simpl in Hi; congruence|].
    rewrite (Hbefore 0 el); [|lia|done|done].
    destruct (IH i (S k) Hi) as (i' & Hi' & Hidx).
    { intros j v Hj Hv. apply (Hbefore (S j)); [lia | done]. }
    exists (S i'). split; [done|]. rewrite Hidx. do 2 f_equal. lia.
Qed.

Lemma dict_get_unique fields k v :
  NoDup fields.*1 → (k, v) ∈ fields → dict_get fields k = Some v.
Proof.
  unfold dict_get. induction fields as [|[k' v'] fields IH]; intros Hnd Hin.
  - by apply elem_of_nil in Hin.
  - simpl in *. apply NoDup_cons in Hnd as [Hk' Hnd].
    destruct (bool_decide_reflect (k' = k)) as [->|Hne].
    + apply elem_of_cons in Hin as [[= <-]|Hin]; [done|].
      exfalso. apply Hk'. apply list_elem_of_fmap. by exists (k, v).
    + apply elem_of_cons in Hin as [[= -> ->]|Hin]; [done|]. by apply IH.
Qed.

Lemma find_child fields c :
  VRef c ∈ fields.*2 →
  ∃ key, List.find (λ kv : string * value, bool_decide (kv.2 = VRef c)) fields
         = Some (key, VRef c)
         ∧ (key, VRef c) ∈ fields.
Proof.
  induction fields as [|[k v] fields IH]; simpl.
  - by intros ?%elem_of_nil.
  - destruct (bool_decide_reflect (v = VRef c)) as [->|Hne].
    + intros _. exists k. split; [done | by left].
    + intros [?|Hin]%elem_of_cons; [done|].
      destruct (IH Hin) as (key & Hf & Hk). exists key. split; [done | by right].
Qed.

Lemma key_selector_stops sel rest :
  (∃ k, sel = "." +:+ k) ∨ (∃ i, sel = "[" +:+ str_of_nat i +:+ "]") →
  stops is_word (sel +:+ rest).
Proof. by intros [[k ->]|[i ->]]. Qed.

Lemma append_assoc s t u : (s +:+ t) +:+ u = s +:+ (t +:+ u).
Proof.
  induction s as [|c s IH]; [done|].
  change (String c ((s +:+ t) +:+ u) = String c (s +:+ (t +:+ u))). by f_equal.
Qed.

Lemma length_append s t :
  String.length (s +:+ t) = String.length s + String.length t.
Proof.
  induction s as [|c s IH]; [done|].
  change (S (String.length (s +:+ t)) = S (String.length s + String.length t)).
  by f_equal.
Qed.

Lemma join_keys_cons n h parent child rest :
  join_keys n h ((parent, child) :: rest)
  = match _get_json_key n h parent child with
    | None => None
    | Some (Raise StopIteration) => Some (Raise RuntimeError)
    | Some (Raise e) => Some (Raise e)
    | Some (Ok key) =>
        match join_keys n h rest with
        | Some (Ok path) => Some (Ok (key +:+ path))
        | r => r
        end
    end.
Proof. done. Qed.

(** Writing the selectors of a linked chain and reading them back from
    its head leads to its last element. *)
Lemma chain_roundtrip h n x : length h ≤ n → ∀ c a,
  head c = Some a → last c = Some x → linked h c →
  (∀ p q, (p, q) ∈ pairwise c → step_ok h p q) →
  ∃ path, join_keys n h (pairwise c) = Some (Ok path)
          ∧ stops is_word path
          ∧ ∀ m, String.length path ≤ m →
                 ∃ keys, parse_matches (findall m path) = Ok keys
                         ∧ follow h (VRef a) keys = Ok (Some (VRef x)).
Proof.
  intros Hn. induction c as [|a' c IH]; intros a Hhead Hlast Hlink Hok; [done|].
  simpl in Hhead. injection Hhead as ->.
  destruct c as [|b c].
  - simpl in Hlast. injection Hlast as ->. exists "". repeat split.
    intros m _. exists []. by destruct m.
  - destruct Hlink as [Hab Hlink].
    destruct (IH b) as (path & Hjoin & Hstop & Hfollow); try done.
    { intros p q Hpq. apply Hok. simpl. by right. }
    assert (step_ok h a b) as Hstep by (apply Hok; simpl; by left).
    unfold step_ok in Hstep. unfold refers, children in Hab.
    change (pairwise (a :: b :: c)) with ((a, b) :: pairwise (b :: c)).
    rewrite join_keys_cons, Hjoin. unfold _get_json_key.
    destruct (h !! a) as [[root fields|items]|] eqn:Ha; [| |done]; simpl in Hab.
    + destruct Hstep as [Hnd Hkeys].
      destruct (find_child fields b Hab) as (key & -> & Hin).
      exists ("." +:+ key +:+ path). split; [done|]. split; [done|].
      intros m Hm. change ("." +:+ key +:+ path) with (String "." (key +:+ path)) in Hm.
      simpl in Hm. rewrite length_append in Hm.
      destruct m as [|m]; [lia|].
      rewrite findall_dot; [|by apply Hkeys|done|lia].
      destruct (Hfollow m ltac:(lia)) as (keys & Hparse & Hkeys').
      exists (KStr key :: keys). cbn [parse_matches]. rewrite Hparse.
      split; [done|].
      cbn [follow]. unfold getitem. rewrite Ha.
      by rewrite (dict_get_unique fields key (VRef b) Hnd Hin).
    + destruct Hstep as [Hstep Hdigits].
      apply list_elem_of_lookup in Hab as [i Hi].
      destruct (list_index_first n h b items i 0 Hi) as (i' & Hi' & ->).
      { intros j v Hj Hv Hne. eapply py_eq_ge; [|exact Hn].
        by apply (Hstep i j v). }
      simpl.
      exists ("[" +:+ str_of_nat i' +:+ "]" +:+ path).
      split; [by rewrite <- (append_assoc (str_of_nat i') "]" path)|]. split; [done|].
      intros m Hm.
      change ("[" +:+ str_of_nat i' +:+ "]" +:+ path)
        with (String "[" (str_of_nat i' +:+ String "]" path)) in Hm.
      simpl in Hm. rewrite length_append in Hm. simpl in Hm.
      destruct m as [|m]; [lia|].
      rewrite findall_bracket; [|lia].
      destruct (Hfollow m ltac:(lia)) as (keys & Hparse & Hkeys').
      exists (KInt i' :: keys). cbn [parse_matches].
      rewrite (int_of_str_of_nat i' (Hdigits i' Hi')), Hparse.
      split; [done|].
      cbn [follow]. unfold getitem. by rewrite Ha, Hi'.
Qed.

End RoundTrip.

Section ChainFacts.
Import JSONTreeWalker JSONTree.

Lemma valid_chain_linked h ps x c :
  cache_sound h ps → valid_chain (_walk_up h ps) x c →
  linked h c ∧ last c = Some x.
Proof.
  intros Hs. induction c as [|a c IH]; simpl; [done|].
  destruct c as [|b c].
  - by intros ->.
  - intros [Hab Hv]. destruct (IH Hv) as [Hl Hlast].
    split; [|done]. split; [by eapply walk_up_sound | done].
Qed.

Lemma linked_reachable h c : ∀ a x,
  linked h c → head c = Some a → last c = Some x → reachable h a x.
Proof.
  induction c as [|a' c IH]; intros a x Hl Hh Hlast; [done|].
  simpl in Hh. injection Hh as ->. destruct c as [|b c].
  - simpl in Hlast. injection Hlast as ->. apply reach_refl.
  - destruct Hl as [Hab Hl]. eapply reachable_step_l; [exact Hab|].
    by apply IH.
Qed.

Lemma linked_pairs h c : ∀ a x,
  linked h c → head c = Some a → last c = Some x →
  ∀ p q, (p, q) ∈ pairwise c →
         reachable h a p ∧ refers h p q ∧ reachable h q x.
Proof.
  induction c as [|a' c IH]; intros a x Hl Hh Hlast p q Hpq.
  - by apply elem_of_nil in Hpq.
  - simpl in Hh. injection Hh as ->. destruct c as [|b c].
    + by apply elem_of_nil in Hpq.
    + destruct Hl as [Hab Hl].
      change (pairwise (a :: b :: c)) with ((a, b) :: pairwise (b :: c)) in Hpq.
      apply elem_of_cons in Hpq as [[= -> ->]|Hpq].
      * split; [apply reach_refl|]. split; [done|]. by eapply linked_reachable.
      * destruct (IH b x Hl eq_refl Hlast p q Hpq) as (Hbp & Hpq' & Hqx).
        split; [|done]. by eapply reachable_step_l.
Qed.

Lemma removelast_last {A} (c : list A) x :
  last c = Some x → removelast c ++ [x] = c.
Proof.
  induction c as [|a c IH]; [done|]. destruct c as [|b c].
  - by intros [= ->].
  - intros Hl. change (removelast (a :: b :: c)) with (a :: removelast (b :: c)).
    simpl. f_equal. by apply IH.
Qed.

(** In a document satisfying the tree invariant [parents] finds the chain
    from the root down to any container of the document. *)
Lemma parents_finds_chain h r ps x :
  is_root h r = true → tree_invariant h r → cache_fresh h r ps →
  reachable h r x →
  (∀ r', is_root h r' = true → reachable h r' x → r' = r) →
  ∀ n, size (up_universe h ps x) < n →
  ∃ c, parents n h ps x = Some (Some (removelast c), cache_chain c ps)
       ∧ head c = Some r ∧ last c = Some x ∧ linked h c.
Proof.
  intros Hroot Ht Hf Hreach Hsingle n Hn.
  pose proof (cache_fresh_sound _ _ _ Hf) as Hs.
  destruct (up_drain_total h ps x n Hn) as [cs Hd].
  unfold parents. rewrite (parents_loop_drain _ _ _ _ _ _ Hd).
  assert (Forall (valid_chain (_walk_up h ps) x) cs) as Hv.
  { eapply (drain_valid (up h ps) (_walk_up h ps) (λ _ _, eq_refl)); [exact Hd| |].
    - simpl. by constructor.
    - by simpl. }
  assert (r ∈ heads cs) as Hr.
  { eapply (drain_complete (up h ps) (_walk_up h ps) (λ _ _, eq_refl)); [exact Hd|].
    by apply climbs_to_root. }
  destruct (List.find (top_is_root h) cs) as [c|] eqn:Hfind.
  - apply find_some in Hfind as [Hin Htop]. apply list_elem_of_In in Hin.
    rewrite Forall_forall in Hv. specialize (Hv c Hin).
    destruct (valid_chain_linked _ _ _ _ Hs Hv) as [Hl Hlast].
    destruct c as [|top c]; [done|]. simpl in Htop.
    assert (top = r) as ->.
    { apply Hsingle; [done|]. by eapply (linked_reachable h (top :: c)). }
    by exists (r :: c).
  - exfalso. unfold heads in Hr. apply list_elem_of_omap in Hr as (c & Hc & Hh).
    apply list_elem_of_In in Hc.
    pose proof (find_none _ _ Hfind c Hc) as Hno.
    destruct c as [|t c]; [done|]. simpl in Hh, Hno. injection Hh as ->.
    congruence.
Qed.

End ChainFacts.

(** * The claim about the path round trip *)

Section RoundTripClaim.
Import JSONTreeWalker JSONTree.

(** No memoised answer of [locate] is stale. *)
Definition memo_fresh (h : heap) (root : addr) (memo : locate_memo) : Prop :=
  ∀ p v, memo !! p = Some v →
         ∃ keys, parse_json_path p = Ok keys
                 ∧ follow h (VRef root) keys = Ok v.

(** C1, as the code has it — in a document satisfying the tree invariant,
    for every container [x] of the document other than the root that
    belongs to no other document.  The parent cache is to be fresh for the
    document: a parent it records, unless empty, holds the container it is
    recorded for, and is a container of the document whenever that
    container is one (a cache in which every recorded parent holds its
    container is not enough: the parent may lie outside the document).
    The memo of [locate] is to hold no stale answer.  If along the path
    from the root to [x] every object has distinct field names and holds
    the next container under a non-empty name of word characters, and
    every array holds no value equal to the next container before it, at a
    position that [int] reads, then [json_path(x)] is a path and [locate]
    of that path is [x] itself. *)
Theorem path_round_trip (h : heap) (r : addr) (ps : parent_cache)
    (memo : locate_memo) (x : addr) :
  is_root h r = true →
  tree_invariant h r →
  cache_fresh h r ps →
  memo_fresh h r memo →
  reachable h r x → x ≠ r →
  (∀ r', is_root h r' = true → reachable h r' x → r' = r) →
  (∀ p c, reachable h r p → refers h p c → reachable h c x → step_ok h p c) →
  ∃ n0, ∀ n, n0 ≤ n →
    ∃ path ps',
      json_path n h ps x = Some (Ok path, ps')
      ∧ (locate h r memo path).1 = Ok (Some (VRef x)).
Proof.
  intros Hroot Ht Hf Hm Hreach Hne Hsingle Hsteps.
  exists (S (size (up_universe h ps x)) + length h). intros n Hn.
  destruct (parents_finds_chain h r ps x Hroot Ht Hf Hreach Hsingle n)
    as (c & Hp & Hhead & Hlast & Hlink); [lia|].
  destruct (chain_roundtrip h n x ltac:(lia) c r Hhead Hlast Hlink)
    as (path & Hjoin & _ & Hfollow).
  { intros p q Hpq.
    destruct (linked_pairs h c r x Hlink Hhead Hlast p q Hpq) as (? & ? & ?).
    by apply Hsteps. }
  exists path, (cache_chain c ps). split.
  - unfold json_path. rewrite Hp.
    destruct c as [|a [|b c]]; [done| |].
    + simpl in Hhead, Hlast. congruence.
    + pose proof (removelast_last _ _ Hlast) as Hrl.
      change (removelast (a :: b :: c)) with (a :: removelast (b :: c)) in *.
      cbn iota. rewrite Hrl. by rewrite Hjoin.
  - destruct (Hfollow (String.length path) (le_n _)) as (keys & Hparse & Hfol).
    unfold locate. destruct (memo !! path) as [v|] eqn:Hmemo.
    + simpl. apply Hm in Hmemo as (keys' & Hparse' & Hfol').
      unfold parse_json_path in Hparse'. rewrite Hparse in Hparse'.
      injection Hparse' as <-. rewrite Hfol in Hfol'. by injection Hfol' as <-.
    + unfold parse_json_path. by rewrite Hparse, Hfol.
Qed.

(** Checkers for the hypotheses of [path_round_trip] on a given store. *)
Definition step_okb (h : heap) (p c : addr) : bool :=
  match h !! p with
  | Some (CDict _ fields) =>
      bool_decide (NoDup fields.*1)
      && forallb (λ kv, negb (bool_decide (kv.2 = VRef c)) || key_ok kv.1) fields
  | Some (CList items) =>
      forallb (λ v, bool_decide (v = VRef c)
                    || bool_decide (py_eq (length h) h v (VRef c) = Some false))
              items
      && forallb (λ i, String.length (str_of_nat i) <=? max_str_digits)
                 (seq 0 (length items))
  | None => false
  end.

Definition edges_ok (h : heap) : bool :=
  forallb (λ p, forallb (step_okb h p) (kids h p)) (seq 0 (length h)).

Definition roots (h : heap) : list addr :=
  filter (λ a, is_root h a = true) (seq 0 (length h)).

Lemma step_okb_sound h p c : step_okb h p c = true → step_ok h p c.
Proof.
  unfold step_okb, step_ok. destruct (h !! p) as [[root fields|items]|]; [| |done].
  - intros [Hnd Hall]%andb_true_iff. split; [by apply bool_decide_eq_true in Hnd|].
    intros k Hin. rewrite forallb_forall in Hall.
    apply list_elem_of_In in Hin. specialize (Hall _ Hin). simpl in Hall.
    rewrite bool_decide_eq_true_2 in Hall; done.
  - intros [Hall Hdigits]%andb_true_iff. split.
    + intros i j v _ _ Hj Hne. rewrite forallb_forall in Hall.
      apply list_elem_of_lookup_2, list_elem_of_In in Hj. specialize (Hall _ Hj).
      apply orb_true_iff in Hall as [Heq|Heq]; apply bool_decide_eq_true in Heq; done.
    + intros i Hi. rewrite forallb_forall in Hdigits.
      apply Nat.leb_le, Hdigits, list_elem_of_In, elem_of_seq.
      apply lookup_lt_Some in Hi. lia.
Qed.

Lemma edges_ok_sound h :
  edges_ok h = true → ∀ p c, refers h p c → step_ok h p c.
Proof.
  unfold edges_ok. rewrite forallb_forall. intros Hall p c Hpc.
  apply step_okb_sound.
  assert (p ∈ seq 0 (length h)) as Hp.
  { apply elem_of_get_referrers in Hpc. unfold get_referrers in Hpc.
    by apply list_elem_of_filter in Hpc as [_ ?]. }
  apply list_elem_of_In in Hp. specialize (Hall p Hp).
  rewrite forallb_forall in Hall. apply Hall, list_elem_of_In.
  by apply refers_kids.
Qed.

Lemma only_root h r :
  roots h = [r] → ∀ r', is_root h r' = true → r' = r.
Proof.
  intros Hr r' Hroot. assert (r' ∈ roots h) as Hin.
  { unfold roots. apply list_elem_of_filter. split; [done|].
    apply elem_of_seq. split; [lia|]. simpl. unfold is_root in Hroot.
    destruct (h !! r') eqn:Hl; [|done]. by apply lookup_lt_Some in Hl. }
  rewrite Hr in Hin. by apply list_elem_of_singleton in Hin.
Qed.

Lemma memo_fresh_empty h r : memo_fresh h r ∅.
Proof. intros p v Hl. by rewrite lookup_empty in Hl. Qed.

Lemma cache_fresh_empty h r : cache_fresh h r ∅.
Proof. intros a p Hl. by rewrite lookup_empty in Hl. Qed.

Lemma path_round_trip_witness :
  let h := [CDict true [("Metadata", VRef 1)];
            CList [VRef 2];
            CDict false [("node", VRef 3); ("grid", VRef 6)];
            CList [VRef 4; VRef 5];
            CDict false [("uid", VScalar (SStr "a"))];
            CDict false [("uid", VScalar (SStr "b"))];
            CList []] in
  tree_below h 0 [0; 1; 2; 3; 4; 5; 6]
  ∧ reachable h 0 5
  ∧ json_path 8 h ∅ 5 = Some (Ok ".Metadata[0].node[1]", cache_chain [0; 1; 2; 3; 5] ∅)
  ∧ ∃ n0, ∀ n, n0 ≤ n →
      ∃ path ps', json_path n h ∅ 5 = Some (Ok path, ps')
                  ∧ (locate h 0 ∅ path).1 = Ok (Some (VRef 5)).
Proof.
  set (h := [CDict true [("Metadata", VRef 1)];
            CList [VRef 2];
            CDict false [("node", VRef 3); ("grid", VRef 6)];
            CList [VRef 4; VRef 5];
            CDict false [("uid", VScalar (SStr "a"))];
            CDict false [("uid", VScalar (SStr "b"))];
            CList []]).
  assert (tree_below h 0 [0; 1; 2; 3; 4; 5; 6]) as Ht
    by (apply (listing_tree_below 9); reflexivity).
  assert (reachable h 0 5) as Hreach.
  { destruct Ht as [Hp _].
    destruct (preorder_reachable _ _ _ Hp 5) as (r & Hr & Hr5).
    - by repeat (first [left | right]).
    - apply list_elem_of_singleton in Hr as ->. exact Hr5. }
  simpl. split; [exact Ht|]. split; [exact Hreach|].
  split; [vm_compute; reflexivity|].
  apply (path_round_trip h 0 ∅ ∅ 5).
  - reflexivity.
  - by exists [0; 1; 2; 3; 4; 5; 6].
  - apply cache_fresh_empty.
  - apply memo_fresh_empty.
  - exact Hreach.
  - discriminate.
  - intros r' Hr' _. by apply (only_root h 0).
  - intros p c _ Hpc _. by apply edges_ok_sound.
Defined.

(** C1 as stated fails in four ways, each on a document satisfying the
    tree invariant.  The root is reachable, yet its path is the sentinel,
    which [locate] does not resolve.  A field name that is not a word is
    written into the path but not read back.  [list.index] compares by
    value: of two equal objects in an array the second gets the path of the
    first, and [locate] returns the first.  And the parent cache is
    trusted: after a traversal of the data the document was made from (the
    [JSONTreeRoot] is a shallow copy, so the two share their children) every
    recorded parent does hold its container, yet the walk up from an object
    of the document ends at the data, not at the root, and its path is the
    sentinel. *)
Lemma path_round_trip_fails :
  (let h := [CDict true [("data", VRef 1)]; CList []] in
   tree_below h 0 [0; 1]
   ∧ json_path 3 h ∅ 0 = Some (Ok "<broken_json_path>", ∅)
   ∧ (locate h 0 ∅ "<broken_json_path>").1 = Ok None)
  ∧ (let h := [CDict true [("line description", VRef 1)]; CList []] in
     tree_below h 0 [0; 1]
     ∧ json_path 3 h ∅ 1 = Some (Ok ".line description", {[1 := 0]})
     ∧ (locate h 0 ∅ ".line description").1 = Ok None)
  ∧ (let h := [CDict true [("values", VRef 1)];
               CList [VRef 2; VRef 3];
               CDict false [("value", VScalar (SInt 0))];
               CDict false [("value", VScalar (SInt 0))]] in
     tree_below h 0 [0; 1; 2; 3]
     ∧ json_path 5 h ∅ 3 = Some (Ok ".values[0]", {[1 := 0; 3 := 1]})
     ∧ (locate h 0 ∅ ".values[0]").1 = Ok (Some (VRef 2)))
  ∧ (let h := [CDict true [("values", VRef 2)];
               CDict false [("values", VRef 2)];
               CList [VRef 3];
               CDict false [("value", VScalar (SInt 0))]] in
     let ps : parent_cache := {[2 := 1; 3 := 2]} in
     tree_below h 0 [0; 2; 3]
     ∧ traverse 5 h ∅ (VRef 1) = Some ([1; 3], ps)
     ∧ cache_sound h ps
     ∧ json_path 5 h ps 3 = Some (Ok "<broken_json_path>", ps)).
Proof.
  split; [|split; [|split] ]; simpl.
  - split; [by apply (listing_tree_below 4)|]. split; vm_compute; reflexivity.
  - split; [by apply (listing_tree_below 4)|]. split; vm_compute; reflexivity.
  - split; [by apply (listing_tree_below 6)|]. split; vm_compute; reflexivity.
  - split; [by apply (listing_tree_below 6)|].
    split; [vm_compute; reflexivity|]. split; [|vm_compute; reflexivity].
    intros a p Hp _.
    destruct (decide (a = 2)) as [->|Ha2].
    + rewrite lookup_insert_eq in Hp. injection Hp as <-.
      apply (refers_kids _ 1 2). vm_compute. by left.
    + rewrite lookup_insert_ne in Hp by done.
      apply lookup_singleton_Some in Hp as [<- <-].
      apply (refers_kids _ 2 3). vm_compute. by left.
Qed.

End RoundTripClaim.

(** * The catalog keeps its indexes consistent *)

Section CatalogFacts.
Import JSONCatalog.

(** The ids filed under the value key [k] of attribute [a]. *)
Definition bucket (ixs : list (string * buckets)) (a : string) (k : scalar)
  : gset addr :=
  match find_index ixs a with
  | Some b => default ∅ (b !! k)
  | None => ∅
  end.

Lemma find_index_cons a' b ixs a :
  find_index ((a', b) :: ixs) a
  = if decide (a' = a) then Some b else find_index ixs a.
Proof.
  unfold find_index. simpl.
  destruct (decide (a' = a)) as [->|Hne].
  - by rewrite bool_decide_eq_true_2.
  - by rewrite bool_decide_eq_false_2.
Qed.

Lemma find_index_Some ixs a :
  a ∈ ixs.*1 → ∃ b, find_index ixs a = Some b.
Proof.
  induction ixs as [|[a' b] ixs IH]; simpl.
  - by intros ?%elem_of_nil.
  - rewrite find_index_cons. destruct (decide (a' = a)); [eauto|].
    intros [?|Hin]%elem_of_cons; [done | by apply IH].
Qed.

Lemma find_index_None ixs a :
  a ∉ ixs.*1 → find_index ixs a = None.
Proof.
  induction ixs as [|[a' b] ixs IH]; simpl; [done|].
  rewrite find_index_cons. intros Hnin.
  destruct (decide (a' = a)) as [->|]; [exfalso; apply Hnin; by left|].
  apply IH. intros Hin. apply Hnin. by right.
Qed.

Lemma set_index_keys ixs a b : (set_index ixs a b).*1 = ixs.*1.
Proof.
  unfold set_index. induction ixs as [|[a' b'] ixs IH]; csimpl; [done|].
  rewrite IH. by destruct (decide (a' = a)) as [->|].
Qed.

Lemma find_set_index ixs a b a' :
  find_index (set_index ixs a b) a'
  = if decide (a = a') then (λ _, b) <$> find_index ixs a' else find_index ixs a'.
Proof.
  unfold set_index. induction ixs as [|[a0 b0] ixs IH]; csimpl.
  - by destruct (decide (a = a')).
  - destruct (decide (a0 = a)) as [->|Hne]; csimpl; rewrite !find_index_cons, IH.
    + destruct (decide (a = a')); done.
    + destruct (decide (a0 = a')) as [->|]; [|done].
      by destruct (decide (a = a')).
Qed.

(** Python's [==] on scalars is equality of hash keys. *)
Lemma scalar_eqb_hkey s v :
  JSONTreeWalker.scalar_eqb s v = true ↔ hkey s = hkey v.
Proof.
  destruct s as [|[]|z|s], v as [|[]|z'|s']; simpl; try done;
    rewrite ?bool_decide_eq_true; split; try congruence; try done.
Qed.

Lemma bucket_cons a' b ixs a k :
  bucket ((a', b) :: ixs) a k
  = if decide (a' = a) then default ∅ (b !! k) else bucket ixs a k.
Proof. unfold bucket. rewrite find_index_cons. by destruct (decide (a' = a)). Qed.

Lemma bucket_unconfigured ixs a k : a ∉ ixs.*1 → bucket ixs a k = ∅.
Proof. intros Ha. unfold bucket. by rewrite find_index_None. Qed.

Lemma discard_from_spec ixs attr value item :
  item ∈ bucket ixs attr (hkey value) →
  ∃ ixs', discard_from ixs attr value item = Ok ixs'
          ∧ ixs'.*1 = ixs.*1
          ∧ ∀ a k, bucket ixs' a k
                   = if decide (a = attr ∧ k = hkey value)
                     then bucket ixs a k ∖ {[item]} else bucket ixs a k.
Proof.
  unfold bucket at 1, discard_from. intros Hin.
  destruct (find_index ixs attr) as [b|] eqn:Hb; [|by apply not_elem_of_empty in Hin].
  destruct (b !! hkey value) as [ids|] eqn:Hids; [|by apply not_elem_of_empty in Hin].
  simpl in Hin. eexists. split; [done|]. split; [apply set_index_keys|].
  intros a k. unfold bucket. rewrite find_set_index.
  destruct (decide (attr = a)) as [<-|Hne].
  - rewrite Hb. simpl. destruct (decide (k = hkey value)) as [->|Hk].
    + destruct (decide (attr = attr ∧ hkey value = hkey value)) as [_|Hn];
        [|exfalso; by apply Hn].
      rewrite Hids. simpl.
      destruct (decide (ids ∖ {[item]} = ∅)) as [He|He].
      * by rewrite lookup_delete_eq, He.
      * by rewrite lookup_insert_eq.
    + destruct (decide (attr = attr ∧ k = hkey value)) as [[_ ?]|_]; [done|].
      destruct (decide (ids ∖ {[item]} = ∅)).
      * by rewrite lookup_delete_ne.
      * by rewrite lookup_insert_ne.
  - destruct (decide (a = attr ∧ k = hkey value)) as [[? _]|_]; [congruence|done].
Qed.

Lemma discard_all_spec item : ∀ snap ixs,
  NoDup snap.*1 →
  (∀ a v, (a, v) ∈ snap → item ∈ bucket ixs a (hkey v)) →
  ∃ ixs', discard_all ixs snap item = (Ok (), ixs')
          ∧ ixs'.*1 = ixs.*1
          ∧ ∀ a k i, i ∈ bucket ixs' a k
                     ↔ i ∈ bucket ixs a k
                       ∧ ¬ (i = item ∧ ∃ v, (a, v) ∈ snap ∧ hkey v = k).
Proof.
  induction snap as [|[attr value] snap IH]; intros ixs Hnd Hin.
  - exists ixs. split; [done|]. split; [done|]. intros a k i. split.
    + intros Hi. split; [done|]. intros (_ & v & Hv & _). by apply elem_of_nil in Hv.
    + by intros [? _].
  - csimpl in Hnd. apply NoDup_cons in Hnd as [Hattr Hnd].
    destruct (discard_from_spec ixs attr value item) as (ixs1 & Hd & Hk1 & Hb1).
    { apply Hin. by left. }
    simpl. rewrite Hd.
    destruct (IH ixs1 Hnd) as (ixs' & Hall & Hk' & Hb').
    { intros a v Hav. rewrite Hb1. rewrite decide_False.
      - apply Hin. by right.
      - intros [-> _]. apply Hattr. apply list_elem_of_fmap. by exists (attr, v). }
    exists ixs'. split; [done|]. split; [congruence|].
    intros a k i. rewrite Hb', Hb1. split.
    + intros [Hi Hno]. destruct (decide (a = attr ∧ k = hkey value)) as [[-> ->]|Hne].
      * apply elem_of_difference in Hi as [Hi Hni]. split; [done|].
        intros [-> _]. apply Hni. by apply elem_of_singleton.
      * split; [done|]. intros (-> & v & [[= -> ->]|Hv]%elem_of_cons & Hkv).
        -- by apply Hne.
        -- apply Hno. split; [done|]. by exists v.
    + intros [Hi Hno]. split.
      * destruct (decide (a = attr ∧ k = hkey value)) as [[-> ->]|Hne]; [|done].
        apply elem_of_difference. split; [done|]. intros ->%elem_of_singleton.
        apply Hno. split; [done|]. exists value. split; [by left | done].
      * intros (-> & v & Hv & Hkv). apply Hno. split; [done|].
        exists v. split; [by right | done].
Qed.

Lemma set_value_spec snap a s :
  NoDup snap.*1 →
  NoDup (set_value snap a s).*1
  ∧ ∀ a' s', (a', s') ∈ set_value snap a s
             ↔ (a' = a ∧ s' = s) ∨ (a' ≠ a ∧ (a', s') ∈ snap).
Proof.
  intros Hnd. unfold set_value. destruct (decide (a ∈ snap.*1)) as [Hin|Hnin].
  - assert (((λ av : string * scalar, if decide (av.1 = a) then (a, s) else av)
               <$> snap).*1 = snap.*1) as Hkeys.
    { clear. induction snap as [|[a0 s0] snap IH]; csimpl; [done|].
      rewrite IH. by destruct (decide (a0 = a)) as [->|]. }
    split; [by rewrite Hkeys|].
    intros a' s'. rewrite list_elem_of_fmap. split.
    + intros ([a0 s0] & Heq & Hin0). simpl in Heq.
      destruct (decide (a0 = a)) as [->|Hne].
      * injection Heq as -> ->. by left.
      * injection Heq as -> ->. by right.
    + intros [[-> ->]|[Hne Hin']].
      * apply list_elem_of_fmap in Hin as ([a0 s0] & -> & Hin0).
        exists (a0, s0). simpl. by rewrite decide_True.
      * exists (a', s'). simpl. by rewrite decide_False.
  - split.
    + rewrite fmap_app. csimpl. apply NoDup_app. split; [done|].
      split; [|apply NoDup_singleton].
      intros x Hx ->%list_elem_of_singleton. done.
    + intros a' s'. rewrite elem_of_app, list_elem_of_singleton. split.
      * intros [Hin|[= -> ->]]; [|by left]. right. split; [|done].
        intros ->. apply Hnin. apply list_elem_of_fmap. by exists (a, s').
      * intros [[-> ->]|[_ Hin]]; [by right | by left].
Qed.

Lemma register_spec fields item : ∀ ixs snap,
  NoDup ixs.*1 → NoDup snap.*1 →
  (∀ a v, a ∈ ixs.*1 → dict_get fields a = Some v → ∃ s, v = VScalar s) →
  ∃ ixs' snap',
    register fields item ixs snap = (Ok (), ixs', snap')
    ∧ ixs'.*1 = ixs.*1
    ∧ NoDup snap'.*1
    ∧ (∀ a k i, i ∈ bucket ixs' a k
                ↔ i ∈ bucket ixs a k
                  ∨ (i = item ∧ a ∈ ixs.*1
                     ∧ ∃ s, dict_get fields a = Some (VScalar s) ∧ hkey s = k))
    ∧ (∀ a s, (a, s) ∈ snap'
              ↔ (a ∈ ixs.*1 ∧ dict_get fields a = Some (VScalar s))
                ∨ ((a, s) ∈ snap
                   ∧ ¬ (a ∈ ixs.*1 ∧ ∃ s0, dict_get fields a = Some (VScalar s0)))).
Proof.
  induction ixs as [|[attr b] ixs IH]; intros snap Hnd Hsnap Hscalar.
  - exists [], snap. simpl. split; [done|]. split; [done|]. split; [done|]. split.
    + intros a k i. split; [by left|].
      intros [?|(_ & []%elem_of_nil & _)]; done.
    + intros a s. split.
      * intros Hin. right. split; [done|]. by intros [[]%elem_of_nil _].
      * intros [[[]%elem_of_nil _]|[? _]]; done.
  - csimpl in Hnd. apply NoDup_cons in Hnd as [Hattr Hnd].
    assert (∀ a v, a ∈ ixs.*1 → dict_get fields a = Some v → ∃ s, v = VScalar s)
      as Hscalar' by (intros a v Ha; apply Hscalar; csimpl; by right).
    simpl. destruct (dict_get fields attr) as [v|] eqn:Hget.
    + destruct (Hscalar attr v) as [value ->]; [csimpl; by left | done |].
      destruct (set_value_spec snap attr value Hsnap) as [Hsnap1 Hmem1].
      destruct (IH (set_value snap attr value) Hnd Hsnap1 Hscalar')
        as (ixs' & snap' & -> & Hkeys & Hnd' & Hb & Hs).
      eexists _, _. split; [done|]. split; [csimpl; by rewrite Hkeys|].
      split; [done|]. split.
      * intros a k i. rewrite !bucket_cons. csimpl.
        destruct (decide (attr = a)) as [<-|Hne].
        -- destruct (decide (k = hkey value)) as [->|Hk].
           ++ rewrite lookup_insert_eq. simpl. rewrite elem_of_union, elem_of_singleton.
              split.
              ** intros [->|Hi]; [|by left]. right. split; [done|].
                 split; [by left|]. by exists value.
              ** intros [Hi|(-> & _)]; [by right | by left].
           ++ rewrite lookup_insert_ne by done. split; [by left|].
              intros [Hi|(_ & _ & s & Hs' & Hks)]; [done|].
              rewrite Hget in Hs'. injection Hs' as <-. done.
        -- rewrite Hb. rewrite elem_of_cons. split.
           ++ intros [Hi|(-> & Ha & Hex)]; [by left|]. right. eauto.
           ++ intros [Hi|(-> & [?|Ha] & Hex)]; [by left | done |]. right. eauto.
      * intros a s. rewrite Hs, Hmem1. csimpl. rewrite elem_of_cons. split.
        -- intros [[Ha Hg]|[[[-> ->]|[Hne Hin]] Hno]].
           ++ left. eauto.
           ++ left. eauto.
           ++ right. split; [done|]. intros [[?|Ha] Hex]; [done|]. by apply Hno.
        -- intros [[[->|Ha] Hg]|[Hin Hno]].
           ++ right. rewrite Hget in Hg. injection Hg as ->. split; [by left|].
              intros [Ha _]. done.
           ++ left. done.
           ++ destruct (decide (a = attr)) as [->|Hne].
              ** exfalso. apply Hno. split; [by left|]. by exists value.
              ** right. split; [by right|]. intros [Ha Hex]. apply Hno. eauto.
    + destruct (IH snap Hnd Hsnap Hscalar') as (ixs' & snap' & -> & Hkeys & Hnd' & Hb & Hs).
      eexists _, _. split; [done|]. split; [csimpl; by rewrite Hkeys|].
      split; [done|]. split.
      * intros a k i. rewrite !bucket_cons. csimpl.
        destruct (decide (attr = a)) as [<-|Hne].
        -- split; [by left|]. intros [Hi|(_ & _ & s & Hs' & _)]; [done|].
           by rewrite Hget in Hs'.
        -- rewrite Hb. rewrite elem_of_cons. split.
           ++ intros [Hi|(-> & Ha & Hex)]; [by left|]. right. eauto.
           ++ intros [Hi|(-> & [?|Ha] & Hex)]; [by left | done |]. right. eauto.
      * intros a s. rewrite Hs. csimpl. rewrite elem_of_cons. split.
        -- intros [[Ha Hg]|[Hin Hno]]; [left; eauto|].
           right. split; [done|]. intros [[->|Ha] [s0 Hex]].
           ++ by rewrite Hget in Hex.
           ++ apply Hno. eauto.
        -- intros [[[->|Ha] Hg]|[Hin Hno]].
           ++ by rewrite Hget in Hg.
           ++ by left.
           ++ right. split; [done|]. intros [Ha Hex]. apply Hno. eauto.
Qed.

End CatalogFacts.

(** What the catalog is meant to know: for each registered object the
    fields it had when it was last registered. *)
Abbreviation registry := (gmap addr (list (string * value))).

Section CatalogInvariant.
Import JSONCatalog.

(** Object [i] was registered with attribute [a] holding a scalar of hash
    key [k]. *)
Definition holds (reg : registry) (a : string) (k : scalar) (i : addr) : Prop :=
  ∃ fields s, reg !! i = Some fields
              ∧ dict_get fields a = Some (VScalar s) ∧ hkey s = k.

Record consistent (attrs : list string) (c : catalog) (reg : registry) : Prop := {
  cons_nodup : NoDup (indexes c).*1;
  cons_attrs : ∀ a, a ∈ (indexes c).*1 ↔ a ∈ attrs;
  cons_items : ∀ i, items c !! i = (λ _, i) <$> reg !! i;
  cons_values_dom : ∀ i, values c !! i = None ↔ reg !! i = None;
  cons_values : ∀ i snap fields,
    values c !! i = Some snap → reg !! i = Some fields →
    NoDup snap.*1
    ∧ ∀ a s, (a, s) ∈ snap ↔ a ∈ attrs ∧ dict_get fields a = Some (VScalar s);
  cons_buckets : ∀ a k i,
    i ∈ bucket (indexes c) a k ↔ a ∈ attrs ∧ holds reg a k i;
}.

Lemma holds_delete reg item a k i :
  holds (delete item reg) a k i ↔ i ≠ item ∧ holds reg a k i.
Proof.
  unfold holds. split.
  - intros (fields & s & Hl & Hg & Hk).
    apply lookup_delete_Some in Hl as [Hne Hl]. split; [done|]. eauto.
  - intros (Hne & fields & s & Hl & Hg & Hk). exists fields, s.
    by rewrite lookup_delete_ne.
Qed.

Lemma holds_insert reg item fields a k i :
  reg !! item = None →
  holds (<[item := fields]> reg) a k i
  ↔ holds reg a k i
    ∨ (i = item ∧ ∃ s, dict_get fields a = Some (VScalar s) ∧ hkey s = k).
Proof.
  intros Hnone. unfold holds. split.
  - intros (fs & s & Hl & Hg & Hk). destruct (decide (i = item)) as [->|Hne].
    + rewrite lookup_insert_eq in Hl. injection Hl as <-. right. eauto.
    + rewrite lookup_insert_ne in Hl by done. left. eauto.
  - intros [(fs & s & Hl & Hg & Hk)|(-> & s & Hg & Hk)].
    + exists fs, s. rewrite lookup_insert_ne; [done|]. intros <-. congruence.
    + exists fields, s. by rewrite lookup_insert_eq.
Qed.

Lemma unindex_consistent attrs c reg item :
  consistent attrs c reg →
  ∃ c', unindex c item = (Ok (), c') ∧ consistent attrs c' (delete item reg).
Proof.
  intros Hc. unfold unindex. rewrite (cons_items _ _ _ Hc).
  destruct (reg !! item) as [fields|] eqn:Hreg; simpl.
  - destruct (values c !! item) as [snap|] eqn:Hsnap;
      [|by apply (cons_values_dom _ _ _ Hc) in Hsnap; congruence].
    destruct (cons_values _ _ _ Hc item snap fields Hsnap Hreg) as [Hnd Hmem].
    destruct (discard_all_spec item snap (indexes c) Hnd) as (ixs' & -> & Hkeys & Hb).
    { intros a v [Ha Hg]%Hmem. apply (cons_buckets _ _ _ Hc). split; [done|].
      by exists fields, v. }
    eexists. split; [done|]. constructor; simpl.
    + rewrite Hkeys. apply (cons_nodup _ _ _ Hc).
    + intros a. rewrite Hkeys. apply (cons_attrs _ _ _ Hc).
    + intros i. destruct (decide (i = item)) as [->|Hne].
      * by rewrite !lookup_delete_eq.
      * rewrite !lookup_delete_ne by done. apply (cons_items _ _ _ Hc).
    + intros i. destruct (decide (i = item)) as [->|Hne].
      * by rewrite !lookup_delete_eq.
      * rewrite !lookup_delete_ne by done. apply (cons_values_dom _ _ _ Hc).
    + intros i snap' fields' [Hne Hs]%lookup_delete_Some [_ Hr]%lookup_delete_Some.
      by apply (cons_values _ _ _ Hc i).
    + intros a k i. rewrite Hb, holds_delete, (cons_buckets _ _ _ Hc). split.
      * intros [[Ha Hh] Hno]. split; [done|]. split; [|done].
        intros ->. apply Hno. split; [done|].
        destruct Hh as (fs & s & Hl & Hg & Hk). rewrite Hreg in Hl.
        injection Hl as <-. exists s. split; [|done]. by apply Hmem.
      * intros [Ha [Hne Hh]]. split; [done|]. by intros [? _].
  - exists c. split; [done|]. by rewrite delete_id.
Qed.

Definition item_fields (h : heap) (item : addr) : list (string * value) :=
  match h !! item with
  | Some (CDict _ fields) => fields
  | _ => []
  end.

(** An object that [index] can register: its configured attributes, where
    present, hold hashable values. *)
Definition indexable_item (attrs : list string) (h : heap) (item : addr) : Prop :=
  (∃ root fields, h !! item = Some (CDict root fields))
  ∧ ∀ a v, a ∈ attrs → dict_get (item_fields h item) a = Some v →
           ∃ s, v = VScalar s.

Lemma index_consistent attrs h c reg item :
  consistent attrs c reg → indexable_item attrs h item →
  ∃ c', index h c item = (Ok (), c')
        ∧ consistent attrs c' (<[item := item_fields h item]> reg).
Proof.
  intros Hc [(root & fields & Hitem) Hscalar]. unfold index.
  assert (∃ c1, (if decide (is_Some (items c !! item)) then unindex c item
                 else (Ok (), c)) = (Ok (), c1)
                ∧ consistent attrs c1 (delete item reg)) as (c1 & -> & Hc1).
  { destruct (decide (is_Some (items c !! item))) as [Hs|Hn].
    - by apply unindex_consistent.
    - exists c. split; [done|]. rewrite delete_id; [done|].
      rewrite (cons_items _ _ _ Hc) in Hn. destruct (reg !! item); [|done].
      exfalso. apply Hn. by eexists. }
  assert (values c1 !! item = None) as Hv1
    by (apply (cons_values_dom _ _ _ Hc1); apply lookup_delete_eq).
  rewrite Hv1, Hitem. simpl.
  unfold item_fields in *. rewrite Hitem in *.
  destruct (register_spec fields item (indexes c1) [])
    as (ixs' & snap' & -> & Hkeys & Hnd' & Hb & Hs).
  { apply (cons_nodup _ _ _ Hc1). }
  { constructor. }
  { intros a v Ha. apply Hscalar. by apply (cons_attrs _ _ _ Hc1). }
  eexists. split; [done|].
  rewrite <- (insert_delete_eq reg).
  assert (delete item reg !! item = None) as Hnone by apply lookup_delete_eq.
  constructor; simpl.
  + rewrite Hkeys. apply (cons_nodup _ _ _ Hc1).
  + intros a. rewrite Hkeys. apply (cons_attrs _ _ _ Hc1).
  + intros i. destruct (decide (i = item)) as [->|Hne].
    * by rewrite !lookup_insert_eq.
    * rewrite !lookup_insert_ne by done. apply (cons_items _ _ _ Hc1).
  + intros i. destruct (decide (i = item)) as [->|Hne].
    * by rewrite !lookup_insert_eq.
    * rewrite !lookup_insert_ne by done. apply (cons_values_dom _ _ _ Hc1).
  + intros i snap fs. destruct (decide (i = item)) as [->|Hne].
    * rewrite !lookup_insert_eq. intros [= <-] [= <-]. split; [done|].
      intros a s. rewrite Hs, (cons_attrs _ _ _ Hc1). split.
      -- intros [?|[[]%elem_of_nil _]]; done.
      -- intros ?. by left.
    * rewrite !lookup_insert_ne by done. apply (cons_values _ _ _ Hc1).
  + intros a k i. rewrite Hb, holds_insert, (cons_buckets _ _ _ Hc1) by done.
    rewrite (cons_attrs _ _ _ Hc1). split.
    * intros [[Ha Hh]|(-> & Ha & Hex)]; (split; [done|]); [by left | by right].
    * intros [Ha [Hh|[-> Hex]]]; [by left | by right].
Qed.

Lemma fresh_indexes_spec attrs : ∀ seen,
  NoDup (fresh_indexes attrs seen).*1
  ∧ (∀ a, a ∈ (fresh_indexes attrs seen).*1 ↔ a ∈ attrs ∧ a ∉ seen)
  ∧ ∀ a k, bucket (fresh_indexes attrs seen) a k = ∅.
Proof.
  induction attrs as [|a0 attrs IH]; intros seen; simpl.
  - split; [constructor|]. split; [|done]. intros a. split.
    + by intros ?%elem_of_nil.
    + by intros [?%elem_of_nil _].
  - destruct (decide (a0 ∈ seen)) as [Hin|Hnin].
    + destruct (IH seen) as (Hnd & Hmem & Hb). split; [done|]. split; [|done].
      intros a. rewrite Hmem, elem_of_cons. split; [by intros [? ?]; auto|].
      intros [[->|?] ?]; done.
    + destruct (IH (a0 :: seen)) as (Hnd & Hmem & Hb). csimpl. split.
      * apply NoDup_cons. split; [|done]. rewrite Hmem.
        intros [_ Hn]. apply Hn. by left.
      * split.
        -- intros a. rewrite !elem_of_cons, Hmem. split.
           ++ intros [->|[? Hn]]; [by split; [left|]|]. split; [by right|].
              intros ?. apply Hn. by right.
           ++ intros [Hin Hn]. destruct (decide (a = a0)) as [->|Hne]; [by left|].
              right. split; [by destruct Hin|].
              intros [?|?]%elem_of_cons; done.
        -- intros a k. rewrite bucket_cons. by destruct (decide (a0 = a)).
Qed.

Lemma new_consistent attrs : consistent attrs (new attrs) ∅.
Proof.
  destruct (fresh_indexes_spec attrs []) as (Hnd & Hmem & Hb).
  constructor; simpl.
  - done.
  - intros a. rewrite Hmem. split; [by intros [? _]|].
    intros ?. split; [done|]. by intros ?%elem_of_nil.
  - intros i. by rewrite !lookup_empty.
  - intros i. by rewrite !lookup_empty.
  - intros i snap fields. by rewrite lookup_empty.
  - intros a k i. rewrite Hb. split; [by intros ?%not_elem_of_empty|].
    intros [_ (? & ? & Hl & _)]. by rewrite lookup_empty in Hl.
Qed.

End CatalogInvariant.

(** * The claim about the catalog *)

Section CatalogClaim.
Import JSONTreeWalker JSONCatalog.

(** A call on the catalog; [index] reads the item in the store of its
    time. *)
Inductive catalog_call :=
  | CallIndex (h : heap) (item : addr)
  | CallUnindex (item : addr).

Definition call (c : catalog) (o : catalog_call) : result unit * catalog :=
  match o with
  | CallIndex h item => index h c item
  | CallUnindex item => unindex c item
  end.

(** A sequence of calls, each returning before the next is made. *)
Fixpoint run (c : catalog) (calls : list catalog_call) : result catalog :=
  match calls with
  | [] => Ok c
  | o :: rest =>
      match call c o with
      | (Ok _, c') => run c' rest
      | (Raise e, _) => Raise e
      end
  end.

(** The objects currently indexed, each with the fields it had when it was
    last registered. *)
Definition record_call (reg : registry) (o : catalog_call) : registry :=
  match o with
  | CallIndex h item => <[item := item_fields h item]> reg
  | CallUnindex item => delete item reg
  end.

Definition registered (calls : list catalog_call) : registry :=
  foldl record_call ∅ calls.

Definition indexable (attrs : list string) (o : catalog_call) : Prop :=
  match o with
  | CallIndex h item => indexable_item attrs h item
  | CallUnindex _ => True
  end.

Definition as_values (criteria : list (string * scalar)) : list (string * value) :=
  (λ kv, (kv.1, VScalar kv.2)) <$> criteria.

Lemma run_consistent attrs : ∀ calls c reg,
  consistent attrs c reg → Forall (indexable attrs) calls →
  ∃ c', run c calls = Ok c' ∧ consistent attrs c' (foldl record_call reg calls).
Proof.
  induction calls as [|o calls IH]; intros c reg Hc Hall; [by exists c|].
  apply Forall_cons in Hall as [Ho Hall]. simpl.
  destruct o as [h item|item]; simpl in *.
  - destruct (index_consistent attrs h c reg item Hc Ho) as (c1 & -> & Hc1).
    by apply IH.
  - destruct (unindex_consistent attrs c reg item Hc) as (c1 & -> & Hc1).
    by apply IH.
Qed.

Lemma elem_of_found (its : gmap addr addr) (ids : gset addr) i :
  (∀ j, j ∈ ids → its !! j = Some j) →
  i ∈ omap (λ j, its !! j) (elements ids) ↔ i ∈ ids.
Proof.
  intros Hid. rewrite list_elem_of_omap. split.
  - intros (j & Hj%elem_of_elements & Hl). rewrite (Hid j Hj) in Hl. congruence.
  - intros Hi. exists i. split; [by apply elem_of_elements | by apply Hid].
Qed.

Lemma search_loop_spec attrs c reg : consistent attrs c reg →
  ∀ criteria acc,
    (∀ a v, (a, v) ∈ criteria → a ∈ attrs) →
    (∀ ids i, acc = Some ids → i ∈ ids → is_Some (reg !! i)) →
    ∃ found, search_loop c (as_values criteria) acc = Ok found
      ∧ ∀ i, i ∈ found
             ↔ (criteria ≠ [] ∨ acc ≠ None)
               ∧ (∀ ids, acc = Some ids → i ∈ ids)
               ∧ ∀ a v, (a, v) ∈ criteria → holds reg a (hkey v) i.
Proof.
  intros Hc. induction criteria as [|[a v] criteria IH]; intros acc Hattrs Hacc.
  - simpl. destruct acc as [ids|].
    + eexists. split; [done|]. intros i. rewrite elem_of_found.
      * split.
        -- intros Hi. split; [by right|]. split; [by intros ? [= <-]|].
           by intros ? ? ?%elem_of_nil.
        -- intros (_ & Hi & _). by apply Hi.
      * intros j Hj. rewrite (cons_items _ _ _ Hc).
        by destruct (Hacc ids j eq_refl Hj) as [? ->].
    + exists []. split; [done|]. intros i. split; [by intros ?%elem_of_nil|].
      by intros ([|] & _).
  - assert (a ∈ attrs) as Ha by (apply (Hattrs a v); by left).
    assert (∀ i, i ∈ bucket (indexes c) a (hkey v) ↔ holds reg a (hkey v) i) as Hb.
    { intros i. rewrite (cons_buckets _ _ _ Hc). by split; [intros [_ ?]|]. }
    csimpl. unfold bucket in Hb.
    destruct (find_index_Some (indexes c) a) as [b Hfind];
      [by apply (cons_attrs _ _ _ Hc)|].
    rewrite Hfind in *.
    assert (∀ found : list addr,
              (∀ i, ¬ ((∀ ids, acc = Some ids → i ∈ ids)
                       ∧ holds reg a (hkey v) i)) →
              ∀ i, i ∈ ([] : list addr)
                   ↔ ((a, v) :: criteria ≠ [] ∨ acc ≠ None)
                     ∧ (∀ ids, acc = Some ids → i ∈ ids)
                     ∧ ∀ a' v', (a', v') ∈ (a, v) :: criteria
                                → holds reg a' (hkey v') i) as Hempty.
    { intros _ Hno i. split; [by intros ?%elem_of_nil|].
      intros (_ & Hi & Hall). exfalso. apply (Hno i). split; [done|].
      apply Hall. by left. }
    destruct (b !! hkey v) as [object_ids|] eqn:Hids; simpl in Hb.
    + destruct (decide (object_ids = ∅)) as [->|Hne].
      { exists []. split; [done|]. apply (Hempty []).
        intros i [_ Hh%Hb]. by apply not_elem_of_empty in Hh. }
      set (acc' := match acc with
                   | Some ids => ids ∩ object_ids
                   | None => object_ids
                   end).
      assert (∀ i, i ∈ acc' ↔ (∀ ids, acc = Some ids → i ∈ ids)
                              ∧ holds reg a (hkey v) i) as Hacc'.
      { intros i. unfold acc'. destruct acc as [ids|].
        - rewrite elem_of_intersection, Hb. split.
          + intros [? ?]. split; [by intros ? [= <-] | done].
          + intros [Hi ?]. split; [by apply Hi | done].
        - rewrite Hb. split; [by intros ?; split | by intros [_ ?]]. }
      destruct (decide (acc' = ∅)) as [He|Hne'].
      { exists []. split; [done|]. apply (Hempty []).
        intros i Hi%Hacc'. rewrite He in Hi. by apply not_elem_of_empty in Hi. }
      destruct (IH (Some acc')) as (found & -> & Hfound).
      { intros a' v' Hin. apply (Hattrs a' v'). by right. }
      { intros ids i [= <-] [_ (fs & s & Hl & _)]%Hacc'. by eexists. }
      exists found. split; [done|]. intros i. rewrite Hfound. split.
      * intros (_ & Hi & Hall). specialize (Hi acc' eq_refl).
        apply Hacc' in Hi as [Hi Hh]. split; [by left|]. split; [done|].
        intros a' v' [[= -> ->]|Hin]%elem_of_cons; [done | by apply Hall].
      * intros (_ & Hi & Hall). split; [by right|]. split.
        -- intros ids [= <-]. apply Hacc'. split; [done|]. apply Hall. by left.
        -- intros a' v' Hin. apply Hall. by right.
    + exists []. split; [done|]. apply (Hempty []).
      intros i [_ Hh%Hb]. by apply not_elem_of_empty in Hh.
Qed.

(** C3 — after any sequence of [index] and [unindex] calls on a catalog
    configured for [attrs] (each [index] on an object whose configured
    attributes hold hashable values), a search on one configured attribute
    [a = v] returns exactly the currently indexed items whose fields at
    their last registration had [a] equal to [v], and a search on one or
    more constraints returns exactly the items returned by every one of
    the single-constraint searches. *)
Theorem catalog_consistency (attrs : list string) (calls : list catalog_call) :
  Forall (indexable attrs) calls →
  ∃ c, run (new attrs) calls = Ok c
    ∧ (∀ a v, a ∈ attrs →
         ∃ found, search c [(a, VScalar v)] = Ok found
           ∧ ∀ item, item ∈ found
                     ↔ ∃ fields s, registered calls !! item = Some fields
                                   ∧ dict_get fields a = Some (VScalar s)
                                   ∧ scalar_eqb s v = true)
    ∧ (∀ criteria, criteria ≠ [] →
         (∀ a v, (a, v) ∈ criteria → a ∈ attrs) →
         ∃ found, search c (as_values criteria) = Ok found
           ∧ ∀ item, item ∈ found
                     ↔ ∀ a v, (a, v) ∈ criteria →
                         ∃ found1, search c [(a, VScalar v)] = Ok found1
                                   ∧ item ∈ found1).
Proof.
  intros Hall.
  destruct (run_consistent attrs calls (new attrs) ∅ (new_consistent attrs) Hall)
    as (c & Hrun & Hc).
  fold (registered calls) in Hc. exists c. split; [done|].
  assert (∀ a v, a ∈ attrs →
            ∃ found, search c [(a, VScalar v)] = Ok found
              ∧ ∀ item, item ∈ found ↔ holds (registered calls) a (hkey v) item)
    as Hsingle.
  { intros a v Ha.
    destruct (search_loop_spec attrs c _ Hc [(a, v)] None) as (found & Hs & Hf).
    - by intros a' v' [= -> ->]%list_elem_of_singleton.
    - done.
    - exists found. split; [done|]. intros item. rewrite Hf. split.
      + intros (_ & _ & Hh). apply Hh. by left.
      + intros Hh. split; [by left|]. split; [done|].
        by intros a' v' [= -> ->]%list_elem_of_singleton. }
  split.
  - intros a v Ha. destruct (Hsingle a v Ha) as (found & Hs & Hf).
    exists found. split; [done|]. intros item. rewrite Hf. unfold holds.
    split; intros (fields & s & Hl & Hg & Hk); exists fields, s;
      (split; [done|]); (split; [done|]); by apply scalar_eqb_hkey.
  - intros criteria Hne Hattrs.
    destruct (search_loop_spec attrs c _ Hc criteria None Hattrs) as (found & Hs & Hf);
      [done|].
    exists found. split; [done|]. intros item. rewrite Hf. split.
    + intros (_ & _ & Hh) a v Hin.
      destruct (Hsingle a v (Hattrs a v Hin)) as (found1 & Hs1 & Hf1).
      exists found1. split; [done|]. apply Hf1. by apply Hh.
    + intros Hh. split; [by left|]. split; [done|]. intros a v Hin.
      destruct (Hh a v Hin) as (found1 & Hs1 & Hin1).
      destruct (Hsingle a v (Hattrs a v Hin)) as (found2 & Hs2 & Hf2).
      rewrite Hs1 in Hs2. injection Hs2 as <-. by apply Hf2.
Qed.

(** A checker for [indexable_item] on a given store. *)
Definition indexable_itemb (attrs : list string) (h : heap) (item : addr) : bool :=
  match h !! item with
  | Some (CDict _ fields) =>
      forallb (λ a, match dict_get fields a with
                    | Some (VRef _) => false
                    | _ => true
                    end) attrs
  | _ => false
  end.

Lemma indexable_itemb_sound attrs h item :
  indexable_itemb attrs h item = true → indexable_item attrs h item.
Proof.
  unfold indexable_itemb, indexable_item, item_fields.
  destruct (h !! item) as [[root fields|]|]; try done.
  rewrite forallb_forall. intros Hall. split; [by eexists _, _|].
  intros a v Ha%list_elem_of_In Hg. specialize (Hall a Ha). rewrite Hg in Hall.
  destruct v as [s|]; [by exists s | done].
Qed.

Lemma catalog_consistency_witness :
  let before := [CDict false [("uid", VScalar (SStr "n1")); ("name", VScalar (SStr "Energy"))];
                 CDict false [("uid", VScalar (SStr "n2")); ("name", VScalar (SStr "Waste"))]] in
  let after := [CDict false [("uid", VScalar (SStr "n1")); ("name", VScalar (SStr "Waste"))];
                CDict false [("uid", VScalar (SStr "n2")); ("name", VScalar (SStr "Waste"))]] in
  let calls := [CallIndex before 0; CallIndex before 1; CallIndex after 0; CallUnindex 1] in
  Forall (indexable ["uid"; "name"]) calls
  ∧ ∃ c, run (new ["uid"; "name"]) calls = Ok c
      ∧ search c [("name", VScalar (SStr "Waste"))] = Ok [0]
      ∧ ∀ a v, a ∈ ["uid"; "name"] →
          ∃ found, search c [(a, VScalar v)] = Ok found
            ∧ ∀ item, item ∈ found
                      ↔ ∃ fields s, registered calls !! item = Some fields
                                    ∧ dict_get fields a = Some (VScalar s)
                                    ∧ scalar_eqb s v = true.
Proof.
  intros before after calls.
  assert (Forall (indexable ["uid"; "name"]) calls) as Hall.
  { unfold calls. do 3 (constructor; [by apply indexable_itemb_sound|]).
    constructor; [exact I | constructor]. }
  split; [exact Hall|].
  destruct (catalog_consistency ["uid"; "name"] calls Hall) as (c & Hrun & Hone & _).
  exists c. split; [exact Hrun|]. split; [|exact Hone].
  assert (run (new ["uid"; "name"]) calls
          = Ok (Catalog {[0 := 0]}
                  [("uid", {[SStr "n1" := {[0]}]}); ("name", {[SStr "Waste" := {[0]}]})]
                  {[0 := [("uid", SStr "n1"); ("name", SStr "Waste")]]})) as Hc
    by (vm_compute; reflexivity).
  rewrite Hc in Hrun. injection Hrun as <-. vm_compute. reflexivity.
Defined.

End CatalogClaim.

(** * The claim about filtered deletion *)

Section FilterOutClaim.
Import CountryData.

(** The indices of the items that [p] rejects, counted from [index]. *)
Fixpoint rejected (p : value → bool) (items : list value) (index : nat) : list nat :=
  match items with
  | [] => []
  | x :: rest =>
      if p x then rejected p rest (S index)
      else index :: rejected p rest (S index)
  end.

(** [v] is an object carrying a hashable ["uid"]. *)
Definition has_uid (h : heap) (v : value) (uid : scalar) : Prop :=
  ∃ a root fields, v = VRef a ∧ h !! a = Some (CDict root fields)
                   ∧ dict_get fields "uid" = Some (VScalar uid).

Lemma rejected_spec p : ∀ items index i,
  i ∈ rejected p items index
  ↔ ∃ j v, i = index + j ∧ items !! j = Some v ∧ p v = false.
Proof.
  induction items as [|x items IH]; intros index i; simpl.
  - split; [by intros ?%elem_of_nil | by intros (? & ? & _ & ? & _)].
  - assert (i ∈ rejected p items (S index)
            ↔ ∃ j v, i = index + S j ∧ items !! j = Some v ∧ p v = false) as IH'.
    { rewrite IH. split; intros (j & v & -> & ? & ?); exists j, v;
        (split; [lia | done]). }
    destruct (p x) eqn:Hp.
    + rewrite IH'. split.
      * intros (j & v & -> & ? & ?). by exists (S j), v.
      * intros ([|j] & v & -> & Hl & Hv); simpl in Hl; [congruence|]. by exists j, v.
    + rewrite elem_of_cons, IH'. split.
      * intros [->|(j & v & -> & ? & ?)]; [exists 0, x | exists (S j), v];
          (split; [lia | done]).
      * intros ([|j] & v & -> & Hl & Hv); simpl in Hl; [left; lia|].
        right. by exists j, v.
Qed.

Lemma rejected_sorted p : ∀ items index,
  StronglySorted lt (rejected p items index).
Proof.
  induction items as [|x items IH]; intros index; simpl; [constructor|].
  destruct (p x); [apply IH|]. constructor; [apply IH|].
  apply Forall_forall. intros i (j & v & -> & _)%rejected_spec. lia.
Qed.

Lemma rejected_length p : ∀ items index,
  length (rejected p items index) + length (filter (λ v, p v = true) items)
  = length items.
Proof.
  induction items as [|x items IH]; intros index; simpl; [done|].
  destruct (p x) eqn:Hp.
  - rewrite filter_cons_True by done. simpl. rewrite <- (IH (S index)). lia.
  - rewrite filter_cons_False by congruence. simpl. by rewrite IH.
Qed.

Lemma delete_each_snoc items indices i :
  delete_each items (indices ++ [i]) = delete i (delete_each items indices).
Proof. unfold delete_each. by rewrite foldl_app. Qed.

(** Deleting the rejected indices from the highest down leaves the items
    that [p] accepts, in their order. *)
Lemma delete_rejected p : ∀ rest prefix,
  delete_each (prefix ++ rest) (reverse (rejected p rest (length prefix)))
  = prefix ++ filter (λ v, p v = true) rest.
Proof.
  induction rest as [|x rest IH]; intros prefix; simpl; [done|].
  specialize (IH (prefix ++ [x])). rewrite length_app, <- app_assoc in IH.
  simpl in IH. rewrite Nat.add_1_r in IH.
  destruct (p x) eqn:Hp.
  - rewrite filter_cons_True by done. rewrite IH. by rewrite <- app_assoc.
  - rewrite filter_cons_False by congruence.
    rewrite reverse_cons, delete_each_snoc, IH, <- app_assoc. simpl.
    clear. induction prefix as [|y prefix IHp]; simpl; [done | by f_equal].
Qed.

Lemma scan_items_spec h p : ∀ items index uids,
  (is_Some uids → ∀ v, v ∈ items → p v = true → ∃ uid, has_uid h v uid) →
  ∃ uids',
    scan_items h p items index uids = Ok (rejected p items index, uids')
    ∧ match uids, uids' with
      | None, None => True
      | Some s, Some s' =>
          ∀ k, k ∈ s' ↔ k ∈ s ∨ ∃ v uid, v ∈ items ∧ p v = true
                                         ∧ has_uid h v uid ∧ hkey uid = k
      | _, _ => False
      end.
Proof.
  induction items as [|x items IH]; intros index uids Huid; simpl.
  - exists uids. split; [done|]. destruct uids as [s|]; [|done].
    intros k. split; [by left|]. intros [?|(v & ? & []%elem_of_nil & _)]. done.
  - destruct (p x) eqn:Hp.
    + destruct uids as [s|].
      * destruct (Huid ltac:(by eexists) x) as (uid & a & root & fields & -> & Ha & Hg);
          [by left | done |].
        rewrite Ha, Hg.
        destruct (IH (S index) (Some ({[hkey uid]} ∪ s))) as (uids' & -> & Hs).
        { intros _ v Hv. apply Huid; [by eexists | by right]. }
        exists uids'. split; [done|]. destruct uids' as [s'|]; [|done].
        intros k. rewrite Hs, elem_of_union, elem_of_singleton. split.
        -- intros [[->|?]|(v & u & ? & ? & ? & ?)].
           ++ right. exists (VRef a), uid. split; [by left|]. split; [done|].
              split; [|done]. by exists a, root, fields.
           ++ by left.
           ++ right. exists v, u. split; [by right | done].
        -- intros [?|(v & u & [->|Hv]%elem_of_cons & Hpv & Hu & Hk)].
           ++ left. by right.
           ++ left. left. destruct Hu as (a' & ? & fs & [= <-] & Ha' & Hg').
              rewrite Ha in Ha'. injection Ha' as <- <-. rewrite Hg in Hg'.
              by injection Hg' as <-.
           ++ right. by exists v, u.
      * destruct (IH (S index) None) as (uids' & -> & Hs); [by intros [? [=]]|].
        exists uids'. split; [done|]. by destruct uids'.
    + destruct (IH (S index) uids) as (uids' & -> & Hs).
      { intros Hsome v Hv. apply Huid; [done | by right]. }
      exists uids'. split; [done|]. destruct uids as [s|], uids' as [s'|]; try done.
      intros k. rewrite Hs. split.
      * intros [?|(v & u & ? & ? & ? & ?)]; [by left|]. right. exists v, u.
        split; [by right | done].
      * intros [?|(v & u & [->|Hv]%elem_of_cons & Hpv & Hu & Hk)]; [by left|congruence|].
        right. by exists v, u.
Qed.

(** C6 — [filter_out] leaves in the list exactly the items that satisfy
    the predicate, in their original order; it returns the indices of the
    items removed, in ascending order, so their number is the number of
    deletions; and a set passed to it receives the uid of every item kept
    (the items kept must then be objects carrying a hashable uid). *)
Theorem filter_out_correct (h : heap) (L : addr) (items : list value)
    (p : value → bool) (S : option (gset scalar)) :
  h !! L = Some (CList items) →
  (is_Some S → ∀ v, v ∈ items → p v = true → ∃ uid, has_uid h v uid) →
  ∃ deleted S',
    filter_out h L p S
    = Ok (deleted, <[L := CList (filter (λ v, p v = true) items)]> h, S')
    ∧ StronglySorted lt deleted
    ∧ (∀ i, i ∈ deleted ↔ ∃ v, items !! i = Some v ∧ p v = false)
    ∧ length deleted + length (filter (λ v, p v = true) items) = length items
    ∧ match S, S' with
      | None, None => True
      | Some s, Some s' =>
          ∀ k, k ∈ s' ↔ k ∈ s ∨ ∃ v uid, v ∈ filter (λ v, p v = true) items
                                         ∧ has_uid h v uid ∧ hkey uid = k
      | _, _ => False
      end.
Proof.
  intros HL Huid. unfold filter_out. rewrite HL.
  destruct (scan_items_spec h p items 0 S Huid) as (S' & -> & HS).
  exists (rejected p items 0), S'. split.
  { pose proof (delete_rejected p items []) as Hd. simpl in Hd. by rewrite Hd. }
  split; [apply rejected_sorted|]. split.
  { intros i. rewrite rejected_spec. split.
    - intros (j & v & -> & ? & ?). by exists v.
    - intros (v & ? & ?). by exists i, v. }
  split; [apply rejected_length|].
  destruct S as [s|], S' as [s'|]; try done.
  intros k. rewrite HS. split.
  - intros [?|(v & u & ? & ? & ? & ?)]; [by left|]. right. exists v, u.
    split; [by apply list_elem_of_filter | done].
  - intros [?|(v & u & [? ?]%list_elem_of_filter & ? & ?)]; [by left|].
    right. by exists v, u.
Qed.

(** The predicate [keep == true] on the objects of a store. *)
Definition keeps (h : heap) (v : value) : bool :=
  match v with
  | VRef a =>
      match h !! a with
      | Some (CDict _ fields) =>
          bool_decide (dict_get fields "keep" = Some (VScalar (SBool true)))
      | _ => false
      end
  | VScalar _ => false
  end.

Lemma filter_out_correct_witness :
  let h := [CList [VRef 1; VRef 2; VRef 3];
            CDict false [("uid", VScalar (SInt 1)); ("keep", VScalar (SBool true))];
            CDict false [("uid", VScalar (SInt 2)); ("keep", VScalar (SBool false))];
            CDict false [("uid", VScalar (SInt 3)); ("keep", VScalar (SBool true))]] in
  filter_out h 0 (keeps h) (Some ∅)
  = Ok ([1], <[0 := CList [VRef 1; VRef 3]]> h, Some {[SInt 1; SInt 3]})
  ∧ ∃ deleted S',
      filter_out h 0 (keeps h) (Some ∅)
      = Ok (deleted,
            <[0 := CList (filter (λ v, keeps h v = true) [VRef 1; VRef 2; VRef 3])]> h,
            S')
      ∧ StronglySorted lt deleted.
Proof.
  intros h. split; [vm_compute; reflexivity|].
  destruct (filter_out_correct h 0 [VRef 1; VRef 2; VRef 3] (keeps h) (Some ∅))
    as (deleted & S' & Hf & Hs & _).
  - reflexivity.
  - intros _ v Hv Hp.
    apply elem_of_cons in Hv as [->|Hv]; [exists (SInt 1); by eexists 1, _, _|].
    apply elem_of_cons in Hv as [->|Hv]; [discriminate Hp|].
    apply elem_of_cons in Hv as [->|Hv]; [exists (SInt 3); by eexists 3, _, _|].
    by apply elem_of_nil in Hv.
  - by exists deleted, S'.
Defined.

End FilterOutClaim.

(** * Reparenting: what one move does to the store *)

Section MoveFacts.
Import JSONTreeWalker JSONCatalog CountryData.

Lemma dict_get_cons k v fields key :
  dict_get ((k, v) :: fields) key
  = if decide (k = key) then Some v else dict_get fields key.
Proof.
  unfold dict_get. simpl. destruct (decide (k = key)) as [->|Hne].
  - by rewrite bool_decide_eq_true_2.
  - by rewrite bool_decide_eq_false_2.
Qed.

Lemma dict_get_app fields more key :
  dict_get (fields ++ more) key
  = match dict_get fields key with
    | Some v => Some v
    | None => dict_get more key
    end.
Proof.
  induction fields as [|[k v] fields IH]; [done|].
  rewrite <- app_comm_cons, !dict_get_cons. by destruct (decide (k = key)).
Qed.

Lemma dict_get_del fields key key' :
  dict_get (dict_del fields key) key'
  = if decide (key' = key) then None else dict_get fields key'.
Proof.
  unfold dict_del. induction fields as [|[k v] fields IH].
  - by destruct (decide (key' = key)).
  - destruct (decide (k = key)) as [->|Hne].
    + rewrite filter_cons_False by (simpl; by intros ?). rewrite IH, dict_get_cons.
      destruct (decide (key' = key)) as [->|Hne']; [done|].
      by rewrite decide_False by congruence.
    + rewrite filter_cons_True by done. rewrite !dict_get_cons, IH.
      destruct (decide (k = key')) as [<-|]; [|done].
      by rewrite decide_False.
Qed.

(** The two ways [adopt] succeeds: the parent has a child list, or gets a
    new one. *)
Lemma adopt_Ok h p n h1 :
  adopt h p n = Some (Ok h1) →
  ∃ root pf, h !! p = Some (CDict root pf)
    ∧ ((∃ l its, dict_get pf "node" = Some (VRef l)
                 ∧ h !! l = Some (CList its)
                 ∧ h1 = <[l := CList (its ++ [VRef n])]> h)
       ∨ (dict_get pf "node" = None
          ∧ h1 = <[p := CDict root (pf ++ [("node", VRef (length h))])]>
                   (h ++ [CList [VRef n]]))).
Proof.
  unfold adopt. destruct (h !! p) as [[root pf|]|] eqn:Hp; [|done|done].
  intros H. exists root, pf. split; [done|].
  destruct (dict_get pf "node") as [[s|l]|] eqn:Hn; [done| |].
  - destruct (h !! l) as [[|its]|] eqn:Hl; [done| |done].
    injection H as <-. left. by exists l, its.
  - injection H as <-. by right.
Qed.

(** A store evolves by a move when lists only gain items at their end and
    objects keep their fields, except that some object may gain a ["node"]
    field pointing to a new list and the moved node loses ["parent_uid"]. *)
Record moves_to (h h' : heap) (p n : addr) : Prop := {
  move_length : length h ≤ length h';
  move_lists : ∀ a its, h !! a = Some (CList its) →
    ∃ its', h' !! a = Some (CList its')
            ∧ (its' = its
               ∨ (its' = its ++ [VRef n]
                  ∧ ∃ root pf, h !! p = Some (CDict root pf)
                               ∧ dict_get pf "node" = Some (VRef a)));
  move_dicts : ∀ a root fs, h !! a = Some (CDict root fs) →
    ∃ fs', h' !! a = Some (CDict root fs')
           ∧ (∀ k, k ≠ "node" → k ≠ "parent_uid" → dict_get fs' k = dict_get fs k)
           ∧ (a ≠ n → dict_get fs' "parent_uid" = dict_get fs "parent_uid")
           ∧ (a = n → dict_get fs' "parent_uid" = None)
           ∧ (∀ v, dict_get fs "node" = Some v → dict_get fs' "node" = Some v)
           ∧ (dict_get fs "node" = None →
              dict_get fs' "node" = None
              ∨ (a = p ∧ dict_get fs' "node" = Some (VRef (length h))));
  move_child : ∃ root fs l its,
    h' !! p = Some (CDict root fs) ∧ dict_get fs "node" = Some (VRef l)
    ∧ h' !! l = Some (CList its) ∧ VRef n ∈ its;
  move_new : ∀ a c, h !! a = None → h' !! a = Some c → ∃ its, c = CList its;
}.

Lemma del_field_list h a key b its :
  h !! b = Some (CList its) → del_field h a key !! b = Some (CList its).
Proof.
  intros Hb. unfold del_field. destruct (h !! a) as [[root fs|]|] eqn:Ha; try done.
  rewrite list_lookup_insert_ne; [done|]. intros <-. congruence.
Qed.

Lemma del_field_dict h a key b root fs :
  h !! b = Some (CDict root fs) →
  del_field h a key !! b
  = Some (CDict root (if decide (a = b) then dict_del fs key else fs)).
Proof.
  intros Hb. unfold del_field. destruct (decide (a = b)) as [->|Hne].
  - rewrite Hb. rewrite list_lookup_insert_eq; [done|]. by eapply lookup_lt_Some.
  - destruct (h !! a) as [[root' fs'|]|] eqn:Ha; try done.
    by rewrite list_lookup_insert_ne.
Qed.

Lemma del_field_length h a key : length (del_field h a key) = length h.
Proof.
  unfold del_field. destruct (h !! a) as [[root fs|]|]; try done.
  by rewrite length_insert.
Qed.

Lemma move_effect h p n h1 root_n fs_n :
  h !! n = Some (CDict root_n fs_n) →
  adopt h p n = Some (Ok h1) →
  moves_to h (del_field h1 n "parent_uid") p n.
Proof.
  intros Hn Had. destruct (adopt_Ok _ _ _ _ Had) as (root & pf & Hp & Hcase).
  destruct Hcase as [(l & its & Hnode & Hl & ->)|[Hnode ->]].
  - assert (l < length h) as Hlt by by eapply lookup_lt_Some.
    constructor.
    + rewrite del_field_length, length_insert. lia.
    + intros a its0 Ha. destruct (decide (a = l)) as [->|Hne].
      * exists (its ++ [VRef n]). split.
        -- apply del_field_list. by rewrite list_lookup_insert_eq.
        -- right. rewrite Hl in Ha. injection Ha as <-. split; [done|]. eauto.
      * exists its0. split; [|by left].
        apply del_field_list. by rewrite list_lookup_insert_ne.
    + intros a root0 fs Ha.
      assert (<[l := CList (its ++ [VRef n])]> h !! a = Some (CDict root0 fs)) as Ha'.
      { rewrite list_lookup_insert_ne; [done|]. intros <-. congruence. }
      rewrite (del_field_dict _ _ _ _ _ _ Ha').
      eexists. split; [done|]. destruct (decide (n = a)) as [->|Hne].
      * split; [by intros k ? ?; rewrite dict_get_del, decide_False|].
        split; [done|]. split; [by intros _; rewrite dict_get_del, decide_True|].
        split; [by intros v ?; rewrite dict_get_del, decide_False|].
        intros Hnone. left. by rewrite dict_get_del, decide_False.
      * split; [done|]. split; [done|]. split; [by intros ->|].
        split; [done|]. by left.
    + exists root.
      assert (<[l := CList (its ++ [VRef n])]> h !! p = Some (CDict root pf)) as Hp'.
      { rewrite list_lookup_insert_ne; [done|]. intros <-. congruence. }
      rewrite (del_field_dict _ _ _ _ _ _ Hp').
      eexists _, l, (its ++ [VRef n]). split; [done|]. split.
      * destruct (decide (n = p)); [|done]. by rewrite dict_get_del, decide_False.
      * split; [|apply elem_of_app; right; by left].
        apply del_field_list. by rewrite list_lookup_insert_eq.
    + intros a c Ha Ha'. apply lookup_ge_None in Ha.
      apply lookup_lt_Some in Ha'.
      rewrite del_field_length, length_insert in Ha'. lia.
  - assert (p < length h) as Hlt by by eapply lookup_lt_Some.
    set (h0 := h ++ [CList [VRef n]]).
    assert (∀ a c, h !! a = Some c → a ≠ p →
              <[p := CDict root (pf ++ [("node", VRef (length h))])]> h0 !! a = Some c)
      as Hother.
    { intros a c Ha Hne. rewrite list_lookup_insert_ne by done.
      unfold h0. by apply lookup_app_l_Some. }
    assert (<[p := CDict root (pf ++ [("node", VRef (length h))])]> h0 !! p
            = Some (CDict root (pf ++ [("node", VRef (length h))]))) as Hp'.
    { rewrite list_lookup_insert_eq; [done|]. unfold h0. rewrite length_app. lia. }
    constructor.
    + rewrite del_field_length, length_insert. unfold h0. rewrite length_app. lia.
    + intros a its0 Ha. exists its0. split; [|by left].
      apply del_field_list. apply Hother; [done|]. intros ->. congruence.
    + intros a root0 fs Ha. destruct (decide (a = p)) as [->|Hne].
      * rewrite Hp in Ha. injection Ha as <- <-.
        rewrite (del_field_dict _ _ _ _ _ _ Hp').
        eexists. split; [done|].
        assert (∀ k, k ≠ "node" →
                  dict_get (pf ++ [("node", VRef (length h))]) k = dict_get pf k) as Hk.
        { intros k Hk. rewrite dict_get_app. destruct (dict_get pf k); [done|].
          rewrite dict_get_cons. by rewrite decide_False. }
        assert (dict_get (pf ++ [("node", VRef (length h))]) "node"
                = Some (VRef (length h))) as Hnew.
        { rewrite dict_get_app, Hnode, dict_get_cons. by rewrite decide_True. }
        destruct (decide (n = p)) as [->|Hnp].
        -- split; [by intros k ? ?; rewrite dict_get_del, decide_False, Hk|].
           split; [done|]. split; [by intros _; rewrite dict_get_del, decide_True|].
           split; [by intros v; rewrite Hnode|].
           intros _. right. split; [done|]. by rewrite dict_get_del, decide_False.
        -- split; [by intros k ? ?; apply Hk|]. split; [by intros _; apply Hk|].
           split; [by intros ->|]. split; [by intros v; rewrite Hnode|].
           intros _. by right.
      * rewrite (del_field_dict _ _ _ _ _ _ (Hother _ _ Ha Hne)).
        eexists. split; [done|]. destruct (decide (n = a)) as [->|Hna].
        -- split; [by intros k ? ?; rewrite dict_get_del, decide_False|].
           split; [done|]. split; [by intros _; rewrite dict_get_del, decide_True|].
           split; [by intros v ?; rewrite dict_get_del, decide_False|].
           intros ?. left. by rewrite dict_get_del, decide_False.
        -- split; [done|]. split; [done|]. split; [by intros ->|].
           split; [done|]. by left.
    + exists root. rewrite (del_field_dict _ _ _ _ _ _ Hp').
      eexists _, (length h), [VRef n]. split; [done|]. split.
      * assert (dict_get (pf ++ [("node", VRef (length h))]) "node"
                = Some (VRef (length h))) as Hnew.
        { rewrite dict_get_app, Hnode, dict_get_cons. by rewrite decide_True. }
        destruct (decide (n = p)); [|done]. by rewrite dict_get_del, decide_False.
      * split; [|by left]. apply del_field_list.
        rewrite list_lookup_insert_ne by lia. unfold h0.
        rewrite lookup_app_r by lia. by rewrite Nat.sub_diag.
    + intros a c Ha Ha'. apply lookup_ge_None in Ha.
      assert (<[p := CDict root (pf ++ [("node", VRef (length h))])]> h0 !! a
              = Some (CList [VRef n])) as Hnew.
      { pose proof (lookup_lt_Some _ _ _ Ha') as Hlt'.
        rewrite del_field_length, length_insert in Hlt'. unfold h0 in *.
        rewrite length_app in Hlt'. simpl in Hlt'.
        rewrite list_lookup_insert_ne by lia.
        rewrite lookup_app_r by lia.
        replace (a - length h) with 0 by lia. done. }
      rewrite (del_field_list _ _ _ _ _ Hnew) in Ha'. injection Ha' as <-. eauto.
Qed.

End MoveFacts.

(** * Reparenting: the loop *)

Section ReparentFacts.
Import JSONTreeWalker JSONCatalog CountryData.

(** The three ways the body of the loop returns normally: the node is
    passed over, its missing parent is logged, or it is moved. *)
Lemma reparent_node_Ok self st index node st' :
  reparent_node self st index node = Some (Ok st') →
  ∃ n root fields,
    node = VRef n ∧ store (rworld st) !! n = Some (CDict root fields)
    ∧ (st' = st
       ∨ (∃ vu vp, st' = Reparent (moved st) (nested_nodes st)
                           (add_log (rworld st) (MissingParent vu vp)))
       ∨ (∃ p h1, adopt (store (rworld st)) p n = Some (Ok h1)
                  ∧ st' = Reparent (moved st ++ [(n, p)])
                            (nested_nodes st ++ [index])
                            (set_store (rworld st) (del_field h1 n "parent_uid")))).
Proof.
  unfold reparent_node. destruct node as [s|n]; [done|].
  destruct (store (rworld st) !! n) as [[root fields|]|] eqn:Hn; [|done|done].
  intros H. exists n, root, fields. split; [done|]. split; [done|].
  destruct (dict_get fields "template_node_uid"); [|injection H as <-; by left].
  destruct (dict_get fields "parent_uid") as [vp|]; [|injection H as <-; by left].
  destruct (dict_get fields "uid") as [vu|]; [|done].
  destruct (is_metadata_uid _ vu) as [[]|]; [injection H as <-; by left| |done].
  destruct (is_metadata_uid _ vp) as [[]|]; [injection H as <-; by left| |done].
  destruct (get_node self vp) as [[p|]|]; [| |done].
  - destruct (adopt _ p n) as [[h1|]|] eqn:Ha; [|done|done].
    injection H as <-. right. right. by exists p, h1.
  - injection H as <-. right. left. by exists vu, vp.
Qed.

(** What the body does with a node that carries the marker and two local
    uids. *)
Lemma reparent_node_local self st index n root fields vt u pu :
  store (rworld st) !! n = Some (CDict root fields) →
  dict_get fields "template_node_uid" = Some vt →
  dict_get fields "uid" = Some (VScalar (SStr u)) → has_dash u = false →
  dict_get fields "parent_uid" = Some (VScalar (SStr pu)) → has_dash pu = false →
  reparent_node self st index (VRef n)
  = match get_node self (VScalar (SStr pu)) with
    | Raise e => Some (Raise e)
    | Ok None =>
        Some (Ok (Reparent (moved st) (nested_nodes st)
                    (add_log (rworld st)
                       (MissingParent (VScalar (SStr u)) (VScalar (SStr pu))))))
    | Ok (Some parent_node) =>
        match adopt (store (rworld st)) parent_node n with
        | None => None
        | Some (Raise e) => Some (Raise e)
        | Some (Ok h1) =>
            Some (Ok (Reparent (moved st ++ [(n, parent_node)])
                        (nested_nodes st ++ [index])
                        (set_store (rworld st) (del_field h1 n "parent_uid"))))
        end
    end.
Proof.
  intros Hn Ht Hu Hdu Hp Hdp. unfold reparent_node.
  rewrite Hn, Ht, Hp, Hu. simpl. by rewrite Hdu, Hdp.
Qed.

(** An invariant of the loop over a node list that the loop leaves alone
    holds when the loop ends. *)
Lemma reparent_loop_inv self items (I : reparent_state → nat → Prop) :
  (∀ st idx, I st idx → store (rworld st) !! nodes self = Some (CList items)) →
  (∀ st idx node st',
     I st idx → items !! idx = Some node →
     reparent_node self st idx node = Some (Ok st') → I st' (S idx)) →
  ∀ fuel st idx st',
    I st idx → reparent_loop fuel self st idx = Some (Ok st') →
    ∃ idx', I st' idx' ∧ items !! idx' = None.
Proof.
  intros Hlist Hstep. induction fuel as [|fuel IH]; intros st idx st' HI; [done|].
  simpl. rewrite (Hlist st idx HI).
  destruct (items !! idx) as [node|] eqn:Hnode; [|intros [= <-]; by exists idx].
  destruct (reparent_node self st idx node) as [[st1|]|] eqn:Hbody; [|done|done].
  apply IH. by eapply Hstep.
Qed.

(** The store keeps the root-level list as it was, and no object has it as
    its child list. *)
Definition root_list_apart (self : country_data) (items : list value) (h : heap)
  : Prop :=
  h !! nodes self = Some (CList items)
  ∧ ∀ d root fs, h !! d = Some (CDict root fs) →
                 dict_get fs "node" ≠ Some (VRef (nodes self)).



Lemma root_list_apart_move self items h h' p n :
  root_list_apart self items h → moves_to h h' p n →
  root_list_apart self items h'.
Proof.
  intros [Hl Hno] Hm. split.
  - destruct (move_lists _ _ _ _ Hm _ _ Hl) as (its' & Hl' & [->|[_ (r & pf & Hp & Hn)]]);
      [done|]. by destruct (Hno _ _ _ Hp).
  - intros d root fs Hd Hnode.
    assert (nodes self < length h) as Hlt by by eapply lookup_lt_Some.
    destruct (h !! d) as [[root0 fs0|its0]|] eqn:Hd0.
    + destruct (move_dicts _ _ _ _ Hm _ _ _ Hd0) as (fs' & Hd' & _ & _ & _ & Hkeep & Hnew).
      rewrite Hd in Hd'. injection Hd' as <- <-.
      destruct (dict_get fs0 "node") as [v|] eqn:Hv.
      * rewrite (Hkeep v eq_refl) in Hnode. injection Hnode as ->.
        by destruct (Hno _ _ _ Hd0).
      * destruct (Hnew eq_refl) as [Hnone|[_ Hsome]]; [congruence|].
        rewrite Hsome in Hnode. injection Hnode as Heq. lia.
    + destruct (move_lists _ _ _ _ Hm _ _ Hd0) as (its' & Hd' & _). congruence.
    + destruct (move_new _ _ _ _ Hm _ _ Hd0 Hd) as [its ?]. done.
Qed.

(** Deleting indices from the highest down keeps an item whose index is
    not among them, and removes an item that sits at one of them only. *)
Lemma delete_each_keeps : ∀ d items i x,
  StronglySorted gt d → items !! i = Some x → i ∉ d → x ∈ delete_each items d.
Proof.
  induction d as [|m d IH]; intros items i x Hs Hi Hnin.
  - by eapply list_elem_of_lookup_2.
  - apply StronglySorted_inv in Hs as [Hs Hm]. unfold delete_each. simpl.
    fold (delete_each (delete m items) d).
    apply not_elem_of_cons in Hnin as [Hne Hnin].
    destruct (decide (i < m)) as [Hlt|Hge].
    + apply (IH _ i); [done| |done]. by rewrite list_lookup_delete_lt.
    + apply (IH _ (i - 1)); [done| |].
      * rewrite list_lookup_delete_ge by lia. by replace (S (i - 1)) with i by lia.
      * intros Hin. rewrite Forall_forall in Hm. specialize (Hm _ Hin). lia.
Qed.

Lemma delete_each_sub : ∀ d items x, x ∈ delete_each items d → x ∈ items.
Proof.
  induction d as [|m d IH]; intros items x; [done|].
  unfold delete_each. simpl. fold (delete_each (delete m items) d).
  intros Hx%IH. by eapply list_elem_of_delete_inv.
Qed.

Lemma delete_each_removes : ∀ d items i x,
  StronglySorted gt d → (∀ j, items !! j = Some x → j = i) → i ∈ d →
  x ∉ delete_each items d.
Proof.
  induction d as [|m d IH]; intros items i x Hs Honly Hin.
  - by apply elem_of_nil in Hin.
  - apply StronglySorted_inv in Hs as [Hs Hm]. unfold delete_each. simpl.
    fold (delete_each (delete m items) d).
    apply elem_of_cons in Hin as [->|Hin].
    + intros Hx%delete_each_sub. apply list_elem_of_lookup in Hx as [j Hj].
      destruct (decide (j < m)) as [Hlt|Hge].
      * rewrite list_lookup_delete_lt in Hj by done. apply Honly in Hj. lia.
      * rewrite list_lookup_delete_ge in Hj by lia. apply Honly in Hj. lia.
    + rewrite Forall_forall in Hm. pose proof (Hm _ Hin) as Hlt.
      apply (IH _ i); [done| |done]. intros j Hj.
      destruct (decide (j < m)) as [Hjm|Hjm].
      * rewrite list_lookup_delete_lt in Hj by done. by apply Honly.
      * rewrite list_lookup_delete_ge in Hj by lia. apply Honly in Hj. lia.
Qed.

(** The indices of the moved nodes are recorded in increasing order. *)
Definition ascending (nested : list nat) (idx : nat) : Prop :=
  StronglySorted gt (reverse nested) ∧ Forall (λ j, j < idx) nested.

Lemma ascending_snoc nested idx :
  ascending nested idx → ascending (nested ++ [idx]) (S idx).
Proof.
  intros [Hs Hlt]. split.
  - rewrite reverse_snoc. constructor; [done|].
    apply Forall_forall. intros j Hj. rewrite elem_of_reverse in Hj.
    rewrite Forall_forall in Hlt. specialize (Hlt _ Hj). lia.
  - apply Forall_app. split; [|by repeat constructor].
    eapply Forall_impl; [exact Hlt|]. intros j ?. simpl in *. lia.
Qed.

Lemma ascending_next nested idx : ascending nested idx → ascending nested (S idx).
Proof.
  intros [Hs Hlt]. split; [done|].
  eapply Forall_impl; [exact Hlt|]. intros j ?. simpl in *. lia.
Qed.

End ReparentFacts.

(** * The claim about dangling parents *)

Section DanglingClaim.
Import JSONTreeWalker JSONCatalog CountryData.

(** [A] is a country-specific override waiting to be reparented: it carries
    the marker, a uid [u] and a parent uid [pu], both strings. *)
Definition override_node (h : heap) (A : addr) (vt : value) (u pu : string)
  : Prop :=
  ∃ root fs, h !! A = Some (CDict root fs)
             ∧ dict_get fs "template_node_uid" = Some vt
             ∧ dict_get fs "uid" = Some (VScalar (SStr u))
             ∧ dict_get fs "parent_uid" = Some (VScalar (SStr pu)).

Lemma override_node_move h h' p n A vt u pu :
  moves_to h h' p n → n ≠ A →
  override_node h A vt u pu → override_node h' A vt u pu.
Proof.
  intros Hm Hne (root & fs & HA & Ht & Hu & Hp).
  destruct (move_dicts _ _ _ _ Hm _ _ _ HA) as (fs' & HA' & Hk & Hpu & _).
  exists root, fs'. split; [done|].
  rewrite !Hk by done. rewrite Hpu by done. done.
Qed.

(** The invariant of the loop for a node [A] at index [i] whose parent is
    not in the catalog. *)
Definition dangling_inv (self : country_data) (items : list value) (A i : addr)
    (vt : value) (u pu : string) (st : reparent_state) (idx : nat) : Prop :=
  root_list_apart self items (store (rworld st))
  ∧ override_node (store (rworld st)) A vt u pu
  ∧ A ∉ (moved st).*1
  ∧ i ∉ nested_nodes st
  ∧ ascending (nested_nodes st) idx
  ∧ (i < idx →
     MissingParent (VScalar (SStr u)) (VScalar (SStr pu)) ∈ log (rworld st)).

Lemma dangling_inv_step self items A i vt u pu st idx node st' :
  (∀ j, items !! j = Some (VRef A) ↔ j = i) →
  has_dash u = false → has_dash pu = false →
  get_node self (VScalar (SStr pu)) = Ok None →
  dangling_inv self items A i vt u pu st idx →
  items !! idx = Some node →
  reparent_node self st idx node = Some (Ok st') →
  dangling_inv self items A i vt u pu st' (S idx).
Proof.
  intros Honly Hdu Hdp Hget (Hroot & Hov & Hmoved & Hnested & Hasc & Hlog) Hnode Hbody.
  destruct (decide (idx = i)) as [->|Hne].
  - assert (node = VRef A) as ->.
    { pose proof (proj2 (Honly i) eq_refl) as Hi. congruence. }
    destruct Hov as (root & fs & HA & Ht & Hu & Hp).
    rewrite (reparent_node_local self st i A root fs vt u pu) in Hbody by done.
    rewrite Hget in Hbody. injection Hbody as <-. simpl.
    split; [done|]. split; [by exists root, fs|]. split; [done|].
    split; [done|]. split; [by apply ascending_next|].
    intros _. apply elem_of_app. right. by left.
  - destruct (reparent_node_Ok _ _ _ _ _ Hbody)
      as (n & root & fields & -> & Hn & [->|[(vu & vp & ->)|(p & h1 & Had & ->)]]).
    + split; [done|]. split; [done|]. split; [done|]. split; [done|].
      split; [by apply ascending_next|]. intros ?. apply Hlog. lia.
    + simpl. split; [done|]. split; [done|]. split; [done|]. split; [done|].
      split; [by apply ascending_next|].
      intros ?. apply elem_of_app. left. apply Hlog. lia.
    + assert (n ≠ A) as HnA by (intros ->; apply Hne; by apply Honly).
      pose proof (move_effect _ _ _ _ _ _ Hn Had) as Hm.
      unfold dangling_inv.
      cbn [store set_store rworld moved nested_nodes log cache].
      split; [by eapply root_list_apart_move|].
      split; [by eapply override_node_move|].
      split.
      { rewrite fmap_app. intros [?|Hx]%elem_of_app; [done|].
        simpl in Hx. by apply list_elem_of_singleton in Hx. }
      split.
      { intros [?|Hx]%elem_of_app; [done|]. by apply list_elem_of_singleton in Hx. }
      split; [by apply ascending_snoc|].
      intros ?. apply Hlog. lia.
Qed.

(** C8, as the code has it — a node [A] of the root-level list that
    carries the [template_node_uid] marker and whose uid and parent uid are
    strings without the separator, when the parent uid is not in the node
    catalog: the pass over [A] raises nothing and only adds the record of
    the missing parent to the log; and when [reparent_nodes] has run, [A] is
    not among the nodes moved, still carries its [parent_uid], and is still
    in the root-level list. *)
Theorem dangling_parent_left_in_place (fuel : nat) (self : country_data)
    (w : world) (items : list value) (A i : addr) (vt : value) (u pu : string) :
  root_list_apart self items (store w) →
  (∀ j, items !! j = Some (VRef A) ↔ j = i) →
  override_node (store w) A vt u pu →
  has_dash u = false → has_dash pu = false →
  get_node self (VScalar (SStr pu)) = Ok None →
  (∀ st, override_node (store (rworld st)) A vt u pu →
     reparent_node self st i (VRef A)
     = Some (Ok (Reparent (moved st) (nested_nodes st)
                   (add_log (rworld st)
                      (MissingParent (VScalar (SStr u)) (VScalar (SStr pu)))))))
  ∧ (∀ moved self' w',
       reparent_nodes fuel self w = Some (Ok (moved, self', w')) →
       A ∉ moved.*1
       ∧ override_node (store w') A vt u pu
       ∧ (∃ items', store w' !! nodes self = Some (CList items') ∧ VRef A ∈ items')
       ∧ MissingParent (VScalar (SStr u)) (VScalar (SStr pu)) ∈ log w').
Proof.
  intros Hroot Honly Hov Hdu Hdp Hget. split.
  - intros st (root & fs & HA & Ht & Hu & Hp).
    rewrite (reparent_node_local self st i A root fs vt u pu) by done.
    by rewrite Hget.
  - intros moved self' w'. unfold reparent_nodes.
    destruct (reparent_loop fuel self (Reparent [] [] w) 0) as [[st|]|] eqn:Hloop;
      [|done|done].
    destruct (reparent_loop_inv self items (dangling_inv self items A i vt u pu))
      with (fuel := fuel) (st := Reparent [] [] w) (idx := 0) (st' := st)
      as (idx' & (Hroot' & Hov' & Hmoved & Hnested & [Hdesc _] & Hlog) & Hend);
      try done.
    { by intros st0 idx0 ([? _] & _). }
    { intros st0 idx0 node st1. by apply dangling_inv_step. }
    { simpl. split; [done|]. split; [done|].
      split; [by intros ?%elem_of_nil|]. split; [by intros ?%elem_of_nil|].
      split; [split; constructor|]. lia. }
    assert (i < idx') as Hi.
    { apply lookup_ge_None in Hend.
      pose proof (lookup_lt_Some _ _ _ (proj2 (Honly i) eq_refl)). lia. }
    destruct Hroot' as [Hlist Hapart].
    destruct (nested_nodes st) as [|j nested] eqn:Hnest.
    + intros [= <- <- <-]. split; [done|]. split; [done|].
      split; [|by apply Hlog]. exists items. split; [done|].
      eapply list_elem_of_lookup_2. by apply Honly.
    + rewrite Hlist.
      destruct (traverse fuel _ (cache (rworld st)) (VRef (nodes self)))
        as [[found ps]|]; [|done].
      destruct (index_iterable _ _ found) as [[[]|] c]; [|done].
      intros [= <- <- <-]. simpl.
      assert (A ≠ nodes self) as HAn.
      { destruct Hov' as (root & fs & HA & _). intros ->. congruence. }
      split; [done|]. split.
      { destruct Hov' as (root & fs & HA & Hrest). exists root, fs.
        split; [|done]. by rewrite list_lookup_insert_ne. }
      split; [|by apply Hlog].
      eexists. split.
      { apply list_lookup_insert_eq. by eapply lookup_lt_Some. }
      eapply (delete_each_keeps _ _ i); [done|by apply Honly|].
      by rewrite elem_of_reverse.
Qed.

(** A checker for [root_list_apart] on a given store. *)
Definition root_list_apartb (nodes : addr) (h : heap) : bool :=
  forallb (λ c, match c with
                | CDict _ fs =>
                    negb (bool_decide (dict_get fs "node" = Some (VRef nodes)))
                | CList _ => true
                end) h.

Lemma root_list_apartb_sound self items h :
  h !! nodes self = Some (CList items) →
  root_list_apartb (nodes self) h = true →
  root_list_apart self items h.
Proof.
  intros Hl Hb. split; [done|]. intros d root fs Hd Hnode.
  unfold root_list_apartb in Hb. rewrite forallb_forall in Hb.
  apply list_elem_of_lookup_2, list_elem_of_In in Hd. specialize (Hb _ Hd).
  simpl in Hb. by rewrite bool_decide_eq_true_2 in Hb.
Qed.

(** A metadata object that knows no node and no grid. *)
Definition no_metadata : Metadata.metadata :=
  Metadata.Build 0 0 (new []) (new []) (new []).

(** A country report with three root-level nodes: [a] overrides a template
    node and names [b] as its parent, [c] names a parent that is not
    there. *)
Definition report : heap :=
  [CDict true [("country_specific_data", VRef 1)];
   CDict false [("nodes", VRef 2); ("variables", VRef 3)];
   CList [VRef 4; VRef 5; VRef 6];
   CList [];
   CDict false [("uid", VScalar (SStr "a"));
                ("template_node_uid", VScalar (SStr "t-1"));
                ("parent_uid", VScalar (SStr "b"))];
   CDict false [("uid", VScalar (SStr "b")); ("name", VScalar (SStr "B"))];
   CDict false [("uid", VScalar (SStr "c"));
                ("template_node_uid", VScalar (SStr "t-1"));
                ("parent_uid", VScalar (SStr "missing"))]].

Lemma dangling_parent_left_in_place_witness :
  ∃ self h ps moved self' w',
    init 9 no_metadata report ∅ 0 = Some (Ok (self, h, ps))
    ∧ get_node self (VScalar (SStr "missing")) = Ok None
    ∧ reparent_nodes 9 self (World h ps 0 []) = Some (Ok (moved, self', w'))
    ∧ 6 ∉ (moved.*1)
    ∧ override_node (store w') 6 (VScalar (SStr "t-1")) "c" "missing"
    ∧ (∃ items', store w' !! nodes self = Some (CList items') ∧ VRef 6 ∈ items')
    ∧ MissingParent (VScalar (SStr "c")) (VScalar (SStr "missing")) ∈ log w'.
Proof.
  eexists _, _, _, _, _, _.
  split; [vm_compute; reflexivity|].
  split; [vm_compute; reflexivity|].
  match goal with |- ?E ∧ _ => assert E as Hrun by (vm_compute; reflexivity) end.
  split; [exact Hrun|].
  refine (proj2 (dangling_parent_left_in_place 9 _ _ [VRef 4; VRef 5; VRef 6] 6 2
                   (VScalar (SStr "t-1")) "c" "missing" _ _ _ _ _ _) _ _ _ Hrun).
  - apply root_list_apartb_sound; reflexivity.
  - intros [|[|[|j]]]; split; try done; simpl; try congruence.
  - eexists _, _. split; [reflexivity|]. by repeat split.
  - reflexivity.
  - reflexivity.
  - vm_compute. reflexivity.
Defined.

(** C8 as stated fails for nodes that the guards of the loop pass over: a
    node without the marker, or with a uid in the template format (one
    containing ['-']), is never looked up, so its unresolvable parent is not
    logged.  And a [parent_uid] that is [null] makes [is_metadata_uid] raise
    [TypeError]. *)
Lemma dangling_parent_not_logged :
  (let h := [CDict true [("country_specific_data", VRef 1)];
             CDict false [("nodes", VRef 2); ("variables", VRef 3)];
             CList [VRef 4];
             CList [];
             CDict false [("uid", VScalar (SStr "c"));
                          ("template_node_uid", VScalar (SStr "t-1"));
                          ("parent_uid", VScalar (SStr "no-such-node"))]] in
   ∃ self h' ps,
     init 9 no_metadata h ∅ 0 = Some (Ok (self, h', ps))
     ∧ get_node self (VScalar (SStr "no-such-node")) = Ok None
     ∧ reparent_nodes 9 self (World h' ps 0 [])
       = Some (Ok ([], self, World h' ps 0 [])))
  ∧ (let h := [CDict true [("country_specific_data", VRef 1)];
               CDict false [("nodes", VRef 2); ("variables", VRef 3)];
               CList [VRef 4];
               CList [];
               CDict false [("uid", VScalar (SStr "c"));
                            ("template_node_uid", VScalar (SStr "t-1"));
                            ("parent_uid", VScalar SNull)]] in
     ∃ self h' ps,
       init 9 no_metadata h ∅ 0 = Some (Ok (self, h', ps))
       ∧ get_node self (VScalar SNull) = Ok None
       ∧ reparent_nodes 9 self (World h' ps 0 []) = Some (Raise TypeError)).
Proof.
  split; simpl; eexists _, _, _.
  - split; [vm_compute; reflexivity|]. split; vm_compute; reflexivity.
  - split; [vm_compute; reflexivity|]. split; vm_compute; reflexivity.
Qed.

End DanglingClaim.

(** * Rebuilding a catalog over a traversal *)

Section RebuildFacts.
Import JSONTreeWalker JSONCatalog.

Lemma register_Ok fields item : ∀ ixs snap ixs' snap',
  register fields item ixs snap = (Ok (), ixs', snap') →
  ∀ a v, a ∈ ixs.*1 → dict_get fields a = Some v → ∃ s, v = VScalar s.
Proof.
  induction ixs as [|[attr b] ixs IH]; intros snap ixs' snap' Hreg a v Ha Hg.
  - by apply elem_of_nil in Ha.
  - simpl in Hreg. csimpl in Ha. destruct (decide (a = attr)) as [->|Hne].
    + rewrite Hg in Hreg. destruct v as [s|]; [by exists s | done].
    + apply elem_of_cons in Ha as [?|Ha]; [done|].
      destruct (dict_get fields attr) as [[s|]|]; [| done |].
      * destruct (register fields item ixs (set_value snap attr s))
          as [[r ixs1] snap1] eqn:Hr.
        injection Hreg as -> _ _. by eapply IH.
      * destruct (register fields item ixs snap) as [[r ixs1] snap1] eqn:Hr.
        injection Hreg as -> _ _. by eapply IH.
Qed.

(** A call of [index] that returns was made on an indexable object. *)
Lemma index_Ok_indexable attrs h c reg item c' :
  consistent attrs c reg → attrs ≠ [] →
  index h c item = (Ok (), c') → indexable_item attrs h item.
Proof.
  intros Hc Hattrs. unfold index.
  assert (∃ c1, (if decide (is_Some (items c !! item)) then unindex c item
                 else (Ok (), c)) = (Ok (), c1)
                ∧ consistent attrs c1 (delete item reg)) as (c1 & -> & Hc1).
  { destruct (decide (is_Some (items c !! item))) as [Hs|Hn].
    - by apply unindex_consistent.
    - exists c. split; [done|]. rewrite delete_id; [done|].
      rewrite (cons_items _ _ _ Hc) in Hn. destruct (reg !! item); [|done].
      exfalso. apply Hn. by eexists. }
  unfold indexable_item, item_fields.
  destruct (h !! item) as [[root fields|its]|] eqn:Hitem.
  - destruct (register fields item (indexes c1) _) as [[r ixs] snap] eqn:Hreg.
    intros [= -> _]. split; [by eexists _, _|].
    intros a v Ha. eapply register_Ok; [exact Hreg|].
    by apply (cons_attrs _ _ _ Hc1).
  - destruct (indexes c1) as [|ai ixs] eqn:Hix; [|done].
    destruct attrs as [|a attrs]; [done|].
    assert (a ∈ (indexes c1).*1) as Ha by (apply (cons_attrs _ _ _ Hc1); by left).
    rewrite Hix in Ha. by apply elem_of_nil in Ha.
  - destruct (indexes c1) as [|ai ixs] eqn:Hix; [|done].
    destruct attrs as [|a attrs]; [done|].
    assert (a ∈ (indexes c1).*1) as Ha by (apply (cons_attrs _ _ _ Hc1); by left).
    rewrite Hix in Ha. by apply elem_of_nil in Ha.
Qed.

Definition record_all (h : heap) (reg : registry) (data : list addr) : registry :=
  foldl (λ acc x, <[x := item_fields h x]> acc) reg data.

Lemma index_iterable_consistent attrs h : attrs ≠ [] → ∀ data c reg c',
  consistent attrs c reg →
  index_iterable h c data = (Ok (), c') →
  consistent attrs c' (record_all h reg data).
Proof.
  intros Hattrs. induction data as [|x data IH]; intros c reg c' Hc; simpl.
  - by intros [= <-].
  - destruct (index h c x) as [[[]|e] c1] eqn:Hi; [|done].
    pose proof (index_Ok_indexable _ _ _ _ _ _ Hc Hattrs Hi) as Hx.
    destruct (index_consistent attrs h c reg x Hc Hx) as (c2 & Hi2 & Hc2).
    rewrite Hi in Hi2. injection Hi2 as <-.
    by apply IH.
Qed.

Lemma record_all_lookup h : ∀ data reg x,
  x ∈ data → record_all h reg data !! x = Some (item_fields h x).
Proof.
  unfold record_all. intros data. induction data as [|y data IH] using rev_ind;
    intros reg x Hx.
  - by apply elem_of_nil in Hx.
  - rewrite foldl_app. simpl. destruct (decide (x = y)) as [->|Hne].
    + by rewrite lookup_insert_eq.
    + rewrite lookup_insert_ne by done. apply IH.
      apply elem_of_app in Hx as [?|Hx]; [done|].
      by apply list_elem_of_singleton in Hx.
Qed.

Lemma clear_consistent attrs c :
  NoDup (indexes c).*1 → (∀ a, a ∈ (indexes c).*1 ↔ a ∈ attrs) →
  consistent attrs (clear c) ∅.
Proof.
  intros Hnd Hattrs.
  assert (((λ ai : string * buckets, (ai.1, (∅ : buckets))) <$> indexes c).*1
          = (indexes c).*1) as Hkeys.
  { generalize (indexes c). intros ixs.
    induction ixs as [|[a b] ixs IH]; csimpl; [done | by rewrite IH]. }
  assert (∀ a k, bucket ((λ ai : string * buckets, (ai.1, (∅ : buckets)))
                           <$> indexes c) a k = ∅) as Hb.
  { intros a k. generalize (indexes c). intros ixs.
    induction ixs as [|[a' b] ixs IH]; csimpl; [done|].
    rewrite bucket_cons. by destruct (decide (a' = a)). }
  constructor; simpl.
  - by rewrite Hkeys.
  - intros a. by rewrite Hkeys.
  - intros i. by rewrite !lookup_empty.
  - intros i. by rewrite !lookup_empty.
  - intros i snap fields. by rewrite lookup_empty.
  - intros a k i. rewrite Hb. split; [by intros ?%not_elem_of_empty|].
    intros [_ (? & ? & Hl & _)]. by rewrite lookup_empty in Hl.
Qed.

(** [traverse] yields every object that can be reached from its start,
    whatever the shape of the store. *)
Lemma traverse_complete fuel h ps start found ps' :
  traverse fuel h ps (VRef start) = Some (found, ps') →
  ∀ x, reachable h start x → is_object h x = true → x ∈ found.
Proof.
  unfold traverse. fold (down h).
  destruct (drain (down h) fuel (start_walker start) ps) as [[cs ps1]|] eqn:Hd;
    [|done].
  intros [= <- <-] x Hreach Hobj.
  apply list_elem_of_filter. split; [by rewrite Hobj|].
  eapply (drain_complete (down h) (λ a, reverse (kids h a)) (down_pure h));
    [exact Hd|].
  clear Hobj. induction Hreach as [|b c _ IH Hbc]; [apply rtc_refl|].
  eapply rtc_r; [exact IH|]. simpl. rewrite elem_of_reverse. by apply refers_kids.
Qed.

End RebuildFacts.

(** * The claim about reparenting *)

Section ReparentClaim.
Import JSONTreeWalker JSONCatalog CountryData.

(** [A] is an element of the child list of [B]. *)
Definition child_of (h : heap) (B A : addr) : Prop :=
  ∃ root fs l kids, h !! B = Some (CDict root fs)
                    ∧ dict_get fs "node" = Some (VRef l)
                    ∧ h !! l = Some (CList kids) ∧ VRef A ∈ kids.

(** [A] is an object with uid [u] that carries no [parent_uid]. *)
Definition detached (h : heap) (A : addr) (u : string) : Prop :=
  ∃ root fs, h !! A = Some (CDict root fs)
             ∧ dict_get fs "parent_uid" = None
             ∧ dict_get fs "uid" = Some (VScalar (SStr u)).

Lemma child_of_move h h' p n B A :
  moves_to h h' p n → child_of h B A → child_of h' B A.
Proof.
  intros Hm (root & fs & l & kids & HB & Hnode & Hl & HA).
  destruct (move_dicts _ _ _ _ Hm _ _ _ HB) as (fs' & HB' & _ & _ & _ & Hkeep & _).
  destruct (move_lists _ _ _ _ Hm _ _ Hl) as (kids' & Hl' & Hkids).
  exists root, fs', l, kids'. split; [done|]. split; [by apply Hkeep|].
  split; [done|]. destruct Hkids as [->|[-> _]]; [done|].
  apply elem_of_app. by left.
Qed.

Lemma detached_move h h' p n A u :
  moves_to h h' p n → n ≠ A → detached h A u → detached h' A u.
Proof.
  intros Hm Hne (root & fs & HA & Hp & Hu).
  destruct (move_dicts _ _ _ _ Hm _ _ _ HA) as (fs' & HA' & Hk & Hpu & _).
  exists root, fs'. split; [done|]. split.
  - rewrite Hpu by done. done.
  - by rewrite Hk.
Qed.

Lemma dict_get_value fields k v : dict_get fields k = Some v → v ∈ fields.*2.
Proof.
  induction fields as [|[k' v'] fields IH]; [done|].
  rewrite dict_get_cons. csimpl. destruct (decide (k' = k)).
  - intros [= ->]. by left.
  - intros H. right. by apply IH.
Qed.

Lemma child_of_reachable h a B A :
  reachable h a B → child_of h B A → reachable h a A.
Proof.
  intros Hr (root & fs & l & kids & HB & Hnode & Hl & HA).
  eapply reach_step; [eapply reach_step; [exact Hr|]|].
  - unfold refers, children. rewrite HB. simpl. by eapply dict_get_value.
  - unfold refers, children. by rewrite Hl.
Qed.

(** The invariant of the loop for a node [A] at index [i] whose parent uid
    the catalog resolves to [B]. *)
Definition moved_inv (self : country_data) (items : list value) (A B : addr)
    (i : nat) (vt : value) (u pu : string) (st : reparent_state) (idx : nat)
  : Prop :=
  root_list_apart self items (store (rworld st))
  ∧ ascending (nested_nodes st) idx
  ∧ (idx ≤ i → override_node (store (rworld st)) A vt u pu)
  ∧ (i < idx →
     (A, B) ∈ moved st ∧ i ∈ nested_nodes st
     ∧ child_of (store (rworld st)) B A ∧ detached (store (rworld st)) A u).

Lemma moved_inv_step self items A B i vt u pu st idx node st' :
  (∀ j, items !! j = Some (VRef A) ↔ j = i) →
  has_dash u = false → has_dash pu = false →
  get_node self (VScalar (SStr pu)) = Ok (Some B) →
  moved_inv self items A B i vt u pu st idx →
  items !! idx = Some node →
  reparent_node self st idx node = Some (Ok st') →
  moved_inv self items A B i vt u pu st' (S idx).
Proof.
  intros Honly Hdu Hdp Hget (Hroot & Hasc & Hbefore & Hafter) Hnode Hbody.
  destruct (decide (idx = i)) as [->|Hne].
  - assert (node = VRef A) as ->.
    { pose proof (proj2 (Honly i) eq_refl) as Hi. congruence. }
    destruct (Hbefore (le_n _)) as (root & fs & HA & Ht & Hu & Hp).
    rewrite (reparent_node_local self st i A root fs vt u pu) in Hbody by done.
    rewrite Hget in Hbody.
    destruct (adopt (store (rworld st)) B A) as [[h1|]|] eqn:Had; [|done|done].
    injection Hbody as <-.
    pose proof (move_effect _ _ _ _ _ _ HA Had) as Hm.
    unfold moved_inv. cbn [store set_store rworld moved nested_nodes log cache].
    split; [by eapply root_list_apart_move|].
    split; [by apply ascending_snoc|].
    split; [lia|]. intros _.
    split; [apply elem_of_app; right; by left|].
    split; [apply elem_of_app; right; by left|].
    split.
    + destruct (move_child _ _ _ _ Hm) as (r & f & l & its & ? & ? & ? & ?).
      by exists r, f, l, its.
    + destruct (move_dicts _ _ _ _ Hm _ _ _ HA) as (fs' & HA' & Hk & _ & Hnone & _).
      exists root, fs'. split; [done|]. split; [by apply Hnone|].
      by rewrite Hk.
  - destruct (reparent_node_Ok _ _ _ _ _ Hbody)
      as (n & root & fields & -> & Hn & [->|[(vu & vp & ->)|(p & h1 & Had & ->)]]).
    + split; [done|]. split; [by apply ascending_next|].
      split; [intros ?; apply Hbefore; lia|]. intros ?. apply Hafter. lia.
    + simpl. split; [done|]. split; [by apply ascending_next|].
      split; [intros ?; apply Hbefore; lia|]. intros ?. apply Hafter. lia.
    + assert (n ≠ A) as HnA by (intros ->; apply Hne; by apply Honly).
      pose proof (move_effect _ _ _ _ _ _ Hn Had) as Hm.
      unfold moved_inv. cbn [store set_store rworld moved nested_nodes log cache].
      split; [by eapply root_list_apart_move|].
      split; [by apply ascending_snoc|].
      split.
      { intros ?. eapply override_node_move; [done..|]. apply Hbefore. lia. }
      intros Hlt. destruct Hafter as (Hmoved & Hnested & Hchild & Hdet); [lia|].
      split; [apply elem_of_app; by left|].
      split; [apply elem_of_app; by left|].
      split; [by eapply child_of_move | by eapply detached_move].
Qed.

(** C4, as the code has it — a node [A] that sits once in the root-level
    list, carries the [template_node_uid] marker, and whose uid [u] and
    parent uid [pu] are strings without the separator, when the node
    catalog resolves [pu] to [B]: whenever [reparent_nodes] runs to
    completion, the move of [A] under [B] is among those it yields, [A] is
    an element of [B]'s child list, [A] no longer carries [parent_uid], [A]
    is no longer in the root-level list, and, provided [B] can still be
    reached from the root-level list, a search of the rebuilt node catalog
    for [uid = u] returns [A]. *)
Theorem reparent_moves_child (fuel : nat) (self : country_data) (w : world)
    (items : list value) (A B : addr) (i : nat) (vt : value) (u pu : string) :
  root_list_apart self items (store w) →
  (∀ j, items !! j = Some (VRef A) ↔ j = i) →
  override_node (store w) A vt u pu →
  has_dash u = false → has_dash pu = false →
  get_node self (VScalar (SStr pu)) = Ok (Some B) →
  (indexes (node_index self)).*1 = node_attrs →
  ∀ moved self' w',
    reparent_nodes fuel self w = Some (Ok (moved, self', w')) →
    (A, B) ∈ moved
    ∧ child_of (store w') B A
    ∧ detached (store w') A u
    ∧ (∃ items', store w' !! nodes self = Some (CList items') ∧ VRef A ∉ items')
    ∧ (reachable (store w') (nodes self) B →
       ∃ found, search (node_index self') [("uid", VScalar (SStr u))] = Ok found
                ∧ A ∈ found).
Proof.
  intros Hroot Honly Hov Hdu Hdp Hget Hattrs moved self' w'. unfold reparent_nodes.
  destruct (reparent_loop fuel self (Reparent [] [] w) 0) as [[st|]|] eqn:Hloop;
    [|done|done].
  destruct (reparent_loop_inv self items (moved_inv self items A B i vt u pu))
    with (fuel := fuel) (st := Reparent [] [] w) (idx := 0) (st' := st)
    as (idx' & (Hroot' & [Hdesc _] & _ & Hafter) & Hend); try done.
  { by intros st0 idx0 ([? _] & _). }
  { intros st0 idx0 node st1. by apply moved_inv_step. }
  { simpl. split; [done|]. split; [split; constructor|]. split; [done|]. lia. }
  destruct Hafter as (Hmoved & Hnested & Hchild & Hdet).
  { apply lookup_ge_None in Hend.
    pose proof (lookup_lt_Some _ _ _ (proj2 (Honly i) eq_refl)). lia. }
  destruct Hroot' as [Hlist Hapart].
  destruct (nested_nodes st) as [|j nested] eqn:Hnest;
    [by apply elem_of_nil in Hnested|].
  rewrite Hlist.
  set (h2 := <[nodes self := CList (delete_each items (reverse (j :: nested)))]>
               (store (rworld st))).
  destruct (traverse fuel h2 (cache (rworld st)) (VRef (nodes self)))
    as [[found ps]|] eqn:Htr; [|done].
  destruct (index_iterable h2 (clear (node_index self)) found) as [[[]|] c] eqn:Hix;
    [|done].
  intros [= <- <- <-]. cbn [store set_store set_cache node_index set_node_index].
  assert (nodes self < length (store (rworld st))) as Hlt by by eapply lookup_lt_Some.
  assert (∀ a root fs, store (rworld st) !! a = Some (CDict root fs) →
            h2 !! a = Some (CDict root fs)) as Hdict.
  { intros a root fs Ha. unfold h2. rewrite list_lookup_insert_ne; [done|].
    intros <-. congruence. }
  assert (child_of h2 B A) as Hchild2.
  { destruct Hchild as (root & fs & l & kids & HB & Hnode & Hl & HA).
    exists root, fs, l, kids. split; [by apply Hdict|]. split; [done|].
    split; [|done]. unfold h2. rewrite list_lookup_insert_ne; [done|].
    intros <-. by destruct (Hapart _ _ _ HB). }
  assert (detached h2 A u) as Hdet2.
  { destruct Hdet as (root & fs & HA & Hrest). exists root, fs.
    split; [by apply Hdict | done]. }
  split; [done|]. split; [done|]. split; [done|]. split.
  { eexists. split; [unfold h2; by apply list_lookup_insert_eq|].
    eapply (delete_each_removes _ _ i); [done| |by rewrite elem_of_reverse].
    intros j0. apply Honly. }
  intros Hreach.
  assert (A ∈ found) as Hfound.
  { eapply traverse_complete; [exact Htr| |].
    - by eapply child_of_reachable.
    - destruct Hdet2 as (root & fs & HA & _). unfold is_object. by rewrite HA. }
  assert (consistent node_attrs (clear (node_index self)) ∅) as Hclear.
  { apply clear_consistent.
    - rewrite Hattrs. by apply (bool_decide_unpack _).
    - intros a. by rewrite Hattrs. }
  pose proof (index_iterable_consistent node_attrs h2 ltac:(done) found _ _ _
                Hclear Hix) as Hc.
  destruct (search_loop_spec node_attrs c _ Hc [("uid", SStr u)] None)
    as (res & Hs & Hres).
  { intros a v [= -> ->]%list_elem_of_singleton. by left. }
  { done. }
  exists res. split; [exact Hs|]. apply Hres.
  split; [by left|]. split; [done|].
  intros a v [= -> ->]%list_elem_of_singleton.
  destruct Hdet2 as (root & fs & HA & _ & Hu).
  exists fs, (SStr u). split; [|done].
  rewrite (record_all_lookup _ _ _ _ Hfound). unfold item_fields. by rewrite HA.
Qed.

Lemma reparent_moves_child_witness :
  ∃ self h ps moved self' w',
    init 9 no_metadata report ∅ 0 = Some (Ok (self, h, ps))
    ∧ get_node self (VScalar (SStr "b")) = Ok (Some 5)
    ∧ reparent_nodes 9 self (World h ps 0 []) = Some (Ok (moved, self', w'))
    ∧ (4, 5) ∈ moved
    ∧ child_of (store w') 5 4
    ∧ detached (store w') 4 "a"
    ∧ (∃ items', store w' !! nodes self = Some (CList items') ∧ VRef 4 ∉ items')
    ∧ ∃ found, search (node_index self') [("uid", VScalar (SStr "a"))] = Ok found
               ∧ 4 ∈ found.
Proof.
  eexists _, _, _, _, _, _.
  split; [vm_compute; reflexivity|].
  split; [vm_compute; reflexivity|].
  match goal with |- ?E ∧ _ => assert E as Hrun by (vm_compute; reflexivity) end.
  split; [exact Hrun|].
  refine (match reparent_moves_child 9 _ _ [VRef 4; VRef 5; VRef 6] 4 5 0
                  (VScalar (SStr "t-1")) "a" "b" _ _ _ _ _ _ _ _ _ _ Hrun with
          | conj H1 (conj H2 (conj H3 (conj H4 H5))) => _
          end).
  - apply root_list_apartb_sound; reflexivity.
  - intros [|[|[|j]]]; split; try done; simpl; try congruence.
  - eexists _, _. split; [reflexivity|]. by repeat split.
  - reflexivity.
  - reflexivity.
  - vm_compute. reflexivity.
  - reflexivity.
  - split; [exact H1|]. split; [exact H2|]. split; [exact H3|]. split; [exact H4|].
    apply H5. eapply reach_step; [apply reach_refl|].
    apply (bool_decide_unpack _). vm_compute. reflexivity.
Defined.

(** C4 as stated fails when the parent links form a cycle: of two
    root-level overrides that name each other as parent, each is moved into
    the other's child list and both leave the root-level list, so that the
    traversal that rebuilds the catalog reaches neither and the search for
    the uid of the first returns nothing. *)
Lemma reparent_cycle_is_lost :
  let h := [CDict true [("country_specific_data", VRef 1)];
            CDict false [("nodes", VRef 2); ("variables", VRef 3)];
            CList [VRef 4; VRef 5];
            CList [];
            CDict false [("uid", VScalar (SStr "a"));
                         ("template_node_uid", VScalar (SStr "t-1"));
                         ("parent_uid", VScalar (SStr "b"))];
            CDict false [("uid", VScalar (SStr "b"));
                         ("template_node_uid", VScalar (SStr "t-1"));
                         ("parent_uid", VScalar (SStr "a"))]] in
  ∃ self h' ps moved self' w',
    init 9 no_metadata h ∅ 0 = Some (Ok (self, h', ps))
    ∧ get_node self (VScalar (SStr "b")) = Ok (Some 5)
    ∧ reparent_nodes 9 self (World h' ps 0 []) = Some (Ok (moved, self', w'))
    ∧ moved = [(4, 5); (5, 4)]
    ∧ store w' !! nodes self = Some (CList [])
    ∧ search (node_index self') [("uid", VScalar (SStr "a"))] = Ok [].
Proof.
  simpl. eexists _, _, _, _, _, _.
  split; [vm_compute; reflexivity|].
  split; [vm_compute; reflexivity|].
  split; [vm_compute; reflexivity|].
  split; [reflexivity|].
  split; vm_compute; reflexivity.
Qed.

End ReparentClaim.

(** * The state of a draining generator *)

Section GeneratorState.
Import JSONTreeWalker.
Context {St : Type}.
Variable neighbour_func : addr → St → list addr * St.
Variable nf : addr → list addr.
Hypothesis nf_pure : ∀ a s, (neighbour_func a s).1 = nf a.
(** The nodes the generator may meet, and what the state must satisfy. *)
Variable Q : addr → Prop.
Variable P : St → Prop.
Hypothesis Q_closed : ∀ a b, Q a → b ∈ nf a → Q b.
Hypothesis P_kept : ∀ a s, Q a → P s → P (neighbour_func a s).2.

Definition headed_by (c : chain) : Prop :=
  match c with
  | [] => True
  | x :: _ => Q x
  end.

Lemma resume_state w s :
  (resume neighbour_func w s).2 =
    match pending w with
    | Some (item :: rest) => (neighbour_func item s).2
    | _ => s
    end.
Proof.
  unfold resume. destruct (pending w) as [[|item rest]|]; try done.
  by destruct (neighbour_func item s).
Qed.

Lemma next_state w s r s' :
  next neighbour_func w s = (r, s') → s' = (resume neighbour_func w s).2.
Proof.
  unfold next. destruct (resume neighbour_func w s) as [q s1].
  destruct (pop_unvisited q (visited w)) as [[[c q'] seen]|]; by intros [= <- <-].
Qed.

Lemma drain_state_inv n : ∀ w s cs s',
  drain neighbour_func n w s = Some (cs, s') →
  Forall headed_by (queue w) →
  (∀ c, pending w = Some c → headed_by c) →
  P s → P s'.
Proof.
  induction n as [|n IH]; intros w s cs s'; simpl; [done|].
  destruct (next neighbour_func w s) as [[[c w']|] s1] eqn:Hn.
  - destruct (drain neighbour_func n w' s1) as [[cs1 s2]|] eqn:Hd; [|done].
    intros [= <- <-] Hq Hp HP.
    pose proof (next_state _ _ _ _ Hn) as Hs1. rewrite resume_state in Hs1.
    destruct (next_Some neighbour_func _ _ _ _ _ Hn)
      as (sk & item & rest & Hres & -> & Hnin & Hv & Hpe & Hsk).
    rewrite (resume_queue neighbour_func nf nf_pure) in Hres.
    assert (Forall headed_by (sk ++ (item :: rest) :: queue w')) as Hall.
    { rewrite <- Hres. destruct (pending w) as [[|i r]|] eqn:Hpw; try done.
      apply Forall_forall. intros d [(m & Hm & ->)|Hd']%elem_of_extend.
      - simpl. eapply Q_closed; [|exact Hm]. by apply (Hp (i :: r)).
      - rewrite Forall_forall in Hq. by apply Hq. }
    apply Forall_app in Hall as [_ Hall]. apply Forall_cons in Hall as [Hc Hq'].
    eapply IH; [exact Hd|done| |].
    + intros c. rewrite Hpe. by intros [= <-].
    + subst s1. destruct (pending w) as [[|i r]|] eqn:Hpw; try done.
      apply P_kept; [|done]. by apply (Hp (i :: r)).
  - intros [= <- <-] Hq Hp HP.
    pose proof (next_state _ _ _ _ Hn) as Hs1. rewrite resume_state in Hs1.
    subst s1. destruct (pending w) as [[|i r]|] eqn:Hpw; try done.
    apply P_kept; [|done]. by apply (Hp (i :: r)).
Qed.

End GeneratorState.

(** * Closures: subtrees, caches and comparisons *)

Section ClosureFacts.
Import JSONTreeWalker JSONTree.

(** Every node of a pre-order listing has its own listing inside it. *)
Lemma preorder_sub h rs l :
  preorder h rs l → ∀ x, x ∈ l → ∃ lx, preorder h [x] lx ∧ lx `sublist_of` l.
Proof.
  induction 1 as [|a rest la lrest H1 IH1 H2 IH2]; intros x Hx.
  - by apply elem_of_nil in Hx.
  - apply elem_of_cons in Hx as [->|[Hx|Hx]%elem_of_app].
    + exists (a :: la ++ []). split; [constructor; [done|constructor]|].
      apply sublist_skip, sublist_app; [done | apply sublist_nil_l].
    + destruct (IH1 x Hx) as (lx & Hp & Hsub). exists lx. split; [done|].
      by apply sublist_cons, sublist_inserts_r.
    + destruct (IH2 x Hx) as (lx & Hp & Hsub). exists lx. split; [done|].
      by apply sublist_cons, sublist_inserts_l.
Qed.

Lemma subtree h r l x :
  tree_below h r l → reachable h r x →
  ∃ lx, tree_below h x lx ∧ length lx ≤ length l.
Proof.
  intros [Hp Hnd] Hr.
  destruct (preorder_sub h [r] l Hp x) as (lx & Hpx & Hsub);
    [by eapply preorder_complete|].
  exists lx. split; [split; [done | by eapply sublist_NoDup]|].
  by apply sublist_length.
Qed.

(** The parent cache holds nothing stale, and points into [U]. *)
Definition cache_inv (h : heap) (r : addr) (U : gset addr) (ps : parent_cache)
  : Prop :=
  cache_fresh h r ps ∧ map_img ps ⊆ U.

Lemma refers_lt h p a : refers h p a → p < length h.
Proof.
  unfold refers, children. destruct (h !! p) eqn:Hp.
  - intros _. by eapply lookup_lt_Some.
  - by intros ?%elem_of_nil.
Qed.

Lemma cache_inv_insert h r U ps a p :
  (∀ i, i < length h → i ∈ U) →
  cache_inv h r U ps → refers h p a → reachable h r p →
  cache_inv h r U (<[a := p]> ps).
Proof.
  intros HU [Hf Himg] Hpa Hrp. split.
  - intros a' p' Hl Ht. apply lookup_insert_Some in Hl as [[<- <-]|[Hne Hl]].
    + done.
    + by apply Hf.
  - etrans; [apply map_img_insert_subseteq|].
    apply union_least; [|done]. apply singleton_subseteq_l, HU.
    by eapply refers_lt.
Qed.

Lemma walk_down_inv h r U ps item :
  (∀ i, i < length h → i ∈ U) →
  cache_inv h r U ps → reachable h r item →
  cache_inv h r U (_walk_down h item ps).2.
Proof.
  intros HU Hinv Hreach. unfold _walk_down. simpl.
  assert (∀ k, k ∈ omap ref_of (reverse (children h item)) → refers h item k) as Hk.
  { intros k (v & Hv & Hr)%list_elem_of_omap. rewrite elem_of_reverse in Hv.
    destruct v; [done|]. simpl in Hr. by injection Hr as ->. }
  revert ps Hinv Hk. generalize (omap ref_of (reverse (children h item))).
  intros ks. induction ks as [|k ks IH]; intros ps Hinv Hk; [done|].
  simpl. apply IH.
  - apply cache_inv_insert; try done. apply Hk. by left.
  - intros k' Hk'. apply Hk. by right.
Qed.

Lemma traverse_inv h r U ps M n ys ps' :
  (∀ i, i < length h → i ∈ U) →
  cache_inv h r U ps → reachable h r M →
  traverse n h ps (VRef M) = Some (ys, ps') → cache_inv h r U ps'.
Proof.
  intros HU Hinv Hreach. unfold traverse. fold (down h).
  destruct (drain (down h) n (start_walker M) ps) as [[cs ps1]|] eqn:Hd; [|done].
  intros [= _ <-].
  eapply (drain_state_inv (down h) (λ a, reverse (kids h a)) (down_pure h)
            (reachable h r) (cache_inv h r U)); [| |exact Hd| | |done].
  - intros a b Ha Hb. rewrite elem_of_reverse in Hb.
    eapply reach_step; [exact Ha|]. by apply refers_kids.
  - intros a s Ha Hs. by apply walk_down_inv.
  - simpl. by constructor.
  - by simpl.
Qed.

Lemma cache_chain_inv h r U ps c :
  (∀ i, i < length h → i ∈ U) →
  cache_inv h r U ps → linked h c → head c = Some r →
  cache_inv h r U (cache_chain c ps).
Proof.
  intros HU Hinv Hl Hh. unfold cache_chain.
  assert (∀ p q, (p, q) ∈ pairwise c → refers h p q ∧ reachable h r p) as Hpairs.
  { intros p q Hpq. destruct (last c) as [x|] eqn:Hlast.
    - by destruct (linked_pairs h c r x Hl Hh Hlast p q Hpq) as (? & ? & _).
    - apply last_None in Hlast. by subst c. }
  revert ps Hinv Hpairs. generalize (pairwise c). intros pairs.
  induction pairs as [|[p q] pairs IH]; intros ps Hinv Hpairs; [done|].
  simpl. apply IH.
  - destruct (Hpairs p q) as [Hpq Hrp]; [by left|].
    by apply cache_inv_insert.
  - intros p' q' Hin. apply Hpairs. by right.
Qed.

(** *** Comparisons inside a tree come to an end *)

Lemma all_eq_total {A} (f : A → option bool) l :
  (∀ x, x ∈ l → is_Some (f x)) → is_Some (all_eq f l).
Proof.
  induction l as [|x l IH]; intros Hf; simpl; [by eexists|].
  destruct (Hf x) as [[] ->]; [by left | | by eexists].
  apply IH. intros y Hy. apply Hf. by right.
Qed.

Lemma py_eq_scalar_l n h s w : is_Some (py_eq n h (VScalar s) w).
Proof. destruct n, w; simpl; by eexists. Qed.

Lemma py_eq_scalar_r n h s v : is_Some (py_eq n h v (VScalar s)).
Proof. destruct n, v; simpl; by eexists. Qed.

Lemma py_eq_total h : ∀ n a la,
  preorder h [a] la → NoDup la → length la ≤ n →
  ∀ w, is_Some (py_eq n h (VRef a) w) ∧ is_Some (py_eq n h w (VRef a)).
Proof.
  induction n as [|n IH]; intros a la Hp Hnd Hlen w.
  { inversion Hp; subst. simpl in Hlen. lia. }
  assert (∀ v, v ∈ children h a →
            ∀ w', is_Some (py_eq n h v w') ∧ is_Some (py_eq n h w' v)) as Hkids.
  { intros [s|k] Hv w'; [split; [apply py_eq_scalar_l | apply py_eq_scalar_r]|].
    inversion Hp as [|? ? lk lrest Hpk Hrest]; subst.
    inversion Hrest; subst. rewrite app_nil_r in *.
    apply NoDup_cons in Hnd as [_ Hnd].
    destruct (preorder_sub h _ _ Hpk k) as (lk' & Hpk' & Hsub).
    { apply (preorder_roots _ _ _ Hpk). by apply refers_kids. }
    apply (IH k lk'); [done | by eapply sublist_NoDup |].
    apply sublist_length in Hsub. simpl in Hlen. lia. }
  unfold children in Hkids.
  split.
  - destruct w as [t|b]; [apply py_eq_scalar_r|]. simpl.
    destruct (decide (a = b)); [by eexists|].
    destruct (h !! a) as [[ra fs|xs]|]; [| |by eexists].
    + destruct (h !! b) as [[rb gs|ys]|]; [|by eexists..].
      destruct (decide (length fs = length gs)); [|by eexists].
      apply all_eq_total. intros [k x] Hx. simpl.
      destruct (dict_get gs k) as [y|]; [|by eexists].
      refine (proj2 (Hkids x _ y)). simpl. apply list_elem_of_fmap. by exists (k, x).
    + destruct (h !! b) as [[rb gs|ys]|]; [by eexists| |by eexists].
      destruct (decide (length xs = length ys)); [|by eexists].
      apply all_eq_total. intros [x y] Hx. simpl.
      refine (proj1 (Hkids x _ y)). simpl. by eapply elem_of_zip_l.
  - destruct w as [t|b]; [apply py_eq_scalar_l|]. simpl.
    destruct (decide (b = a)); [by eexists|].
    destruct (h !! b) as [[rb fs|xs]|]; [| |by eexists].
    + destruct (h !! a) as [[ra gs|ys]|]; [|by eexists..].
      destruct (decide (length fs = length gs)); [|by eexists].
      apply all_eq_total. intros [k x] Hx. simpl.
      destruct (dict_get gs k) as [y|] eqn:Hy; [|by eexists].
      refine (proj1 (Hkids y _ x)). simpl. by eapply dict_get_value.
    + destruct (h !! a) as [[ra gs|ys]|]; [by eexists| |by eexists].
      destruct (decide (length xs = length ys)); [|by eexists].
      apply all_eq_total. intros [x y] Hx. simpl.
      refine (proj2 (Hkids y _ x)). simpl. by eapply elem_of_zip_r.
Qed.

End ClosureFacts.

(** * The closure of a node *)

Section ClosureClaim.
Import JSONTreeWalker JSONTree JSONCatalog.

(** [item.get('uid')] on the fields of an object. *)
Definition uid_of (fields : list (string * value)) : scalar :=
  match dict_get fields "uid" with
  | Some (VScalar s) => s
  | _ => SNull
  end.

Variables (h : heap) (r : addr) (l : list addr).
Hypothesis Hroot : is_root h r = true.
Hypothesis Htree : tree_below h r l.
Hypothesis Hsingle : ∀ r' x,
  is_root h r' = true → reachable h r x → reachable h r' x → r' = r.
Hypothesis Huid : ∀ x root fs b,
  reachable h r x → h !! x = Some (CDict root fs) →
  dict_get fs "uid" ≠ Some (VRef b).

(** [s] is the uid of an object below [M] ([M] included) or above it. *)
Definition in_closure (M : addr) (s : scalar) : Prop :=
  s ≠ SNull
  ∧ ∃ x root fs, h !! x = Some (CDict root fs)
                 ∧ (reachable h M x ∨ (reachable h r x ∧ reachable h x M))
                 ∧ hkey (uid_of fs) = s.

Lemma list_index_total n c : ∀ its k,
  VRef c ∈ its → (∀ el, is_Some (py_eq n h el (VRef c))) →
  ∃ i, list_index n h its (VRef c) k = Some (Ok i).
Proof.
  induction its as [|el its IH]; intros k Hin Htot.
  - by apply elem_of_nil in Hin.
  - simpl. destruct (Htot el) as [b Heq]. rewrite Heq. destruct b; [by eexists|].
    apply IH; [|done]. apply elem_of_cons in Hin as [<-|Hin]; [|done].
    rewrite py_eq_same in Heq. done.
Qed.

Lemma join_keys_total n : ∀ steps,
  (∀ p q, (p, q) ∈ steps →
          refers h p q ∧ ∀ el, is_Some (py_eq n h el (VRef q))) →
  ∃ path, join_keys n h steps = Some (Ok path).
Proof.
  induction steps as [|[p q] steps IH]; intros Hsteps; [by eexists|].
  rewrite join_keys_cons.
  destruct IH as [path ->]; [intros p' q' Hin; apply Hsteps; by right|].
  destruct (Hsteps p q) as [Hpq Htot]; [by left|].
  unfold _get_json_key. unfold refers, children in Hpq.
  destruct (h !! p) as [[root fields|its]|]; simpl in Hpq.
  - destruct (find_child fields q Hpq) as (key & -> & _). by eexists.
  - destruct (list_index_total n q its 0 Hpq Htot) as [i ->]. by eexists.
  - by apply elem_of_nil in Hpq.
Qed.

Lemma lookup_lt_reach x c : h !! x = Some c → x < length h.
Proof. apply lookup_lt_Some. Qed.

(** With a sound cache and fuel enough, the path of an object of the
    document is computed, and the cache learns the chain of its parents. *)
Lemma json_path_total U ps M n :
  (∀ i, i < length h → i ∈ U) →
  cache_inv h r U ps → reachable h r M → M < length h →
  size U < n → length l ≤ n →
  ∃ path c, json_path n h ps M = Some (Ok path, cache_chain c ps)
            ∧ head c = Some r ∧ last c = Some M ∧ linked h c.
Proof.
  intros HU [Hf Himg] Hreach HM Hsize Hlen.
  destruct (parents_finds_chain h r ps M Hroot (ex_intro _ l Htree) Hf Hreach
              (λ r' H1 H2, Hsingle r' M H1 Hreach H2) n)
    as (c & Hpar & Hh & Hl & Hlink).
  { eapply Nat.le_lt_trans; [|exact Hsize]. apply subseteq_size.
    unfold up_universe. intros i [[->%elem_of_singleton|Hi]%elem_of_union|Hi]%elem_of_union.
    - by apply HU.
    - apply HU. apply elem_of_list_to_set, elem_of_seq in Hi. lia.
    - by apply Himg. }
  unfold json_path. rewrite Hpar.
  destruct (removelast c) as [|p rest] eqn:Hrl; [by exists broken_json_path, c|].
  assert ((p :: rest) ++ [M] = c) as -> by (rewrite <- Hrl; by apply removelast_last).
  destruct (join_keys_total n (pairwise c)) as [path ->]; [|by exists path, c].
  intros p' q' Hin.
  destruct (linked_pairs h c r M Hlink Hh Hl p' q' Hin) as (Hrp & Hpq & _).
  split; [done|]. intros el.
  destruct (subtree h r l q' Htree) as (lq & [Hpq' Hnd] & Hle);
    [by eapply reach_step|].
  apply (py_eq_total h n q' lq); [done | done | lia].
Qed.

Lemma add_uids_spec : ∀ objs U0,
  (∀ x, x ∈ objs → ∃ s, get_uid h x = Ok s) →
  ∃ U1, add_uids h objs U0 = Ok U1
        ∧ ∀ s, s ∈ U1 ↔ s ∈ U0 ∨ ∃ x s', x ∈ objs ∧ get_uid h x = Ok s'
                                         ∧ hkey s' = s.
Proof.
  induction objs as [|a objs IH]; intros U0 Hok; simpl.
  - exists U0. split; [done|]. intros s. split; [by left|].
    intros [?|(x & s' & []%elem_of_nil & _)]. done.
  - destruct (Hok a) as [sa Ha]; [by left|]. rewrite Ha.
    destruct (IH ({[hkey sa]} ∪ U0)) as (U1 & -> & HU1);
      [intros x Hx; apply Hok; by right|].
    exists U1. split; [done|]. intros s. rewrite HU1. split.
    + intros [[->%elem_of_singleton|?]%elem_of_union|(x & s' & Hx & Hg & Hk)].
      * right. exists a, sa. split; [by left | done].
      * by left.
      * right. exists x, s'. split; [by right | done].
    + intros [?|(x & s' & [->|Hx]%elem_of_cons & Hg & Hk)].
      * left. set_solver.
      * left. rewrite Ha in Hg. injection Hg as <-. set_solver.
      * right. by exists x, s'.
Qed.

Lemma get_uid_object x root fs :
  reachable h r x → h !! x = Some (CDict root fs) →
  get_uid h x = Ok (uid_of fs).
Proof.
  intros Hr Hx. unfold get_uid, uid_of. rewrite Hx.
  destruct (dict_get fs "uid") as [[s|b]|] eqn:Hu; [done| |done].
  by destruct (Huid x root fs b).
Qed.

Lemma linked_elem : ∀ c a x,
  linked h c → head c = Some a → last c = Some x →
  ∀ y, y ∈ c → reachable h a y ∧ reachable h y x.
Proof.
  induction c as [|a' c IH]; intros a x Hl Hh Hlast y Hy; [done|].
  simpl in Hh. injection Hh as ->. destruct c as [|b c].
  - simpl in Hlast. injection Hlast as ->.
    apply list_elem_of_singleton in Hy as ->. split; apply reach_refl.
  - destruct Hl as [Hab Hl]. apply elem_of_cons in Hy as [->|Hy].
    + split; [apply reach_refl|]. by eapply (linked_reachable h (a :: b :: c)).
    + destruct (IH b x Hl eq_refl Hlast y Hy) as [Hby Hyx].
      split; [|done]. by eapply reachable_step_l.
Qed.

Lemma linked_snoc : ∀ c p m,
  linked h (c ++ [m]) → last c = Some p → linked h c ∧ refers h p m.
Proof.
  induction c as [|a c IH]; intros p m Hl Hlast; [done|].
  destruct c as [|b c].
  - simpl in *. injection Hlast as ->. by destruct Hl.
  - change ((a :: b :: c) ++ [m]) with (a :: (b :: c) ++ [m]) in Hl.
    change ((b :: c) ++ [m]) with (b :: c ++ [m]) in Hl at 1.
    destruct Hl as [Hab Hl].
    destruct (IH p m Hl Hlast) as [Hl' Hpm]. by split.
Qed.

(** In a tree the chain from the root down to a node holds every node on
    the way. *)
Lemma chain_has_ancestors x M :
  reachable h x M → reachable h r x →
  ∀ c, linked h c → head c = Some r → last c = Some M → x ∈ c.
Proof.
  intros Hxm Hrx. induction Hxm as [|b M Hxb IH Hbm]; intros c Hl Hh Hlast.
  - apply removelast_last in Hlast. rewrite <- Hlast.
    apply elem_of_app. right. by left.
  - pose proof (removelast_last c M Hlast) as Hc.
    assert (reachable h r b) as Hrb by by eapply reachable_trans.
    destruct (last (removelast c)) as [p|] eqn:Hp.
    + rewrite <- Hc in Hl. destruct (linked_snoc _ p M Hl Hp) as [Hl' Hpm].
      assert (head (removelast c) = Some r) as Hh'.
      { rewrite <- Hc in Hh. destruct (removelast c); [done | exact Hh]. }
      assert (p = b) as ->.
      { eapply (tree_unique_parent h r p b M); try done.
        - by exists l.
        - by eapply linked_reachable. }
      rewrite <- Hc. apply elem_of_app. left. by apply IH.
    + apply last_None in Hp. rewrite Hp in Hc. simpl in Hc. subst c.
      simpl in Hh. injection Hh as ->. exfalso.
      destruct Htree as [Hpre Hnd].
      eapply (preorder_root_not_child h [r] l Hpre Hnd r b); [by left| |done].
      by eapply preorder_complete.
Qed.

(** [collect_uids] on an object of the document. *)
Lemma collect_uids_spec U ps M n :
  (∀ i, i < length h → i ∈ U) →
  cache_inv h r U ps → reachable h r M → M < length h →
  size U < n → length l < n →
  ∃ uids ps', collect_uids n h ps M = Some (Ok (uids, ps'))
              ∧ cache_inv h r U ps'
              ∧ ∀ s, s ∈ uids ↔ in_closure M s.
Proof.
  intros HU Hinv Hreach HM Hsize Hlen.
  destruct (subtree h r l M Htree Hreach) as (lM & HtM & Hle).
  destruct (traverse_tree h M lM ps (n - S (length lM)) HtM) as [ps1 Htr].
  replace (S (length lM + (n - S (length lM)))) with n in Htr by lia.
  pose proof (traverse_inv h r U ps M n _ ps1 HU Hinv Hreach Htr) as Hinv1.
  unfold collect_uids. rewrite Htr.
  assert (∀ x, reachable h r x → is_object h x = true →
            ∃ root fs, h !! x = Some (CDict root fs)
                       ∧ get_uid h x = Ok (uid_of fs)) as Hobj.
  { intros x Hx Ho. unfold is_object in Ho.
    destruct (h !! x) as [[root fs|]|] eqn:Hlx; [|done|done].
    exists root, fs. split; [done|]. by eapply get_uid_object. }
  assert (∀ x, x ∈ filter (λ x, is_object h x) lM ↔
               reachable h M x ∧ is_object h x = true) as Hbelow.
  { intros x. rewrite list_elem_of_filter. destruct HtM as [HpM _]. split.
    - intros [Ho Hin]. split; [|by destruct (is_object h x)].
      destruct (preorder_reachable _ _ _ HpM x Hin) as (r0 & Hr0 & Hr).
      by apply list_elem_of_singleton in Hr0 as ->.
    - intros [Hr Ho]. split; [by rewrite Ho|]. by eapply preorder_complete. }
  destruct (add_uids_spec (filter (λ x, is_object h x) lM) ∅) as (U1 & -> & HU1).
  { intros x [Hr Ho]%Hbelow.
    destruct (Hobj x) as (root & fs & _ & Hg); [by eapply reachable_trans|done|].
    by eexists. }
  destruct Hinv1 as [Hf1 Himg1].
  destruct (parents_finds_chain h r ps1 M Hroot (ex_intro _ l Htree) Hf1 Hreach
              (λ r' H1 H2, Hsingle r' M H1 Hreach H2) n)
    as (c & -> & Hh & Hl & Hlink).
  { eapply Nat.le_lt_trans; [|exact Hsize]. apply subseteq_size.
    unfold up_universe. intros i [[->%elem_of_singleton|Hi]%elem_of_union|Hi]%elem_of_union.
    - by apply HU.
    - apply HU. apply elem_of_list_to_set, elem_of_seq in Hi. lia.
    - by apply Himg1. }
  assert (∀ x, x ∈ c ↔ reachable h r x ∧ reachable h x M) as Hchain.
  { intros x. split.
    - by apply linked_elem.
    - intros [Hrx Hxm]. by eapply chain_has_ancestors. }
  assert (∀ x, x ∈ removelast c → x ∈ c) as Hrl.
  { intros x Hx. rewrite <- (removelast_last c M Hl). apply elem_of_app. by left. }
  destruct (add_uids_spec (filter (λ p, is_object h p) (removelast c)) U1)
    as (U2 & -> & HU2).
  { intros x [Ho Hx%Hrl%Hchain]%list_elem_of_filter.
    destruct (Hobj x) as (root & fs & _ & Hg);
      [by destruct Hx | by destruct (is_object h x) |].
    by eexists. }
  eexists _, _. split; [done|]. split.
  { apply cache_chain_inv; try done. }
  intros s. rewrite elem_of_difference, HU2, HU1. unfold in_closure. split.
  - intros [[[Hin|(x & s' & Hx & Hg & Hk)]|(x & s' & Hx & Hg & Hk)] Hnull].
    + by apply not_elem_of_empty in Hin.
    + split; [set_solver|]. apply Hbelow in Hx as [Hr Ho].
      destruct (Hobj x) as (root & fs & Hlx & Hg');
        [by eapply reachable_trans | done |].
      exists x, root, fs. split; [done|]. split; [by left|]. congruence.
    + split; [set_solver|].
      apply list_elem_of_filter in Hx as [Ho Hx%Hrl%Hchain].
      destruct (Hobj x) as (root & fs & Hlx & Hg');
        [by destruct Hx | by destruct (is_object h x) |].
      exists x, root, fs. split; [done|]. split; [by right|]. congruence.
  - intros [Hnull (x & root & fs & Hlx & Hwhere & Hk)].
    split; [|set_solver].
    assert (is_object h x = true) as Ho by (unfold is_object; by rewrite Hlx).
    destruct Hwhere as [Hmx|[Hrx Hxm]].
    + left. right. exists x, (uid_of fs). split; [by apply Hbelow|].
      split; [|done]. eapply get_uid_object; [|done]. by eapply reachable_trans.
    + assert (x ∈ c) as Hxc by by apply Hchain.
      rewrite <- (removelast_last c M Hl) in Hxc.
      apply elem_of_app in Hxc as [Hxc|Hxc].
      2: apply list_elem_of_singleton in Hxc as ->.
      * right. exists x, (uid_of fs). split; [|split; [by eapply get_uid_object|done]].
        apply list_elem_of_filter. split; [by rewrite Ho | done].
      * left. right. exists M, (uid_of fs).
        split; [apply Hbelow; split; [apply reach_refl | done]|].
        split; [by eapply get_uid_object | done].
Qed.

(** A node the filter may find: an object of the document that has a
    ["uid"] field. *)
Definition node_with_uid (M : addr) : Prop :=
  reachable h r M
  ∧ ∃ root fs, h !! M = Some (CDict root fs) ∧ is_Some (dict_get fs "uid").

(** A variable the last loop can read: an object with a hashable owner and
    a hashable uid. *)
Definition variable_ok (v : value) : Prop :=
  ∃ a root fs s, v = VRef a ∧ h !! a = Some (CDict root fs)
                 ∧ (∀ b, dict_get fs "node_uid" ≠ Some (VRef b))
                 ∧ dict_get fs "uid" = Some (VScalar s).

Lemma collect_found_spec U n :
  (∀ i, i < length h → i ∈ U) → size U < n → length l < n →
  ∀ found ps acc,
    Forall node_with_uid found → cache_inv h r U ps →
    ∃ uids ps', Metadata.collect_found n h ps found acc = Some (Ok (uids, ps'))
                ∧ cache_inv h r U ps'
                ∧ ∀ s, s ∈ uids ↔ s ∈ acc ∨ ∃ M, M ∈ found ∧ in_closure M s.
Proof.
  intros HU Hsize Hlen. induction found as [|M found IH]; intros ps acc Hall Hinv.
  - exists acc, ps. split; [done|]. split; [done|]. intros s. split; [by left|].
    intros [?|(M & Hin & _)]; [done|]. by apply elem_of_nil in Hin.
  - apply Forall_cons in Hall as [(Hreach & root & fs & HM & Hu) Hall].
    pose proof (lookup_lt_Some _ _ _ HM) as HMlt.
    destruct (json_path_total U ps M n HU Hinv Hreach HMlt Hsize)
      as (path & c & Hpath & Hh & Hl & Hlink); [lia|].
    pose proof (cache_chain_inv h r U ps c HU Hinv Hlink Hh) as Hinv1.
    destruct (collect_uids_spec U _ M n HU Hinv1 Hreach HMlt Hsize Hlen)
      as (uids & ps2 & Hcol & Hinv2 & Huids).
    destruct (IH ps2 (acc ∪ uids) Hall Hinv2) as (res & ps3 & Hrest & Hinv3 & Hres).
    exists res, ps3. split.
    { simpl. rewrite Hpath. unfold Metadata.has_key. rewrite HM.
      destruct Hu as [v ->]. by rewrite Hcol. }
    split; [done|]. intros s. rewrite Hres, elem_of_union, Huids. split.
    + intros [[?|?]|(M' & Hin & Hc)].
      * by left.
      * right. exists M. split; [by left | done].
      * right. exists M'. split; [by right | done].
    + intros [?|(M' & [->|Hin]%elem_of_cons & Hc)].
      * left. by left.
      * left. by right.
      * right. by exists M'.
Qed.

Lemma collect_variables_total nodes : ∀ vars acc,
  Forall variable_ok vars →
  ∃ V, Metadata.collect_variables h vars nodes acc = Ok V.
Proof.
  induction vars as [|v vars IH]; intros acc Hall; [by eexists|].
  apply Forall_cons in Hall as [(a & root & fs & s & -> & Ha & Hown & Hu) Hall].
  simpl. rewrite Ha.
  destruct (dict_get fs "node_uid") as [[owner|b]|] eqn:Hn; simpl.
  - destruct (decide (hkey owner ∈ nodes)); [rewrite Hu|]; by apply IH.
  - by destruct (Hown b).
  - destruct (decide (SNull ∈ nodes)); [rewrite Hu|]; by apply IH.
Qed.

(** C5 — in a document satisfying the tree invariant, with a parent cache
    that holds nothing stale, when the filter finds exactly the node [M]
    (an object of the document with a ["uid"]), [collect_sector_uids]
    returns, and the uids it collects under ["nodes"] are exactly the uids,
    other than [None], of the objects below [M] ([M] itself included) and of
    the objects above [M]: the uid of [M], of its descendants and of its
    ancestors are in the set, and a uid that only nodes elsewhere carry (in
    a sibling subtree, say) is not.  The uids read are hashable, the
    dimension instances found are objects of the document, and the
    variables are objects with hashable owner and uid. *)
Theorem closure_collection (md : Metadata.metadata)
    (filter_ : list (string * scalar)) (ps : parent_cache) (M : addr)
    (dis : list addr) (vars : list value) :
  cache_fresh h r ps →
  Metadata.find_nodes md filter_ = Ok [M] →
  node_with_uid M →
  Metadata.find_navigation_dis md filter_ = Ok dis →
  Forall node_with_uid dis →
  h !! Metadata.variables md = Some (CList vars) →
  Forall variable_ok vars →
  ∃ n0, ∀ fuel, n0 ≤ fuel →
    ∃ res ps',
      Metadata.collect_sector_uids fuel h ps md filter_ = Some (Ok (res, ps'))
      ∧ (∀ s, s ∈ Metadata.nodes res ↔ in_closure M s)
      ∧ (∀ y root fs,
           h !! y = Some (CDict root fs) →
           (∀ x root' fs',
              h !! x = Some (CDict root' fs') →
              reachable h M x ∨ (reachable h r x ∧ reachable h x M) →
              hkey (uid_of fs') ≠ hkey (uid_of fs)) →
           hkey (uid_of fs) ∉ Metadata.nodes res).
Proof.
  intros Hfresh Hfind HM Hdis Hdis_ok Hvars Hvars_ok.
  set (U := list_to_set (seq 0 (length h)) ∪ map_img ps : gset addr).
  assert (∀ i, i < length h → i ∈ U) as HU.
  { intros i Hi. apply elem_of_union_l, elem_of_list_to_set, elem_of_seq. lia. }
  assert (cache_inv h r U ps) as Hinv by (split; [done | set_solver]).
  exists (S (size U + length l)). intros fuel Hfuel.
  destruct (collect_found_spec U fuel HU ltac:(lia) ltac:(lia) [M] ps ∅)
    as (uids & ps1 & Hcol & Hinv1 & Huids);
    [constructor; [done | constructor] | done |].
  destruct (collect_found_spec U fuel HU ltac:(lia) ltac:(lia) dis ps1 ∅)
    as (di_uids & ps2 & Hcol2 & Hinv2 & _); [done | done |].
  destruct (collect_variables_total uids vars ∅ Hvars_ok) as [V HV].
  exists (Metadata.Sector uids V di_uids), ps2.
  assert (∀ s, s ∈ uids ↔ in_closure M s) as Hin.
  { intros s. rewrite Huids. split.
    - intros [Hs|(M' & ->%list_elem_of_singleton & Hc)]; [|done].
      by apply not_elem_of_empty in Hs.
    - intros Hc. right. exists M. split; [by left | done]. }
  split; [|split; [exact Hin|]].
  - unfold Metadata.collect_sector_uids.
    by rewrite Hfind, Hcol, Hdis, Hcol2, Hvars, HV.
  - intros y root fs Hy Hother (_ & x & root' & fs' & Hx & Hwhere & Hk)%Hin.
    by eapply Hother.
Qed.

End ClosureClaim.

Section ClosureWitness.
Import JSONTreeWalker JSONTree JSONCatalog.

(** A checker for the hashability of every uid of a store. *)
Definition uids_hashable (h : heap) : bool :=
  forallb (λ c, match c with
                | CDict _ fs =>
                    match dict_get fs "uid" with
                    | Some (VRef _) => false
                    | _ => true
                    end
                | CList _ => true
                end) h.

Lemma uids_hashable_sound h :
  uids_hashable h = true →
  ∀ x root fs b, h !! x = Some (CDict root fs) → dict_get fs "uid" ≠ Some (VRef b).
Proof.
  unfold uids_hashable. rewrite forallb_forall. intros Hall x root fs b Hx Hu.
  apply list_elem_of_lookup_2, list_elem_of_In in Hx. specialize (Hall _ Hx).
  simpl in Hall. by rewrite Hu in Hall.
Qed.

(** The catalog that a constructor builds over the objects below
    [start]. *)
Definition catalog_over (h : heap) (attrs : list string) (start : addr) : catalog :=
  match traverse (S (length h)) h ∅ (VRef start) with
  | Some (found, _) => (create h attrs found).2
  | None => new attrs
  end.

(** A metadata document with a node tree of three levels: [top] holds
    [mid] and [sib], [mid] holds [leaf], [sib] holds [cousin]; [other] is
    a second node of the first level. *)
Definition three_levels : heap :=
  [CDict true [("Metadata", VRef 1)];
   CList [VRef 2];
   CDict false [("node", VRef 3); ("variable", VRef 4)];
   CList [VRef 5; VRef 6];
   CList [VRef 7];
   CDict false [("uid", VScalar (SStr "top")); ("name", VScalar (SStr "Top"));
                ("node", VRef 8)];
   CDict false [("uid", VScalar (SStr "other")); ("name", VScalar (SStr "Other"));
                ("node", VRef 9)];
   CDict false [("uid", VScalar (SStr "v1")); ("node_uid", VScalar (SStr "mid"))];
   CList [VRef 10; VRef 11];
   CList [];
   CDict false [("uid", VScalar (SStr "mid")); ("name", VScalar (SStr "Mid"));
                ("node", VRef 12)];
   CDict false [("uid", VScalar (SStr "sib")); ("name", VScalar (SStr "Sib"));
                ("node", VRef 13)];
   CList [VRef 14];
   CList [VRef 15];
   CDict false [("uid", VScalar (SStr "leaf"))];
   CDict false [("uid", VScalar (SStr "cousin"))]].

Definition three_levels_metadata : Metadata.metadata :=
  Metadata.Build 0 4
    (catalog_over three_levels
       ["uid"; "parent_uid"; "template_node_uid"; "name_prefix"; "name"] 3)
    (new ["uid"; "name"])
    (new ["node_uid"]).

Lemma closure_collection_witness :
  let filter_ := [("uid", SStr "mid")] in
  Metadata.find_nodes three_levels_metadata filter_ = Ok [10]
  ∧ (∃ res ps', Metadata.collect_sector_uids 40 three_levels ∅
                  three_levels_metadata filter_ = Some (Ok (res, ps'))
                ∧ Metadata.nodes res = {[SStr "top"; SStr "mid"; SStr "leaf"]})
  ∧ ∃ n0, ∀ fuel, n0 ≤ fuel →
      ∃ res ps',
        Metadata.collect_sector_uids fuel three_levels ∅ three_levels_metadata
          filter_ = Some (Ok (res, ps'))
        ∧ (∀ s, s ∈ Metadata.nodes res ↔ in_closure three_levels 0 10 s)
        ∧ (∀ y root fs,
             three_levels !! y = Some (CDict root fs) →
             (∀ x root' fs',
                three_levels !! x = Some (CDict root' fs') →
                reachable three_levels 10 x
                ∨ (reachable three_levels 0 x ∧ reachable three_levels x 10) →
                hkey (uid_of fs') ≠ hkey (uid_of fs)) →
             hkey (uid_of fs) ∉ Metadata.nodes res).
Proof.
  assert (tree_below three_levels 0
            [0; 1; 2; 3; 5; 8; 10; 12; 14; 11; 13; 15; 6; 9; 4; 7]) as Ht
    by (apply (listing_tree_below 20); reflexivity).
  simpl. split; [vm_compute; reflexivity|]. split.
  { eexists _, _. split; vm_compute; reflexivity. }
  apply (closure_collection three_levels 0 _ eq_refl Ht) with (dis := [])
    (vars := [VRef 7]).
  - intros r' x Hr' _ _. by apply (only_root three_levels 0).
  - intros x root fs b _. by apply uids_hashable_sound.
  - apply cache_fresh_empty.
  - vm_compute. reflexivity.
  - split.
    + destruct Ht as [Hp _].
      destruct (preorder_reachable _ _ _ Hp 10) as (r0 & Hr0 & Hr).
      * by repeat (first [left | right]).
      * by apply list_elem_of_singleton in Hr0 as ->.
    + eexists _, _. split; [reflexivity|]. by eexists.
  - vm_compute. reflexivity.
  - constructor.
  - reflexivity.
  - repeat constructor. eexists _, _, _, _. split; [reflexivity|].
    split; [reflexivity|]. split; [|reflexivity]. intros b. discriminate.
Defined.

End ClosureWitness.

(** * The walker on stores of any shape *)

Section WalkerAnyStore.
Import JSONTreeWalker.

(** The containers a downward walk from [start] can meet: [start] and
    whatever a container of the store refers to. *)
Definition down_universe (h : heap) (start : addr) : gset addr :=
  {[start]} ∪ list_to_set (flat_map (kids h) (seq 0 (length h))).

Lemma down_universe_closed h start a b :
  a ∈ down_universe h start → b ∈ reverse (kids h a) → b ∈ down_universe h start.
Proof.
  intros _ Hb. rewrite elem_of_reverse in Hb. unfold down_universe.
  apply elem_of_union_r, elem_of_list_to_set, list_elem_of_In, in_flat_map.
  exists a. split; [|by apply list_elem_of_In].
  apply list_elem_of_In, elem_of_seq. split; [lia|]. simpl.
  apply refers_kids in Hb. by eapply refers_lt.
Qed.

Lemma down_chain_reachable h start c :
  valid_chain (λ a, reverse (kids h a)) start c →
  ∃ top rest, c = top :: rest ∧ reachable h start top.
Proof.
  induction c as [|a c IH]; simpl; [done|].
  destruct c as [|b c].
  - intros ->. exists start, []. split; [done | apply reach_refl].
  - intros [Hab Hv]. destruct (IH Hv) as (top & rest & [= <- <-] & Hr).
    exists a, (b :: c). split; [done|]. rewrite elem_of_reverse in Hab.
    eapply reach_step; [exact Hr|]. by apply refers_kids.
Qed.

(** What [traverse] has yielded when it has run to its end. *)
Lemma traverse_spec n h ps start ys ps' :
  traverse n h ps (VRef start) = Some (ys, ps') →
  NoDup ys ∧ ∀ a, a ∈ ys ↔ reachable h start a ∧ is_object h a = true.
Proof.
  unfold traverse. fold (down h).
  destruct (drain (down h) n (start_walker start) ps) as [[cs ps1]|] eqn:Hd; [|done].
  intros [= <- <-].
  destruct (drain_closed (down h) (λ a, reverse (kids h a)) (down_pure h)
              n _ _ _ _ Hd) as (_ & _ & _ & Hnd & _).
  split; [by apply NoDup_filter|].
  intros a. rewrite list_elem_of_filter. split.
  - intros [Hobj (c & Hc & Hh)%list_elem_of_omap].
    split; [|by destruct (is_object h a)].
    assert (Forall (valid_chain (λ a, reverse (kids h a)) start) cs) as Hv.
    { eapply (drain_valid (down h) (λ a, reverse (kids h a)) (down_pure h));
        [exact Hd| |by simpl].
      simpl. by constructor. }
    rewrite Forall_forall in Hv.
    destruct (down_chain_reachable h start c (Hv c Hc)) as (top & rest & -> & Hr).
    simpl in Hh. by injection Hh as <-.
  - intros [Hr Hobj]. split; [by rewrite Hobj|].
    eapply (drain_complete (down h) (λ a, reverse (kids h a)) (down_pure h));
      [exact Hd|].
    clear Hobj. induction Hr as [|b c _ IH Hbc]; [apply rtc_refl|].
    eapply rtc_r; [exact IH|]. simpl. rewrite elem_of_reverse.
    by apply refers_kids.
Qed.

Lemma traverse_total h ps start n :
  size (down_universe h start) < n →
  ∃ ys ps', traverse n h ps (VRef start) = Some (ys, ps').
Proof.
  intros Hn.
  destruct (drain_terminates (down h) (λ a, reverse (kids h a)) (down_pure h)
              (down_universe h start) (down_universe_closed h start) n
              (start_walker start) ps) as [[cs ps'] Hd].
  { simpl. constructor; [|constructor]. simpl. unfold down_universe. set_solver. }
  { by simpl. }
  { simpl. eapply Nat.le_lt_trans; [|exact Hn]. apply subseteq_size. set_solver. }
  unfold traverse. fold (down h). rewrite Hd. by eexists _, _.
Qed.

(** X1 — on every finite store, whatever its shape (containers may be
    shared, or lie on cycles), [traverse] comes to an end, and it yields
    exactly the objects that can be reached from [start], each of them
    once. *)
Theorem traverse_any_store (h : heap) (ps : parent_cache) (start : addr) :
  ∃ n0, ∀ n, n0 ≤ n →
    ∃ ys ps', traverse n h ps (VRef start) = Some (ys, ps')
              ∧ NoDup ys
              ∧ ∀ a, a ∈ ys ↔ reachable h start a ∧ is_object h a = true.
Proof.
  exists (S (size (down_universe h start))). intros n Hn.
  destruct (traverse_total h ps start n) as (ys & ps' & Htr); [lia|].
  exists ys, ps'. split; [done|]. by eapply traverse_spec.
Qed.

(** The cache stays sound under the writes of [_walk_down] and of
    [parents]. *)
Lemma cache_sound_insert h ps a p :
  cache_sound h ps → refers h p a → cache_sound h (<[a := p]> ps).
Proof.
  intros Hs Hpa a' p' Hl Ht. apply lookup_insert_Some in Hl as [[<- <-]|[_ Hl]].
  - done.
  - by apply Hs.
Qed.

Lemma walk_down_sound h ps item :
  cache_sound h ps → cache_sound h (_walk_down h item ps).2.
Proof.
  intros Hs. unfold _walk_down. simpl.
  assert (∀ k, k ∈ omap ref_of (reverse (children h item)) → refers h item k) as Hk.
  { intros k (v & Hv & Hr)%list_elem_of_omap. rewrite elem_of_reverse in Hv.
    destruct v; [done|]. simpl in Hr. by injection Hr as ->. }
  revert ps Hs Hk. generalize (omap ref_of (reverse (children h item))).
  intros ks. induction ks as [|k ks IH]; intros ps Hs Hk; [done|].
  simpl. apply IH.
  - apply cache_sound_insert; [done|]. apply Hk. by left.
  - intros k' Hk'. apply Hk. by right.
Qed.

Lemma cache_chain_sound h ps c :
  cache_sound h ps → linked h c → cache_sound h (cache_chain c ps).
Proof.
  intros Hs Hl. unfold cache_chain.
  assert (∀ p q, (p, q) ∈ pairwise c → refers h p q) as Hpairs.
  { intros p q Hpq. destruct c as [|a c]; [by apply elem_of_nil in Hpq|].
    destruct (last (a :: c)) as [x|] eqn:Hlast.
    - by destruct (linked_pairs h (a :: c) a x Hl eq_refl Hlast p q Hpq) as (_ & ? & _).
    - by apply last_None in Hlast. }
  revert ps Hs Hpairs. generalize (pairwise c). intros pairs.
  induction pairs as [|[p q] pairs IH]; intros ps Hs Hpairs; [done|].
  simpl. apply IH.
  - apply cache_sound_insert; [done|]. apply Hpairs. by left.
  - intros p' q' Hin. apply Hpairs. by right.
Qed.

(** What [parents] returns when it returns a chain. *)
Lemma parents_Some h ps x n c ps' :
  cache_sound h ps →
  parents n h ps x = Some (Some c, ps') →
  ∃ full, c = removelast full ∧ ps' = cache_chain full ps
          ∧ linked h full ∧ last full = Some x
          ∧ ∃ r rest, full = r :: rest ∧ is_root h r = true.
Proof.
  intros Hs. unfold parents.
  destruct (parents_loop n h ps (start_walker x)) as [[full|]|] eqn:Hloop;
    [|done|done].
  intros [= <- <-]. exists full. split; [done|]. split; [done|].
  assert (∀ n w, parents_loop n h ps w = Some (Some full) →
            Forall (valid_chain (_walk_up h ps) x) (queue w) →
            (∀ c, pending w = Some c → valid_chain (_walk_up h ps) x c) →
            valid_chain (_walk_up h ps) x full ∧ top_is_root h full = true) as Hinv.
  { clear. induction n as [|n IH]; intros w; simpl; [done|].
    fold (up h ps).
    destruct (next (up h ps) w tt) as [[[c w']|] []] eqn:Hn; [|done].
    intros Hloop Hq Hp.
    destruct (next_Some (up h ps) _ _ _ _ _ Hn)
      as (sk & item & rest & Hres & -> & Hnin & Hv & Hpe & Hsk).
    rewrite (resume_queue (up h ps) (_walk_up h ps) (λ _ _, eq_refl)) in Hres.
    assert (Forall (valid_chain (_walk_up h ps) x) (sk ++ (item :: rest) :: queue w'))
      as Hall.
    { rewrite <- Hres. destruct (pending w) as [[|i r]|] eqn:Hpw; try done.
      apply Forall_forall. intros d [(m & Hm & ->)|Hd']%elem_of_extend.
      - simpl. split; [done|]. by apply (Hp (i :: r)).
      - rewrite Forall_forall in Hq. by apply Hq. }
    apply Forall_app in Hall as [_ Hall]. apply Forall_cons in Hall as [Hc Hq'].
    destruct (is_root h item) eqn:Hroot.
    - injection Hloop as <-. by split.
    - apply (IH w'); [done | done |]. intros c. rewrite Hpe. by intros [= <-]. }
  destruct (Hinv n (start_walker x) Hloop) as [Hv Htop].
  { simpl. by constructor. }
  { by simpl. }
  destruct (valid_chain_linked _ _ _ _ Hs Hv) as [Hl Hlast].
  split; [done|]. split; [done|].
  destruct full as [|r rest]; [done|]. by exists r, rest.
Qed.

(** X2 — with a parent cache that holds nothing stale, a chain returned
    by [parents] is a true chain of ancestors: together with the item it
    starts at a [JSONTreeRoot], every container on it holds the next one,
    and it ends in the item's own parent.  The entries [parents] adds to
    the cache leave it without stale entries. *)
Theorem parents_returns_ancestors (h : heap) (ps ps' : parent_cache) (x : addr)
    (n : nat) (c : chain) :
  cache_sound h ps →
  parents n h ps x = Some (Some c, ps') →
  linked h (c ++ [x])
  ∧ (∃ r, head (c ++ [x]) = Some r ∧ is_root h r = true)
  ∧ (∀ p, last c = Some p → refers h p x)
  ∧ (∀ p, p ∈ c → reachable h p x)
  ∧ cache_sound h ps'.
Proof.
  intros Hs Hpar.
  destruct (parents_Some _ _ _ _ _ _ Hs Hpar)
    as (full & -> & -> & Hl & Hlast & r & rest & Hfull & Hroot).
  pose proof (removelast_last full x Hlast) as Hfull'.
  rewrite Hfull'. split; [done|]. split.
  { exists r. by subst full. }
  split.
  { intros p Hp. rewrite <- Hfull' in Hl.
    revert Hl Hp. generalize (removelast full). clear.
    induction l as [|a l IH]; intros Hl Hp; [done|].
    destruct l as [|b l].
    - simpl in *. injection Hp as ->. by destruct Hl.
    - change ((a :: b :: l) ++ [x]) with (a :: (b :: l) ++ [x]) in Hl.
      change ((b :: l) ++ [x]) with (b :: l ++ [x]) in Hl at 1.
      destruct Hl as [_ Hl]. by apply IH. }
  split; [|by apply cache_chain_sound].
  intros p Hp.
  assert (p ∈ full) as Hin by (rewrite <- Hfull'; apply elem_of_app; by left).
  clear Hfull' Hp Hpar. revert Hl Hlast Hin. clear. revert p.
  induction full as [|a full IH]; intros p Hl Hlast Hin; [done|].
  destruct full as [|b full].
  - simpl in Hlast. injection Hlast as ->.
    apply list_elem_of_singleton in Hin as ->. apply reach_refl.
  - destruct Hl as [Hab Hl]. apply elem_of_cons in Hin as [->|Hin].
    + eapply reachable_step_l; [exact Hab|]. apply IH; [done | done | by left].
    + by apply IH.
Qed.

Lemma parents_returns_ancestors_witness :
  let h := [CDict true [("Metadata", VRef 1)];
            CList [VRef 2];
            CDict false [("node", VRef 3)];
            CList [VRef 4; VRef 5];
            CDict false [("uid", VScalar (SStr "a"))];
            CDict false [("uid", VScalar (SStr "b"))]] in
  parents 8 h ∅ 5 = Some (Some [0; 1; 2; 3], cache_chain [0; 1; 2; 3; 5] ∅)
  ∧ linked h ([0; 1; 2; 3] ++ [5])
  ∧ (∃ r, head ([0; 1; 2; 3] ++ [5]) = Some r ∧ is_root h r = true)
  ∧ (∀ p, last [0; 1; 2; 3] = Some p → refers h p 5)
  ∧ (∀ p, p ∈ [0; 1; 2; 3] → reachable h p 5)
  ∧ cache_sound h (cache_chain [0; 1; 2; 3; 5] ∅).
Proof.
  simpl.
  match goal with |- ?E ∧ _ => assert E as Hrun by (vm_compute; reflexivity) end.
  split; [exact Hrun|].
  exact (parents_returns_ancestors _ ∅ _ 5 8 [0; 1; 2; 3] (cache_sound_empty _) Hrun).
Defined.

(** X3 — [traverse] and [json_path] keep the parent cache free of stale
    entries: on a store that does not change, every parent either of them
    records for a container does hold that container. *)
Theorem walker_keeps_cache_sound (h : heap) (ps : parent_cache) :
  cache_sound h ps →
  (∀ n start ys ps',
     traverse n h ps start = Some (ys, ps') → cache_sound h ps')
  ∧ (∀ n item r ps',
       json_path n h ps item = Some (r, ps') → cache_sound h ps').
Proof.
  intros Hs. split.
  - intros n [s|start] ys ps'; simpl; [by intros [= _ <-]|].
    fold (down h).
    destruct (drain (down h) n (start_walker start) ps) as [[cs ps1]|] eqn:Hd;
      [|done].
    intros [= _ <-].
    eapply (drain_state_inv (down h) (λ a, reverse (kids h a)) (down_pure h)
              (λ _, True) (cache_sound h)); [done| |exact Hd| | |done].
    + intros a s _ Hsnd. by apply walk_down_sound.
    + simpl. by constructor.
    + by simpl.
  - intros n item r ps'. unfold json_path.
    destruct (parents n h ps item) as [[[c|] ps1]|] eqn:Hpar; [| |done].
    + destruct (parents_Some _ _ _ _ _ _ Hs Hpar) as (full & _ & -> & Hl & _).
      destruct c as [|p rest].
      * intros [= _ <-]. by apply cache_chain_sound.
      * destruct (join_keys n h _); [|done]. intros [= _ <-].
        by apply cache_chain_sound.
    + unfold parents in Hpar.
      destruct (parents_loop n h ps (start_walker item)) as [[full|]|]; [done| |done].
      injection Hpar as <-. by intros [= _ <-].
Qed.

Lemma walker_keeps_cache_sound_witness :
  let h := [CDict true [("Metadata", VRef 1)];
            CList [VRef 2];
            CDict false [("uid", VScalar (SStr "a"))]] in
  (∀ n start ys ps',
     traverse n h ∅ start = Some (ys, ps') → cache_sound h ps')
  ∧ (∀ n item r ps',
       json_path n h ∅ item = Some (r, ps') → cache_sound h ps').
Proof.
  exact (walker_keeps_cache_sound _ ∅ (cache_sound_empty _)).
Defined.

End WalkerAnyStore.

(** * Paths as text *)

Section PathText.
Import JSONTreeWalker JSONTree.

(** The selector [_get_json_key] writes for a key, and the path
    [json_path] joins from selectors. *)
Definition selector (k : json_key) : string :=
  match k with
  | KStr s => "." +:+ s
  | KInt i => "[" +:+ str_of_nat i +:+ "]"
  end.

Definition render_path (ks : list json_key) : string :=
  foldr (λ k acc, selector k +:+ acc) "" ks.

Lemma get_json_key_selector n h p c s :
  _get_json_key n h p c = Some (Ok s) → ∃ k, s = selector k.
Proof.
  unfold _get_json_key. destruct (h !! p) as [[root fields|its]|]; [| |done].
  - destruct (List.find _ fields) as [[key v]|]; [|done].
    intros [= <-]. by exists (KStr key).
  - destruct (list_index n h its (VRef c) 0) as [[i|e]|]; [|done|done].
    intros [= <-]. by exists (KInt i).
Qed.

Lemma join_keys_render n h : ∀ steps path,
  join_keys n h steps = Some (Ok path) →
  ∃ ks, path = render_path ks ∧ length ks = length steps.
Proof.
  induction steps as [|[p c] steps IH]; intros path.
  - intros [= <-]. by exists [].
  - rewrite join_keys_cons.
    destruct (_get_json_key n h p c) as [[s|e]|] eqn:Hk; [| |done].
    + destruct (join_keys n h steps) as [[rest|e]|]; [|done|done].
      intros [= <-]. destruct (IH rest eq_refl) as (ks & -> & Hlen).
      destruct (get_json_key_selector _ _ _ _ _ Hk) as [k ->].
      exists (k :: ks). split; [done|]. simpl. by rewrite Hlen.
    + by destruct e.
Qed.

(** A field name that [\w+] matches whole. *)
Definition key_wf (k : json_key) : Prop :=
  match k with
  | KStr s => key_ok s = true
  | KInt _ => True
  end.

(** An index written with no more digits than [int] reads. *)
Definition index_read (k : json_key) : bool :=
  match k with
  | KStr _ => true
  | KInt i => String.length (str_of_nat i) <=? max_str_digits
  end.

(** What [json_keys] matches in the selector of a key. *)
Definition match_of (k : json_key) : json_match :=
  match k with
  | KStr s => MKey s
  | KInt i => MIndex (str_of_nat i)
  end.

Lemma render_path_stops ks : stops is_word (render_path ks).
Proof.
  destruct ks as [|k ks]; [done|]. simpl.
  apply key_selector_stops. destruct k as [s|i]; [left | right]; by eexists.
Qed.

Lemma findall_render : ∀ ks n,
  Forall key_wf ks → String.length (render_path ks) ≤ n →
  findall n (render_path ks) = match_of <$> ks.
Proof.
  induction ks as [|k ks IH]; intros n Hall Hn.
  - by destruct n.
  - apply Forall_cons in Hall as [Hk Hall]. simpl in Hn |- *.
    destruct k as [s|i].
    + change (selector (KStr s) +:+ render_path ks)
        with (String "." (s +:+ render_path ks)) in Hn |- *.
      simpl in Hn. rewrite length_append in Hn.
      destruct n as [|n]; [lia|].
      change (String "." (s +:+ render_path ks))
        with ("." +:+ s +:+ render_path ks).
      rewrite findall_dot; [|done|apply render_path_stops|lia].
      f_equal. apply IH; [done | lia].
    + assert (selector (KInt i) +:+ render_path ks
              = "[" +:+ str_of_nat i +:+ "]" +:+ render_path ks) as Heq.
      { unfold selector.
        change (("[" +:+ str_of_nat i +:+ "]") +:+ render_path ks)
          with (String "[" ((str_of_nat i +:+ "]") +:+ render_path ks)).
        by rewrite append_assoc. }
      rewrite Heq in Hn |- *.
      change ("[" +:+ str_of_nat i +:+ "]" +:+ render_path ks)
        with (String "[" (str_of_nat i +:+ String "]" (render_path ks))) in Hn.
      simpl in Hn. rewrite length_append in Hn. simpl in Hn.
      destruct n as [|n]; [lia|].
      rewrite findall_bracket; [|lia].
      f_equal. apply IH; [done | lia].
Qed.

Lemma parse_matches_render ks :
  parse_matches (match_of <$> ks)
  = if forallb index_read ks then Ok ks else Raise ValueError.
Proof.
  induction ks as [|[s|i] ks IH]; [done| |].
  - cbn [fmap list_fmap match_of parse_matches forallb index_read].
    rewrite IH. cbn [andb]. by destruct (forallb index_read ks).
  - cbn [fmap list_fmap match_of parse_matches forallb index_read].
    destruct (Nat.leb_spec (String.length (str_of_nat i)) max_str_digits)
      as [Hle|Hgt].
    + rewrite (int_of_str_of_nat i Hle), IH. cbn [andb].
      by destruct (forallb index_read ks).
    + by rewrite (int_of_digits_long _ Hgt).
Qed.

(** X4 — reading back what was written.  A path joined from selectors in
    the format of [_get_json_key] ([.key] for a field name, [[index]] for an
    array position), every field name being a non-empty run of word
    characters, is read by [parse_json_path] as follows.  When every index
    is written with at most 4300 digits, the result is the very keys the
    path was written from: an index comes back as a number, a name as
    text, also when the name consists of digits.  When some index has more
    digits, [int] refuses it and [parse_json_path] raises [ValueError]. *)
Theorem parse_json_path_reads_selectors (ks : list json_key) :
  Forall key_wf ks →
  parse_json_path (render_path ks)
  = if forallb index_read ks then Ok ks else Raise ValueError.
Proof.
  intros Hall. unfold parse_json_path.
  rewrite (findall_render ks _ Hall (le_n _)). apply parse_matches_render.
Qed.

Lemma parse_json_path_reads_selectors_witness :
  let cafe := "caf" +:+ String "233" "" in
  parse_json_path ".Metadata[0].node[12].2024"
  = Ok [KStr "Metadata"; KInt 0; KStr "node"; KInt 12; KStr "2024"]
  ∧ parse_json_path ("." +:+ cafe +:+ "[0]") = Ok [KStr cafe; KInt 0].
Proof.
  intros cafe. split.
  - apply (parse_json_path_reads_selectors
             [KStr "Metadata"; KInt 0; KStr "node"; KInt 12; KStr "2024"]).
    repeat constructor.
  - apply (parse_json_path_reads_selectors [KStr cafe; KInt 0]).
    repeat constructor.
Defined.

(** X5 — [pairwise] pairs every element with its successor, in order:
    the list of pairs is one shorter than the list (and empty for a list of
    fewer than two elements), and its [i]-th pair holds the [i]-th and the
    next element. *)
Theorem pairwise_consecutive {A : Type} (l : list A) :
  length (pairwise l) = length l - 1
  ∧ ∀ i a b, pairwise l !! i = Some (a, b) ↔ l !! i = Some a ∧ l !! S i = Some b.
Proof.
  induction l as [|x l IH]; [split; [done|]; intros i a b; by split; [|intros []]|].
  destruct l as [|y l].
  - split; [done|]. intros i a b. split; [done|]. by intros [_ ?].
  - destruct IH as [IHlen IHnth].
    change (pairwise (x :: y :: l)) with ((x, y) :: pairwise (y :: l)).
    split; [simpl in *; lia|].
    intros [|i] a b.
    + simpl. split; [by intros [= <- <-] | by intros [ [= <-] [= <-] ] ].
    + change (((x, y) :: pairwise (y :: l)) !! S i) with (pairwise (y :: l) !! i).
      by rewrite IHnth.
Qed.




End PathText.

(** * The catalog: unique answers, errors, and undoing *)

Section CatalogAnswers.
Import JSONTreeWalker JSONCatalog.

(** The state a fresh catalog is in after a sequence of calls that
    return. *)
Lemma reached attrs calls :
  Forall (indexable attrs) calls →
  ∃ c, run (new attrs) calls = Ok c ∧ consistent attrs c (registered calls).
Proof. intros Hall. by apply run_consistent; [apply new_consistent|]. Qed.

(** The item was last registered with attribute [a] equal to [v]. *)
Definition matches (reg : registry) (a : string) (v : scalar) (i : addr) : Prop :=
  ∃ fields s, reg !! i = Some fields
              ∧ dict_get fields a = Some (VScalar s) ∧ scalar_eqb s v = true.

Lemma matches_holds reg a v i : matches reg a v i ↔ holds reg a (hkey v) i.
Proof.
  unfold matches, holds.
  split; intros (fields & s & Hl & Hg & Hk); exists fields, s;
    (split; [done|]); (split; [done|]); by apply scalar_eqb_hkey.
Qed.

Lemma search_single attrs c reg a v :
  consistent attrs c reg → a ∈ attrs →
  ∃ found, search c [(a, VScalar v)] = Ok found
           ∧ NoDup found
           ∧ ∀ i, i ∈ found ↔ matches reg a v i.
Proof.
  intros Hc Ha. unfold search. simpl.
  destruct (find_index_Some (indexes c) a) as [b Hfind];
    [by apply (cons_attrs _ _ _ Hc)|].
  rewrite Hfind.
  assert (∀ i, i ∈ default ∅ (b !! hkey v) ↔ matches reg a v i) as Hb.
  { intros i. rewrite matches_holds.
    pose proof (cons_buckets _ _ _ Hc a (hkey v) i) as Hcb.
    unfold bucket in Hcb. rewrite Hfind in Hcb. rewrite Hcb. naive_solver. }
  destruct (b !! hkey v) as [ids|] eqn:Hids; simpl in Hb.
  - destruct (decide (ids = ∅)) as [->|Hne].
    + exists []. split; [done|]. split; [constructor|]. intros i. rewrite <- Hb.
      set_solver.
    + eexists. split; [done|].
      assert (∀ j, j ∈ ids → items c !! j = Some j) as Hitems.
      { intros j (fields & s & Hl & _)%Hb. by rewrite (cons_items _ _ _ Hc), Hl. }
      split.
      * assert (omap (λ i, items c !! i) (elements ids) = elements ids) as ->.
        { assert (∀ j, j ∈ elements ids → items c !! j = Some j) as Hel
            by (intros j Hj; by apply Hitems, elem_of_elements).
          revert Hel. generalize (elements ids). intros l.
          induction l as [|x l IH]; intros Hel; [done|]. simpl.
          rewrite (Hel x) by (by left). f_equal. apply IH.
          intros j Hj. apply Hel. by right. }
        apply NoDup_elements.
      * intros i. rewrite elem_of_found by done. apply Hb.
  - exists []. split; [done|]. split; [constructor|]. intros i. rewrite <- Hb.
    set_solver.
Qed.

(** X7 — on a catalog reached by calls that return, [one] on a configured
    attribute returns an item exactly when that item is the only indexed
    one whose attribute had the value when it was last registered; with no
    such item, or with several, it raises [ValueError], and it raises
    nothing else. *)
Theorem one_returns_the_only_match (attrs : list string)
    (calls : list catalog_call) (a : string) (v : scalar) :
  Forall (indexable attrs) calls → a ∈ attrs →
  ∃ c, run (new attrs) calls = Ok c
    ∧ (∀ item, one c [(a, VScalar v)] = Ok item
               ↔ matches (registered calls) a v item
                 ∧ ∀ j, matches (registered calls) a v j → j = item)
    ∧ (∀ e, one c [(a, VScalar v)] = Raise e → e = ValueError).
Proof.
  intros Hall Ha. destruct (reached attrs calls Hall) as (c & Hrun & Hc).
  exists c. split; [done|].
  destruct (search_single attrs c _ a v Hc Ha) as (found & Hs & Hnd & Hf).
  unfold one. rewrite Hs. split.
  - intros item. destruct found as [|x [|y rest]].
    + split; [done|]. intros [Hm _]. apply Hf in Hm. by apply elem_of_nil in Hm.
    + split.
      * intros [= <-]. split; [apply Hf; by left|].
        intros j Hj%Hf. by apply list_elem_of_singleton in Hj.
      * intros [Hm Hu]. f_equal. apply Hu, Hf. by left.
    + split; [done|]. intros [_ Hu]. exfalso.
      assert (x = item) as -> by (apply Hu, Hf; by left).
      assert (y = item) as -> by (apply Hu, Hf; right; by left).
      apply NoDup_cons in Hnd as [Hnin _]. apply Hnin. by left.
  - intros e. by destruct found as [|x [|y rest]]; intros [= <-].
Qed.

Lemma one_returns_the_only_match_witness :
  let h := [CDict false [("uid", VScalar (SStr "n1")); ("name", VScalar (SStr "Energy"))];
            CDict false [("uid", VScalar (SStr "n2")); ("name", VScalar (SStr "Waste"))];
            CDict false [("uid", VScalar (SStr "n3")); ("name", VScalar (SStr "Waste"))]] in
  let calls := [CallIndex h 0; CallIndex h 1; CallIndex h 2] in
  ∃ c, run (new ["uid"; "name"]) calls = Ok c
    ∧ one c [("name", VScalar (SStr "Energy"))] = Ok 0
    ∧ one c [("name", VScalar (SStr "Waste"))] = Raise ValueError
    ∧ (∀ item, one c [("name", VScalar (SStr "Energy"))] = Ok item
               ↔ matches (registered calls) "name" (SStr "Energy") item
                 ∧ ∀ j, matches (registered calls) "name" (SStr "Energy") j
                        → j = item).
Proof.
  intros h calls.
  assert (Forall (indexable ["uid"; "name"]) calls) as Hall.
  { unfold calls. do 3 (constructor; [by apply indexable_itemb_sound|]). constructor. }
  destruct (one_returns_the_only_match ["uid"; "name"] calls "name" (SStr "Energy")
              Hall) as (c & Hrun & Hone & _).
  { right. by left. }
  exists c. split; [exact Hrun|].
  assert (run (new ["uid"; "name"]) calls
          = Ok (Catalog {[0 := 0; 1 := 1; 2 := 2]}
                  [("uid", {[SStr "n1" := {[0]}; SStr "n2" := {[1]};
                             SStr "n3" := {[2]}]});
                   ("name", {[SStr "Energy" := {[0]}; SStr "Waste" := {[1; 2]}]})]
                  {[0 := [("uid", SStr "n1"); ("name", SStr "Energy")];
                    1 := [("uid", SStr "n2"); ("name", SStr "Waste")];
                    2 := [("uid", SStr "n3"); ("name", SStr "Waste")]]})) as Hcat
    by (vm_compute; reflexivity).
  rewrite Hcat in Hrun. injection Hrun as <-.
  split; [vm_compute; reflexivity|]. split; [vm_compute; reflexivity|]. exact Hone.
Defined.

(** X8 — on a catalog reached by calls that return, [first] on a
    configured attribute raises nothing: it returns [None] exactly when no
    indexed item had the value, and otherwise one of the items that had. *)
Theorem first_returns_a_match (attrs : list string) (calls : list catalog_call)
    (a : string) (v : scalar) :
  Forall (indexable attrs) calls → a ∈ attrs →
  ∃ c r, run (new attrs) calls = Ok c
    ∧ first c [(a, VScalar v)] = Ok r
    ∧ (r = None ↔ ∀ j, ¬ matches (registered calls) a v j)
    ∧ (∀ item, r = Some item → matches (registered calls) a v item).
Proof.
  intros Hall Ha. destruct (reached attrs calls Hall) as (c & Hrun & Hc).
  destruct (search_single attrs c _ a v Hc Ha) as (found & Hs & Hnd & Hf).
  exists c, (head found). split; [done|]. unfold first. rewrite Hs.
  split; [done|]. split.
  - destruct found as [|x rest]; simpl.
    + split; [|done]. intros _ j Hj%Hf. by apply elem_of_nil in Hj.
    + split; [done|]. intros Hno. destruct (Hno x). apply Hf. by left.
  - intros item Hh. apply Hf. destruct found as [|x rest]; [done|].
    simpl in Hh. injection Hh as ->. by left.
Qed.

Lemma first_returns_a_match_witness :
  let h := [CDict false [("uid", VScalar (SStr "n1")); ("node_uid", VScalar (SStr "a"))]] in
  let calls := [CallIndex h 0] in
  ∃ c r, run (new ["node_uid"]) calls = Ok c
    ∧ first c [("node_uid", VScalar (SStr "b"))] = Ok r
    ∧ (r = None ↔ ∀ j, ¬ matches (registered calls) "node_uid" (SStr "b") j)
    ∧ (∀ item, r = Some item → matches (registered calls) "node_uid" (SStr "b") item).
Proof.
  intros h calls.
  apply (first_returns_a_match ["node_uid"] calls "node_uid" (SStr "b")).
  - unfold calls. constructor; [by apply indexable_itemb_sound | constructor].
  - by left.
Defined.

(** X9 — the errors of [search], on a catalog reached by calls that
    return.  A first criterion on an attribute the catalog was not
    configured for raises [KeyError], and one with an unhashable value
    raises [TypeError].  But [search] stops at the first criterion that no
    indexed item meets: it then returns the empty list without looking at
    the criteria that follow, whatever they are. *)
Theorem search_errors (attrs : list string) (calls : list catalog_call) :
  Forall (indexable attrs) calls →
  ∃ c, run (new attrs) calls = Ok c
    ∧ (∀ a v rest, a ∉ attrs → search c ((a, v) :: rest) = Raise KeyError)
    ∧ (∀ a x rest, a ∈ attrs → search c ((a, VRef x) :: rest) = Raise TypeError)
    ∧ (∀ a v rest, a ∈ attrs →
         (∀ j, ¬ matches (registered calls) a v j) →
         search c ((a, VScalar v) :: rest) = Ok []).
Proof.
  intros Hall. destruct (reached attrs calls Hall) as (c & Hrun & Hc).
  exists c. split; [done|]. unfold search. split; [|split].
  - intros a v rest Ha. simpl. rewrite find_index_None; [done|].
    by rewrite (cons_attrs _ _ _ Hc).
  - intros a x rest Ha. simpl.
    destruct (find_index_Some (indexes c) a) as [b ->];
      [by apply (cons_attrs _ _ _ Hc) | done].
  - intros a v rest Ha Hno. simpl.
    destruct (find_index_Some (indexes c) a) as [b Hfind];
      [by apply (cons_attrs _ _ _ Hc)|].
    rewrite Hfind. destruct (b !! hkey v) as [ids|] eqn:Hids; [|done].
    destruct (decide (ids = ∅)) as [|Hne]; [done|]. exfalso.
    apply set_choose_L in Hne as [j Hj]. apply (Hno j), matches_holds.
    pose proof (cons_buckets _ _ _ Hc a (hkey v) j) as Hcb.
    unfold bucket in Hcb. rewrite Hfind, Hids in Hcb. by apply Hcb.
Qed.

Lemma search_errors_witness :
  let h := [CDict false [("uid", VScalar (SStr "n1"))]] in
  ∃ c, run (new ["uid"]) [CallIndex h 0] = Ok c
    ∧ search c [("name", VScalar (SStr "Energy"))] = Raise KeyError
    ∧ search c [("uid", VRef 0)] = Raise TypeError
    ∧ search c [("uid", VScalar (SStr "n2")); ("name", VRef 0)] = Ok [].
Proof.
  intros h.
  destruct (search_errors ["uid"] [CallIndex h 0]) as (c & Hrun & Hkey & Htype & Hstop).
  { constructor; [by apply indexable_itemb_sound | constructor]. }
  exists c. split; [exact Hrun|]. split; [|split].
  - apply Hkey. by intros ?%list_elem_of_singleton.
  - apply Htype. by left.
  - apply Hstop; [by left|]. intros j (fields & s & Hl & Hg & Hk).
    unfold registered in Hl. simpl in Hl.
    apply lookup_insert_Some in Hl as [[<- <-]|[_ Hl]]; [|done].
    vm_compute in Hg. injection Hg as <-. done.
Defined.

(** Two catalogs that stand for the same registrations answer every
    search alike. *)
Lemma search_loop_determined attrs c c' reg :
  consistent attrs c reg → consistent attrs c' reg →
  ∀ criteria acc, search_loop c criteria acc = search_loop c' criteria acc.
Proof.
  intros Hc Hc'.
  assert (∀ i, items c !! i = items c' !! i) as Hitems
    by (intros i; by rewrite (cons_items _ _ _ Hc), (cons_items _ _ _ Hc')).
  induction criteria as [|[a v] criteria IH]; intros acc; simpl.
  - destruct acc as [ids|]; [|done]. f_equal.
    generalize (elements ids). intros l. induction l as [|x l IHl]; [done|].
    simpl. rewrite Hitems. destruct (items c' !! x); [f_equal|]; exact IHl.
  - destruct (decide (a ∈ attrs)) as [Ha|Ha].
    + destruct (find_index_Some (indexes c) a) as [b Hb];
        [by apply (cons_attrs _ _ _ Hc)|].
      destruct (find_index_Some (indexes c') a) as [b' Hb'];
        [by apply (cons_attrs _ _ _ Hc')|].
      rewrite Hb, Hb'. destruct v as [s|x]; [|done].
      assert (default ∅ (b !! hkey s) = default ∅ (b' !! hkey s)) as Heq.
      { apply set_eq. intros i.
        pose proof (cons_buckets _ _ _ Hc a (hkey s) i) as H1.
        pose proof (cons_buckets _ _ _ Hc' a (hkey s) i) as H2.
        unfold bucket in H1, H2. rewrite Hb in H1. rewrite Hb' in H2.
        by rewrite H1, H2. }
      destruct (b !! hkey s) as [ids|], (b' !! hkey s) as [ids'|]; simpl in Heq.
      * subst ids'. destruct (decide (ids = ∅)); [done|].
        destruct (decide (_ = ∅)); [done | apply IH].
      * subst ids. by rewrite decide_True.
      * subst ids'. by rewrite decide_True.
      * done.
    + rewrite !find_index_None; [done| |].
      * by rewrite (cons_attrs _ _ _ Hc').
      * by rewrite (cons_attrs _ _ _ Hc).
Qed.

(** Two answers of [search] that agree up to the order of the items: the
    same exception, or the same items, each as often. *)
Definition same_answer (r r' : result (list addr)) : Prop :=
  match r, r' with
  | Ok found, Ok found' => found ≡ₚ found'
  | Raise e, Raise e' => e = e'
  | _, _ => False
  end.

(** X10 — [unindex] undoes [index]: on a catalog reached by calls that
    return, indexing an object that is not indexed yet and unindexing it
    again both return, and leave a catalog that answers every search, on
    any criteria, as before: with the same exception, or with the same
    items, in whatever order. *)
Theorem unindex_undoes_index (attrs : list string) (calls : list catalog_call)
    (h : heap) (item : addr) :
  Forall (indexable attrs) calls →
  indexable_item attrs h item →
  registered calls !! item = None →
  ∃ c c1 c2, run (new attrs) calls = Ok c
    ∧ index h c item = (Ok (), c1)
    ∧ unindex c1 item = (Ok (), c2)
    ∧ ∀ criteria, same_answer (search c2 criteria) (search c criteria).
Proof.
  intros Hall Hitem Hnew. destruct (reached attrs calls Hall) as (c & Hrun & Hc).
  destruct (index_consistent attrs h c _ item Hc Hitem) as (c1 & Hi & Hc1).
  destruct (unindex_consistent attrs c1 _ item Hc1) as (c2 & Hu & Hc2).
  exists c, c1, c2. split; [done|]. split; [done|]. split; [done|].
  intros criteria. unfold search.
  rewrite (search_loop_determined attrs c2 c (registered calls));
    [|by rewrite delete_insert_id in Hc2|done].
  unfold same_answer. by destruct (search_loop c criteria None).
Qed.

Lemma unindex_undoes_index_witness :
  let h := [CDict false [("uid", VScalar (SStr "n1")); ("name", VScalar (SStr "Energy"))];
            CDict false [("uid", VScalar (SStr "n2")); ("name", VScalar (SStr "Waste"))]] in
  ∃ c c1 c2, run (new ["uid"; "name"]) [CallIndex h 0] = Ok c
    ∧ index h c 1 = (Ok (), c1)
    ∧ unindex c1 1 = (Ok (), c2)
    ∧ ∀ criteria, same_answer (search c2 criteria) (search c criteria).
Proof.
  intros h.
  apply (unindex_undoes_index ["uid"; "name"] [CallIndex h 0] h 1).
  - constructor; [by apply indexable_itemb_sound | constructor].
  - by apply indexable_itemb_sound.
  - vm_compute. reflexivity.
Defined.

(** X11 — [clear] forgets every object and keeps the configuration: on a
    catalog reached by calls that return, after [clear] a search on
    configured attributes with hashable values raises nothing and returns
    the empty list, and an object indexed afterwards is found again. *)
Theorem clear_forgets_objects (attrs : list string) (calls : list catalog_call) :
  Forall (indexable attrs) calls →
  ∃ c, run (new attrs) calls = Ok c
    ∧ (∀ criteria, (∀ a v, (a, v) ∈ criteria → a ∈ attrs) →
         search (clear c) (as_values criteria) = Ok [])
    ∧ (∀ h item a s,
         indexable_item attrs h item → a ∈ attrs →
         dict_get (item_fields h item) a = Some (VScalar s) →
         ∃ c', index h (clear c) item = (Ok (), c')
               ∧ search c' [(a, VScalar s)] = Ok [item]).
Proof.
  intros Hall. destruct (reached attrs calls Hall) as (c & Hrun & Hc).
  exists c. split; [done|].
  assert (consistent attrs (clear c) ∅) as Hclear.
  { apply clear_consistent; [apply (cons_nodup _ _ _ Hc)|].
    apply (cons_attrs _ _ _ Hc). }
  split.
  - intros criteria Hattrs.
    destruct (search_loop_spec attrs (clear c) ∅ Hclear criteria None Hattrs)
      as (found & Hs & Hf); [done|].
    unfold search. rewrite Hs. f_equal.
    destruct found as [|x found]; [done|]. exfalso.
    destruct (proj1 (Hf x)) as (Hne & _ & Hall'); [by left|].
    destruct Hne as [Hne|]; [|done].
    destruct criteria as [|[a v] criteria]; [done|].
    destruct (Hall' a v) as (fields & s & Hl & _); [by left|].
    by rewrite lookup_empty in Hl.
  - intros h item a s Hitem Ha Hg.
    destruct (index_consistent attrs h (clear c) ∅ item Hclear Hitem)
      as (c' & Hi & Hc').
    exists c'. split; [done|].
    destruct (search_single attrs c' _ a s Hc' Ha) as (found & Hs & Hnd & Hf).
    rewrite Hs. f_equal.
    assert (∀ j, j ∈ found ↔ j = item) as Honly.
    { intros j. rewrite Hf. split.
      - intros (fields & s' & Hl & _).
        apply lookup_insert_Some in Hl as [[<- _]|[_ Hl]]; [done|].
        by rewrite lookup_empty in Hl.
      - intros ->. exists (item_fields h item), s.
        split; [by rewrite lookup_insert_eq|]. split; [done|].
        by apply scalar_eqb_hkey. }
    destruct found as [|x [|y rest]].
    + pose proof (proj2 (Honly item) eq_refl) as Hin. by apply elem_of_nil in Hin.
    + f_equal. apply Honly. by left.
    + exfalso. assert (x = item) as -> by (apply Honly; by left).
      assert (y = item) as -> by (apply Honly; right; by left).
      apply NoDup_cons in Hnd as [Hnin _]. apply Hnin. by left.
Qed.

Lemma clear_forgets_objects_witness :
  let h := [CDict false [("uid", VScalar (SStr "n1"))]] in
  ∃ c, run (new ["uid"]) [CallIndex h 0] = Ok c
    ∧ search c [("uid", VScalar (SStr "n1"))] = Ok [0]
    ∧ (∀ criteria, (∀ a v, (a, v) ∈ criteria → a ∈ ["uid"]) →
         search (clear c) (as_values criteria) = Ok []).
Proof.
  intros h.
  destruct (clear_forgets_objects ["uid"] [CallIndex h 0]) as (c & Hrun & Hclear & _).
  { constructor; [by apply indexable_itemb_sound | constructor]. }
  exists c. split; [exact Hrun|]. split; [|exact Hclear].
  assert (run (new ["uid"]) [CallIndex h 0]
          = Ok (Catalog {[0 := 0]} [("uid", {[SStr "n1" := {[0]}]})]
                  {[0 := [("uid", SStr "n1")]]})) as Hcat
    by (vm_compute; reflexivity).
  rewrite Hcat in Hrun. injection Hrun as <-. vm_compute. reflexivity.
Defined.

End CatalogAnswers.

(** * The constructor and the registry of variables *)

Section ConstructorFacts.
Import JSONTreeWalker JSONCatalog CountryData.

Lemma record_all_lookup_None h : ∀ data reg x,
  x ∉ data → record_all h reg data !! x = reg !! x.
Proof.
  unfold record_all. intros data. induction data as [|y data IH] using rev_ind;
    intros reg x Hx; [done|].
  rewrite foldl_app. simpl. apply not_elem_of_app in Hx as [Hx Hy].
  rewrite lookup_insert_ne; [by apply IH|].
  intros ->. apply Hy. by left.
Qed.

Lemma create_consistent h attrs data c :
  attrs ≠ [] → create h attrs data = (Ok (), c) →
  consistent attrs c (record_all h ∅ data).
Proof.
  intros Hne Hc. eapply index_iterable_consistent; [done| |exact Hc].
  apply new_consistent.
Qed.

(** [x] is an object whose ["uid"] equals [u]. *)
Definition has_uid_eq (h : heap) (x : addr) (u : scalar) : Prop :=
  ∃ root fs s, h !! x = Some (CDict root fs)
               ∧ dict_get fs "uid" = Some (VScalar s) ∧ scalar_eqb s u = true.

(** X12 — the constructor indexes the node tree: once [CountryData] has
    been built over a document, [get_node(uid, False)] raises nothing for
    a hashable uid, answers [None] exactly when no object below
    [country_specific_data.nodes] carries that uid, and otherwise answers
    with an object below [nodes] that carries it, however deep it lies. *)
Theorem get_node_after_init (fuel : nat) (md : Metadata.metadata) (h h' : heap)
    (ps ps' : parent_cache) (tree : addr) (self : country_data) :
  init fuel md h ps tree = Some (Ok (self, h', ps')) →
  ∀ u, ∃ r, get_node self (VScalar u) = Ok r
    ∧ (r = None ↔ ∀ x, reachable h (nodes self) x → ¬ has_uid_eq h x u)
    ∧ (∀ x, r = Some x → reachable h (nodes self) x ∧ has_uid_eq h x u).
Proof.
  intros Hinit u. unfold init in Hinit.
  destruct (get_field h tree "country_specific_data") as [[cm|]|]; [|done|done].
  destruct (get_field h cm "nodes") as [[nodes0|]|]; [|done|done].
  destruct (traverse fuel h ps (VRef nodes0)) as [[found ps1]|] eqn:Htr; [|done].
  destruct (create h node_attrs found) as [[[]|] nidx] eqn:Hcreate; [|done].
  assert (nodes self = nodes0 ∧ node_index self = nidx) as [Hnodes Hidx].
  { repeat (case_match; try done); by simplify_eq. }
  clear Hinit. rewrite Hnodes. unfold get_node. rewrite Hidx.
  pose proof (create_consistent h node_attrs found nidx ltac:(done) Hcreate) as Hc.
  destruct (traverse_spec _ _ _ _ _ _ Htr) as [_ Hfound].
  destruct (search_single node_attrs nidx _ "uid" u Hc) as (res & Hs & _ & Hres);
    [by left|].
  assert (∀ x, x ∈ res ↔ reachable h nodes0 x ∧ has_uid_eq h x u) as Hmem.
  { intros x. rewrite Hres. unfold matches, has_uid_eq. split.
    - intros (fields & s & Hl & Hg & Hk).
      destruct (decide (x ∈ found)) as [Hin|Hnin].
      + rewrite (record_all_lookup _ _ _ _ Hin) in Hl. injection Hl as <-.
        apply Hfound in Hin as [Hr Ho]. split; [done|].
        unfold is_object in Ho. unfold item_fields in Hg.
        destruct (h !! x) as [[root fs|]|]; [|done|done]. by exists root, fs, s.
      + rewrite (record_all_lookup_None _ _ _ _ Hnin) in Hl.
        by rewrite lookup_empty in Hl.
    - intros [Hr (root & fs & s & Hx & Hg & Hk)].
      assert (x ∈ found) as Hin.
      { apply Hfound. split; [done|]. unfold is_object. by rewrite Hx. }
      exists fs, s. rewrite (record_all_lookup _ _ _ _ Hin). unfold item_fields.
      by rewrite Hx. }
  exists (head res). unfold first. rewrite Hs. split; [done|]. split.
  - destruct res as [|x res]; simpl.
    + split; [|done]. intros _ x Hr Hu.
      assert (x ∈ ([] : list addr)) as Hin by by apply Hmem.
      by apply elem_of_nil in Hin.
    + split; [done|]. intros Hno.
      destruct (proj1 (Hmem x)) as [Hr Hu]; [by left|]. by destruct (Hno x).
  - intros x Hh. apply Hmem. destruct res as [|y res]; [done|].
    simpl in Hh. injection Hh as ->. by left.
Qed.

Lemma get_node_after_init_witness :
  let h := [CDict true [("country_specific_data", VRef 1)];
            CDict false [("nodes", VRef 2); ("variables", VRef 3)];
            CList [VRef 4];
            CList [];
            CDict false [("uid", VScalar (SStr "a")); ("node", VRef 5)];
            CList [VRef 6];
            CDict false [("uid", VScalar (SStr "b"))]] in
  ∃ self h' ps',
    init 9 no_metadata h ∅ 0 = Some (Ok (self, h', ps'))
    ∧ get_node self (VScalar (SStr "b")) = Ok (Some 6)
    ∧ ∀ u, ∃ r, get_node self (VScalar u) = Ok r
        ∧ (r = None ↔ ∀ x, reachable h (nodes self) x → ¬ has_uid_eq h x u)
        ∧ (∀ x, r = Some x → reachable h (nodes self) x ∧ has_uid_eq h x u).
Proof.
  intros h.
  assert (∃ self h' ps', init 9 no_metadata h ∅ 0 = Some (Ok (self, h', ps'))
                         ∧ get_node self (VScalar (SStr "b")) = Ok (Some 6))
    as (self & h' & ps' & Hinit & Hget).
  { eexists _, _, _. split; vm_compute; reflexivity. }
  exists self, h', ps'. split; [exact Hinit|]. split; [exact Hget|].
  exact (get_node_after_init 9 no_metadata h h' ∅ ps' 0 self Hinit).
Defined.

(** X13 — [make_variable] registers what it creates.  With a variable
    catalog reached by calls that return, and hashable uids of the owning
    node and of the template variable, it raises nothing: the new variable
    is a new object holding the token drawn, the node uid and the template
    uid; it is appended to the variable list, no other container changes,
    one token is used up, and a search of the variable catalog for the node
    uid and the template uid finds the new variable — as the first answer
    when no variable was indexed under that pair before. *)
Theorem make_variable_registers (token_hex : nat → string) (self : country_data)
    (w : world) (calls : list catalog_call) (vars : list value)
    (node_uid template_var_uid : scalar) :
  Forall (indexable variable_attrs) calls →
  run (new variable_attrs) calls = Ok (variable_index self) →
  store w !! variables self = Some (CList vars) →
  let new_var := length (store w) in
  let criteria := [("node_uid", VScalar node_uid);
                   ("template_var_uid", VScalar template_var_uid)] in
  ∃ self' w',
    make_variable token_hex self w (VScalar node_uid) (VScalar template_var_uid)
    = Ok (new_var, self', w')
    ∧ store w' !! new_var
      = Some (CDict false [("uid", VScalar (SStr (token_hex (minted w))));
                           ("node_uid", VScalar node_uid);
                           ("template_var_uid", VScalar template_var_uid)])
    ∧ store w' !! variables self = Some (CList (vars ++ [VRef new_var]))
    ∧ (∀ a, a ≠ variables self → a ≠ new_var → store w' !! a = store w !! a)
    ∧ minted w' = S (minted w)
    ∧ (∃ found, search (variable_index self') criteria = Ok found
                ∧ new_var ∈ found)
    ∧ (first (variable_index self) criteria = Ok None →
       first (variable_index self') criteria = Ok (Some new_var)).
Proof.
  intros Hall Hrun Hvars new_var criteria.
  destruct (reached variable_attrs calls Hall) as (c & Hrun' & Hc).
  rewrite Hrun in Hrun'. injection Hrun' as <-.
  set (fields := [("uid", VScalar (SStr (token_hex (minted w))));
                  ("node_uid", VScalar node_uid);
                  ("template_var_uid", VScalar template_var_uid)]).
  set (h1 := store w ++ [CDict false fields]).
  set (h2 := <[variables self := CList (vars ++ [VRef new_var])]> h1).
  assert (variables self < length (store w)) as Hlt by by eapply lookup_lt_Some.
  assert (h1 !! variables self = Some (CList vars)) as Hvars1
    by (unfold h1; by apply lookup_app_l_Some).
  assert (h2 !! new_var = Some (CDict false fields)) as Hnew.
  { unfold h2. rewrite list_lookup_insert_ne by (unfold new_var; lia).
    unfold h1. rewrite lookup_app_r by done. unfold new_var.
    by rewrite Nat.sub_diag. }
  assert (indexable_item variable_attrs h2 new_var) as Hitem.
  { split; [by eexists _, _|]. unfold item_fields. rewrite Hnew.
    intros a v Ha Hg. unfold fields in Hg. rewrite !dict_get_cons in Hg.
    repeat (destruct (decide _); [injection Hg as <-; by eexists|]). done. }
  destruct (index_consistent variable_attrs h2 _ _ new_var Hc Hitem) as (c' & Hi & Hc').
  exists (set_variable_index self c'),
         (set_store (World (store w) (cache w) (S (minted w)) (log w)) h2).
  assert (item_fields h2 new_var = fields) as Hfields
    by (unfold item_fields; by rewrite Hnew).
  rewrite Hfields in Hc'.
  destruct (search_loop_spec variable_attrs c' _ Hc'
              [("node_uid", node_uid); ("template_var_uid", template_var_uid)] None)
    as (found & Hs & Hf).
  { intros a v [[= -> ->]|[= -> ->]%list_elem_of_singleton]%elem_of_cons.
    - right. by left.
    - right. right. by left. }
  { done. }
  assert (new_var ∈ found) as Hin.
  { apply Hf. split; [by left|]. split; [done|].
    intros a v [[= -> ->]|[= -> ->]%list_elem_of_singleton]%elem_of_cons.
    - exists fields, node_uid. by rewrite lookup_insert_eq.
    - exists fields, template_var_uid. by rewrite lookup_insert_eq. }
  split.
  { unfold make_variable, make_uid. cbn [store]. fold fields h1.
    rewrite Hvars1. fold new_var h2. by rewrite Hi. }
  cbn [store set_store minted variable_index set_variable_index].
  split; [done|]. split.
  { unfold h2. apply list_lookup_insert_eq. unfold h1. rewrite length_app. lia. }
  split.
  { intros a Ha Hb. unfold h2. rewrite list_lookup_insert_ne by done.
    unfold h1. destruct (decide (a < length (store w))).
    - by rewrite lookup_app_l.
    - rewrite !lookup_ge_None_2; [done | lia |].
      rewrite length_app. simpl. unfold new_var in Hb. lia. }
  split; [done|]. split; [by exists found|].
  intros Hnone. unfold first.
  change (search c' criteria) with
    (search_loop c' (as_values [("node_uid", node_uid);
                                ("template_var_uid", template_var_uid)]) None).
  rewrite Hs. f_equal.
  destruct (search_loop_spec variable_attrs (variable_index self) _ Hc
              [("node_uid", node_uid); ("template_var_uid", template_var_uid)] None)
    as (old & Hso & Hfo).
  { intros a v [[= -> ->]|[= -> ->]%list_elem_of_singleton]%elem_of_cons.
    - right. by left.
    - right. right. by left. }
  { done. }
  unfold first in Hnone.
  change (search (variable_index self) criteria) with
    (search_loop (variable_index self)
       (as_values [("node_uid", node_uid); ("template_var_uid", template_var_uid)])
       None) in Hnone.
  rewrite Hso in Hnone. destruct old as [|o old]; [|done].
  destruct found as [|x found]; [by apply elem_of_nil in Hin|]. simpl. f_equal.
  destruct (decide (x = new_var)) as [|Hne]; [done|]. exfalso.
  destruct (proj1 (Hf x)) as (_ & _ & Hx); [by left|].
  assert (x ∈ ([] : list addr)) as Hbad; [|by apply elem_of_nil in Hbad].
  apply Hfo. split; [by left|]. split; [done|]. intros a v Hav.
  destruct (Hx a v Hav) as (fs & s & Hl & Hg & Hk).
  rewrite lookup_insert_ne in Hl by done. by exists fs, s.
Qed.

Lemma make_variable_registers_witness :
  let h := [CDict true [("country_specific_data", VRef 1)];
            CDict false [("variables", VRef 2)];
            CList []] in
  let self := Build 0 no_metadata 2 2 (new node_attrs) (new variable_attrs)
                (new grid_attrs) in
  let w := World h ∅ 0 [] in
  ∃ self' w',
    make_variable (λ i, "token" +:+ str_of_nat i) self w
      (VScalar (SStr "n1")) (VScalar (SStr "tv1")) = Ok (3, self', w')
    ∧ store w' !! 3
      = Some (CDict false [("uid", VScalar (SStr "token0"));
                           ("node_uid", VScalar (SStr "n1"));
                           ("template_var_uid", VScalar (SStr "tv1"))])
    ∧ store w' !! 2 = Some (CList [VRef 3])
    ∧ first (variable_index self')
        [("node_uid", VScalar (SStr "n1"));
         ("template_var_uid", VScalar (SStr "tv1"))] = Ok (Some 3).
Proof.
  intros h self w.
  destruct (make_variable_registers (λ i, "token" +:+ str_of_nat i) self w [] []
              (SStr "n1") (SStr "tv1"))
    as (self' & w' & Hmake & Hnew & Hlist & _ & _ & _ & Hfirst);
    [constructor | reflexivity | reflexivity |].
  exists self', w'. split; [exact Hmake|]. split; [exact Hnew|].
  split; [exact Hlist|]. apply Hfirst. reflexivity.
Defined.

End ConstructorFacts.

(** * Filtering twice, and reparenting as a whole *)

Section FilterTwice.
Import JSONTreeWalker JSONCatalog CountryData.

Lemma scan_items_Ok h p : ∀ its index V0 d V1,
  scan_items h p its index V0 = Ok (d, V1) →
  d = rejected p its index
  ∧ match V0, V1 with
    | None, None => True
    | Some s, Some s1 =>
        s ⊆ s1 ∧ ∀ v, v ∈ its → p v = true →
                      ∃ uid, has_uid h v uid ∧ hkey uid ∈ s1
    | _, _ => False
    end.
Proof.
  induction its as [|x its IH]; intros index V0 d V1; simpl.
  - intros [= <- <-]. split; [done|]. destruct V0 as [s|]; [|done].
    split; [done|]. by intros v ?%elem_of_nil.
  - destruct (p x) eqn:Hp.
    + destruct V0 as [s|].
      * destruct x as [sc|a]; [done|].
        destruct (h !! a) as [[root fields|]|] eqn:Ha; [|done|done].
        destruct (dict_get fields "uid") as [[uid|]|] eqn:Hg; [|done|done].
        intros Hscan. destruct (IH _ _ _ _ Hscan) as [-> Hs].
        split; [done|]. destruct V1 as [s1|]; [|done]. destruct Hs as [Hsub Hall].
        split; [set_solver|]. intros v [->|Hv]%elem_of_cons Hpv.
        -- exists uid. split; [by exists a, root, fields | set_solver].
        -- by apply Hall.
      * intros Hscan. destruct (IH _ _ _ _ Hscan) as [-> Hs]. done.
    + destruct (scan_items h p its (S index) V0) as [[d' V']|] eqn:Hscan; [|done].
      intros [= <- <-]. destruct (IH _ _ _ _ Hscan) as [-> Hs].
      split; [done|]. destruct V0 as [s|], V' as [s1|]; try done.
      destruct Hs as [Hsub Hall]. split; [done|].
      intros v [->|Hv]%elem_of_cons Hpv; [congruence | by apply Hall].
Qed.

Lemma scan_items_kept h p : ∀ its index V0,
  (∀ v, v ∈ its → p v = true) →
  (∀ s, V0 = Some s → ∀ v, v ∈ its → ∃ uid, has_uid h v uid ∧ hkey uid ∈ s) →
  scan_items h p its index V0 = Ok ([], V0).
Proof.
  induction its as [|x its IH]; intros index V0 Hp Hs; simpl; [done|].
  rewrite (Hp x) by (by left). destruct V0 as [s|].
  - destruct (Hs s eq_refl x) as (uid & (a & root & fields & -> & Ha & Hg) & Hin);
      [by left|].
    rewrite Ha, Hg.
    assert ({[hkey uid]} ∪ s = s) as -> by set_solver.
    apply IH.
    + intros v Hv. apply Hp. by right.
    + intros s' [= <-] v Hv. apply (Hs s eq_refl). by right.
  - apply IH; [|done]. intros v Hv. apply Hp. by right.
Qed.

(** X14 — [filter_out] is idempotent: when a call has returned, a second
    call on the same list with the same predicate, handing back the uid set
    the first one returned, deletes nothing; it returns no index and leaves
    the store and the uid set as they are. *)
Theorem filter_out_twice (h h1 : heap) (L : addr) (p : value → bool)
    (V0 V1 : option (gset scalar)) (d : list nat) :
  filter_out h L p V0 = Ok (d, h1, V1) →
  filter_out h1 L p V1 = Ok ([], h1, V1).
Proof.
  unfold filter_out.
  destruct (h !! L) as [[|its]|] eqn:HL; [done| |done].
  destruct (scan_items h p its 0 V0) as [[d' V']|] eqn:Hscan; [|done].
  intros [= <- <- <-]. destruct (scan_items_Ok _ _ _ _ _ _ _ Hscan) as [-> HS].
  assert (L < length h) as Hlt by by eapply lookup_lt_Some.
  pose proof (delete_rejected p its []) as Hdel. simpl in Hdel. rewrite Hdel.
  rewrite list_lookup_insert_eq by done.
  rewrite (scan_items_kept _ p (filter (λ v, p v = true) its) 0 V').
  - simpl. do 2 f_equal. f_equal.
    apply list_insert_id. by rewrite list_lookup_insert_eq.
  - by intros v [? _]%list_elem_of_filter.
  - intros s1 -> v [Hpv Hv]%list_elem_of_filter. destruct V0 as [s|]; [|done].
    destruct HS as [_ Hall].
    destruct (Hall v Hv Hpv) as (uid & (a & root & fields & -> & Ha & Hg) & Hin).
    exists uid. split; [|done]. exists a, root, fields. split; [done|].
    split; [|done]. rewrite list_lookup_insert_ne; [done|]. intros <-. congruence.
Qed.

Lemma filter_out_twice_witness :
  let h := [CList [VRef 1; VRef 2; VRef 3];
            CDict false [("uid", VScalar (SStr "a"))];
            CDict false [("uid", VScalar (SStr "b"))];
            CDict false [("uid", VScalar (SStr "c"))]] in
  let p := λ v, bool_decide (v ≠ VRef 2) in
  let h1 := <[0 := CList [VRef 1; VRef 3]]> h in
  let V1 := Some ({[SStr "a"; SStr "c"]} : gset scalar) in
  filter_out h 0 p (Some ∅) = Ok ([1], h1, V1)
  ∧ filter_out h1 0 p V1 = Ok ([], h1, V1).
Proof.
  intros h p h1 V1.
  assert (filter_out h 0 p (Some ∅) = Ok ([1], h1, V1)) as Hfirst
    by (vm_compute; reflexivity).
  split; [exact Hfirst|].
  exact (filter_out_twice h h1 0 p (Some ∅) V1 [1] Hfirst).
Defined.

End FilterTwice.

Section ReparentWhole.
Import JSONTreeWalker JSONCatalog CountryData.

(** X15 — with nothing to move, [reparent_nodes] does nothing: when every
    item of the root-level list is an object that lacks the
    [template_node_uid] marker or lacks [parent_uid], it comes to an end,
    yields no pair, and leaves the document, the log and the node catalog
    (which it does not rebuild) exactly as they were. *)
Theorem reparent_nothing_to_move (fuel : nat) (self : country_data) (w : world)
    (its : list value) :
  store w !! nodes self = Some (CList its) →
  Forall (λ v, ∃ a root fs, v = VRef a ∧ store w !! a = Some (CDict root fs)
                            ∧ (dict_get fs "template_node_uid" = None
                               ∨ dict_get fs "parent_uid" = None)) its →
  length its < fuel →
  reparent_nodes fuel self w = Some (Ok ([], self, w)).
Proof.
  intros Hlist Hall Hfuel.
  assert (∀ n idx, length its - idx < n →
            reparent_loop n self (Reparent [] [] w) idx
            = Some (Ok (Reparent [] [] w))) as Hloop.
  { induction n as [|n IH]; intros idx Hn; [lia|]. simpl. rewrite Hlist.
    destruct (its !! idx) as [v|] eqn:Hv; [|done].
    rewrite Forall_forall in Hall.
    destruct (Hall v) as (a & root & fs & -> & Ha & Hno);
      [by eapply list_elem_of_lookup_2|].
    assert (reparent_node self (Reparent [] [] w) idx (VRef a)
            = Some (Ok (Reparent [] [] w))) as ->.
    { unfold reparent_node. simpl. rewrite Ha.
      destruct Hno as [-> | ->]; [done|].
      by destruct (dict_get fs "template_node_uid"). }
    apply IH. apply lookup_lt_Some in Hv. lia. }
  unfold reparent_nodes. rewrite Hloop by lia. done.
Qed.

Lemma reparent_nothing_to_move_witness :
  let h := [CDict true [("country_specific_data", VRef 1)];
            CDict false [("nodes", VRef 2)];
            CList [VRef 3; VRef 4];
            CDict false [("uid", VScalar (SStr "a"));
                         ("template_node_uid", VScalar (SStr "t-1"))];
            CDict false [("uid", VScalar (SStr "b"));
                         ("parent_uid", VScalar (SStr "a"))]] in
  let self := Build 0 no_metadata 2 2 (new node_attrs) (new variable_attrs)
                (new grid_attrs) in
  reparent_nodes 3 self (World h ∅ 0 []) = Some (Ok ([], self, World h ∅ 0 [])).
Proof.
  intros h self.
  apply (reparent_nothing_to_move 3 self (World h ∅ 0 []) [VRef 3; VRef 4]).
  - reflexivity.
  - constructor; [|constructor; [|constructor]].
    + eexists _, _, _. split; [reflexivity|]. split; [reflexivity|]. by right.
    + eexists _, _, _. split; [reflexivity|]. split; [reflexivity|]. by left.
  - simpl. lia.
Defined.

(** [n] carries no [parent_uid]. *)
Definition no_parent_uid (h : heap) (n : addr) : Prop :=
  ∃ root fs, h !! n = Some (CDict root fs) ∧ dict_get fs "parent_uid" = None.

Lemma no_parent_uid_move h h' p n a :
  moves_to h h' p n → no_parent_uid h a → no_parent_uid h' a.
Proof.
  intros Hm (root & fs & Ha & Hp).
  destruct (move_dicts _ _ _ _ Hm _ _ _ Ha) as (fs' & Ha' & _ & Hne & Heq & _).
  exists root, fs'. split; [done|].
  destruct (decide (a = n)) as [->|Hna]; [by apply Heq|].
  by rewrite Hne.
Qed.

(** The invariant of the loop as a whole: the moves recorded so far come
    from the indices recorded, in order, and each is in place in the
    store. *)
Definition moves_inv (self : country_data) (its : list value)
    (st : reparent_state) (idx : nat) : Prop :=
  root_list_apart self its (store (rworld st))
  ∧ ascending (nested_nodes st) idx
  ∧ Forall2 (λ np i, its !! i = Some (VRef np.1)) (moved st) (nested_nodes st)
  ∧ Forall (λ np, child_of (store (rworld st)) np.2 np.1
                  ∧ no_parent_uid (store (rworld st)) np.1) (moved st).

Lemma moves_inv_step self its st idx node st' :
  moves_inv self its st idx →
  its !! idx = Some node →
  reparent_node self st idx node = Some (Ok st') →
  moves_inv self its st' (S idx).
Proof.
  intros (Hroot & Hasc & Hpairs & Hplace) Hnode Hbody.
  destruct (reparent_node_Ok _ _ _ _ _ Hbody)
    as (n & root & fields & -> & Hn & [->|[(vu & vp & ->)|(p & h1 & Had & ->)]]).
  - split; [done|]. split; [by apply ascending_next|]. done.
  - simpl. split; [done|]. split; [by apply ascending_next|]. done.
  - pose proof (move_effect _ _ _ _ _ _ Hn Had) as Hm.
    unfold moves_inv. cbn [store set_store rworld moved nested_nodes].
    split; [by eapply root_list_apart_move|].
    split; [by apply ascending_snoc|].
    split; [apply Forall2_app; [done | by repeat constructor]|].
    apply Forall_app. split.
    + eapply Forall_impl; [exact Hplace|]. intros [n' p'] [Hc Hd]. simpl in *.
      split; [by eapply child_of_move | by eapply no_parent_uid_move].
    + constructor; [|constructor]. simpl. split.
      * destruct (move_child _ _ _ _ Hm) as (r & f & l & kids & ? & ? & ? & ?).
        by exists r, f, l, kids.
      * destruct (move_dicts _ _ _ _ Hm _ _ _ Hn) as (fs' & Hn' & _ & _ & Hnone & _).
        exists root, fs'. split; [done | by apply Hnone].
Qed.

Lemma delete_each_length : ∀ d its,
  StronglySorted gt d → Forall (λ i, i < length its) d →
  length (delete_each its d) + length d = length its.
Proof.
  induction d as [|m d IH]; intros its Hs Hlt; [simpl; lia|].
  apply StronglySorted_inv in Hs as [Hs Hm]. apply Forall_cons in Hlt as [Hmlt Hlt].
  unfold delete_each. simpl. fold (delete_each (delete m its) d).
  assert (length (delete m its) = length its - 1) as Hlen.
  { rewrite length_delete; [lia|]. by apply lookup_lt_is_Some. }
  rewrite <- (Nat.add_succ_comm _ (length d)). simpl.
  rewrite IH; [lia | done |].
  rewrite Forall_forall in Hm, Hlt |- *. intros i Hi.
  specialize (Hm i Hi). specialize (Hlt i Hi). lia.
Qed.

(** X16 — [reparent_nodes] loses no node and realises every move it
    yields.  On a document whose root-level list is no object's child
    list, when it has run to completion: the root-level list has shrunk by
    exactly the number of pairs yielded; every item of the old list is
    still in the new one or is the node of a pair yielded, and nothing else
    is in the new list; and for every pair yielded the node is in the child
    list of the parent and has lost its [parent_uid]. *)
Theorem reparent_conserves_nodes (fuel : nat) (self self' : country_data)
    (w w' : world) (its : list value) (pairs : list (addr * addr)) :
  root_list_apart self its (store w) →
  reparent_nodes fuel self w = Some (Ok (pairs, self', w')) →
  ∃ its', store w' !! nodes self = Some (CList its')
    ∧ length its' + length pairs = length its
    ∧ (∀ v, v ∈ its ↔ v ∈ its' ∨ ∃ np, np ∈ pairs ∧ v = VRef np.1)
    ∧ Forall (λ np, child_of (store w') np.2 np.1
                    ∧ no_parent_uid (store w') np.1) pairs.
Proof.
  intros Hroot. unfold reparent_nodes.
  destruct (reparent_loop fuel self (Reparent [] [] w) 0) as [[st|]|] eqn:Hloop;
    [|done|done].
  destruct (reparent_loop_inv self its (moves_inv self its))
    with (fuel := fuel) (st := Reparent [] [] w) (idx := 0) (st' := st)
    as (idx' & (Hroot' & [Hdesc Hbound] & Hpairs & Hplace) & Hend); try done.
  { by intros st0 idx0 ([? _] & _). }
  { intros st0 idx0 node st1. by apply moves_inv_step. }
  { simpl. split; [done|]. split; [split; constructor|]. split; constructor. }
  destruct Hroot' as [Hlist Hapart].
  assert (∀ v, v ∈ its ↔
               v ∈ delete_each its (reverse (nested_nodes st))
               ∨ ∃ np, np ∈ moved st ∧ v = VRef np.1) as Hmem.
  { intros v. split.
    - intros [i Hi]%list_elem_of_lookup.
      destruct (decide (i ∈ nested_nodes st)) as [Hin|Hnin].
      + right. apply list_elem_of_lookup in Hin as [k Hk].
        destruct (Forall2_lookup_r _ _ _ _ _ Hpairs Hk) as (np & Hnp & Hit).
        exists np. split; [by eapply list_elem_of_lookup_2 | congruence].
      + left. eapply delete_each_keeps; [done | done |].
        by rewrite elem_of_reverse.
    - intros [Hv|(np & [k Hk]%list_elem_of_lookup & ->)].
      + by eapply delete_each_sub.
      + destruct (Forall2_lookup_l _ _ _ _ _ Hpairs Hk) as (i & _ & Hit).
        by eapply list_elem_of_lookup_2. }
  assert (length (delete_each its (reverse (nested_nodes st))) + length (moved st)
          = length its) as Hlen.
  { rewrite (Forall2_length _ _ _ Hpairs), <- (length_reverse (nested_nodes st)).
    apply delete_each_length; [done|].
    apply Forall_forall. intros i Hi. rewrite elem_of_reverse in Hi.
    apply list_elem_of_lookup in Hi as [k Hk].
    destruct (Forall2_lookup_r _ _ _ _ _ Hpairs Hk) as (np & _ & Hit).
    by eapply lookup_lt_Some. }
  destruct (nested_nodes st) as [|j nested] eqn:Hnest.
  - intros [= <- <- <-]. exists its. split; [done|]. simpl in *.
    split; [lia|]. split; [exact Hmem | done].
  - rewrite Hlist.
    destruct (traverse fuel _ (cache (rworld st)) (VRef (nodes self)))
      as [[found ps]|]; [|done].
    destruct (index_iterable _ _ found) as [[[]|] c]; [|done].
    intros [= <- <- <-]. cbn [store set_store set_cache].
    assert (nodes self < length (store (rworld st))) as Hlt
      by by eapply lookup_lt_Some.
    eexists. split; [by apply list_lookup_insert_eq|].
    split; [exact Hlen|]. split; [exact Hmem|].
    eapply Forall_impl; [exact Hplace|]. intros [n p]. simpl.
    intros [(root & fs & l & kids & Hp & Hnode & Hl & Hin) (rn & fn & Hn & Hnone)].
    split.
    + exists root, fs, l, kids.
      split; [rewrite list_lookup_insert_ne; [done|]; intros <-; congruence|].
      split; [done|]. split; [|done].
      rewrite list_lookup_insert_ne; [done|]. intros <-. by destruct (Hapart _ _ _ Hp).
    + exists rn, fn. split; [|done].
      rewrite list_lookup_insert_ne; [done|]. intros <-. congruence.
Qed.

Lemma reparent_conserves_nodes_witness :
  let h := [CDict true [("country_specific_data", VRef 1)];
            CDict false [("nodes", VRef 2)];
            CList [VRef 3; VRef 4];
            CDict false [("uid", VScalar (SStr "a"));
                         ("template_node_uid", VScalar (SStr "t-1"));
                         ("parent_uid", VScalar (SStr "b"))];
            CDict false [("uid", VScalar (SStr "b"))]] in
  let self := Build 0 no_metadata 2 2 (create h ["uid"] [3; 4]).2
                (new variable_attrs) (new grid_attrs) in
  ∃ self' w' its',
    reparent_nodes 9 self (World h ∅ 0 []) = Some (Ok ([(3, 4)], self', w'))
    ∧ store w' !! 2 = Some (CList its')
    ∧ length its' + 1 = 2
    ∧ child_of (store w') 4 3 ∧ no_parent_uid (store w') 3.
Proof.
  intros h self.
  assert (∃ self' w', reparent_nodes 9 self (World h ∅ 0 [])
                      = Some (Ok ([(3, 4)], self', w'))) as (self' & w' & Hrun).
  { eexists _, _. vm_compute. reflexivity. }
  destruct (reparent_conserves_nodes 9 self self' (World h ∅ 0 []) w'
              [VRef 3; VRef 4] [(3, 4)])
    as (its' & Hlist & Hlen & _ & Hplace); [|exact Hrun|].
  { apply root_list_apartb_sound; reflexivity. }
  exists self', w', its'. split; [exact Hrun|]. split; [exact Hlist|].
  split; [exact Hlen|]. by apply Forall_cons in Hplace as [[? ?] _].
Defined.

End ReparentWhole.

(** * Prefixed category names *)

Section PrefixedNames.
Import JSONTreeWalker JSONTree JSONCatalog.

Definition not_space (c : ascii) : bool := negb (Ascii.eqb c " ").

Lemma split_space_None s : all_chars not_space s = true → Metadata.split_space s = None.
Proof.
  induction s as [|c s IH]; [done|]. simpl. unfold not_space at 1.
  intros [Hc Hs]%andb_true_iff. destruct (Ascii.eqb c " "); [done|].
  by rewrite IH.
Qed.

Lemma split_space_first pre rest :
  all_chars not_space pre = true →
  Metadata.split_space (pre +:+ String " " rest) = Some (pre, rest).
Proof.
  induction pre as [|c pre IH]; [done|]. simpl. unfold not_space at 1.
  intros [Hc Hs]%andb_true_iff. destruct (Ascii.eqb c " "); [done|].
  by rewrite IH.
Qed.

Lemma all_chars_impl (p q : ascii → bool) s :
  (∀ c, p c = true → q c = true) → all_chars p s = true → all_chars q s = true.
Proof.
  intros Hpq. induction s as [|c s IH]; [done|]. simpl.
  intros [Hc Hs]%andb_true_iff. by rewrite (Hpq c Hc), IH.
Qed.

Lemma all_chars_app p s t :
  all_chars p (s +:+ t) = all_chars p s && all_chars p t.
Proof.
  induction s as [|c s IH]; [done|]. simpl. by rewrite IH, andb_assoc.
Qed.

Definition prefix_char (c : ascii) : bool := is_word c || Ascii.eqb c ".".

Lemma space_not_prefix_char c : Metadata.is_space c = true → prefix_char c = false.
Proof. by destruct c as [[] [] [] [] [] [] [] []]. Qed.

Lemma word_not_space c : is_word c = true → Metadata.is_space c = false.
Proof. by destruct c as [[] [] [] [] [] [] [] []]. Qed.

Lemma prefix_char_not_space c : prefix_char c = true → not_space c = true.
Proof. by destruct c as [[] [] [] [] [] [] [] []]. Qed.

(** A name that the pattern [[\w.]+\.\s+\w+] matches: a run of word
    characters and dots that ends in a dot, white space, then a word
    character. *)
Record prefixed (run blank rest : string) : Prop := {
  run_chars : all_chars prefix_char run = true;
  run_length : 2 ≤ String.length run;
  run_dot : Metadata.last_char run = Some "."%char;
  blank_chars : all_chars Metadata.is_space blank = true;
  blank_length : 1 ≤ String.length blank;
  rest_word : ∃ c rest', rest = String c rest' ∧ is_word c = true;
}.

Lemma prefixed_matches run blank rest :
  prefixed run blank rest →
  Metadata.prefixed_category_name (run +:+ blank +:+ rest) = true.
Proof.
  intros [Hrun Hlen Hdot Hblank Hblen (c & rest' & -> & Hc)].
  unfold Metadata.prefixed_category_name. fold prefix_char.
  destruct blank as [|b blank]; [simpl in Hblen; lia|].
  simpl in Hblank. apply andb_true_iff in Hblank as [Hb Hblank].
  rewrite (span_append prefix_char run (String b blank +:+ String c rest') Hrun);
    [|by apply space_not_prefix_char].
  rewrite (span_append Metadata.is_space (String b blank) (String c rest'));
    [|by simpl; rewrite Hb, Hblank|by apply word_not_space].
  rewrite Hdot, Hc, bool_decide_eq_true_2 by done.
  apply Nat.leb_le in Hlen. rewrite Hlen. done.
Qed.

(** X17 — how [find_nodes] treats a prefixed category name, a name made
    of a run of word characters and dots ending in a dot, white space, and
    a word.  The name is split at its first space, wherever that is: the
    search is for [name_prefix] equal to all that comes before that space
    and [name] equal to all that follows it.  So when the white space
    begins with a space the prefix is the run; when it begins with other
    white space (a tab, say) the prefix takes in the white space and what
    follows up to the first space.  When the name holds no space at all,
    the split yields one part only and [find_nodes] raises [ValueError]. *)
Theorem find_nodes_splits_prefixed_name (md : Metadata.metadata)
    (filter_ : list (string * scalar)) (run blank rest : string) :
  prefixed run blank rest →
  Metadata.filter_get filter_ "name" = Some (SStr (run +:+ blank +:+ rest)) →
  (∀ pre post, all_chars not_space pre = true →
     blank +:+ rest = pre +:+ String " " post →
     Metadata.find_nodes md filter_
     = search (Metadata.node_index md)
         (Metadata.as_criteria
            (Metadata.filter_set
               (Metadata.filter_set filter_ "name" (SStr post))
               "name_prefix" (SStr (run +:+ pre)))))
  ∧ (all_chars not_space (blank +:+ rest) = true →
     Metadata.find_nodes md filter_ = Raise ValueError).
Proof.
  intros Hp Hname. pose proof (prefixed_matches _ _ _ Hp) as Hmatch.
  assert (all_chars not_space run = true) as Hrun.
  { eapply all_chars_impl; [apply prefix_char_not_space | apply (run_chars _ _ _ Hp)]. }
  unfold Metadata.find_nodes. rewrite Hname, Hmatch. split.
  - intros pre post Hpre Heq. rewrite Heq, <- append_assoc.
    rewrite split_space_first; [done|]. by rewrite all_chars_app, Hrun, Hpre.
  - intros Hno. rewrite split_space_None; [done|].
    by rewrite all_chars_app, Hrun, Hno.
Qed.

Lemma find_nodes_splits_prefixed_name_witness :
  let md := Metadata.Build 0 0 (new ["uid"; "name_prefix"; "name"]) (new []) (new []) in
  let tab := String "009" "" in
  Metadata.find_nodes md [("name", SStr "1.A. Fuel combustion")]
  = search (Metadata.node_index md)
      [("name", VScalar (SStr "Fuel combustion"));
       ("name_prefix", VScalar (SStr "1.A."))]
  ∧ Metadata.find_nodes md [("name", SStr ("1." +:+ tab +:+ "Fuel combustion"))]
    = search (Metadata.node_index md)
        [("name", VScalar (SStr "combustion"));
         ("name_prefix", VScalar (SStr ("1." +:+ tab +:+ "Fuel")))]
  ∧ Metadata.find_nodes md [("name", SStr ("1." +:+ tab +:+ "Energy"))]
    = Raise ValueError
  ∧ Metadata.find_nodes md [("name", SStr ("1. " +:+ String "201" "nergie"))]
    = search (Metadata.node_index md)
        [("name", VScalar (SStr (String "201" "nergie")));
         ("name_prefix", VScalar (SStr "1."))].
Proof.
  intros md tab. split; [|split; [|split] ].
  - refine (proj1 (find_nodes_splits_prefixed_name md
                     [("name", SStr "1.A. Fuel combustion")]
                     "1.A." " " "Fuel combustion" _ eq_refl)
                  "" "Fuel combustion" eq_refl eq_refl).
    constructor;
      [reflexivity | simpl; lia | reflexivity | reflexivity | simpl; lia
      | by eexists _, _].
  - refine (proj1 (find_nodes_splits_prefixed_name md
                     [("name", SStr ("1." +:+ tab +:+ "Fuel combustion"))]
                     "1." tab "Fuel combustion" _ eq_refl)
                  (tab +:+ "Fuel") "combustion" eq_refl eq_refl).
    constructor;
      [reflexivity | simpl; lia | reflexivity | reflexivity | simpl; lia
      | by eexists _, _].
  - refine (proj2 (find_nodes_splits_prefixed_name md
                     [("name", SStr ("1." +:+ tab +:+ "Energy"))]
                     "1." tab "Energy" _ eq_refl) eq_refl).
    constructor;
      [reflexivity | simpl; lia | reflexivity | reflexivity | simpl; lia
      | by eexists _, _].
  - refine (proj1 (find_nodes_splits_prefixed_name md
                     [("name", SStr ("1. " +:+ String "201" "nergie"))]
                     "1." " " (String "201" "nergie") _ eq_refl)
                  "" (String "201" "nergie") eq_refl eq_refl).
    constructor;
      [reflexivity | simpl; lia | reflexivity | reflexivity | simpl; lia
      | by eexists _, _].
Defined.

End PrefixedNames.

(** * Deep copies *)

Section DeepCopy.
Import JSONTreeWalker CountryData.

(** [h'] extends [h]: it is at least as long and agrees with it on the
    containers of [h]. *)
Definition extends_store (h h' : heap) : Prop :=
  length h ≤ length h' ∧ ∀ a, a < length h → h' !! a = h !! a.

Lemma extends_refl h : extends_store h h.
Proof. by split. Qed.

Lemma extends_trans h1 h2 h3 :
  extends_store h1 h2 → extends_store h2 h3 → extends_store h1 h3.
Proof.
  intros [Hl1 He1] [Hl2 He2]. split; [lia|].
  intros a Ha. rewrite He2 by lia. by apply He1.
Qed.

(** A value that refers to nothing older than the address [N]. *)
Definition fresh_from (N : nat) (v : value) : Prop :=
  match v with
  | VRef b => N ≤ b
  | VScalar _ => True
  end.

(** A copy of a value: a scalar is itself, a container is one from [N]
    on. *)
Definition copy_of (N : nat) (v v' : value) : Prop :=
  match v with
  | VScalar _ => v' = v
  | VRef _ => ∃ b, v' = VRef b ∧ N ≤ b
  end.

(** What a copying step keeps, with [N] the length of the store the copy
    began on: older containers are untouched, the memo and the containers
    from [N] on refer to containers from [N] on only. *)
Record copy_inv (N : nat) (h : heap) (memo : copy_memo) : Prop := {
  inv_length : N ≤ length h;
  inv_memo : ∀ a b, memo !! a = Some b → N ≤ b;
  inv_fresh : ∀ b c, N ≤ b → h !! b = Some c → Forall (fresh_from N) (child_values c);
}.

Definition copies (N : nat)
    (copy : heap → copy_memo → value → option (value * heap * copy_memo)) : Prop :=
  ∀ h memo v v' h' memo',
    copy h memo v = Some (v', h', memo') → copy_inv N h memo →
    extends_store h h' ∧ copy_inv N h' memo' ∧ copy_of N v v'.

Lemma copy_of_fresh N v v' : copy_of N v v' → fresh_from N v'.
Proof. destruct v as [s|a]; simpl; [by intros -> | by intros (b & -> & ?)]. Qed.

Lemma copy_all_copies N copy : copies N copy →
  ∀ vs h memo vs' h' memo',
    copy_all copy h memo vs = Some (vs', h', memo') → copy_inv N h memo →
    extends_store h h' ∧ copy_inv N h' memo' ∧ Forall2 (copy_of N) vs vs'.
Proof.
  intros Hcopy. induction vs as [|v vs IH]; intros h memo vs' h' memo'; simpl.
  - intros [= <- <- <-] Hinv. split; [apply extends_refl|]. split; [done | constructor].
  - destruct (copy h memo v) as [[[v1 h1] memo1]|] eqn:Hv; [|done].
    destruct (copy_all copy h1 memo1 vs) as [[[vs1 h2] memo2]|] eqn:Hvs; [|done].
    intros [= <- <- <-] Hinv.
    destruct (Hcopy _ _ _ _ _ _ Hv Hinv) as (He1 & Hinv1 & Hc1).
    destruct (IH _ _ _ _ _ Hvs Hinv1) as (He2 & Hinv2 & Hc2).
    split; [by eapply extends_trans|]. split; [done | by constructor].
Qed.

Lemma copy_inv_alloc N h memo a c :
  copy_inv N h memo → child_values c = [] →
  copy_inv N (h ++ [c]) (<[a := length h]> memo).
Proof.
  intros [Hlen Hmemo Hfresh] Hc. constructor.
  - rewrite length_app. lia.
  - intros a' b [[_ <-]|[_ Hl]]%lookup_insert_Some; [done | by eapply Hmemo].
  - intros b c' Hb Hl. apply lookup_app_Some in Hl as [Hl|[_ Hl]].
    + by eapply Hfresh.
    + destruct (b - length h) as [|k]; simpl in Hl; [|by destruct k].
      injection Hl as <-. by rewrite Hc.
Qed.

Lemma copy_inv_fill N h memo a' c :
  copy_inv N h memo → N ≤ a' → Forall (fresh_from N) (child_values c) →
  copy_inv N (<[a' := c]> h) memo.
Proof.
  intros [Hlen Hmemo Hfresh] Ha Hc. constructor.
  - by rewrite length_insert.
  - done.
  - intros b c' Hb Hl. destruct (decide (b = a')) as [->|Hne].
    + apply list_lookup_insert_Some in Hl as [(_ & <- & _)|[? _]]; done.
    + rewrite list_lookup_insert_ne in Hl by done. by eapply Hfresh.
Qed.

Lemma extends_alloc_fill h h1 c0 c :
  extends_store (h ++ [c0]) h1 → extends_store h (<[length h := c]> h1).
Proof.
  intros [Hlen He]. rewrite length_app in Hlen. simpl in Hlen. split.
  - rewrite length_insert. lia.
  - intros a Ha. rewrite list_lookup_insert_ne by lia.
    rewrite He by (rewrite length_app; simpl; lia). by apply lookup_app_l.
Qed.

Lemma deepcopy_copies N fuel : copies N (deepcopy fuel).
Proof.
  induction fuel as [|fuel IH]; intros h memo v v' h' memo'.
  - destruct v as [s|a]; simpl.
    + intros [= <- <- <-] Hinv. split; [apply extends_refl | done].
    + destruct (memo !! a) as [a'|] eqn:Hm; [|done].
      intros [= <- <- <-] Hinv. split; [apply extends_refl|]. split; [done|].
      exists a'. split; [done|]. by eapply (inv_memo _ _ _ Hinv).
  - destruct v as [s|a]; simpl.
    + intros [= <- <- <-] Hinv. split; [apply extends_refl | done].
    + destruct (memo !! a) as [a'|] eqn:Hm.
      { intros [= <- <- <-] Hinv. split; [apply extends_refl|]. split; [done|].
        exists a'. split; [done|]. by eapply (inv_memo _ _ _ Hinv). }
      destruct (h !! a) as [[root fields|its]|] eqn:Ha; [| |done].
      * destruct (copy_all (deepcopy fuel) (h ++ [CDict root []])
                    (<[a := length h]> memo) fields.*2)
          as [[[vs h1] memo1]|] eqn:Hall; [|done].
        intros [= <- <- <-] Hinv.
        destruct (copy_all_copies N _ IH _ _ _ _ _ _ Hall) as (He & Hinv1 & Hvs);
          [by apply copy_inv_alloc|].
        pose proof (inv_length _ _ _ Hinv) as Hlen.
        split; [by eapply extends_alloc_fill|]. split.
        -- apply copy_inv_fill; [done | done |]. simpl.
           rewrite snd_zip by (rewrite <- (Forall2_length _ _ _ Hvs), !length_fmap; lia).
           eapply Forall_impl; [eapply Forall2_Forall_r; [exact Hvs|]|].
           ++ apply Forall_forall. intros x _ y Hxy. exact (copy_of_fresh _ _ _ Hxy).
           ++ done.
        -- by exists (length h).
      * destruct (copy_all (deepcopy fuel) (h ++ [CList []])
                    (<[a := length h]> memo) its)
          as [[[vs h1] memo1]|] eqn:Hall; [|done].
        intros [= <- <- <-] Hinv.
        destruct (copy_all_copies N _ IH _ _ _ _ _ _ Hall) as (He & Hinv1 & Hvs);
          [by apply copy_inv_alloc|].
        pose proof (inv_length _ _ _ Hinv) as Hlen.
        split; [by eapply extends_alloc_fill|]. split.
        -- apply copy_inv_fill; [done | done |]. simpl.
           eapply Forall_impl; [eapply Forall2_Forall_r; [exact Hvs|]|].
           ++ apply Forall_forall. intros x _ y Hxy. exact (copy_of_fresh _ _ _ Hxy).
           ++ done.
        -- by exists (length h).
Qed.

Lemma copy_inv_start h : copy_inv (length h) h ∅.
Proof.
  constructor; [done | by intros a b; rewrite lookup_empty |].
  intros b c Hb Hl. apply lookup_lt_Some in Hl. lia.
Qed.

(** The copy of a container met for the first time is the next container
    of the store. *)
Lemma deepcopy_allocates (fuel : nat) (h h' : heap) (a : addr)
    (v' : value) (memo' : copy_memo) :
  deepcopy fuel h ∅ (VRef a) = Some (v', h', memo') →
  v' = VRef (length h) ∧ length h < length h'.
Proof.
  intros Hcopy.
  destruct fuel as [|fuel]; simpl in Hcopy; rewrite lookup_empty in Hcopy; [done|].
  destruct (h !! a) as [[root fields|its]|]; [| |done].
  - destruct (copy_all _ _ _ _) as [[[vs h1] memo1]|] eqn:Hall; [|done].
    injection Hcopy as <- <- <-. split; [done|]. rewrite length_insert.
    destruct (copy_all_copies (length h) _ (deepcopy_copies (length h) fuel)
                _ _ _ _ _ _ Hall) as ([Hl1 _] & _);
      [apply copy_inv_alloc; [apply copy_inv_start | done]|].
    rewrite length_app in Hl1. simpl in Hl1. lia.
  - destruct (copy_all _ _ _ _) as [[[vs h1] memo1]|] eqn:Hall; [|done].
    injection Hcopy as <- <- <-. split; [done|]. rewrite length_insert.
    destruct (copy_all_copies (length h) _ (deepcopy_copies (length h) fuel)
                _ _ _ _ _ _ Hall) as ([Hl1 _] & _);
      [apply copy_inv_alloc; [apply copy_inv_start | done]|].
    rewrite length_app in Hl1. simpl in Hl1. lia.
Qed.

(** X18 — [deepcopy] builds the copy out of new containers only.  When a
    copy of a container has been made, the containers that existed before
    are all exactly as they were, the copy is a container that did not
    exist before, and no container made for the copy refers to one that
    existed before: the copy shares nothing with the original, whatever
    sharing or cycles the original has. *)
Theorem deepcopy_shares_nothing (fuel : nat) (h h' : heap) (a : addr)
    (v' : value) (memo' : copy_memo) :
  deepcopy fuel h ∅ (VRef a) = Some (v', h', memo') →
  v' = VRef (length h)
  ∧ length h < length h'
  ∧ (∀ b, b < length h → h' !! b = h !! b)
  ∧ (∀ b c, length h ≤ b → h' !! b = Some c →
            Forall (fresh_from (length h)) (child_values c)).
Proof.
  intros Hcopy.
  destruct (deepcopy_copies (length h) fuel _ _ _ _ _ _ Hcopy (copy_inv_start h))
    as ([Hlen Hext] & Hinv & _).
  destruct (deepcopy_allocates _ _ _ _ _ _ Hcopy) as [-> Hlt].
  split; [done|]. split; [done|]. split; [done|].
  apply (inv_fresh _ _ _ Hinv).
Qed.

Lemma deepcopy_shares_nothing_witness :
  let h := [CDict false [("node_uid", VScalar (SStr "t-1")); ("group", VRef 1)];
            CList [VRef 2; VRef 2];
            CDict false [("uid", VScalar (SStr "g")); ("owner", VRef 0)]] in
  let h' := h ++ [CDict false [("node_uid", VScalar (SStr "t-1")); ("group", VRef 4)];
                  CList [VRef 5; VRef 5];
                  CDict false [("uid", VScalar (SStr "g")); ("owner", VRef 3)]] in
  deepcopy 4 h ∅ (VRef 0) = Some (VRef 3, h', {[0 := 3; 1 := 4; 2 := 5]})
  ∧ (∀ b, b < length h → h' !! b = h !! b)
  ∧ (∀ b c, length h ≤ b → h' !! b = Some c →
            Forall (fresh_from (length h)) (child_values c)).
Proof.
  intros h h'.
  assert (deepcopy 4 h ∅ (VRef 0) = Some (VRef 3, h', {[0 := 3; 1 := 4; 2 := 5]}))
    as Hcopy by (vm_compute; reflexivity).
  split; [exact Hcopy|].
  by destruct (deepcopy_shares_nothing 4 h h' 0 _ _ Hcopy) as (_ & _ & ? & ?).
Defined.

End DeepCopy.

(** * Cloning a grid: what is new and what is left alone *)

Section CloneFrame.
Import JSONTreeWalker JSONCatalog CountryData.

Lemma dict_get_set_ne fs k v k' :
  k' ≠ k → dict_get (dict_set fs k v) k' = dict_get fs k'.
Proof.
  intros Hne. unfold dict_set. destruct (decide (k ∈ fs.*1)) as [_|_].
  - induction fs as [|[k0 v0] fs IH]; [done|]. csimpl.
    destruct (decide (k0 = k)) as [->|Hk0]; rewrite !dict_get_cons, IH.
    + destruct (decide (k = k')); [congruence | done].
    + done.
  - rewrite dict_get_app. destruct (dict_get fs k'); [done|].
    rewrite dict_get_cons. destruct (decide (k = k')); [congruence | done].
Qed.

Lemma dict_get_set_eq fs k v : dict_get (dict_set fs k v) k = Some v.
Proof.
  unfold dict_set. destruct (decide (k ∈ fs.*1)) as [Hin|Hnin].
  - induction fs as [|[k0 v0] fs IH]; [by apply elem_of_nil in Hin|]. csimpl in *.
    destruct (decide (k0 = k)) as [->|Hk0]; rewrite dict_get_cons.
    + by rewrite decide_True.
    + rewrite decide_False by done. apply IH.
      by apply elem_of_cons in Hin as [?|?].
  - rewrite dict_get_app. destruct (dict_get fs k) as [x|] eqn:Hx.
    + exfalso. apply Hnin. clear Hnin. induction fs as [|[k0 v0] fs IH]; [done|].
      rewrite dict_get_cons in Hx. csimpl.
      destruct (decide (k0 = k)) as [->|]; [by left | right; by apply IH].
    + rewrite dict_get_cons. by rewrite decide_True.
Qed.

Lemma dict_set_values (P : value → Prop) fs k v :
  Forall P fs.*2 → P v → Forall P (dict_set fs k v).*2.
Proof.
  intros Hfs Hv. unfold dict_set. destruct (decide (k ∈ fs.*1)) as [_|_].
  - induction fs as [|[k0 v0] fs IH]; [done|]. csimpl in *.
    apply Forall_cons in Hfs as [Hv0 Hfs].
    destruct (decide (k0 = k)); constructor; simpl; auto.
  - rewrite fmap_app. apply Forall_app. split; [done|]. by constructor.
Qed.

Variables (N : nat) (V r : addr) (nu : scalar) (h0 : heap) (vars0 : list value).
Hypothesis HV : V < N.
(** The objects of the store have hashable uids. *)
Hypothesis Huids : ∀ b root fs x,
  h0 !! b = Some (CDict root fs) → dict_get fs "uid" ≠ Some (VRef x).

(** The state of the store while a clone is made: [N] is the length of the
    store before the copy, [V] the variable list, [r] the copy. *)
Record clone_inv (h : heap) : Prop := {
  ci_length : N ≤ length h;
  ci_frame : ∀ b, b < N → b ≠ V → h !! b = h0 !! b;
  ci_fresh : ∀ b c, N ≤ b → h !! b = Some c → Forall (fresh_from N) (child_values c);
  ci_result : ∃ root fs, h !! r = Some (CDict root fs)
                         ∧ dict_get fs "node_uid" = Some (VScalar nu);
  ci_vars : ∃ more, h !! V = Some (CList (vars0 ++ more));
}.

Lemma clone_inv_set_field h a k v :
  clone_inv h → N ≤ a → fresh_from N v → k ≠ "node_uid" →
  clone_inv (set_field h a k v).
Proof.
  intros [Hlen Hframe Hfresh Hres Hvars] Ha Hv Hk. unfold set_field.
  destruct (h !! a) as [[root fs|]|] eqn:Hla; [|done|done].
  assert (a < length h) as Hlt by by eapply lookup_lt_Some.
  constructor.
  - by rewrite length_insert.
  - intros b Hb HbV. rewrite list_lookup_insert_ne by lia. by apply Hframe.
  - intros b c Hb Hl. destruct (decide (b = a)) as [->|Hne].
    + rewrite list_lookup_insert_eq in Hl by done. injection Hl as <-. simpl.
      apply dict_set_values; [|done]. by apply (Hfresh a (CDict root fs)).
    + rewrite list_lookup_insert_ne in Hl by done. by eapply Hfresh.
  - destruct Hres as (root' & fs' & Hr & Hg). destruct (decide (r = a)) as [->|Hne].
    + rewrite Hla in Hr. injection Hr as <- <-.
      exists root, (dict_set fs k v). rewrite list_lookup_insert_eq by done.
      split; [done|]. by rewrite dict_get_set_ne.
    + exists root', fs'. by rewrite list_lookup_insert_ne.
  - destruct Hvars as [more Hm]. exists more.
    rewrite list_lookup_insert_ne by lia. done.
Qed.

Lemma clone_inv_make_variable token_hex self w nv tv variable self' w' :
  variables self = V →
  make_variable token_hex self w nv tv = Ok (variable, self', w') →
  clone_inv (store w) → fresh_from N nv → fresh_from N tv →
  clone_inv (store w') ∧ variables self' = V
  ∧ grid_index self' = grid_index self ∧ N ≤ variable.
Proof.
  intros HVs. unfold make_variable, make_uid. cbn [store]. rewrite HVs.
  set (fields := [("uid", VScalar (SStr (token_hex (minted w))));
                  ("node_uid", nv); ("template_var_uid", tv)]).
  intros Hmake [Hlen Hframe Hfresh Hres Hvars] Hnv Htv.
  destruct Hvars as [more Hm].
  assert (V < length (store w)) as Hlt by by eapply lookup_lt_Some.
  rewrite (lookup_app_l_Some _ _ _ _ Hm) in Hmake.
  destruct (index _ (variable_index self) (length (store w))) as [[[]|] c];
    [|done].
  injection Hmake as <- <- <-.
  cbn [store set_store variables grid_index set_variable_index].
  split; [|done]. constructor.
  - rewrite length_insert, length_app. lia.
  - intros b Hb HbV. rewrite list_lookup_insert_ne by done.
    rewrite lookup_app_l by lia. by apply Hframe.
  - intros b c' Hb Hl. rewrite list_lookup_insert_ne in Hl by lia.
    apply lookup_app_Some in Hl as [Hl|[_ Hl]]; [by eapply Hfresh|].
    destruct (b - length (store w)) as [|k]; simpl in Hl; [|by destruct k].
    injection Hl as <-. simpl. by repeat constructor.
  - destruct Hres as (root & fs & Hr & Hg). exists root, fs. split; [|done].
    rewrite list_lookup_insert_ne by (intros <-; congruence).
    by apply lookup_app_l_Some.
  - exists (more ++ [VRef (length (store w))]). rewrite app_assoc.
    apply list_lookup_insert_eq. rewrite length_app. lia.
Qed.

Lemma clone_group_inv token_hex self w tn group uid variable_uid self' w' :
  variables self = V →
  clone_group token_hex self w tn (VScalar nu) group uid variable_uid
  = Ok (self', w') →
  clone_inv (store w) → N ≤ group →
  fresh_from N uid → fresh_from N variable_uid →
  clone_inv (store w') ∧ variables self' = V
  ∧ grid_index self' = grid_index self.
Proof.
  intros HVs Hgroup Hinv Hg Huid Hvar. unfold clone_group, make_uid in Hgroup.
  cbn [store set_store minted cache log] in Hgroup.
  set (h1 := set_field (store w) group "template_group_uid" uid) in *.
  set (h2 := set_field h1 group "uid" (VScalar (SStr (token_hex (minted w))))) in *.
  assert (clone_inv h2) as Hinv2.
  { apply clone_inv_set_field; [|done|done|done].
    by apply clone_inv_set_field. }
  assert (∀ self1 w3 variable,
            clone_inv (store w3) → variables self1 = V →
            grid_index self1 = grid_index self →
            match store w3 !! variable with
            | Some (CDict _ fields) =>
                match dict_get fields "uid" with
                | Some v =>
                    Ok (self1, set_store w3 (set_field (store w3) group "variable_uid" v))
                | None => Raise KeyError
                end
            | _ => Raise TypeError
            end = Ok (self', w') →
            clone_inv (store w') ∧ variables self' = V
            ∧ grid_index self' = grid_index self) as Hfinish.
  { intros self1 w3 variable Hinv3 HV1 HG1.
    destruct (store w3 !! variable) as [[root fields|]|] eqn:Hvl; [|done|done].
    destruct (dict_get fields "uid") as [v|] eqn:Hv; [|done].
    intros [= <- <-]. cbn [store set_store]. split; [|done].
    apply clone_inv_set_field; [done | done | | done].
    destruct (decide (N ≤ variable)) as [Hge|Hlt].
    - pose proof (ci_fresh _ Hinv3 _ _ Hge Hvl) as Hall. simpl in Hall.
      rewrite Forall_forall in Hall. apply Hall. by eapply dict_get_value.
    - assert (variable ≠ V) as HneV.
      { intros ->. destruct (ci_vars _ Hinv3) as [more Hm]. congruence. }
      rewrite (ci_frame _ Hinv3) in Hvl by (done || lia).
      destruct v as [s|x]; [done|]. by destruct (Huids _ _ _ x Hvl). }
  destruct (decide (variable_uid = VScalar SNull)) as [->|Hnull].
  { injection Hgroup as <- <-. by split. }
  assert (match first (variable_index self)
                  [("node_uid", VScalar nu); ("template_var_uid", variable_uid)] with
          | Raise e => Raise e
          | Ok found =>
              match
                match found with
                | Some variable => Ok (variable, self, set_store (World (store w) (cache w) (S (minted w)) (log w)) h2)
                | None =>
                    make_variable token_hex self
                      (add_log (set_store (World (store w) (cache w) (S (minted w)) (log w)) h2)
                         (AddingVariable (VScalar nu) variable_uid tn))
                      (VScalar nu) variable_uid
                end
              with
              | Raise e => Raise e
              | Ok (variable, self1, w3) =>
                  match store w3 !! variable with
                  | Some (CDict _ fields) =>
                      match dict_get fields "uid" with
                      | Some v =>
                          Ok (self1, set_store w3
                                       (set_field (store w3) group "variable_uid" v))
                      | None => Raise KeyError
                      end
                  | _ => Raise TypeError
                  end
              end
          end = Ok (self', w')) as Hrest.
  { destruct variable_uid as [[| | |]|]; try done. }
  clear Hgroup.
  destruct (first (variable_index self) _) as [[variable|]|]; [| |done].
  - eapply Hfinish; [| | |exact Hrest]; done.
  - destruct (make_variable token_hex self _ (VScalar nu) variable_uid)
      as [[[variable self1] w3]|] eqn:Hmake; [|done].
    destruct (clone_inv_make_variable _ _ _ _ _ _ _ _ HVs Hmake)
      as (Hinv3 & HV1 & HG1 & _); [done | done | done |].
    eapply Hfinish; [| | |exact Hrest]; done.
Qed.

Definition headed_fresh (c : chain) : Prop :=
  match c with
  | [] => True
  | x :: _ => N ≤ x
  end.

Lemma clone_loop_inv token_hex tn : ∀ fuel self w g self' w',
  variables self = V →
  clone_loop fuel token_hex self w tn (VScalar nu) g = Some (Ok (self', w')) →
  clone_inv (store w) →
  Forall headed_fresh (queue g) →
  (∀ c, pending g = Some c → headed_fresh c) →
  clone_inv (store w') ∧ variables self' = V
  ∧ grid_index self' = grid_index self.
Proof.
  induction fuel as [|fuel IH]; intros self w g self' w' HVs; [done|].
  simpl. intros Hloop Hinv Hq Hp.
  destruct (next (_walk_down (store w)) g (cache w)) as [[[c g']|] ps] eqn:Hn.
  2: { injection Hloop as <- <-. by split. }
  destruct (next_Some (down (store w)) _ _ _ _ _ Hn)
    as (sk & item & rest & Hres & -> & Hnin & Hv & Hpe & Hsk).
  rewrite (resume_queue (down (store w)) (λ a, reverse (kids (store w) a))
             (down_pure (store w))) in Hres.
  assert (Forall headed_fresh (sk ++ (item :: rest) :: queue g')) as Hall.
  { rewrite <- Hres. destruct (pending g) as [[|i rs]|] eqn:Hpg; try done.
    apply Forall_forall. intros d [(m & Hm & ->)|Hd]%elem_of_extend.
    - simpl. rewrite elem_of_reverse in Hm. apply refers_kids in Hm.
      unfold refers, children in Hm.
      destruct (store w !! i) as [ci|] eqn:Hi; [|by apply elem_of_nil in Hm].
      pose proof (ci_fresh _ Hinv i ci (Hp (i :: rs) eq_refl) Hi) as Hfr.
      rewrite Forall_forall in Hfr. exact (Hfr _ Hm).
    - rewrite Forall_forall in Hq. by apply Hq. }
  apply Forall_app in Hall as [_ Hall]. apply Forall_cons in Hall as [Hitem Hq'].
  simpl in Hitem.
  assert (∀ c, pending g' = Some c → headed_fresh c) as Hp'
    by (intros c; rewrite Hpe; by intros [= <-]).
  cbn [store set_cache] in Hloop.
  destruct (store w !! item) as [[root fields|]|] eqn:Hitem_l.
  - destruct (dict_get fields "uid") as [uid|] eqn:Hu;
      [|by eapply (IH self (set_cache w ps))].
    destruct (dict_get fields "variable_uid") as [vu|] eqn:Hvu;
      [|by eapply (IH self (set_cache w ps))].
    destruct (clone_group token_hex self (set_cache w ps) tn (VScalar nu) item uid vu)
      as [[self1 w1]|] eqn:Hg; [|done].
    pose proof (ci_fresh _ Hinv item _ Hitem Hitem_l) as Hfr. simpl in Hfr.
    rewrite Forall_forall in Hfr.
    destruct (clone_group_inv _ _ _ _ _ _ _ _ _ HVs Hg) as (Hinv1 & HV1 & HG1);
      try done.
    + apply Hfr. by eapply dict_get_value.
    + apply Hfr. by eapply dict_get_value.
    + rewrite <- HG1. by eapply (IH self1 w1).
  - by eapply (IH self (set_cache w ps)).
  - by eapply (IH self (set_cache w ps)).
Qed.

End CloneFrame.

Section CloneResult.
Import JSONTreeWalker JSONCatalog CountryData.

(** What [clone_grid_from_template] makes and what it leaves alone. *)
Lemma clone_grid_spec (fuel : nat) (token_hex : nat → string)
    (self self' : country_data) (w w' : world) (template_node_uid : value)
    (node_uid : scalar) (vars : list value) (result : addr) :
  store w !! variables self = Some (CList vars) →
  (∀ b root fs x, store w !! b = Some (CDict root fs) →
                  dict_get fs "uid" ≠ Some (VRef x)) →
  clone_grid_from_template fuel token_hex self w template_node_uid
    (VScalar node_uid) = Some (Ok (result, self', w')) →
  result = length (store w)
  ∧ (∃ root fs, store w' !! result = Some (CDict root fs)
                ∧ dict_get fs "node_uid" = Some (VScalar node_uid))
  ∧ (∀ b, b < length (store w) → b ≠ variables self →
          store w' !! b = store w !! b)
  ∧ (∃ more, store w' !! variables self = Some (CList (vars ++ more)))
  ∧ variables self' = variables self
  ∧ grid_index self' = grid_index self.
Proof.
  intros Hvars Huids. unfold clone_grid_from_template.
  destruct (get_grid self template_node_uid) as [[template|]|]; [|done|done].
  destruct (deepcopy fuel (store w) ∅ (VRef template)) as [[[v h1] memo]|] eqn:Hcopy;
    [|done].
  destruct (deepcopy_allocates _ _ _ _ _ _ Hcopy) as [-> Hlen].
  destruct (deepcopy_copies (length (store w)) fuel _ _ _ _ _ _ Hcopy
              (copy_inv_start _)) as ([_ Hext] & Hcinv & _).
  pose proof (inv_fresh _ _ _ Hcinv) as Hfresh.
  set (N := length (store w)) in *.
  assert (variables self < N) as HV by by eapply lookup_lt_Some.
  destruct (h1 !! N) as [[root fs|]|] eqn:Hres; [|done|done].
  set (h2 := set_field h1 N "node_uid" (VScalar node_uid)).
  assert (h2 = <[N := CDict root (dict_set fs "node_uid" (VScalar node_uid))]> h1)
    as Hh2 by (unfold h2, set_field; by rewrite Hres).
  assert (h2 !! N = Some (CDict root (dict_set fs "node_uid" (VScalar node_uid))))
    as Hres2.
  { rewrite Hh2. apply list_lookup_insert_eq. by eapply lookup_lt_Some. }
  assert (clone_inv N (variables self) N node_uid (store w) vars h2) as Hinv.
  { constructor.
    - rewrite Hh2, length_insert. lia.
    - intros b Hb _. rewrite Hh2, list_lookup_insert_ne by lia. by apply Hext.
    - intros b c Hb Hl. rewrite Hh2 in Hl. destruct (decide (b = N)) as [->|Hne].
      + rewrite list_lookup_insert_eq in Hl by (by eapply lookup_lt_Some).
        injection Hl as <-. simpl. apply dict_set_values; [|done].
        by apply (Hfresh N (CDict root fs)).
      + rewrite list_lookup_insert_ne in Hl by done. by eapply Hfresh.
    - eexists _, _. split; [exact Hres2|]. apply dict_get_set_eq.
    - exists []. rewrite app_nil_r, Hh2, list_lookup_insert_ne by lia.
      by rewrite Hext. }
  fold h2. rewrite Hres2.
  assert (∀ w1, clone_inv N (variables self) N node_uid (store w) vars (store w1) →
            N = length (store w)
            ∧ (∃ root fs, store w1 !! N = Some (CDict root fs)
                          ∧ dict_get fs "node_uid" = Some (VScalar node_uid))
            ∧ (∀ b, b < N → b ≠ variables self → store w1 !! b = store w !! b)
            ∧ (∃ more, store w1 !! variables self = Some (CList (vars ++ more))))
    as Hdone.
  { intros w1 [_ Hframe _ Hr Hv]. done. }
  assert (∀ A B C D E F : Prop, A ∧ B ∧ C ∧ D → E → F → A ∧ B ∧ C ∧ D ∧ E ∧ F)
    as Hpack by tauto.
  destruct (dict_get (dict_set fs "node_uid" (VScalar node_uid)) "group")
    as [[s|start]|] eqn:Hgroup; [| |done].
  - intros [= <- <- <-]. apply Hpack; [by apply Hdone | done | done].
  - destruct (clone_loop fuel token_hex self (set_store w h2) template_node_uid
                (VScalar node_uid) (start_walker start)) as [[[self1 w1]|]|] eqn:Hloop;
      [|done|done].
    intros [= <- <- <-].
    destruct (clone_loop_inv N (variables self) N node_uid (store w) vars HV Huids
                token_hex template_node_uid fuel self (set_store w h2)
                (start_walker start) self1 w1 eq_refl Hloop Hinv)
      as (Hinv1 & HV1 & HG1).
    { simpl. constructor; [|constructor]. simpl.
      pose proof (ci_fresh _ _ _ _ _ _ _ Hinv N _ (le_n _) Hres2) as Hfr.
      simpl in Hfr. rewrite Forall_forall in Hfr.
      exact (Hfr _ (dict_get_value _ _ _ Hgroup)). }
    { by simpl. }
    apply Hpack; [by apply Hdone | done | done].
Qed.


(** X19 — what [clone_grid_from_template] makes and what it leaves alone,
    for a hashable node uid, on a store whose objects have hashable uids.
    When it returns, the grid returned is a container that did not exist
    before and carries the new node's uid as its [node_uid]; every
    container that existed before is exactly as it was, the template grid
    among them, except the variable list, to whose end variables may have
    been added. *)
Theorem clone_grid_is_new (fuel : nat) (token_hex : nat → string)
    (self self' : country_data) (w w' : world) (template_node_uid : value)
    (node_uid : scalar) (vars : list value) (result : addr) :
  store w !! variables self = Some (CList vars) →
  (∀ b root fs x, store w !! b = Some (CDict root fs) →
                  dict_get fs "uid" ≠ Some (VRef x)) →
  clone_grid_from_template fuel token_hex self w template_node_uid
    (VScalar node_uid) = Some (Ok (result, self', w')) →
  result = length (store w)
  ∧ (∃ root fs, store w' !! result = Some (CDict root fs)
                ∧ dict_get fs "node_uid" = Some (VScalar node_uid))
  ∧ (∀ b, b < length (store w) → b ≠ variables self →
          store w' !! b = store w !! b)
  ∧ (∃ more, store w' !! variables self = Some (CList (vars ++ more))).
Proof.
  intros Hvars Huids Hclone.
  destruct (clone_grid_spec _ _ _ _ _ _ _ _ _ _ Hvars Huids Hclone)
    as (? & ? & ? & ? & _). done.
Qed.

(** A template grid with one group, in a report that has no variable
    yet. *)
Definition report_with_grid : heap :=
  [CDict true [("country_specific_data", VRef 1)];
   CDict false [("nodes", VRef 2); ("variables", VRef 3); ("grids", VRef 4)];
   CList [];
   CList [];
   CList [VRef 5];
   CDict false [("node_uid", VScalar (SStr "t-1")); ("group", VRef 6)];
   CList [VRef 7];
   CDict false [("uid", VScalar (SStr "g1")); ("variable_uid", VScalar (SStr "tv1"))]].

Definition report_with_grid_data : country_data :=
  Build 0 no_metadata 2 3 (new node_attrs) (new variable_attrs)
    (create report_with_grid grid_attrs [5]).2.

Lemma clone_grid_is_new_witness :
  ∃ self' w',
    clone_grid_from_template 9 (λ i, "token" +:+ str_of_nat i)
      report_with_grid_data (World report_with_grid ∅ 0 [])
      (VScalar (SStr "t-1")) (VScalar (SStr "n1")) = Some (Ok (8, self', w'))
    ∧ (∃ root fs, store w' !! 8 = Some (CDict root fs)
                  ∧ dict_get fs "node_uid" = Some (VScalar (SStr "n1")))
    ∧ (∀ b, b < 8 → b ≠ 3 → store w' !! b = report_with_grid !! b)
    ∧ (∃ more, store w' !! 3 = Some (CList ([] ++ more))).
Proof.
  assert (∃ self' w',
            clone_grid_from_template 9 (λ i, "token" +:+ str_of_nat i)
              report_with_grid_data (World report_with_grid ∅ 0 [])
              (VScalar (SStr "t-1")) (VScalar (SStr "n1")) = Some (Ok (8, self', w')))
    as (self' & w' & Hclone).
  { eexists _, _. vm_compute. reflexivity. }
  exists self', w'. split; [exact Hclone|].
  destruct (clone_grid_is_new 9 (λ i, "token" +:+ str_of_nat i)
              report_with_grid_data self'
              (World report_with_grid ∅ 0 []) w' (VScalar (SStr "t-1"))
              (SStr "n1") [] 8)
    as (_ & Hnew & Hframe & Hvars); [reflexivity| |exact Hclone|done].
  intros b root fs x. by apply uids_hashable_sound.
Defined.

End CloneResult.

(** * The other passes of [CountryData] *)

Module CountryDataPasses.
Import JSONTreeWalker JSONTree JSONCatalog CountryData.

Definition set_grid_index (self : country_data) (c : catalog) : country_data :=
  Build (tree self) (metadata self) (nodes self) (variables self)
        (node_index self) (variable_index self) c.

(** [fix_node_grid]: a node that carries the [template_node_uid] marker and
    has no grid in the country grid catalog gets a clone of the template's
    grid, appended to [grids] (the list [self.grids]) and indexed.  The path
    of the node is computed for the debug message, which is not recorded;
    the model covers nodes that are objects. *)
Definition fix_node_grid (fuel : nat) (token_hex : nat → string)
    (self : country_data) (grids : addr) (w : world) (node : addr)
  : option (result (country_data * world)) :=
  match store w !! node with
  | Some (CDict _ fields) =>
      match dict_get fields "template_node_uid" with
      | None => Some (Ok (self, w))
      | Some template_node_uid =>
          match dict_get fields "uid" with
          | None => Some (Raise KeyError)
          | Some node_uid =>
              match first (grid_index self) [("node_uid", node_uid)] with
              | Raise e => Some (Raise e)
              | Ok (Some _) => Some (Ok (self, w))
              | Ok None =>
                  match json_path fuel (store w) (cache w) node with
                  | None => None
                  | Some (Raise e, _) => Some (Raise e)
                  | Some (Ok _, ps) =>
                      match clone_grid_from_template fuel token_hex self
                              (set_cache w ps) template_node_uid node_uid with
                      | None => None
                      | Some (Raise e) => Some (Raise e)
                      | Some (Ok (new_grid, self1, w1)) =>
                          match store w1 !! grids with
                          | Some (CList gs) =>
                              let h2 := <[grids := CList (gs ++ [VRef new_grid])]>
                                          (store w1) in
                              match index h2 (grid_index self1) new_grid with
                              | (Ok _, c) =>
                                  Some (Ok (set_grid_index self1 c, set_store w1 h2))
                              | (Raise e, _) => Some (Raise e)
                              end
                          | Some (CDict _ _) => Some (Raise AttributeError)
                          | None => None
                          end
                      end
                  end
              end
          end
      end
  | _ => None
  end.

(** [sector_uids.add(child['uid'])] for every object traversed. *)
Fixpoint add_child_uids (h : heap) (below : list addr) (uids : gset scalar)
  : result (gset scalar) :=
  match below with
  | [] => Ok uids
  | a :: rest =>
      match h !! a with
      | Some (CDict _ fields) =>
          match dict_get fields "uid" with
          | None => Raise KeyError
          | Some (VRef _) => Raise TypeError
          | Some (VScalar uid) => add_child_uids h rest ({[hkey uid]} ∪ uids)
          end
      | _ => Raise TypeError
      end
  end.

(** The loop of [collect_sector_uids] over the root-level nodes: a node
    whose [parent_uid] is in the set brings in the uids of the objects
    below it.  The set grows as the loop goes.  The model covers node lists
    whose elements are objects. *)
Fixpoint sector_nodes_loop (fuel : nat) (h : heap) (ps : parent_cache)
    (its : list value) (uids : gset scalar)
  : option (result (gset scalar * parent_cache)) :=
  match its with
  | [] => Some (Ok (uids, ps))
  | VScalar _ :: _ => None
  | VRef a :: rest =>
      match h !! a with
      | Some (CDict _ fields) =>
          match dict_get fields "parent_uid" with
          | None => sector_nodes_loop fuel h ps rest uids
          | Some (VRef _) => Some (Raise TypeError)
          | Some (VScalar parent_uid) =>
              if decide (hkey parent_uid ∈ uids) then
                match traverse fuel h ps (VRef a) with
                | None => None
                | Some (below, ps1) =>
                    match add_child_uids h below uids with
                    | Raise e => Some (Raise e)
                    | Ok uids' => sector_nodes_loop fuel h ps1 rest uids'
                    end
                end
              else sector_nodes_loop fuel h ps rest uids
          end
      | _ => None
      end
  end.

(** [CountryData.collect_sector_uids]: the closure of the metadata, with
    the country-specific nodes added to its ["nodes"]. *)
Definition collect_sector_uids (fuel : nat) (h : heap) (ps : parent_cache)
    (self : country_data) (filter_ : list (string * scalar))
  : option (result (Metadata.sector_uids * parent_cache)) :=
  match Metadata.collect_sector_uids fuel h ps (metadata self) filter_ with
  | None => None
  | Some (Raise e) => Some (Raise e)
  | Some (Ok (result, ps1)) =>
      match h !! nodes self with
      | Some (CList its) =>
          match sector_nodes_loop fuel h ps1 its (Metadata.nodes result) with
          | None => None
          | Some (Raise e) => Some (Raise e)
          | Some (Ok (uids, ps2)) =>
              Some (Ok (Metadata.Sector uids (Metadata.variables_ result)
                          (Metadata.dimension_instances result), ps2))
          end
      | _ => None
      end
  end.

End CountryDataPasses.

Section FixNodeGrid.
Import JSONTreeWalker JSONTree JSONCatalog CountryData CountryDataPasses.

(** X20 — [fix_node_grid] reaches its goal and is idempotent.  For a node
    that carries the [template_node_uid] marker and a hashable uid, with a
    grid catalog reached by calls that return, on a store whose objects
    have hashable uids: when [fix_node_grid] has returned, the grid catalog
    finds a grid for the node's uid, and a second call for the same node
    returns at once, changing nothing. *)
Theorem fix_node_grid_gives_grid (fuel : nat) (token_hex : nat → string)
    (self self' : country_data) (grids : addr) (w w' : world) (node : addr)
    (calls : list catalog_call) (root : bool) (fields : list (string * value))
    (template_node_uid : value) (node_uid : scalar) (vars : list value) :
  Forall (indexable grid_attrs) calls →
  run (new grid_attrs) calls = Ok (grid_index self) →
  store w !! node = Some (CDict root fields) →
  dict_get fields "template_node_uid" = Some template_node_uid →
  dict_get fields "uid" = Some (VScalar node_uid) →
  store w !! variables self = Some (CList vars) →
  (∀ b root fs x, store w !! b = Some (CDict root fs) →
                  dict_get fs "uid" ≠ Some (VRef x)) →
  fix_node_grid fuel token_hex self grids w node = Some (Ok (self', w')) →
  (∃ g, first (grid_index self') [("node_uid", VScalar node_uid)] = Ok (Some g))
  ∧ fix_node_grid fuel token_hex self' grids w' node = Some (Ok (self', w')).
Proof.
  intros Hall Hrun Hnode Htn Huid Hvars Huids Hfix.
  destruct (reached grid_attrs calls Hall) as (c0 & Hrun' & Hc).
  rewrite Hrun in Hrun'. injection Hrun' as <-.
  unfold fix_node_grid in Hfix. rewrite Hnode, Htn, Huid in Hfix.
  destruct (first (grid_index self) [("node_uid", VScalar node_uid)])
    as [[g|]|] eqn:Hfirst; [| |done].
  { injection Hfix as <- <-. split; [by exists g|].
    unfold fix_node_grid. by rewrite Hnode, Htn, Huid, Hfirst. }
  destruct (json_path fuel (store w) (cache w) node) as [[[path|] ps]|]; [|done|done].
  destruct (clone_grid_from_template fuel token_hex self (set_cache w ps)
              template_node_uid (VScalar node_uid))
    as [[[[new_grid self1] w1]|]|] eqn:Hclone; [|done|done].
  destruct (clone_grid_spec fuel token_hex self self1 (set_cache w ps) w1
              template_node_uid node_uid vars new_grid Hvars Huids Hclone)
    as (Hnew & (rg & fg & Hgrid & Hgn) & Hframe & [more Hmore] & HV1 & HG1).
  cbn [store set_cache] in Hnew, Hframe.
  destruct (store w1 !! grids) as [[|gs]|] eqn:Hgrids; [done| |done].
  set (h2 := <[grids := CList (gs ++ [VRef new_grid])]> (store w1)) in *.
  destruct (index h2 (grid_index self1) new_grid) as [[[]|] c] eqn:Hindex; [|done].
  injection Hfix as <- <-.
  rewrite HG1 in Hindex.
  pose proof (index_Ok_indexable grid_attrs h2 _ _ new_grid c Hc ltac:(done) Hindex)
    as Hitem.
  destruct (index_consistent grid_attrs h2 _ _ new_grid Hc Hitem) as (c' & Hi & Hc').
  rewrite Hindex in Hi. injection Hi as <-.
  assert (new_grid ≠ grids) as Hng by (intros ->; congruence).
  assert (h2 !! new_grid = Some (CDict rg fg)) as Hgrid2
    by (unfold h2; by rewrite list_lookup_insert_ne).
  assert (item_fields h2 new_grid = fg) as Hfg
    by (unfold item_fields; by rewrite Hgrid2).
  rewrite Hfg in Hc'.
  destruct (search_single grid_attrs c _ "node_uid" node_uid Hc')
    as (found & Hs & _ & Hf); [by left|].
  assert (new_grid ∈ found) as Hin.
  { apply Hf. exists fg, node_uid. rewrite lookup_insert_eq.
    split; [done|]. split; [done|]. by apply scalar_eqb_hkey. }
  destruct found as [|g found]; [by apply elem_of_nil in Hin|].
  assert (first (grid_index (set_grid_index self1 c))
            [("node_uid", VScalar node_uid)] = Ok (Some g)) as Hfirst'.
  { unfold first. cbn [grid_index set_grid_index]. by rewrite Hs. }
  split; [by exists g|].
  assert (node < length (store w)) as Hlt by by eapply lookup_lt_Some.
  assert (node ≠ variables self) as HnV by (intros ->; congruence).
  assert (store w1 !! node = Some (CDict root fields)) as Hnode1
    by (rewrite Hframe by done; exact Hnode).
  assert (node ≠ grids) as Hngr by (intros ->; congruence).
  unfold fix_node_grid. cbn [store set_store].
  unfold h2. rewrite list_lookup_insert_ne by done.
  by rewrite Hnode1, Htn, Huid, Hfirst'.
Qed.

(** A report with a node that overrides a template node and has no grid
    yet; the template's grid is the only grid. *)
Definition report_without_grid : heap :=
  [CDict true [("country_specific_data", VRef 1)];
   CDict false [("nodes", VRef 2); ("variables", VRef 3); ("grids", VRef 4)];
   CList [VRef 8];
   CList [];
   CList [VRef 5];
   CDict false [("node_uid", VScalar (SStr "t-1")); ("group", VRef 6)];
   CList [VRef 7];
   CDict false [("uid", VScalar (SStr "g1")); ("variable_uid", VScalar (SStr "tv1"))];
   CDict false [("uid", VScalar (SStr "n1"));
                ("template_node_uid", VScalar (SStr "t-1"))]].

Definition report_without_grid_data : country_data :=
  Build 0 no_metadata 2 3 (new node_attrs) (new variable_attrs)
    (create report_without_grid grid_attrs [5]).2.

Lemma fix_node_grid_gives_grid_witness :
  let token_hex := λ i, "token" +:+ str_of_nat i in
  ∃ self' w',
    fix_node_grid 12 token_hex report_without_grid_data 4
      (World report_without_grid ∅ 0 []) 8 = Some (Ok (self', w'))
    ∧ store w' !! 4 = Some (CList [VRef 5; VRef 9])
    ∧ (∃ g, first (grid_index self') [("node_uid", VScalar (SStr "n1"))]
            = Ok (Some g))
    ∧ fix_node_grid 12 token_hex self' 4 w' 8 = Some (Ok (self', w')).
Proof.
  intros token_hex.
  assert (∃ self' w',
            fix_node_grid 12 token_hex report_without_grid_data 4
              (World report_without_grid ∅ 0 []) 8 = Some (Ok (self', w'))
            ∧ store w' !! 4 = Some (CList [VRef 5; VRef 9]))
    as (self' & w' & Hfix & Hgrids).
  { eexists _, _. split; vm_compute; reflexivity. }
  exists self', w'. split; [exact Hfix|]. split; [exact Hgrids|].
  apply (fix_node_grid_gives_grid 12 token_hex report_without_grid_data self' 4
           (World report_without_grid ∅ 0 []) w' 8
           [CallIndex report_without_grid 5] false
           [("uid", VScalar (SStr "n1")); ("template_node_uid", VScalar (SStr "t-1"))]
           (VScalar (SStr "t-1")) (SStr "n1") []).
  - constructor; [by apply indexable_itemb_sound | constructor].
  - vm_compute. reflexivity.
  - reflexivity.
  - reflexivity.
  - reflexivity.
  - reflexivity.
  - intros b root fs x. by apply uids_hashable_sound.
  - exact Hfix.
Defined.

End FixNodeGrid.

Section CountryClosure.
Import JSONTreeWalker JSONTree JSONCatalog CountryData CountryDataPasses.

(** [x] is an object whose uid hashes to [k]. *)
Definition uid_key (h : heap) (x : addr) (k : scalar) : Prop :=
  ∃ root fs u, h !! x = Some (CDict root fs)
               ∧ dict_get fs "uid" = Some (VScalar u) ∧ hkey u = k.

(** [a] is an object of the list [its] whose [parent_uid] hashes to a
    member of [uids]. *)
Definition child_of_sector (h : heap) (its : list value) (uids : gset scalar)
    (a : addr) : Prop :=
  VRef a ∈ its
  ∧ ∃ root fs s, h !! a = Some (CDict root fs)
                 ∧ dict_get fs "parent_uid" = Some (VScalar s) ∧ hkey s ∈ uids.

Lemma add_child_uids_spec h : ∀ below uids uids',
  add_child_uids h below uids = Ok uids' →
  ∀ k, k ∈ uids' ↔ k ∈ uids ∨ ∃ x, x ∈ below ∧ uid_key h x k.
Proof.
  induction below as [|a below IH]; intros uids uids'; simpl.
  - intros [= <-] k. split; [by left|].
    intros [?|(x & Hx & _)]; [done | by apply elem_of_nil in Hx].
  - destruct (h !! a) as [[root fs|]|] eqn:Ha; [|done|done].
    destruct (dict_get fs "uid") as [[u|]|] eqn:Hu; [|done|done].
    intros Hrest k. rewrite (IH _ _ Hrest k), elem_of_union, elem_of_singleton.
    split.
    + intros [[->|?]|(x & Hx & Hk)].
      * right. exists a. split; [by left|]. by exists root, fs, u.
      * by left.
      * right. exists x. split; [by right | done].
    + intros [?|(x & [->|Hx]%elem_of_cons & Hk)].
      * left. by right.
      * left. left. destruct Hk as (root' & fs' & u' & Ha' & Hu' & <-).
        rewrite Ha in Ha'. injection Ha' as <- <-. rewrite Hu in Hu'.
        by injection Hu' as <-.
      * right. by exists x.
Qed.

Lemma add_child_uids_all h : ∀ below uids uids',
  add_child_uids h below uids = Ok uids' →
  ∀ x, x ∈ below → ∃ k, uid_key h x k.
Proof.
  induction below as [|a below IH]; intros uids uids'; simpl.
  - by intros _ x ?%elem_of_nil.
  - destruct (h !! a) as [[root fs|]|] eqn:Ha; [|done|done].
    destruct (dict_get fs "uid") as [[u|]|] eqn:Hu; [|done|done].
    intros Hrest x [->|Hx]%elem_of_cons; [|by eapply IH].
    exists (hkey u), root, fs, u. done.
Qed.

Lemma sector_nodes_loop_spec fuel h : ∀ its ps uids uids' ps',
  sector_nodes_loop fuel h ps its uids = Some (Ok (uids', ps')) →
  uids ⊆ uids'
  ∧ (∀ a x k, child_of_sector h its uids a → reachable h a x → uid_key h x k →
              k ∈ uids')
  ∧ (∀ k, k ∈ uids' →
          k ∈ uids ∨ ∃ a x, child_of_sector h its uids' a
                            ∧ reachable h a x ∧ uid_key h x k).
Proof.
  induction its as [|v its IH]; intros ps uids uids' ps'; cbn [sector_nodes_loop].
  - intros [= <- <-]. split; [done|]. split.
    + by intros a x k [?%elem_of_nil _].
    + intros k Hk. by left.
  - destruct v as [s|a]; [done|].
    destruct (h !! a) as [[root fs|]|] eqn:Ha; [|done|done].
    assert (∀ ps0 uids1,
              sector_nodes_loop fuel h ps0 its uids1 = Some (Ok (uids', ps')) →
              uids ⊆ uids1 →
              (∀ x k, child_of_sector h [VRef a] uids a → reachable h a x →
                      uid_key h x k → k ∈ uids1) →
              (∀ k, k ∈ uids1 →
                    k ∈ uids ∨ ∃ x, child_of_sector h [VRef a] uids a
                                    ∧ reachable h a x ∧ uid_key h x k) →
              uids ⊆ uids'
              ∧ (∀ a0 x k, child_of_sector h (VRef a :: its) uids a0 →
                           reachable h a0 x → uid_key h x k → k ∈ uids')
              ∧ (∀ k, k ∈ uids' →
                      k ∈ uids ∨ ∃ a0 x, child_of_sector h (VRef a :: its) uids' a0
                                         ∧ reachable h a0 x ∧ uid_key h x k))
      as Hstep.
    { intros ps0 uids1 Hrest Hsub Hlow Hup.
      destruct (IH _ _ _ _ Hrest) as (Hsub1 & Hlow1 & Hup1).
      split; [set_solver|]. split.
      - intros a0 x k [Hin Hpar] Hr Hk.
        apply elem_of_cons in Hin as [[= ->]|Hin].
        + apply Hsub1, (Hlow x k); [|done|done]. split; [by left | done].
        + apply (Hlow1 a0 x k); [|done|done]. split; [done|].
          destruct Hpar as (r0 & f0 & s0 & ? & ? & ?). exists r0, f0, s0.
          split; [done|]. split; [done|]. by apply Hsub.
      - intros k [Hk|(a0 & x & [Hin Hpar] & Hr & Hk)]%Hup1.
        + destruct (Hup k Hk) as [?|(x & [_ Hpar] & Hr & Hkx)]; [by left|].
          right. exists a, x. split; [|done]. split; [by left|].
          destruct Hpar as (r0 & f0 & s0 & ? & ? & ?). exists r0, f0, s0.
          split; [done|]. split; [done|]. set_solver.
        + right. exists a0, x. split; [|done]. split; [by right | done]. }
    destruct (dict_get fs "parent_uid") as [[s|]|] eqn:Hp; [| done |].
    + destruct (decide (hkey s ∈ uids)) as [Hs|Hs].
      * destruct (traverse fuel h ps (VRef a)) as [[below ps1]|] eqn:Htr; [|done].
        destruct (add_child_uids h below uids) as [uids1|] eqn:Hadd; [|done].
        intros Hrest. destruct (traverse_spec _ _ _ _ _ _ Htr) as [_ Hbelow].
        pose proof (add_child_uids_spec _ _ _ _ Hadd) as Huids1.
        apply (Hstep ps1 uids1 Hrest).
        -- intros k Hk. apply Huids1. by left.
        -- intros x k _ Hr (rx & fx & u & Hx & Hu & Hk). apply Huids1. right.
           exists x. split; [|by exists rx, fx, u].
           apply Hbelow. split; [done|]. unfold is_object. by rewrite Hx.
        -- intros k [?|(x & Hx%Hbelow & Hk)]%Huids1; [by left|].
           right. exists x. split; [|by destruct Hx].
           split; [by left|]. by exists root, fs, s.
      * intros Hrest. apply (Hstep ps uids Hrest); [done| |by left].
        intros x k [_ (r0 & f0 & s0 & Ha0 & Hp0 & Hs0)].
        rewrite Ha in Ha0. injection Ha0 as <- <-. rewrite Hp in Hp0.
        injection Hp0 as <-. done.
    + intros Hrest. apply (Hstep ps uids Hrest); [done| |by left].
      intros x k [_ (r0 & f0 & s0 & Ha0 & Hp0 & Hs0)].
      rewrite Ha in Ha0. injection Ha0 as <- <-. congruence.
Qed.

(** X21 — the closure of a country report is the closure of the metadata,
    grown by country-specific nodes.  When [CountryData.collect_sector_uids]
    returns, the sets of variables and of dimension instances are those of
    the metadata, and the set of nodes holds the metadata's; for every
    object of the root-level list whose [parent_uid] is in the metadata's
    set, it holds the uid of every object below that node; and whatever it
    holds beyond the metadata's set is the uid of an object below a
    root-level object whose [parent_uid] is in the final set. *)
Theorem country_closure_grows (fuel : nat) (h : heap) (ps ps' : parent_cache)
    (self : country_data) (filter_ : list (string * scalar))
    (res' : Metadata.sector_uids) :
  collect_sector_uids fuel h ps self filter_ = Some (Ok (res', ps')) →
  ∃ res ps1 its,
    Metadata.collect_sector_uids fuel h ps (metadata self) filter_
    = Some (Ok (res, ps1))
    ∧ h !! nodes self = Some (CList its)
    ∧ Metadata.variables_ res' = Metadata.variables_ res
    ∧ Metadata.dimension_instances res' = Metadata.dimension_instances res
    ∧ Metadata.nodes res ⊆ Metadata.nodes res'
    ∧ (∀ a x k, child_of_sector h its (Metadata.nodes res) a →
                reachable h a x → uid_key h x k → k ∈ Metadata.nodes res')
    ∧ (∀ k, k ∈ Metadata.nodes res' →
            k ∈ Metadata.nodes res
            ∨ ∃ a x, child_of_sector h its (Metadata.nodes res') a
                     ∧ reachable h a x ∧ uid_key h x k).
Proof.
  unfold collect_sector_uids.
  destruct (Metadata.collect_sector_uids fuel h ps (metadata self) filter_)
    as [[[res ps1]|]|]; [|done|done].
  destruct (h !! nodes self) as [[|its]|]; [done| |done].
  destruct (sector_nodes_loop fuel h ps1 its (Metadata.nodes res))
    as [[[uids ps2]|]|] eqn:Hloop; [|done|done].
  intros [= <- <-]. exists res, ps1, its. simpl.
  destruct (sector_nodes_loop_spec _ _ _ _ _ _ _ Hloop) as (Hsub & Hlow & Hup).
  done.
Qed.

(** A metadata document with one node, and a report with a node under it
    that has a child of its own. *)
Definition two_documents : heap :=
  [CDict true [("Metadata", VRef 1)];
   CList [VRef 2];
   CDict false [("node", VRef 3); ("variable", VRef 4)];
   CList [VRef 5];
   CList [];
   CDict false [("uid", VScalar (SStr "top"))];
   CDict true [("country_specific_data", VRef 7)];
   CDict false [("nodes", VRef 8)];
   CList [VRef 9];
   CDict false [("uid", VScalar (SStr "c1")); ("parent_uid", VScalar (SStr "top"));
                ("node", VRef 10)];
   CList [VRef 11];
   CDict false [("uid", VScalar (SStr "c2"))]].

Definition two_documents_data : country_data :=
  Build 6
    (Metadata.Build 0 4 (catalog_over two_documents node_attrs 3)
       (new ["uid"; "name"]) (new ["node_uid"]))
    8 4 (new node_attrs) (new variable_attrs) (new grid_attrs).

Lemma country_closure_grows_witness :
  ∃ res' ps',
    collect_sector_uids 20 two_documents ∅ two_documents_data [("uid", SStr "top")]
    = Some (Ok (res', ps'))
    ∧ Metadata.nodes res' = {[SStr "top"; SStr "c1"; SStr "c2"]}
    ∧ ∃ res ps1 its,
        Metadata.collect_sector_uids 20 two_documents ∅
          (metadata two_documents_data) [("uid", SStr "top")] = Some (Ok (res, ps1))
        ∧ two_documents !! nodes two_documents_data = Some (CList its)
        ∧ Metadata.variables_ res' = Metadata.variables_ res
        ∧ Metadata.nodes res ⊆ Metadata.nodes res'.
Proof.
  assert (∃ res' ps',
            collect_sector_uids 20 two_documents ∅ two_documents_data
              [("uid", SStr "top")] = Some (Ok (res', ps'))
            ∧ Metadata.nodes res' = {[SStr "top"; SStr "c1"; SStr "c2"]})
    as (res' & ps' & Hrun & Hnodes).
  { eexists _, _. split; vm_compute; reflexivity. }
  exists res', ps'. split; [exact Hrun|]. split; [exact Hnodes|].
  destruct (country_closure_grows 20 two_documents ∅ ps' two_documents_data
              [("uid", SStr "top")] res' Hrun)
    as (res & ps1 & its & Hmd & Hits & Hvars & _ & Hsub & _).
  by exists res, ps1, its.
Defined.

End CountryClosure.

(** * Statistics *)

Module Statistics.
Import JSONTreeWalker JSONTree.

(** [pformat_size]: megabytes or kilobytes, rounded down, as text; a size
    below 1024 is returned as the number it is. *)
Definition pformat_size (size : N) : string + N :=
  if (2 ^ 20 <=? size)%N
  then inl (str_of_nat (N.to_nat (size / 2 ^ 20)) +:+ "M")
  else if (2 ^ 10 <=? size)%N
  then inl (str_of_nat (N.to_nat (size / 2 ^ 10)) +:+ "k")
  else inr size.

Section Sizes.
(** [sys.getsizeof] on a [dict], on a key, and on a [str] or [int] value:
    what the interpreter reports. *)
Variable getsizeof_dict : addr → N.
Variable getsizeof_str : string → N.
Variable getsizeof_scalar : scalar → N.

(** [sizeof_dict]: the object, its keys, and its values that are text or
    numbers ([True] and [False] are numbers; [None] and containers are not
    counted). *)
Definition sizeof_dict (a : addr) (fields : list (string * value)) : N :=
  foldl (λ result kv,
           result + getsizeof_str kv.1
           + match kv.2 with
             | VScalar SNull | VRef _ => 0
             | VScalar s => getsizeof_scalar s
             end)%N
        (getsizeof_dict a) fields.

Record stat := Stat {
  objects_flat : nat;
  objects_nested : nat;
  size : string + N;
}.

(** The [size += sizeof_dict(child)] of the loop. *)
Definition sizes (h : heap) (below : list addr) : N :=
  foldl (λ acc a, acc + match h !! a with
                        | Some (CDict _ fields) => sizeof_dict a fields
                        | _ => 0
                        end)%N 0%N below.

(** One round of the loop of [count_statistics], for the item found at
    [path].  [locate] answers [None] for a path that leads nowhere and for
    one that leads to [null]. *)
Definition count_at (fuel : nat) (h : heap) (tree : addr) (memo : locate_memo)
    (ps : parent_cache) (path : string)
  : option (result (stat * locate_memo * parent_cache)) :=
  match locate h tree memo path with
  | (Raise e, _) => Some (Raise e)
  | (Ok None, memo') | (Ok (Some (VScalar SNull)), memo') =>
      Some (Ok (Stat 0 0 (pformat_size 0), memo', ps))
  | (Ok (Some item), memo') =>
      match
        match item with
        | VRef a =>
            match h !! a with
            | Some (CDict _ _) => Some (Ok 0)
            | Some (CList its) => Some (Ok (length its))
            | None => None
            end
        | VScalar (SStr s) => Some (Ok (String.length s))
        | VScalar _ => Some (Raise TypeError)
        end
      with
      | None => None
      | Some (Raise e) => Some (Raise e)
      | Some (Ok len) =>
          match traverse fuel h ps item with
          | None => None
          | Some (below, ps') =>
              Some (Ok (Stat len
                          (match below with
                           | [] => 1
                           | _ :: _ => length below
                           end)
                          (pformat_size (sizes h below)), memo', ps'))
          end
      end
  end.

Definition stat_points : list (string * string) :=
  [("Country specific dimension instances",
    "country_specific_data.dimension_instances");
   ("Country specific nodes", "country_specific_data.nodes");
   ("Country specific variables", "country_specific_data.variables");
   ("Country specific grids", "country_specific_data.grids");
   ("Country specific drop-downs", "country_specific_data.drop_downs");
   ("Country specific line descriptions",
    "country_specific_data.line_description");
   ("Country specific (meta)data", "country_specific_data");
   ("Country data", "data")].

Fixpoint count_each (fuel : nat) (h : heap) (tree : addr) (memo : locate_memo)
    (ps : parent_cache) (points : list (string * string))
  : option (result (list (string * stat) * locate_memo * parent_cache)) :=
  match points with
  | [] => Some (Ok ([], memo, ps))
  | (label, path) :: rest =>
      match count_at fuel h tree memo ps path with
      | None => None
      | Some (Raise e) => Some (Raise e)
      | Some (Ok (st, memo1, ps1)) =>
          match count_each fuel h tree memo1 ps1 rest with
          | Some (Ok (stats, memo2, ps2)) =>
              Some (Ok ((label, st) :: stats, memo2, ps2))
          | r => r
          end
      end
  end.

Definition count_statistics (fuel : nat) (h : heap) (tree : addr)
    (memo : locate_memo) (ps : parent_cache)
  : option (result (list (string * stat) * locate_memo * parent_cache)) :=
  count_each fuel h tree memo ps stat_points.

End Sizes.
End Statistics.

Section StatisticsFacts.
Import JSONTreeWalker JSONTree Statistics.

(** X22 — what [pformat_size] shows.  A size below 1024 comes back as the
    number itself, not as text.  From 1024 on the text is a count followed
    by a unit, [k] below 1048576 and [M] from there on; the count is
    rounded down, so it never overstates the size and understates it by
    less than one unit; it is at least 1, and below 1024 for [k]. *)
Theorem pformat_size_rounds_down (size : N) :
  ((size < 1024)%N → pformat_size size = inr size)
  ∧ ((1024 ≤ size < 1048576)%N →
     ∃ q : N, pformat_size size = inl (str_of_nat (N.to_nat q) +:+ "k")
          ∧ (1 ≤ q < 1024 ∧ q * 1024 ≤ size < (q + 1) * 1024)%N)
  ∧ ((1048576 ≤ size)%N →
     ∃ q : N, pformat_size size = inl (str_of_nat (N.to_nat q) +:+ "M")
          ∧ (1 ≤ q ∧ q * 1048576 ≤ size < (q + 1) * 1048576)%N).
Proof.
  unfold pformat_size.
  change (2 ^ 20)%N with 1048576%N. change (2 ^ 10)%N with 1024%N.
  split; [|split].
  - intros Hs. rewrite (proj2 (N.leb_gt 1048576 size)) by lia.
    by rewrite (proj2 (N.leb_gt 1024 size)) by lia.
  - intros [Hlo Hhi]. rewrite (proj2 (N.leb_gt 1048576 size)) by lia.
    rewrite (proj2 (N.leb_le 1024 size)) by lia.
    exists (size / 1024)%N. split; [done|].
    pose proof (N.div_mod size 1024 ltac:(done)) as Hdm.
    pose proof (N.mod_lt size 1024 ltac:(done)) as Hm.
    generalize dependent (size / 1024)%N.
    generalize dependent (size mod 1024)%N. intros; lia.
  - intros Hlo. rewrite (proj2 (N.leb_le 1048576 size)) by lia.
    exists (size / 1048576)%N. split; [done|].
    pose proof (N.div_mod size 1048576 ltac:(done)) as Hdm.
    pose proof (N.mod_lt size 1048576 ltac:(done)) as Hm.
    generalize dependent (size / 1048576)%N.
    generalize dependent (size mod 1048576)%N. intros; lia.
Qed.

Lemma pformat_size_rounds_down_witness :
  pformat_size 1023 = inr 1023%N
  ∧ (∃ q : N, pformat_size 2047 = inl (str_of_nat (N.to_nat q) +:+ "k")
          ∧ (1 ≤ q < 1024 ∧ q * 1024 ≤ 2047 < (q + 1) * 1024)%N).
Proof.
  split.
  - apply (proj1 (pformat_size_rounds_down 1023)). lia.
  - apply (proj1 (proj2 (pformat_size_rounds_down 2047))). lia.
Defined.

(** X23 — the counts of [count_statistics] for one path.  A path that
    leads nowhere, or to [null], counts as nothing: zero and zero.  For a
    container found, the flat count is the length of an array and zero for
    an object, and the nested count is the number of objects at or below
    it, each counted once — except that a container with no object at or
    below it is reported as holding one. *)
Theorem count_at_counts (getsizeof_dict : addr → N)
    (getsizeof_str : string → N) (getsizeof_scalar : scalar → N)
    (fuel : nat) (h : heap) (tree : addr) (memo memo' : locate_memo)
    (ps ps' : parent_cache) (path : string) (st : stat) :
  count_at getsizeof_dict getsizeof_str getsizeof_scalar fuel h tree memo ps path
  = Some (Ok (st, memo', ps')) →
  ∃ item, locate h tree memo path = (Ok item, memo')
    ∧ ((item = None ∨ item = Some (VScalar SNull)) →
       objects_flat st = 0 ∧ objects_nested st = 0)
    ∧ (∀ a, item = Some (VRef a) →
         (∀ its, h !! a = Some (CList its) → objects_flat st = length its)
         ∧ (is_object h a = true → objects_flat st = 0)
         ∧ ∃ below, NoDup below
             ∧ (∀ x, x ∈ below ↔ reachable h a x ∧ is_object h x = true)
             ∧ objects_nested st = Nat.max 1 (length below)).
Proof.
  unfold count_at.
  destruct (locate h tree memo path) as [[item|e] memo1] eqn:Hloc; [|done].
  destruct item as [[[| | |s]|a]|].
  - intros [= <- <- <-]. exists (Some (VScalar SNull)). split; [done|].
    split; [done|]. by intros a.
  - done.
  - done.
  - simpl. intros [= <- <- <-]. exists (Some (VScalar (SStr s))).
    split; [done|]. split; [by intros [|]|]. by intros a.
  - destruct (h !! a) as [[root fields|its]|] eqn:Ha; [| |done].
    + destruct (traverse fuel h ps (VRef a)) as [[below ps1]|] eqn:Htr; [|done].
      intros [= <- <- <-]. exists (Some (VRef a)). split; [done|].
      split; [by intros [|]|]. intros a' [= <-]. simpl.
      split; [by intros its; rewrite Ha|]. split; [done|].
      destruct (traverse_spec _ _ _ _ _ _ Htr) as [Hnd Hbelow].
      exists below. split; [done|]. split; [done|].
      destruct below as [|x below]; simpl; lia.
    + destruct (traverse fuel h ps (VRef a)) as [[below ps1]|] eqn:Htr; [|done].
      intros [= <- <- <-]. exists (Some (VRef a)). split; [done|].
      split; [by intros [|]|]. intros a' [= <-]. simpl.
      split; [by intros its' Ha'; rewrite Ha in Ha'; injection Ha' as <-|].
      split; [by unfold is_object; rewrite Ha|].
      destruct (traverse_spec _ _ _ _ _ _ Htr) as [Hnd Hbelow].
      exists below. split; [done|]. split; [done|].
      destruct below as [|x below]; simpl; lia.
  - intros [= <- <- <-]. exists None. split; [done|]. split; [done|]. by intros a.
Qed.

Lemma count_at_counts_witness :
  let h := [CDict true [("data", VRef 1); ("none", VRef 2)];
            CList [VRef 3; VRef 4];
            CList [];
            CDict false [("uid", VScalar (SStr "a"))];
            CDict false [("uid", VScalar (SStr "b"))]] in
  let count :=
    count_at (λ _, 64%N) (λ s, N.of_nat (String.length s)) (λ _, 28%N) 9 h 0 ∅ ∅ in
  (∃ st memo ps, count "none" = Some (Ok (st, memo, ps))
     ∧ objects_flat st = 0 ∧ objects_nested st = 1
     ∧ ∃ below, NoDup below
         ∧ (∀ x, x ∈ below ↔ reachable h 2 x ∧ is_object h x = true)
         ∧ objects_nested st = Nat.max 1 (length below))
  ∧ (∃ st memo ps, count "data" = Some (Ok (st, memo, ps))
       ∧ objects_flat st = 2 ∧ objects_nested st = 2).
Proof.
  intros h count.
  pose (counts := λ r : option (result (stat * locate_memo * parent_cache)),
          match r with
          | Some (Ok (st, _, _)) => Some (objects_flat st, objects_nested st)
          | _ => None
          end).
  assert (counts (count "none") = Some (0, 1)) as Hnone
    by (vm_compute; reflexivity).
  assert (counts (count "data") = Some (2, 2)) as Hdata
    by (vm_compute; reflexivity).
  assert ((locate h 0 ∅ "none").1 = Ok (Some (VRef 2))) as Hitem
    by (vm_compute; reflexivity).
  split.
  - destruct (count "none") as [[[[st memo] ps]|e]|] eqn:Hcount; [|done..].
    injection Hnone as Hflat Hnested.
    exists st, memo, ps. split; [done|]. split; [done|]. split; [done|].
    destruct (count_at_counts _ _ _ _ _ _ _ _ _ _ _ _ Hcount)
      as (item & Hloc & _ & Hcont).
    rewrite Hloc in Hitem. injection Hitem as ->.
    by destruct (Hcont 2 eq_refl) as (_ & _ & Hbelow).
  - destruct (count "data") as [[[[st memo] ps]|e]|]; [|done..].
    injection Hdata as Hflat Hnested. by exists st, memo, ps.
Defined.

End StatisticsFacts.
